(** * Shelly Gen2 integration: RPC channel, device sessions, network scan

    A shallow embedding of [lib/shellyApi.js], [lib/devices/*.js] and
    [lib/deviceDiscovery.js].

    Conventions.
    - JavaScript values that travel through the code are [JsValue]s; plain
      objects used as dictionaries are finite maps from property name to
      value.  Property names are strings, as in the language: a number
      used as a key is first printed.
    - Integers the code counts with (correlation ids, retry budgets,
      milliseconds) are [Z]; they stay far below 2^53 where the double
      arithmetic of the language is exact.  Other numbers are rationals.
    - Numbers that come from a device (channel numbers in the keys of a
      status, the code of an RPC error) are read and printed as the
      language does up to [MAX_SAFE_INTEGER] in magnitude.  Beyond it the
      language rounds and, from 10^21 on, prints in exponent notation;
      fractions it prints in decimal.  [parseInt], [int_to_string] and
      [template] do not follow it there; a property that would not hold
      of the code beyond that range carries [safe_int], [printable] or
      [exact_probe] as a hypothesis.
    - The object [updates] that a notification is reshaped into is
      described by its own properties.  Keys that reach the members it
      inherits from [Object.prototype] are outside of that description,
      and the properties of the reshaping assume [own_keys].
    - Asynchronous code is defunctionalised: a promise is an entry of a
      promise table, the code after an [await] is a [Cont]inuation stored
      as a reaction, and the event loop is a step function over events.
      An async function that returns a promise hands its own promise the
      outcome through one reaction on the promise returned; the engine
      spends a further microtask on that hand-over, and one more for
      each async function in between ([getStatus] is one).  A promise
      that passes through such a hand-over settles, in the code, one or
      two microtasks later than here, in the same state. *)

From stdpp Require Import gmap strings list pretty sorting.
From Stdlib Require Import Ascii String QArith Qcanon ZArith.

#[local] Set Warnings "-register-all,-clear-no-such-hyp".

Local Open Scope string_scope.
Local Open Scope Z_scope.

(* ===================================================================== *)
(** * Part I: definitions                                                 *)
(* ===================================================================== *)

Module Js.

(** ** Strings *)

(** [s.split(sep)] for a one-character separator. *)
Fixpoint split (sep : ascii) (s : string) : list string :=
  match s with
  | EmptyString => [EmptyString]
  | String c rest =>
      if Ascii.eqb c sep then EmptyString :: split sep rest
      else match split sep rest with
           | [] => [String c EmptyString]
           | h :: t => String c h :: t
           end
  end.

(** [l.join(sep)] on an array of strings. *)
Definition join (sep : string) (l : list string) : string := String.concat sep l.

(** [l.slice(0, n)]. *)
Definition slice0 {A} (n : nat) (l : list A) : list A := take n l.

(** [l.slice(i, i + n)]. *)
Definition slice {A} (i n : nat) (l : list A) : list A := take n (drop i l).

(** ** Integers read from strings: [parseInt] *)

Inductive JsInt :=
| NaN
| Int (z : Z).

(** White space skipped by [parseInt] (the ASCII part of it). *)
Definition is_space (c : ascii) : bool :=
  let n := nat_of_ascii c in
  (n =? 32)%nat || ((9 <=? n)%nat && (n <=? 13)%nat).

Fixpoint skip_spaces (s : string) : string :=
  match s with
  | String c rest => if is_space c then skip_spaces rest else s
  | EmptyString => s
  end.

(** Value of a character as a digit, for radix up to 16. *)
Definition digit_value (c : ascii) : option Z :=
  let n := Z.of_nat (nat_of_ascii c) in
  if (48 <=? n) && (n <=? 57) then Some (n - 48)
  else if (97 <=? n) && (n <=? 102) then Some (n - 87)
  else if (65 <=? n) && (n <=? 70) then Some (n - 55)
  else None.

(** The longest prefix of [s] made of digits of the radix, read left to
    right: [None] when that prefix is empty. *)
Fixpoint read_digits (radix : Z) (s : string) (acc : option Z) : option Z :=
  match s with
  | EmptyString => acc
  | String c rest =>
      match digit_value c with
      | Some d =>
          if d <? radix
          then read_digits radix rest (Some (default 0 acc * radix + d))
          else acc
      | None => acc
      end
  end.

Definition strip_hex_prefix (s : string) : option string :=
  match s with
  | String "0" (String "x" rest) => Some rest
  | String "0" (String "X" rest) => Some rest
  | _ => None
  end.

Definition parse_magnitude (s : string) : option Z :=
  match strip_hex_prefix s with
  | Some rest => read_digits 16 rest None
  | None => read_digits 10 s None
  end.

(** A leading sign: whether it is a minus, and the rest. *)
Definition strip_sign (s : string) : bool * string :=
  match s with
  | String "-" rest => (true, rest)
  | String "+" rest => (false, rest)
  | _ => (false, s)
  end.

(** [parseInt(s)] with no radix argument: the integer the digits
    spell.  (The language returns the nearest double, which is that
    integer up to [MAX_SAFE_INTEGER] in magnitude.) *)
Definition parseInt (s : string) : JsInt :=
  let '(neg, body) := strip_sign (skip_spaces s) in
  match parse_magnitude body with
  | None => NaN
  | Some m => Int (if neg : bool then - m else m)
  end.

(** [parseInt(x)] where [x] may be [undefined]: the argument is first
    turned into the string ["undefined"]. *)
Definition parseInt_opt (x : option string) : JsInt :=
  parseInt (default "undefined" x).

(** A number printed as a property name or inside a template literal. *)
Definition int_to_string (n : JsInt) : string :=
  match n with
  | NaN => "NaN"
  | Int z => pretty z
  end.

(** [Number.MAX_SAFE_INTEGER].  Up to it in magnitude every integer is
    a double: [parseInt] returns the integer the digits spell, and a
    number is printed with all its digits, so [parseInt] and
    [int_to_string] are the language's.  Beyond it the language rounds
    what it reads and, from 10^21 on, prints in exponent notation. *)
Definition MAX_SAFE_INTEGER : Z := 9007199254740991.

Definition safe_int (n : JsInt) : bool :=
  match n with
  | NaN => true
  | Int z => Z.abs z <=? MAX_SAFE_INTEGER
  end.

(** ** Values *)

Inductive JsValue :=
| VUndefined
| VNull
| VBool (b : bool)
| VNum (q : Qc)
| VStr (s : string)
| VArr (items : list JsValue)
| VObj (fields : list (string * JsValue)).
    (* a plain object: its own properties, in enumeration order *)

Definition num (z : Z) : JsValue := VNum (Q2Qc (inject_Z z)).

(** Truthiness, as [if (v)] and [v && ...] test it. *)
Definition truthy (v : JsValue) : bool :=
  match v with
  | VUndefined | VNull => false
  | VBool b => b
  | VNum q => negb (bool_decide (q = Q2Qc 0))
  | VStr s => negb (bool_decide (s = ""))
  | VArr _ | VObj _ => true
  end.

(** [v.k] or [v[k]] on a value that is not [null] or [undefined]:
    own properties of a plain object, [undefined] otherwise. *)
Fixpoint assoc {A} (k : string) (l : list (string * A)) : option A :=
  match l with
  | [] => None
  | (k', v) :: rest => if bool_decide (k' = k) then Some v else assoc k rest
  end.

Definition get (v : JsValue) (k : string) : JsValue :=
  match v with
  | VObj fields => default VUndefined (assoc k fields)
  | _ => VUndefined
  end.

Definition is_nullish (v : JsValue) : bool :=
  match v with VUndefined | VNull => true | _ => false end.

(** The characters of a string, each as a one-character string. *)
Fixpoint chars (s : string) : list string :=
  match s with
  | EmptyString => []
  | String c rest => String c EmptyString :: chars rest
  end.

(** [Object.entries(v)] for a value that is not [null] or [undefined]. *)
Definition entries (v : JsValue) : list (string * JsValue) :=
  match v with
  | VObj fields => fields
  | VArr items => imap (fun i x => (pretty i, x)) items
  | VStr s => imap (fun i c => (pretty i, VStr c)) (chars s)
  | _ => []
  end.

(** The integer a number value stands for, when it is one. *)
Definition as_int (v : JsValue) : option Z :=
  match v with
  | VNum q => if (Qden q =? 1)%positive then Some (Qnum q) else None
  | _ => None
  end.

(** A value inside a template literal.  Numbers that are not integers
    are shown as a fraction (their decimal expansion is not modelled). *)
Fixpoint template (v : JsValue) : string :=
  match v with
  | VUndefined => "undefined"
  | VNull => "null"
  | VBool true => "true"
  | VBool false => "false"
  | VNum q =>
      if (Qden q =? 1)%positive then pretty (Qnum q)
      else pretty (Qnum q) ++ "/" ++ pretty (Zpos (Qden q))
  | VStr s => s
  | VArr items =>
      String.concat ","
        (map (fun x => if is_nullish x then "" else template x) items)
  | VObj _ => "[object Object]"
  end.

(** The values [template] prints as the language does: [undefined],
    [null], booleans, strings, and the integers up to
    [MAX_SAFE_INTEGER] in magnitude.  (Other numbers the language prints
    in decimal or exponent notation, and an object or array element may
    bring its own [toString].) *)
Definition printable (v : JsValue) : bool :=
  match v with
  | VNum q => (Qden q =? 1)%positive && (Z.abs (Qnum q) <=? MAX_SAFE_INTEGER)
  | VArr _ | VObj _ => false
  | _ => true
  end.

(** [v === "s"] for a string literal. *)
Definition is_string (v : JsValue) (s : string) : bool :=
  match v with VStr s' => bool_decide (s' = s) | _ => false end.

Definition is_number (v : JsValue) : bool :=
  match v with VNum _ => true | _ => false end.

Definition is_boolean (v : JsValue) : bool :=
  match v with VBool _ => true | _ => false end.

(** ** Errors *)

Record JsError := mkError {
  err_name : string;               (* Error, TypeError, ReferenceError *)
  err_message : string;
  err_code : option string;        (* [err.code] *)
  err_statusCode : option Z        (* [err.statusCode] *)
}.

Definition Error (msg : string) : JsError := mkError "Error" msg None None.
Definition TypeError (msg : string) : JsError := mkError "TypeError" msg None None.
Definition ReferenceError (msg : string) : JsError :=
  mkError "ReferenceError" msg None None.

(** How a call ends. *)
Inductive Completion (A : Type) :=
| Returns (a : A)
| Throws (e : JsError).
Arguments Returns {A} a.
Arguments Throws {A} e.

(** [s.includes(t)]. *)
Fixpoint includes (s t : string) : bool :=
  String.prefix t s ||
  match s with
  | EmptyString => false
  | String _ rest => includes rest t
  end.

End Js.

(* ===================================================================== *)
(** ** lib/shellyApi.js: the RPC channel                                  *)
(* ===================================================================== *)

Module ShellyApi.
Import Js.

Module CONFIG.
Definition REQUEST_TIMEOUT : Z := 5000.
Definition RETRY_DELAY : Z := 1000.
Definition RETRYABLE_ERRORS : list string :=
  ["EHOSTUNREACH"; "ETIMEDOUT"; "ECONNREFUSED"].
End CONFIG.

(** [CONFIG.RETRYABLE_ERRORS.includes(err.code)] *)
Definition retryable (code : option string) : bool :=
  match code with
  | Some c => bool_decide (c ∈ CONFIG.RETRYABLE_ERRORS)
  | None => false
  end.

(** *** Messages *)

(** An inbound message, after [JSON.parse]. *)
Record Message := mkMessage {
  msg_method : JsValue;
  msg_id : JsValue;
  msg_dst : JsValue;
  msg_params : JsValue;
  msg_result : JsValue;
  msg_error : JsValue
}.

(** An outbound request, before [JSON.stringify]. *)
Record Request := mkRequest {
  req_jsonrpc : string;
  req_id : Z;
  req_src : string;
  req_method : string;
  req_params : JsValue
}.

(** What the channel hands to the notification handler. *)
Record Envelope := mkEnvelope {
  timestamp : JsValue;
  updates : gmap string (gmap string JsValue)
}.

(** A notification handler: it returns, or throws. *)
Definition Handler : Type := Envelope -> option JsError.

(** *** The object's fields *)

(** The resolver stored under a correlation id: its two closures clear
    the timer [res_timeout] and settle the promise [res_promise]. *)
Record Resolver := mkResolver {
  res_timeout : nat;
  res_promise : nat
}.

Record Api := mkApi {
  ip : string;
  deviceId : option string;
  ws : option nat;
  isConnected : bool;
  messageId : Z;
  pendingRequests : gmap Z Resolver;
  notificationHandler : option Handler
}.

(** [new ShellyApi(ip, deviceId)] *)
Definition constructor (ip : string) (deviceId : option string) : Api :=
  {| ip := ip; deviceId := deviceId; ws := None; isConnected := false;
     messageId := 1; pendingRequests := ∅; notificationHandler := None |}.

Definition wsUrl (a : Api) : string := "ws://" ++ ip a ++ "/rpc".

(** The methods the class declares, by name.  A call [api.name(...)]
    with a name outside this list calls [undefined] and throws. *)
Definition methods : list string :=
  [ "constructor"; "log"; "error"; "connect"; "handleMessage";
    "handleNotification"; "handleRpcResponse"; "handleError"; "request";
    "getDeviceInfo"; "getStatus"; "getCoverStatus"; "coverGoToPosition";
    "coverOpen"; "coverClose"; "coverStop"; "getSwitchStatus"; "switchSet";
    "setNotificationHandler"; "cleanupWebSocket"; "disconnect" ].

Definition has_method (name : string) : bool := bool_decide (name ∈ methods).

(** *** Promises, timers and the event loop *)

Inductive Outcome :=
| Fulfilled (v : JsValue)
| Rejected (e : JsError).

Inductive PromiseState :=
| Pending
| Settled (o : Outcome).

(** The code that runs after an [await], or in a [then]. *)
Inductive Cont :=
| KOpenStatus (pconn : nat)
    (* 'open' listener, after [await this.getStatus()]: resolve [connect] *)
| KRequestConnected (method : string) (params : JsValue) (retries : Z) (q : nat)
    (* [request], after [await this.connect()] *)
| KRequestRetry (method : string) (params : JsValue) (retries : Z) (q : nat)
    (* [request], in its [catch], after the back-off delay *)
| KAdopt (q : nat).
    (* promise [q] takes the outcome of the promise awaited *)

Inductive TimerAction :=
| TRequestTimeout (msgId : Z) (p : nat)
| TResolve (p : nat)
| TRetrySend (method : string) (params : JsValue) (retries : Z) (p : nat).

Record Timer := mkTimer {
  due : Z;
  delay : Z;
  action : TimerAction
}.

(** What reaches the transport. *)
Inductive WireEvent :=
| WNew (w : nat) (url : string)                          (* [new WebSocket(url)] *)
| WSend (w : nat) (m : Request) (threw : option JsError) (* [ws.send(msg)] *)
| WTerminate (w : nat).                                  (* [ws.terminate()] *)

Record Runtime := mkRuntime {
  api : Api;
  promises : gmap nat PromiseState;
  next_promise : nat;
  reactions : list (nat * Cont);
  microtasks : list (Cont * Outcome);
  timers : gmap nat Timer;
  next_timer : nat;
  now : Z;
  sockets : gmap nat nat;          (* socket -> the [connect] promise its listeners settle *)
  next_socket : nat;
  wire : list WireEvent;
  delivered : list Envelope;       (* envelopes passed to the handler *)
  transport : nat -> option JsError
    (* the environment: what the n-th [ws.send] throws, if anything *)
}.

Definition boot (a : Api) (transport : nat -> option JsError) : Runtime :=
  {| api := a; promises := ∅; next_promise := 0%nat; reactions := [];
     microtasks := []; timers := ∅; next_timer := 0%nat; now := 0;
     sockets := ∅; next_socket := 0%nat; wire := []; delivered := [];
     transport := transport |}.

(** Field updates. *)
Definition with_api (f : Api -> Api) (rt : Runtime) : Runtime :=
  {| api := f (api rt); promises := promises rt; next_promise := next_promise rt;
     reactions := reactions rt; microtasks := microtasks rt; timers := timers rt;
     next_timer := next_timer rt; now := now rt; sockets := sockets rt;
     next_socket := next_socket rt; wire := wire rt; delivered := delivered rt;
     transport := transport rt |}.

Definition set_ws (w : option nat) (a : Api) : Api :=
  {| ip := ip a; deviceId := deviceId a; ws := w; isConnected := isConnected a;
     messageId := messageId a; pendingRequests := pendingRequests a;
     notificationHandler := notificationHandler a |}.

Definition set_isConnected (b : bool) (a : Api) : Api :=
  {| ip := ip a; deviceId := deviceId a; ws := ws a; isConnected := b;
     messageId := messageId a; pendingRequests := pendingRequests a;
     notificationHandler := notificationHandler a |}.

Definition set_messageId (n : Z) (a : Api) : Api :=
  {| ip := ip a; deviceId := deviceId a; ws := ws a; isConnected := isConnected a;
     messageId := n; pendingRequests := pendingRequests a;
     notificationHandler := notificationHandler a |}.

Definition set_pendingRequests (m : gmap Z Resolver) (a : Api) : Api :=
  {| ip := ip a; deviceId := deviceId a; ws := ws a; isConnected := isConnected a;
     messageId := messageId a; pendingRequests := m;
     notificationHandler := notificationHandler a |}.

Definition set_notificationHandler (h : option Handler) (a : Api) : Api :=
  {| ip := ip a; deviceId := deviceId a; ws := ws a; isConnected := isConnected a;
     messageId := messageId a; pendingRequests := pendingRequests a;
     notificationHandler := h |}.

Definition with_promises (m : gmap nat PromiseState) (rt : Runtime) : Runtime :=
  {| api := api rt; promises := m; next_promise := next_promise rt;
     reactions := reactions rt; microtasks := microtasks rt; timers := timers rt;
     next_timer := next_timer rt; now := now rt; sockets := sockets rt;
     next_socket := next_socket rt; wire := wire rt; delivered := delivered rt;
     transport := transport rt |}.

Definition with_next_promise (n : nat) (rt : Runtime) : Runtime :=
  {| api := api rt; promises := promises rt; next_promise := n;
     reactions := reactions rt; microtasks := microtasks rt; timers := timers rt;
     next_timer := next_timer rt; now := now rt; sockets := sockets rt;
     next_socket := next_socket rt; wire := wire rt; delivered := delivered rt;
     transport := transport rt |}.

Definition with_reactions (l : list (nat * Cont)) (rt : Runtime) : Runtime :=
  {| api := api rt; promises := promises rt; next_promise := next_promise rt;
     reactions := l; microtasks := microtasks rt; timers := timers rt;
     next_timer := next_timer rt; now := now rt; sockets := sockets rt;
     next_socket := next_socket rt; wire := wire rt; delivered := delivered rt;
     transport := transport rt |}.

Definition with_microtasks (l : list (Cont * Outcome)) (rt : Runtime) : Runtime :=
  {| api := api rt; promises := promises rt; next_promise := next_promise rt;
     reactions := reactions rt; microtasks := l; timers := timers rt;
     next_timer := next_timer rt; now := now rt; sockets := sockets rt;
     next_socket := next_socket rt; wire := wire rt; delivered := delivered rt;
     transport := transport rt |}.

Definition with_timers (m : gmap nat Timer) (rt : Runtime) : Runtime :=
  {| api := api rt; promises := promises rt; next_promise := next_promise rt;
     reactions := reactions rt; microtasks := microtasks rt; timers := m;
     next_timer := next_timer rt; now := now rt; sockets := sockets rt;
     next_socket := next_socket rt; wire := wire rt; delivered := delivered rt;
     transport := transport rt |}.

Definition with_next_timer (n : nat) (rt : Runtime) : Runtime :=
  {| api := api rt; promises := promises rt; next_promise := next_promise rt;
     reactions := reactions rt; microtasks := microtasks rt; timers := timers rt;
     next_timer := n; now := now rt; sockets := sockets rt;
     next_socket := next_socket rt; wire := wire rt; delivered := delivered rt;
     transport := transport rt |}.

Definition with_now (t : Z) (rt : Runtime) : Runtime :=
  {| api := api rt; promises := promises rt; next_promise := next_promise rt;
     reactions := reactions rt; microtasks := microtasks rt; timers := timers rt;
     next_timer := next_timer rt; now := t; sockets := sockets rt;
     next_socket := next_socket rt; wire := wire rt; delivered := delivered rt;
     transport := transport rt |}.

Definition with_sockets (m : gmap nat nat) (rt : Runtime) : Runtime :=
  {| api := api rt; promises := promises rt; next_promise := next_promise rt;
     reactions := reactions rt; microtasks := microtasks rt; timers := timers rt;
     next_timer := next_timer rt; now := now rt; sockets := m;
     next_socket := next_socket rt; wire := wire rt; delivered := delivered rt;
     transport := transport rt |}.

Definition with_next_socket (n : nat) (rt : Runtime) : Runtime :=
  {| api := api rt; promises := promises rt; next_promise := next_promise rt;
     reactions := reactions rt; microtasks := microtasks rt; timers := timers rt;
     next_timer := next_timer rt; now := now rt; sockets := sockets rt;
     next_socket := n; wire := wire rt; delivered := delivered rt;
     transport := transport rt |}.

Definition with_wire (l : list WireEvent) (rt : Runtime) : Runtime :=
  {| api := api rt; promises := promises rt; next_promise := next_promise rt;
     reactions := reactions rt; microtasks := microtasks rt; timers := timers rt;
     next_timer := next_timer rt; now := now rt; sockets := sockets rt;
     next_socket := next_socket rt; wire := l; delivered := delivered rt;
     transport := transport rt |}.

Definition with_delivered (l : list Envelope) (rt : Runtime) : Runtime :=
  {| api := api rt; promises := promises rt; next_promise := next_promise rt;
     reactions := reactions rt; microtasks := microtasks rt; timers := timers rt;
     next_timer := next_timer rt; now := now rt; sockets := sockets rt;
     next_socket := next_socket rt; wire := wire rt; delivered := l;
     transport := transport rt |}.

(** *** Promise and timer primitives *)

(** [new Promise(...)]: a fresh entry of the promise table. *)
Definition new_promise (st : PromiseState) (rt : Runtime) : nat * Runtime :=
  let p := next_promise rt in
  (p, with_next_promise (S p) (with_promises (<[p := st]> (promises rt)) rt)).

Definition reacts_to (p : nat) (r : nat * Cont) : bool := bool_decide (r.1 = p).

(** [resolve(v)] / [reject(e)] on promise [p]: only the first call has an
    effect; the reactions waiting on [p] are queued as microtasks. *)
Definition settle (p : nat) (o : Outcome) (rt : Runtime) : Runtime :=
  match promises rt !! p with
  | Some Pending =>
      let woken := filter (fun r => reacts_to p r = true) (reactions rt) in
      let others := filter (fun r => reacts_to p r = false) (reactions rt) in
      with_microtasks (microtasks rt ++ map (fun r => (r.2, o)) woken)
        (with_reactions others
          (with_promises (<[p := Settled o]> (promises rt)) rt))
  | _ => rt
  end.

(** [await p] followed by the code [k] (or [p.then(k)]). *)
Definition await (p : nat) (k : Cont) (rt : Runtime) : Runtime :=
  match promises rt !! p with
  | Some (Settled o) => with_microtasks (microtasks rt ++ [(k, o)]) rt
  | _ => with_reactions (reactions rt ++ [(p, k)]) rt
  end.

Definition setTimeout (a : TimerAction) (ms : Z) (rt : Runtime) : nat * Runtime :=
  let t := next_timer rt in
  (t, with_next_timer (S t)
        (with_timers (<[t := mkTimer (now rt + ms) ms a]> (timers rt)) rt)).

Definition clearTimeout (t : nat) (rt : Runtime) : Runtime :=
  with_timers (delete t (timers rt)) rt.

(** *** The methods *)

(** [cleanupWebSocket()] *)
Definition cleanupWebSocket (rt : Runtime) : Runtime :=
  match ws (api rt) with
  | Some w =>
      with_api (fun a => set_isConnected false (set_ws None a))
        (with_wire (wire rt ++ [WTerminate w]) rt)
  | None => rt
  end.

(** [disconnect()] *)
Definition disconnect (rt : Runtime) : Runtime := cleanupWebSocket rt.

(** [setNotificationHandler(handler)] *)
Definition setNotificationHandler (h : option Handler) (rt : Runtime) : Runtime :=
  with_api (set_notificationHandler h) rt.

(** [connect()]: the promise it returns, and the state after the call. *)
Definition connect (rt : Runtime) : nat * Runtime :=
  match ws (api rt) with
  | Some _ => new_promise (Settled (Fulfilled VUndefined)) rt
  | None =>
      let '(p, rt) := new_promise Pending rt in
      let w := next_socket rt in
      let rt := with_wire (wire rt ++ [WNew w (wsUrl (api rt))]) rt in
      let rt := with_next_socket (S w) (with_sockets (<[w := p]> (sockets rt)) rt) in
      (p, with_api (set_ws (Some w)) rt)
  end.

(** [handleError(err, reject)], where [reject] settles promise [p]. *)
Definition enhance (err : JsError) : JsError :=
  let isNotShellyResponse :=
    includes (err_message err) "404" ||
    includes (err_message err) "Unexpected server response" in
  if isNotShellyResponse
  then mkError "Error" "Device discovery: not a Shelly device"
         (Some "NOT_SHELLY_DEVICE") None
  else match err_code err with
       | Some c =>
           if bool_decide (c = "")
           then mkError "Error" "Device discovery: connection failed"
                  (Some "CONNECTION_FAILED") None
           else mkError "Error" "Device discovery: connection failed" (Some c) None
       | None =>
           mkError "Error" "Device discovery: connection failed"
             (Some "CONNECTION_FAILED") None
       end.

Definition handleError (err : JsError) (p : nat) (rt : Runtime) : Runtime :=
  let rt := cleanupWebSocket rt in
  settle p (Rejected (enhance err)) rt.

(** [this.pendingRequests.get(id)]: the keys are the integers [request]
    stored, so only a number value equal to one of them finds an entry. *)
Definition pending_get (id : JsValue) (a : Api) : option (Z * Resolver) :=
  match as_int id with
  | Some z => (fun r => (z, r)) <$> pendingRequests a !! z
  | None => None
  end.

(** [this.pendingRequests.delete(v)] *)
Definition pending_delete (v : JsValue) (a : Api) : Api :=
  match as_int v with
  | Some z => set_pendingRequests (delete z (pendingRequests a)) a
  | None => a
  end.

(** [handleRpcResponse(message)] *)
Definition handleRpcResponse (m : Message) (rt : Runtime) : Runtime :=
  match pending_get (msg_id m) (api rt) with
  | Some (id, resolver) =>
      let rt := with_api (pending_delete (msg_id m)) rt in
      if truthy (msg_error m)
      then
        let e := Error ("RPC Error " ++ template (get (msg_error m) "code")
                        ++ ": " ++ template (get (msg_error m) "message")) in
        settle (res_promise resolver) (Rejected e)
          (clearTimeout (res_timeout resolver) rt)
      else
        settle (res_promise resolver) (Fulfilled (msg_result m))
          (clearTimeout (res_timeout resolver) rt)
  | None => rt
  end.

(** [message.dst !== this.deviceId] *)
Definition differs_from (dst : JsValue) (deviceId : option string) : bool :=
  match dst, deviceId with
  | VStr d, Some d' => negb (bool_decide (d = d'))
  | VUndefined, None => false
  | _, _ => true
  end.

(** The names a plain object inherits from [Object.prototype]. *)
Definition inherited : list string :=
  [ "constructor"; "__proto__"; "hasOwnProperty"; "isPrototypeOf";
    "propertyIsEnumerable"; "toLocaleString"; "toString"; "valueOf";
    "__defineGetter__"; "__defineSetter__"; "__lookupGetter__";
    "__lookupSetter__" ].

(** A key whose component is not the name of an inherited member, and
    whose index is not [__proto__].  On the fresh object [updates],
    [updates[component]] finds an inherited member without any entry
    having been made (and the assignment that follows writes to that
    member, or throws), and the index [__proto__] sets the prototype of
    the channels object instead of a property. *)
Definition own_key (key : string) : bool :=
  let parts := split ":" key in
  bool_decide (default "undefined" (parts !! 0%nat) ∉ inherited)
  && negb (bool_decide (default "undefined" (parts !! 1%nat) = "__proto__")).

(** One round of the loop over [Object.entries(params)], for a key
    that is an [own_key]: [updates] as its own properties. *)
Definition reshape_entry (acc : gmap string (gmap string JsValue))
    (kv : string * JsValue) : gmap string (gmap string JsValue) :=
  let '(key, value) := kv in
  if bool_decide (key = "ts") then acc
  else
    let parts := split ":" key in
    let component := default "undefined" (parts !! 0%nat) in
    let id := default "undefined" (parts !! 1%nat) in
    <[component := <[id := value]> (default ∅ (acc !! component))]> acc.

Definition reshape (params : JsValue) : gmap string (gmap string JsValue) :=
  foldl reshape_entry ∅ (entries params).

(** Every key of the bag other than "ts" is an [own_key]. *)
Definition own_keys (params : JsValue) : bool :=
  forallb (fun kv => bool_decide (kv.1 = "ts") || own_key kv.1) (entries params).

(** [handleNotification(message)] *)
Definition handleNotification (m : Message) (rt : Runtime) : Completion Runtime :=
  if truthy (msg_dst m) && differs_from (msg_dst m) (deviceId (api rt))
  then Returns rt
  else
    let params := msg_params m in
    if is_nullish params
    then Throws (TypeError "Cannot read properties of undefined (reading 'ts')")
    else
      let timestamp := get params "ts" in
      let updates := reshape params in
      match notificationHandler (api rt) with
      | Some handler =>
          let env := mkEnvelope timestamp updates in
          let rt := with_delivered (delivered rt ++ [env]) rt in
          match handler env with
          | Some err => Returns rt       (* caught and logged *)
          | None => Returns rt
          end
      | None => Returns rt
      end.

(** [handleMessage(message)] *)
Definition is_notify (m : Message) : bool :=
  is_string (msg_method m) "NotifyStatus" || is_string (msg_method m) "NotifyEvent".

Definition handleMessage (m : Message) (rt : Runtime) : Completion Runtime :=
  if is_notify m then handleNotification m rt
  else if truthy (msg_id m) then Returns (handleRpcResponse m rt)
  else Returns rt.

(** *** [request] *)

Definition is_send (e : WireEvent) : bool :=
  match e with WSend _ _ _ => true | _ => false end.

(** How many times [ws.send] has been called. *)
Definition sends (rt : Runtime) : nat :=
  List.length (filter (fun e => is_send e = true) (wire rt)).

(** [this.ws.send(msg)]: what it throws, if anything.  With no socket
    ([this.ws] is [null]) the property access itself throws. *)
Definition ws_send (m : Request) (rt : Runtime) : Runtime * option JsError :=
  match ws (api rt) with
  | None => (rt, Some (TypeError "Cannot read properties of null (reading 'send')"))
  | Some w =>
      let r := transport rt (sends rt) in
      (with_wire (wire rt ++ [WSend w m r]) rt, r)
  end.

(** The identifiers bound where the [catch] block around [ws.send] runs:
    the parameters and locals of [request] and of the promise executor,
    and the names of the module; with the value of those that hold an
    integer. *)
Definition send_catch_scope (retries msgId : Z) : list (string * option Z) :=
  [ ("method", None); ("params", None); ("retries", Some retries);
    ("message", None); ("resolve", None); ("reject", None);
    ("msgId", Some msgId); ("timeoutId", None); ("msg", None); ("err", None);
    ("WebSocket", None); ("CONFIG", None); ("ShellyApi", None) ].

(** The [catch] block around [ws.send], for the promise [n] of the
    executor.  Its first statement after [clearTimeout] reads the
    identifier [id]. *)
Definition send_catch (method : string) (params : JsValue) (retries msgId : Z)
    (timeoutId n : nat) (err : JsError) (rt : Runtime) : Runtime :=
  let rt := clearTimeout timeoutId rt in
  match assoc "id" (send_catch_scope retries msgId) with
  | None => settle n (Rejected (ReferenceError "id is not defined")) rt
  | Some v =>
      let rt :=
        match v with
        | Some z => with_api (fun a => set_pendingRequests (delete z (pendingRequests a)) a) rt
        | None => rt
        end in
      if (0 <? retries) && retryable (err_code err)
      then (setTimeout (TRetrySend method params (retries - 1) n) CONFIG.RETRY_DELAY rt).2
      else settle n (Rejected err) rt
  end.

(** [request], from the statement that builds the message to its
    [return]; [q] is the promise of this call of the async function.
    Returning the executor's promise [n] makes [q] take the outcome of
    [n]: one reaction on [n].  (The engine queues that reaction in a
    microtask of its own, so [q] settles one microtask after [n] when
    [n] is pending at the [return], and two after it otherwise.) *)
Definition request_send (method : string) (params : JsValue) (retries : Z)
    (q : nat) (rt : Runtime) : Runtime :=
  let id := messageId (api rt) in
  let rt := with_api (set_messageId (id + 1)) rt in
  let src :=
    match deviceId (api rt) with
    | Some d => if bool_decide (d = "") then "homey_default" else d
    | None => "homey_default"
    end in
  let message := mkRequest "2.0" id src method params in
  let '(n, rt) := new_promise Pending rt in
  (* the executor *)
  let msgId := messageId (api rt) - 1 in
  let '(timeoutId, rt) :=
    setTimeout (TRequestTimeout msgId n) CONFIG.REQUEST_TIMEOUT rt in
  let rt :=
    with_api (fun a => set_pendingRequests
                (<[msgId := mkResolver timeoutId n]> (pendingRequests a)) a) rt in
  let rt :=
    match ws_send message rt with
    | (rt, None) => rt
    | (rt, Some err) => send_catch method params retries msgId timeoutId n err rt
    end in
  (* [return new Promise(...)] from the async function *)
  await n (KAdopt q) rt.

(** The [catch] of [request]'s outer [try]. *)
Definition request_catch (method : string) (params : JsValue) (retries : Z)
    (q : nat) (err : JsError) (rt : Runtime) : Runtime :=
  if (0 <? retries) && retryable (err_code err)
  then
    let '(d, rt) := new_promise Pending rt in
    let '(_, rt) := setTimeout (TResolve d) CONFIG.RETRY_DELAY rt in
    await d (KRequestRetry method params retries q) rt
  else settle q (Rejected err) rt.

(** [request(method, params, retries)]: the promise it returns, and the
    state when the call returns (at its first [await], or at its end). *)
Definition request (method : string) (params : JsValue) (retries : Z)
    (rt : Runtime) : nat * Runtime :=
  let '(q, rt) := new_promise Pending rt in
  if isConnected (api rt)
  then (q, request_send method params retries q rt)
  else
    let '(c, rt) := connect rt in
    (q, await c (KRequestConnected method params retries q) rt).

(** [getStatus()].  The class declares it twice, the second time as an
    async function, which is the one in effect: its promise takes the
    outcome of the promise [request] returns, one microtask after it.
    The two promises are one here. *)
Definition getStatus (rt : Runtime) : nat * Runtime :=
  request "Shelly.GetStatus" (VObj []) 1 rt.

(** [getDeviceInfo()] *)
Definition getDeviceInfo (rt : Runtime) : nat * Runtime :=
  request "Shelly.GetDeviceInfo" (VObj []) 1 rt.

(** *** The event loop *)

Definition run_cont (k : Cont) (o : Outcome) (rt : Runtime) : Runtime :=
  match k with
  | KOpenStatus pconn =>
      (* a rejection is caught and logged; then [resolve()] *)
      settle pconn (Fulfilled VUndefined) rt
  | KRequestConnected method params retries q =>
      match o with
      | Fulfilled _ => request_send method params retries q rt
      | Rejected err => request_catch method params retries q err rt
      end
  | KRequestRetry method params retries q =>
      match o with
      | Fulfilled _ =>
          let '(q', rt) := request method params (retries - 1) rt in
          await q' (KAdopt q) rt
      | Rejected err => settle q (Rejected err) rt
      end
  | KAdopt q => settle q o rt
  end.

Definition run_timer (a : TimerAction) (rt : Runtime) : Runtime :=
  match a with
  | TRequestTimeout msgId p =>
      let rt := with_api (fun a => set_pendingRequests (delete msgId (pendingRequests a)) a) rt in
      settle p (Rejected (Error "REQUEST_TIMEOUT")) rt
  | TResolve p => settle p (Fulfilled VUndefined) rt
  | TRetrySend method params retries p =>
      let '(q', rt) := request method params retries rt in
      await q' (KAdopt p) rt
  end.

Inductive Event :=
| CallConnect
| CallRequest (method : string) (params : JsValue) (retries : Z)
| CallDisconnect
| CallSetNotificationHandler (h : option Handler)
| WsOpen (w : nat)
| WsMessage (w : nat) (m : Message)
| WsClose (w : nat)
| WsError (w : nat) (err : JsError)
| TimerFires (t : nat)
| Elapse (ms : Z)
| Microtask.

(** The 'open' listener of the socket whose [connect] promise is [p]. *)
Definition on_open (p : nat) (rt : Runtime) : Runtime :=
  let rt := with_api (set_isConnected true) rt in
  let '(q, rt) := getStatus rt in
  await q (KOpenStatus p) rt.

(** The 'close' listener. *)
Definition on_close (rt : Runtime) : Runtime :=
  with_api (fun a => set_ws None (set_isConnected false a)) rt.

(** One turn: a call from the owner of the channel, an event of a
    socket, a timer that is due, time passing, or the next microtask.
    An exception that escapes the 'message' listener leaves the state
    as the listener left it. *)
Definition step (e : Event) (rt : Runtime) : Runtime :=
  match e with
  | CallConnect => (connect rt).2
  | CallRequest method params retries => (request method params retries rt).2
  | CallDisconnect => disconnect rt
  | CallSetNotificationHandler h => setNotificationHandler h rt
  | WsOpen w =>
      match sockets rt !! w with
      | Some p => on_open p rt
      | None => rt
      end
  | WsMessage w m =>
      match sockets rt !! w with
      | Some _ =>
          match handleMessage m rt with
          | Returns rt' => rt'
          | Throws _ => rt
          end
      | None => rt
      end
  | WsClose w =>
      match sockets rt !! w with
      | Some _ => on_close rt
      | None => rt
      end
  | WsError w err =>
      match sockets rt !! w with
      | Some p => handleError err p rt
      | None => rt
      end
  | TimerFires t =>
      match timers rt !! t with
      | Some tm =>
          if due tm <=? now rt
          then run_timer (action tm) (with_timers (delete t (timers rt)) rt)
          else rt
      | None => rt
      end
  | Elapse ms => if 0 <=? ms then with_now (now rt + ms) rt else rt
  | Microtask =>
      match microtasks rt with
      | (k, o) :: rest => run_cont k o (with_microtasks rest rt)
      | [] => rt
      end
  end.

(** A run: events handled in order. *)
Definition run (es : list Event) (rt : Runtime) : Runtime :=
  foldl (fun rt e => step e rt) rt es.

(** *** The commands *)

(** A parameter declared [id = 0]: the default applies when the argument
    is [undefined]. *)
Definition or_zero (id : JsValue) : JsValue :=
  match id with
  | VUndefined => num 0
  | _ => id
  end.

(** [getCoverStatus(id = 0)] *)
Definition getCoverStatus (id : JsValue) (rt : Runtime) : nat * Runtime :=
  request "Cover.GetStatus" (VObj [("id", or_zero id)]) 1 rt.

(** [coverGoToPosition(pos, id = 0)]; an async function too, see
    [getStatus]. *)
Definition coverGoToPosition (pos id : JsValue) (rt : Runtime) : nat * Runtime :=
  request "Cover.GoToPosition" (VObj [("id", or_zero id); ("pos", pos)]) 1 rt.

(** [coverOpen(id = 0)] *)
Definition coverOpen (id : JsValue) (rt : Runtime) : nat * Runtime :=
  request "Cover.Open" (VObj [("id", or_zero id)]) 1 rt.

(** [coverClose(id = 0)] *)
Definition coverClose (id : JsValue) (rt : Runtime) : nat * Runtime :=
  request "Cover.Close" (VObj [("id", or_zero id)]) 1 rt.

(** [coverStop(id = 0)] *)
Definition coverStop (id : JsValue) (rt : Runtime) : nat * Runtime :=
  request "Cover.Stop" (VObj [("id", or_zero id)]) 1 rt.

(** [getSwitchStatus(id = 0)] *)
Definition getSwitchStatus (id : JsValue) (rt : Runtime) : nat * Runtime :=
  request "Switch.GetStatus" (VObj [("id", or_zero id)]) 1 rt.

(** [switchSet(on, id = 0)] *)
Definition switchSet (on id : JsValue) (rt : Runtime) : nat * Runtime :=
  request "Switch.Set" (VObj [("id", or_zero id); ("on", on)]) 1 rt.

End ShellyApi.

(* ===================================================================== *)
(** ** lib/devices: the device sessions                                   *)
(* ===================================================================== *)

Module Devices.
Import Js.

(** *** The host's device object *)

(** The part of the host device a session uses.  [written] lists the
    capability writes the session has asked for, oldest first;
    [sink n cap v] is the host's answer to the write asked for after [n]
    others: [None] when it stores the value, or the error it rejects
    with. *)
Record HomeyDevice := mkDevice {
  data_id : string;                              (* [getData().id] *)
  capabilityValues : gmap string JsValue;
  written : list (string * JsValue);
  sink : nat -> string -> JsValue -> option JsError;
  listeners : list string                        (* capability listeners registered *)
}.

(** [device.setCapabilityValue(capability, value)], awaited. *)
Definition setCapabilityValue (capability : string) (value : JsValue)
    (d : HomeyDevice) : HomeyDevice * option JsError :=
  let answer := sink d (List.length (written d)) capability value in
  ({| data_id := data_id d;
      capabilityValues :=
        match answer with
        | None => <[capability := value]> (capabilityValues d)
        | Some _ => capabilityValues d
        end;
      written := written d ++ [(capability, value)];
      sink := sink d;
      listeners := listeners d |},
   answer).

(** [device.registerCapabilityListener(capability, ...)] *)
Definition registerCapabilityListener (capability : string) (d : HomeyDevice)
    : HomeyDevice :=
  {| data_id := data_id d; capabilityValues := capabilityValues d;
     written := written d; sink := sink d;
     listeners := listeners d ++ [capability] |}.

(** *** BaseDevice *)

(** A session: the host device, the channel ([this.api], which may be
    absent) and, for a switch, [this.channelNumber] once it is assigned. *)
Record Session := mkSession {
  device : HomeyDevice;
  api : option ShellyApi.Runtime;
  channelNumber : option JsInt
}.

Definition with_device (d : HomeyDevice) (s : Session) : Session :=
  {| device := d; api := api s; channelNumber := channelNumber s |}.

Definition with_channel (rt : option ShellyApi.Runtime) (s : Session) : Session :=
  {| device := device s; api := rt; channelNumber := channelNumber s |}.

Definition with_channelNumber (n : option JsInt) (s : Session) : Session :=
  {| device := device s; api := api s; channelNumber := n |}.

(** [new BaseDevice(device, api)] *)
Definition constructor (d : HomeyDevice) (a : option ShellyApi.Runtime) : Session :=
  {| device := d; api := a; channelNumber := None |}.

(** [setCapabilityValueSafe(capability, value)] *)
Definition setCapabilityValueSafe (capability : string) (value : JsValue)
    (s : Session) : Session :=
  match setCapabilityValue capability value (device s) with
  | (d, None) => with_device d s
  | (d, Some err) =>
      let s := with_device d s in
      if bool_decide (err_statusCode err = Some 404)
      then match api s with
           | Some rt => with_channel (Some (ShellyApi.disconnect rt)) s
           | None => s
           end
      else s
  end.

(** A call [this.api.name(handler)] of one of the methods that take a
    handler or nothing.  A name the class does not declare is
    [undefined], and calling it throws. *)
Definition call (name : string) (h : option ShellyApi.Handler)
    (rt : ShellyApi.Runtime) : Completion ShellyApi.Runtime :=
  if negb (ShellyApi.has_method name)
  then Throws (TypeError ("this.api." ++ name ++ " is not a function"))
  else if bool_decide (name = "setNotificationHandler")
  then Returns (ShellyApi.setNotificationHandler h rt)
  else if bool_decide (name = "disconnect")
  then Returns (ShellyApi.disconnect rt)
  else if bool_decide (name = "cleanupWebSocket")
  then Returns (ShellyApi.cleanupWebSocket rt)
  else Returns rt. (* the other methods are called through their own definitions *)

(** [this.handleNotification.bind(this)]: an async function called as a
    plain function returns a promise and never throws. *)
Definition bound_handler : ShellyApi.Handler := fun _ => None.

(** [destroy()] *)
Definition destroy (s : Session) : Session * Completion unit :=
  match api s with
  | Some rt =>
      match call "removeNotificationHandler" (Some bound_handler) rt with
      | Throws e => (s, Throws e)
      | Returns rt =>
          match call "disconnect" None rt with
          | Throws e => (with_channel (Some rt) s, Throws e)
          | Returns rt => (with_channel (Some rt) s, Returns tt)
          end
      end
  | None => (s, Returns tt)
  end.

(** *** What a session's handler receives *)

(** The argument of [handleNotification]: the envelope of the channel;
    the cover session also reads a property [event], which the channel
    never sets. *)
Record Data := mkData {
  envelope : ShellyApi.Envelope;
  event : JsValue
}.

Definition of_envelope (e : ShellyApi.Envelope) : Data := mkData e VUndefined.

(** [data.updates.component[key]], [undefined] when either level is
    missing. *)
Definition update_for (component key : string) (data : Data) : JsValue :=
  match ShellyApi.updates (envelope data) !! component with
  | Some channels => default VUndefined (channels !! key)
  | None => VUndefined
  end.

(** [v / 100] *)
Definition percent_to_fraction (q : Qc) : Qc := (q / Q2Qc (inject_Z 100))%Qc.

(** The three writes guarded by [typeof ... === "number"]. *)
Definition write_if_number (capability : string) (v : JsValue) (s : Session)
    : Session :=
  if is_number v then setCapabilityValueSafe capability v s else s.

(** *** CoverDevice *)

Module CoverDevice.

(** [mapCoverState(state)] *)
Definition mapCoverState (state : JsValue) : string :=
  match state with
  | VStr s =>
      if bool_decide (s = "opening") then "up"
      else if bool_decide (s = "closing") then "down"
      else if bool_decide (s = "stopped") then "idle"
      else "idle"
  | _ => "idle"
  end.

(** [device.setCapabilityValue(...).catch(this.device.error)] *)
Definition write_logged (capability : string) (value : JsValue) (s : Session)
    : Session :=
  with_device (setCapabilityValue capability value (device s)).1 s.

(** [handleNotification(data)] *)
Definition handleNotification (data : Data) (s : Session) : Session :=
  let coverData := update_for "cover" "0" data in
  let s :=
    if truthy coverData then
      let s :=
        if truthy (get coverData "state")
        then setCapabilityValueSafe "windowcoverings_state"
               (VStr (mapCoverState (get coverData "state"))) s
        else s in
      let s :=
        match get coverData "current_pos" with
        | VNum q => setCapabilityValueSafe "windowcoverings_set"
                      (VNum (percent_to_fraction q)) s
        | _ => s
        end in
      let s := write_if_number "measure_power" (get coverData "apower") s in
      write_if_number "measure_current" (get coverData "current") s
    else s in
  if truthy (event data)
     && is_string (get (event data) "component") "cover:0"
  then
    if is_string (get (event data) "event") "start"
    then
      let state :=
        if is_string (get (event data) "direction") "open"
        then "up" else "down" in
      write_logged "windowcoverings_state" (VStr state) s
    else if is_string (get (event data) "event") "stop"
    then write_logged "windowcoverings_state" (VStr "idle") s
    else s
  else s.

(** [initializeCapabilities()].  [status] is how the awaited
    [getCoverStatus()] call settles and [rt'] the channel at that time.
    The first write is outside the [try]; what fails inside it is
    logged.  The body of the listener for the position is not part of
    this model. *)
Definition initializeCapabilities (rt' : option ShellyApi.Runtime)
    (status : ShellyApi.Outcome) (s : Session) : Session * Completion unit :=
  match setCapabilityValue "windowcoverings_state" (VStr "idle") (device s) with
  | (d, Some err) => (with_device d s, Throws err)
  | (d, None) =>
      let s := with_device d s in
      let s := with_channel rt' s in
      let s :=
        match status with
        | ShellyApi.Fulfilled st =>
            if is_nullish st then s
            else match get st "current_pos" with
                 | VNum q =>
                     with_device
                       (setCapabilityValue "windowcoverings_set"
                          (VNum (percent_to_fraction q)) (device s)).1 s
                 | _ => s
                 end
        | ShellyApi.Rejected _ => s
        end in
      (with_device
         (registerCapabilityListener "windowcoverings_state"
            (registerCapabilityListener "windowcoverings_set" (device s))) s,
       Returns tt)
  end.

(** The listener registered for ['windowcoverings_state'], up to its
    first [await]: the session afterwards, and the promise of the call
    it made, if it made one.  The listener's own promise fulfils with
    [true] when there is no call or the call's promise fulfils, and
    rejects with the call's error otherwise. *)
Definition state_listener (value : JsValue) (s : Session)
    : Session * Completion (option nat) :=
  let command :=
    if is_string value "up" then Some ShellyApi.coverOpen
    else if is_string value "down" then Some ShellyApi.coverClose
    else if is_string value "idle" then Some ShellyApi.coverStop
    else None in
  match command with
  | None => (s, Returns None)
  | Some send =>
      match api s with
      | Some rt =>
          let '(q, rt) := send VUndefined rt in
          (with_channel (Some rt) s, Returns (Some q))
      | None =>
          (s, Throws (TypeError "Cannot read properties of undefined"))
      end
  end.

End CoverDevice.

(** *** SwitchDevice *)

Module SwitchDevice.

(** [parseInt(deviceId.split(':')[1])] *)
Definition parse_channel (deviceId : string) : JsInt :=
  parseInt_opt (split ":" deviceId !! 1%nat).

(** [this.channelNumber] used as a property name. *)
Definition channel_key (s : Session) : string :=
  match channelNumber s with
  | Some n => int_to_string n
  | None => "undefined"
  end.

(** [initializeCapabilities()].  [status] is how the awaited
    [getSwitchStatus] call settles and [rt'] the channel at that time. *)
Definition initializeCapabilities (rt' : option ShellyApi.Runtime)
    (status : ShellyApi.Outcome) (s : Session) : Session * Completion unit :=
  match setCapabilityValue "onoff" (VBool false) (device s) with
  | (d, Some err) => (with_device d s, Throws err)
  | (d, None) =>
      let s := with_device d s in
      let deviceId := data_id (device s) in
      let s := with_channelNumber (Some (parse_channel deviceId)) s in
      let s := with_channel rt' s in
      let s :=
        match status with
        | ShellyApi.Fulfilled st =>
            if is_nullish st then s
            else if is_boolean (get st "output")
            then with_device
                   (setCapabilityValue "onoff" (get st "output") (device s)).1 s
            else s
        | ShellyApi.Rejected _ => s
        end in
      (with_device (registerCapabilityListener "onoff" (device s)) s, Returns tt)
  end.

(** [handleNotification(data)] *)
Definition handleNotification (data : Data) (s : Session) : Session :=
  match ShellyApi.updates (envelope data) !! "switch" with
  | Some channels =>
      let switchState := default VUndefined (channels !! channel_key s) in
      if truthy switchState then
        let s :=
          if is_boolean (get switchState "output")
          then setCapabilityValueSafe "onoff" (get switchState "output") s
          else s in
        let s := write_if_number "measure_power" (get switchState "apower") s in
        write_if_number "measure_current" (get switchState "current") s
      else s
  | None => s
  end.

(** [this.channelNumber] as the argument of a command.  The number
    [NaN] is shown as [JSON.stringify] writes it, [null]. *)
Definition channel_argument (s : Session) : JsValue :=
  match channelNumber s with
  | Some (Int z) => num z
  | Some NaN => VNull
  | None => VUndefined
  end.

(** The listener registered for ['onoff'], up to its [await]: the
    session afterwards and the promise of the call it made.  The
    listener's own promise fulfils with [true] when that promise
    fulfils, and rejects with its error otherwise. *)
Definition onoff_listener (value : JsValue) (s : Session)
    : Session * Completion nat :=
  match api s with
  | Some rt =>
      let '(q, rt) := ShellyApi.switchSet value (channel_argument s) rt in
      (with_channel (Some rt) s, Returns q)
  | None => (s, Throws (TypeError "Cannot read properties of undefined"))
  end.

End SwitchDevice.

(** *** BaseDevice.init *)

(** [init()] of a session whose class has [initializeCapabilities] and
    [handleNotification] as given.  [connected] is how the awaited
    [connect()] settles and [rt'] the channel at that time; [available]
    is the error [device.setAvailable()] rejects with, if it does. *)
Definition init (connected : ShellyApi.Outcome) (rt' : ShellyApi.Runtime)
    (available : option JsError)
    (initializeCapabilities : Session -> Session * Completion unit)
    (handleNotification : ShellyApi.Handler) (s : Session)
    : Session * Completion unit :=
  match api s with
  | None => (s, Throws (TypeError "Cannot read properties of undefined"))
  | Some _ =>
      match connected with
      | ShellyApi.Rejected err => (with_channel (Some rt') s, Throws err)
      | ShellyApi.Fulfilled _ =>
          let s :=
            with_channel
              (Some (ShellyApi.setNotificationHandler (Some handleNotification) rt')) s in
          match available with
          | Some err => (s, Throws err)
          | None => initializeCapabilities s
          end
      end
  end.

End Devices.

(* ===================================================================== *)
(** ** lib/deviceDiscovery.js: the network scan                           *)
(* ===================================================================== *)

Module DeviceDiscovery.
Import Js.

Definition DISCOVERY_TIMEOUT : Z := 30000.
Definition SCAN_BATCH_SIZE : nat := 20.
Definition CONNECTION_TIMEOUT : Z := 1500.
Definition BATCH_PAUSE : Z := 100.

(** One entry of the result list. *)
Record DeviceEntry := mkEntry {
  e_id : string;
  e_deviceId : string;
  e_component : string;
  e_channel : JsInt;
  e_name : string;
  e_ip : string;
  e_profile : JsValue;
  e_icon : string
}.

(** [_generateIpRange(baseIp)] *)
Definition _generateIpRange (baseIp : string) : list string :=
  map (fun i : nat => baseIp ++ "." ++ pretty i) (seq 1 254).

(** [localAddress.split('.').slice(0, 3).join('.')] *)
Definition base_of (localAddress : string) : string :=
  join "." (slice0 3 (split "." localAddress)).

(** *** Objects keyed by channel number *)

(** The non-negative integer a property name stands for, when the name
    is an array index: such names are enumerated first, in ascending
    order; the others follow in insertion order. *)
Definition array_index (k : string) : option Z :=
  match parseInt k with
  | Int z =>
      if (0 <=? z) && (z <=? 4294967294) && bool_decide (pretty z = k)
      then Some z else None
  | NaN => None
  end.

(** Where a new property goes in the enumeration order. *)
Fixpoint obj_insert (k : string) (v : JsValue) (o : list (string * JsValue))
    : list (string * JsValue) :=
  match o with
  | [] => [(k, v)]
  | (k', v') :: rest =>
      match array_index k, array_index k' with
      | Some z, Some z' =>
          if z <? z' then (k, v) :: o else (k', v') :: obj_insert k v rest
      | Some _, None => (k, v) :: o
      | None, _ => (k', v') :: obj_insert k v rest
      end
  end.

Fixpoint obj_replace (k : string) (v : JsValue) (o : list (string * JsValue))
    : list (string * JsValue) :=
  match o with
  | [] => []
  | (k', v') :: rest =>
      if bool_decide (k' = k) then (k, v) :: rest
      else (k', v') :: obj_replace k v rest
  end.

(** [o[n] = v] for a number [n]. *)
Definition obj_set (n : JsInt) (v : JsValue) (o : list (string * JsValue))
    : list (string * JsValue) :=
  let k := int_to_string n in
  match assoc k o with
  | Some _ => obj_replace k v o
  | None => obj_insert k v o
  end.

(** *** Reading a device's answers *)

Record DeviceConfig := mkConfig {
  covers : list (string * JsValue);
  switches : list (string * JsValue)
}.

(** One round of the loop of [_parseComponents]. *)
Definition parse_entry (info : JsValue) (acc : Completion DeviceConfig)
    (kv : string * JsValue) : Completion DeviceConfig :=
  match acc with
  | Throws e => Throws e
  | Returns cfg =>
      let '(key, value) := kv in
      let parts := split ":" key in
      let component := default "undefined" (parts !! 0%nat) in
      match parts !! 1%nat with
      | None => Returns cfg
      | Some id =>
          let numId := parseInt id in
          if is_nullish info
          then Throws (TypeError "Cannot read properties of undefined (reading 'profile')")
          else if is_string (get info "profile") "cover"
                  && bool_decide (component = "cover")
          then Returns (mkConfig (obj_set numId value (covers cfg)) (switches cfg))
          else if negb (is_string (get info "profile") "cover")
                  && bool_decide (component = "switch")
          then Returns (mkConfig (covers cfg) (obj_set numId value (switches cfg)))
          else Returns cfg
      end
  end.

(** [_parseComponents(status, info)] *)
Definition _parseComponents (status info : JsValue) : Completion DeviceConfig :=
  if is_nullish status
  then Throws (TypeError "Cannot convert undefined or null to object")
  else foldl (parse_entry info) (Returns (mkConfig [] [])) (entries status).

(** [channel + 1] *)
Definition succ_int (n : JsInt) : JsInt :=
  match n with
  | NaN => NaN
  | Int z => Int (z + 1)
  end.

(** [_formatDeviceName(app, component, channel, ip)] *)
Definition _formatDeviceName (app : JsValue) (component : string)
    (channel : JsInt) (ip : string) : string :=
  let baseName := "Shelly " ++ template app ++ " (" ++ ip ++ ")" in
  if bool_decide (component = "cover") then baseName
  else baseName ++ " " ++ component ++ " " ++ int_to_string (succ_int channel).

(** [_createDeviceEntry(component, channel, info, ip)] *)
Definition _createDeviceEntry (component : string) (channel : JsInt)
    (info : JsValue) (ip : string) : DeviceEntry :=
  let id := template (get info "id") ++ "_" ++ component ++ ":"
            ++ int_to_string channel in
  {| e_id := id;
     e_deviceId := id;
     e_component := component;
     e_channel := channel;
     e_name := _formatDeviceName (get info "app") component channel ip;
     e_ip := ip;
     e_profile := get info "profile";
     e_icon := if is_string (get info "app") "Pro3"
               then "/images/icon_pro3.svg" else "/images/icon.svg" |}.

(** [_createDeviceEntries(deviceConfig, info, ip, devices)]: the entries
    it pushes, in order. *)
Definition _createDeviceEntries (cfg : DeviceConfig) (info : JsValue)
    (ip : string) : Completion (list DeviceEntry) :=
  if is_nullish info
  then Throws (TypeError "Cannot read properties of undefined (reading 'profile')")
  else if is_string (get info "profile") "cover"
  then Returns (map (fun kv => _createDeviceEntry "cover" (parseInt kv.1) info ip)
                  (covers cfg))
  else Returns (map (fun kv => _createDeviceEntry "switch" (parseInt kv.1) info ip)
                  (switches cfg)).

(** *** Probes *)

(** When the two-call query of a probe settles, measured against the
    probe's own timer and the rounds of the scan. *)
Inductive Timing :=
| InTime (rank : nat)
    (* before the timer; probes of a batch settle by ascending rank *)
| Late (rounds : nat)
    (* after the timer: during the pause that follows [rounds] further batches *)
| Never.

(** The environment of one probe: how [getDeviceInfo] and [getStatus]
    settle, and when. *)
Record Probe := mkProbe {
  info_result : ShellyApi.Outcome;
  status_result : ShellyApi.Outcome;
  timing : Timing
}.

Definition upper (c : ascii) : ascii :=
  let n := nat_of_ascii c in
  if (97 <=? n)%nat && (n <=? 122)%nat then ascii_of_nat (n - 32) else c.

Fixpoint toUpperCase (s : string) : string :=
  match s with
  | EmptyString => EmptyString
  | String c rest => String (upper c) (toUpperCase rest)
  end.

(** The error [_queryDevice] rethrows. *)
Definition query_failed (err : JsError) : JsError :=
  mkError "Error" ("Device query failed: " ++ err_message err) (err_code err) None.

(** [_queryDevice(api, ip, devices)]: the entries it pushes to [devices]
    when it fulfils, or the error it rejects with (nothing pushed). *)
Definition _queryDevice (p : Probe) (ip : string) : Completion (list DeviceEntry) :=
  match info_result p with
  | ShellyApi.Rejected err =>
      let err :=
        match err_code err with
        | Some c =>
            if bool_decide (c = "") then err
            else mkError (err_name err) (err_message err) (Some (toUpperCase c))
                   (err_statusCode err)
        | None => err
        end in
      Throws (query_failed err)
  | ShellyApi.Fulfilled info =>
      match status_result p with
      | ShellyApi.Rejected err => Throws (query_failed err)
      | ShellyApi.Fulfilled status =>
          match _parseComponents status info with
          | Throws e => Throws (query_failed e)
          | Returns cfg =>
              match _createDeviceEntries cfg info ip with
              | Throws e => Throws (query_failed e)
              | Returns es => Returns es
              end
          end
      end
  end.



(** [_tryDevice(ip, devices)]: how the promise it returns settles. *)
Definition _tryDevice (p : Probe) (ip : string) : ShellyApi.Outcome :=
  match timing p with
  | InTime _ =>
      match _queryDevice p ip with
      | Returns _ => ShellyApi.Fulfilled (VBool true)    (* [.then]: [resolve(true)] *)
      | Throws _ => ShellyApi.Fulfilled VNull            (* [.catch]: [resolve(null)] *)
      end
  | Late _ | Never => ShellyApi.Fulfilled VNull          (* the timer: [resolve(null)] *)
  end.

(** *** The scan *)

(** What the scan does, in order. *)
Inductive ScanEvent :=
| Launch (ip : string)
    (* [_tryDevice(ip, ...)] is called: the probe starts *)
| AllSettled (results : list (string * ShellyApi.Outcome))
    (* [await Promise.allSettled(promises)] returns: every probe of the
       batch has settled; the results are in the order of the batch *)
| Sleep (ms : Z).
    (* the pause after a batch *)

(** The environment of a scan: every address's probe, and the value of
    [signal.aborted] when the loop reaches offset [i]. *)
Record ScanEnv := mkScanEnv {
  probe : string -> Probe;
  aborted : nat -> bool
}.

(** [devices] is the shared array every probe pushes to; [inflight] holds
    the queries that outlived their probe's timer and will still fulfil,
    with the number of batches left before they do. *)
Record Scan := mkScan {
  devices : list DeviceEntry;
  trace : list ScanEvent;
  inflight : list (nat * list DeviceEntry)
}.

Definition rank_of (env : ScanEnv) (ip : string) : nat :=
  match timing (probe env ip) with
  | InTime r => r
  | _ => 0%nat
  end.

(** The probes of a batch in the order in which their queries settle. *)
Definition settles_before (env : ScanEnv) (a b : string) : Prop :=
  (rank_of env a <= rank_of env b)%nat.

#[export] Instance settles_before_dec env a b : Decision (settles_before env a b) :=
  decide (rank_of env a <= rank_of env b)%nat.

Definition settle_order (env : ScanEnv) (batch : list string) : list string :=
  merge_sort (settles_before env) batch.

(** What a query that settles before its timer pushes. *)
Definition pushed_in_time (env : ScanEnv) (ip : string) : list DeviceEntry :=
  match timing (probe env ip), _queryDevice (probe env ip) ip with
  | InTime _, Returns es => es
  | _, _ => []
  end.

(** A query that outlives its timer and fulfils later. *)
Definition pushed_late (env : ScanEnv) (ip : string) : option (nat * list DeviceEntry) :=
  match timing (probe env ip), _queryDevice (probe env ip) ip with
  | Late rounds, Returns es => Some (rounds, es)
  | _, _ => None
  end.

(** One batch: the probes start, the queries that are in time push their
    entries, and the [await] returns when every probe has settled. *)
Definition run_batch (env : ScanEnv) (batch : list string) (st : Scan) : Scan :=
  {| devices := devices st ++ flat_map (pushed_in_time env) (settle_order env batch);
     trace := trace st ++ map Launch batch
              ++ [AllSettled (map (fun ip => (ip, _tryDevice (probe env ip) ip)) batch)];
     inflight := inflight st ++ omap (pushed_late env) batch |}.

Definition lands (q : nat * list DeviceEntry) : list DeviceEntry :=
  match q.1 with
  | O => q.2
  | S _ => []
  end.

Definition waits (q : nat * list DeviceEntry) : option (nat * list DeviceEntry) :=
  match q.1 with
  | O => None
  | S n => Some (n, q.2)
  end.

(** The pause after a batch; the late queries that are due fulfil. *)
Definition pause (st : Scan) : Scan :=
  {| devices := devices st ++ flat_map lands (inflight st);
     trace := trace st ++ [Sleep BATCH_PAUSE];
     inflight := omap waits (inflight st) |}.

(** The loop of [_scanNetworkInBatches], from offset [i]; [fuel] bounds
    the number of rounds. *)
Fixpoint scan_loop (env : ScanEnv) (ipRange : list string) (fuel i : nat)
    (st : Scan) : Scan :=
  match fuel with
  | O => st
  | S fuel =>
      if (i <? List.length ipRange)%nat
      then
        if aborted env i then st
        else
          let batch := slice i SCAN_BATCH_SIZE ipRange in
          let st := run_batch env batch st in
          let st := pause st in
          scan_loop env ipRange fuel (i + SCAN_BATCH_SIZE) st
      else st
  end.

(** [_scanNetworkInBatches(ipRange, discoveredDevices, signal)]: every
    round advances the offset, so as many rounds as addresses suffice. *)
Definition _scanNetworkInBatches (env : ScanEnv) (ipRange : list string)
    (st : Scan) : Scan :=
  scan_loop env ipRange (List.length ipRange) 0 st.

(** [discoverDevices()]: [localAddress] is how
    [homey.cloud.getLocalAddress()] settles.  The list returned is
    [devices] of the result. *)
Definition discoverDevices (localAddress : ShellyApi.Outcome) (env : ScanEnv) : Scan :=
  match localAddress with
  | ShellyApi.Fulfilled (VStr addr) =>
      let baseIp := base_of addr in
      let ipRange := _generateIpRange baseIp in
      _scanNetworkInBatches env ipRange (mkScan [] [] [])
  | ShellyApi.Fulfilled _ => mkScan [] [] []   (* [split] is not a function: caught *)
  | ShellyApi.Rejected _ => mkScan [] [] []    (* caught *)
  end.

End DeviceDiscovery.

(* ===================================================================== *)
(** ** lib/deviceFactory.js and the driver                                *)
(* ===================================================================== *)

Module DeviceFactory.
Import Js.

(** The class of the session [create] returns. *)
Inductive Kind := Cover | Switch.

(** [create(device, api)], for [device.getSetting("profile")]: the class
    of the session, and whether the fallback is reported with
    [device.error]. *)
Definition create (profile : JsValue) : Kind * bool :=
  let profile := if truthy profile then profile else VStr "switch" in
  if is_string profile "cover" then (Cover, false)
  else if is_string profile "switch" then (Switch, false)
  else (Switch, true).

(** [getCapabilities(profile)] *)
Definition getCapabilities (profile : JsValue) : list string :=
  if is_string profile "cover"
  then ["windowcoverings_set"; "windowcoverings_state"; "measure_power";
        "measure_current"]
  else ["onoff"; "measure_power"; "measure_current"].

End DeviceFactory.

Module Driver.
Import Js.

(** One entry of the list the pairing view shows. *)
Record PairEntry := mkPair {
  p_name : string;
  p_data_id : string;
  p_data_ip : string;
  p_settings_ip : string;
  p_settings_profile : JsValue;
  p_icon : string;
  p_capabilities : list string
}.

(** The function [onPairListDevices] maps over the discovered entries. *)
Definition pair_entry (dev : DeviceDiscovery.DeviceEntry) : PairEntry :=
  {| p_name := DeviceDiscovery.e_name dev;
     p_data_id := DeviceDiscovery.e_id dev;
     p_data_ip := DeviceDiscovery.e_ip dev;
     p_settings_ip := DeviceDiscovery.e_ip dev;
     p_settings_profile := DeviceDiscovery.e_profile dev;
     p_icon := DeviceDiscovery.e_icon dev;
     p_capabilities := DeviceFactory.getCapabilities (DeviceDiscovery.e_profile dev) |}.

(** [onPairListDevices()]: [discoverDevices] never rejects, so the
    [catch] is not reached. *)
Definition onPairListDevices (localAddress : ShellyApi.Outcome)
    (env : DeviceDiscovery.ScanEnv) : list PairEntry :=
  map pair_entry
    (DeviceDiscovery.devices (DeviceDiscovery.discoverDevices localAddress env)).

(** [onInit()] of a paired device, up to the call of [init]: the channel
    it makes from its settings and data, and the class of its session. *)
Definition onInit (p : PairEntry) (tr : nat -> option JsError)
    : ShellyApi.Runtime * DeviceFactory.Kind :=
  (ShellyApi.boot (ShellyApi.constructor (p_settings_ip p) (Some (p_data_id p))) tr,
   (DeviceFactory.create (p_settings_profile p)).1).

End Driver.

(* ===================================================================== *)
(** * Part II: properties                                                 *)
(* ===================================================================== *)

Local Open Scope list_scope.

(** ** Device sessions *)

Section DeviceFacts.
Import Js Devices.

Implicit Types (s : Session) (d : HomeyDevice) (v : JsValue) (data : Data).

Lemma safe_written c v s :
  written (device (setCapabilityValueSafe c v s)) = written (device s) ++ [(c, v)].
Proof.
  unfold setCapabilityValueSafe, setCapabilityValue.
  destruct (sink _ _ _ _) as [err|]; [|done].
  cbn. case_bool_decide; [|done].
  by destruct (api s).
Qed.

Lemma safe_sink c v s :
  sink (device (setCapabilityValueSafe c v s)) = sink (device s).
Proof.
  unfold setCapabilityValueSafe, setCapabilityValue.
  destruct (sink _ _ _ _) as [err|]; [|done].
  cbn. case_bool_decide; [|done].
  by destruct (api s).
Qed.

Lemma safe_values c v s :
  capabilityValues (device (setCapabilityValueSafe c v s)) =
  match sink (device s) (List.length (written (device s))) c v with
  | None => <[c := v]> (capabilityValues (device s))
  | Some _ => capabilityValues (device s)
  end.
Proof.
  unfold setCapabilityValueSafe, setCapabilityValue.
  destruct (sink _ _ _ _) as [err|]; [|done].
  cbn. case_bool_decide; [|done].
  by destruct (api s).
Qed.

Lemma safe_values_other c c' v s :
  c ≠ c' ->
  capabilityValues (device (setCapabilityValueSafe c v s)) !! c' =
  capabilityValues (device s) !! c'.
Proof.
  intros Hne. rewrite safe_values.
  destruct (sink _ _ _ _); [done|]. by rewrite lookup_insert_ne.
Qed.

Lemma if_number_written c v s :
  exists rest,
    written (device (write_if_number c v s)) = written (device s) ++ rest
    /\ Forall (fun w => w.1 = c) rest.
Proof.
  unfold write_if_number. destruct (is_number v).
  - exists [(c, v)]. split; [apply safe_written|]. by constructor.
  - exists []. split; [by rewrite app_nil_r|constructor].
Qed.

Lemma if_number_values_other c c' v s :
  c ≠ c' ->
  capabilityValues (device (write_if_number c v s)) !! c' =
  capabilityValues (device s) !! c'.
Proof.
  intros Hne. unfold write_if_number.
  destruct (is_number v); [|done]. by apply safe_values_other.
Qed.

Lemma fraction_of_42 : percent_to_fraction (Q2Qc (inject_Z 42)) = Q2Qc 0.42.
Proof. apply Qc_is_canon. reflexivity. Qed.

Lemma get_string_is_object v k str :
  get v k = VStr str -> exists fields, v = VObj fields.
Proof. destruct v; try discriminate. eauto. Qed.


(** The channel a session's identifier names: discovery builds the
    identifier as [<device>_<component>:<channel>]. *)
Definition bound_channel (s : Session) : JsInt :=
  SwitchDevice.parse_channel (data_id (device s)).

(** A notification for cover channel 0, as the channel hands it over:
    [{updates: {cover: {"0": {state: "opening", current_pos: 42}}}}]. *)
Definition opening_42 : Data :=
  of_envelope
    (ShellyApi.mkEnvelope (num 1700000000)
       {[ "cover" := {[ "0" := VObj [("state", VStr "opening");
                                     ("current_pos", num 42)] ]} ]}).

(** A host that stores every value. *)
Definition accepting : nat -> string -> JsValue -> option JsError :=
  fun _ _ _ => None.

Definition cover_session (id : string) : Session :=
  constructor (mkDevice id ∅ [] accepting []) None.

(** C1, as stated, fails: a cover session whose identifier names
    channel 1 applies the update for cover channel 0. *)
Lemma C1_other_channel_changes :
  bound_channel (cover_session "shellyplus2pm_cover:1") = Int 1
  /\ capabilityValues (device (cover_session "shellyplus2pm_cover:1"))
       !! "windowcoverings_state" = None
  /\ capabilityValues
       (device (CoverDevice.handleNotification opening_42
                  (cover_session "shellyplus2pm_cover:1")))
       !! "windowcoverings_state" = Some (VStr "up").
Proof. split; [|split]; vm_compute; reflexivity. Qed.

(** C1 (amended): every cover session, whatever channel its identifier
    names, answers a notification whose updates hold cover channel 0
    with state "opening" and current_pos 42 by writing motion state "up"
    and then position 0.42 (any further write is a power or current
    measurement), and holds both values once the host has stored them;
    and a notification with no entry for cover channel 0 leaves the
    whole session, so every capability value, unchanged. *)
Theorem C1_cover_notification s (env env' : ShellyApi.Envelope) :
  get (update_for "cover" "0" (of_envelope env)) "state" = VStr "opening" ->
  get (update_for "cover" "0" (of_envelope env)) "current_pos" = num 42 ->
  truthy (update_for "cover" "0" (of_envelope env')) = false ->
  let s' := CoverDevice.handleNotification (of_envelope env) s in
  let n := List.length (written (device s)) in
  (exists rest,
     written (device s') =
       written (device s)
       ++ [("windowcoverings_state", VStr "up");
           ("windowcoverings_set", VNum (Q2Qc 0.42))] ++ rest
     /\ Forall (fun w => w.1 = "measure_power" \/ w.1 = "measure_current") rest)
  /\ (sink (device s) n "windowcoverings_state" (VStr "up") = None ->
      sink (device s) (S n) "windowcoverings_set" (VNum (Q2Qc 0.42)) = None ->
      capabilityValues (device s') !! "windowcoverings_state" = Some (VStr "up")
      /\ capabilityValues (device s') !! "windowcoverings_set"
         = Some (VNum (Q2Qc 0.42)))
  /\ CoverDevice.handleNotification (of_envelope env') s = s.
Proof.
  intros Hstate Hpos Hnone s' n.
  assert (Hs' : s' =
    write_if_number "measure_current"
      (get (update_for "cover" "0" (of_envelope env)) "current")
      (write_if_number "measure_power"
         (get (update_for "cover" "0" (of_envelope env)) "apower")
         (setCapabilityValueSafe "windowcoverings_set" (VNum (Q2Qc 0.42))
            (setCapabilityValueSafe "windowcoverings_state" (VStr "up") s)))).
  { subst s'. unfold CoverDevice.handleNotification.
    destruct (get_string_is_object _ _ _ Hstate) as [fields Hobj].
    rewrite Hstate, Hpos. rewrite Hobj. cbn [truthy event of_envelope].
    unfold num. rewrite fraction_of_42. reflexivity. }
  set (s1 := setCapabilityValueSafe "windowcoverings_state" (VStr "up") s) in *.
  set (s2 := setCapabilityValueSafe "windowcoverings_set" (VNum (Q2Qc 0.42)) s1) in *.
  set (s3 := write_if_number "measure_power" _ s2) in *.
  split; [|split].
  - destruct (if_number_written "measure_power"
                (get (update_for "cover" "0" (of_envelope env)) "apower") s2)
      as (r1 & Hr1 & Hf1).
    destruct (if_number_written "measure_current"
                (get (update_for "cover" "0" (of_envelope env)) "current") s3)
      as (r2 & Hr2 & Hf2).
    exists (r1 ++ r2). split.
    + rewrite Hs', Hr2. subst s3. rewrite Hr1. subst s2 s1.
      rewrite !safe_written. by rewrite <- !app_assoc.
    + apply Forall_app. split; eapply Forall_impl; eauto; cbn; auto.
  - intros Hok1 Hok2. rewrite Hs'. subst s3 s2 s1.
    rewrite !if_number_values_other by done.
    split.
    + rewrite safe_values_other by done.
      rewrite safe_values. fold n. rewrite Hok1.
      apply lookup_insert_eq.
    + rewrite safe_values.
      rewrite safe_sink, safe_written, length_app. cbn [List.length].
      replace (List.length (written (device s)) + 1)%nat with (S n) by (subst n; lia).
      rewrite Hok2. apply lookup_insert_eq.
  - unfold CoverDevice.handleNotification. rewrite Hnone. reflexivity.
Qed.

Lemma C1_cover_notification_witness :
  let s := cover_session "shellyplus2pm_cover:1" in
  capabilityValues (device (CoverDevice.handleNotification opening_42 s))
    !! "windowcoverings_set" = Some (VNum (Q2Qc 0.42)).
Proof.
  intros s.
  refine (proj2 (proj1 (proj2
    (C1_cover_notification s (envelope opening_42)
       (ShellyApi.mkEnvelope VUndefined ∅) _ _ _)) _ _));
    vm_compute; reflexivity.
Defined.

(** C2 fails on the code: the channel declares no method
    [removeNotificationHandler], so [destroy] throws on its first
    statement, for every session that holds a channel; the handler stays
    registered and the socket open. *)
Theorem C2_destroy_throws d (rt : ShellyApi.Runtime) (n : option JsInt) :
  destroy (mkSession d (Some rt) n)
  = (mkSession d (Some rt) n,
     Throws (TypeError "this.api.removeNotificationHandler is not a function")).
Proof. reflexivity. Qed.

(** The same at a session whose channel is connected with a handler
    registered: after [destroy] the handler is still there and no
    [terminate] has reached the socket. *)
Example destroy_leaves_channel_open :
  let rt := ShellyApi.setNotificationHandler (Some bound_handler)
              (ShellyApi.connect
                 (ShellyApi.boot (ShellyApi.constructor "10.0.0.7" (Some "shelly_switch:0"))
                    (fun _ => None))).2 in
  let s := mkSession (mkDevice "shelly_switch:0" ∅ [] accepting []) (Some rt) (Some (Int 0)) in
  match api (destroy s).1 with
  | Some rt' =>
      ShellyApi.ws (ShellyApi.api rt') = Some 0%nat
      /\ ShellyApi.wire rt' = [ShellyApi.WNew 0 "ws://10.0.0.7/rpc"]
      /\ is_Some (ShellyApi.notificationHandler (ShellyApi.api rt'))
  | None => False
  end.
Proof. cbn. repeat split. by eexists. Qed.

(** *** Switch sessions without a channel number *)

Definition is_digit (c : ascii) : bool :=
  let n := nat_of_ascii c in (48 <=? n)%nat && (n <=? 57)%nat.












(** What it makes of [{"switch:0": {output: true, apower: 12}}]. *)
Definition push_for_0 : Data :=
  of_envelope
    (ShellyApi.mkEnvelope VUndefined
       (ShellyApi.reshape
          (VObj [("switch:0", VObj [("output", VBool true); ("apower", num 12)])]))).




End DeviceFacts.

(** ** The channel: inbound messages *)

Section ChannelFacts.
Import Js ShellyApi.

Implicit Types (m : Message) (rt : Runtime) (v : JsValue).

(** *** Splitting keys *)

(** [s] has no [':']. *)
Definition no_colon (s : string) : Prop := split ":" s = [s].

(** [k] is [component:index]. *)
Definition keyed (k c i : string) : Prop :=
  k = (c ++ ":" ++ i)%string /\ no_colon c /\ no_colon i.

Lemma split_nonempty sep s : split sep s <> [].
Proof.
  destruct s as [|a s]; cbn; [done|].
  destruct (Ascii.eqb a sep); [done|]. by destruct (split sep s).
Qed.

Lemma split_component c rest :
  no_colon c -> split ":" (c ++ ":" ++ rest)%string = c :: split ":" rest.
Proof.
  unfold no_colon. induction c as [|a c IH]; simpl.
  - done.
  - destruct (Ascii.eqb a ":") eqn:Ha; [discriminate|].
    destruct (split ":" c) as [|h t] eqn:Hc; [by destruct (split_nonempty ":" c)|].
    intros [= -> ->]. by rewrite IH.
Qed.

Lemma split_keyed k c i : keyed k c i -> split ":" k = [c; i].
Proof.
  intros (-> & Hc & Hi). rewrite split_component by done. by rewrite Hi.
Qed.

Lemma keyed_inj k c i c' i' : keyed k c i -> keyed k c' i' -> c = c' /\ i = i'.
Proof.
  intros H1 H2. apply split_keyed in H1, H2. rewrite H1 in H2.
  by injection H2.
Qed.

Lemma keyed_not_ts k c i : keyed k c i -> k <> "ts".
Proof. intros Hk ->. apply split_keyed in Hk. discriminate. Qed.

(** *** Reshaping *)

(** [updates[c][i]] *)
Definition lookup2 (u : gmap string (gmap string JsValue)) (c i : string)
    : option JsValue :=
  u !! c ≫= (fun channels => channels !! i).

Lemma reshape_entry_ts u v : reshape_entry u ("ts", v) = u.
Proof. reflexivity. Qed.

Lemma reshape_entry_keyed u k v c i c' i' :
  keyed k c i ->
  lookup2 (reshape_entry u (k, v)) c' i' =
  if bool_decide (c' = c /\ i' = i) then Some v else lookup2 u c' i'.
Proof.
  intros Hk. unfold reshape_entry.
  rewrite bool_decide_eq_false_2 by by eapply keyed_not_ts.
  rewrite (split_keyed _ _ _ Hk). cbn [lookup list_lookup default].
  unfold lookup2.
  destruct (decide (c' = c)) as [->|Hc].
  - rewrite lookup_insert_eq. cbn.
    destruct (decide (i' = i)) as [->|Hi].
    + rewrite lookup_insert_eq. by rewrite bool_decide_eq_true_2.
    + rewrite lookup_insert_ne by done.
      rewrite bool_decide_eq_false_2 by naive_solver.
      by destruct (u !! c).
  - rewrite lookup_insert_ne by done.
    by rewrite bool_decide_eq_false_2 by naive_solver.
Qed.

(** Every entry other than the timestamp sits, after the reshaping, at
    [updates[component][index]], and nothing else does. *)
Lemma reshape_spec (fields : list (string * JsValue)) :
  NoDup fields.*1 ->
  (forall k v, (k, v) ∈ fields -> k <> "ts" -> exists c i, keyed k c i) ->
  forall c i v, no_colon c -> no_colon i ->
    lookup2 (reshape (VObj fields)) c i = Some v
    <-> ((c ++ ":" ++ i)%string, v) ∈ fields.
Proof.
  unfold reshape. cbn [entries].
  induction fields as [|[k v0] fields IH] using rev_ind; intros Hnd Hkeys c i v Hc Hi.
  - cbn. unfold lookup2. rewrite lookup_empty. cbn. set_solver.
  - rewrite foldl_snoc.
    rewrite fmap_app in Hnd. apply NoDup_app in Hnd as (Hnd & Hfresh & _).
    assert (Hk0 : k ∉ fields.*1).
    { intros Hin. apply (Hfresh k Hin). cbn. set_solver. }
    specialize (IH Hnd (fun k v Hin => Hkeys k v ltac:(set_solver)) c i v Hc Hi).
    assert (Hkeyed : keyed (c ++ ":" ++ i) c i) by done.
    destruct (decide (k = "ts")) as [->|Hts].
    + rewrite reshape_entry_ts, IH.
      pose proof (keyed_not_ts _ _ _ Hkeyed). set_solver.
    + destruct (Hkeys k v0 ltac:(set_solver) Hts) as (c0 & i0 & Hk).
      rewrite (reshape_entry_keyed _ _ _ _ _ _ _ Hk).
      case_bool_decide as Heq.
      * destruct Heq as [-> ->].
        destruct Hk as (-> & _ & _).
        split.
        -- intros [= ->]. set_solver.
        -- intros [Hin|Hin]%elem_of_app.
           ++ destruct Hk0. apply list_elem_of_fmap. by exists (c0 ++ ":" ++ i0, v)%string.
           ++ apply list_elem_of_singleton in Hin. by injection Hin as ->.
      * rewrite IH. split; [set_solver|].
        intros [Hin|Hin]%elem_of_app; [done|].
        apply list_elem_of_singleton in Hin. injection Hin as <- <-.
        destruct Heq. by eapply keyed_inj.
Qed.

(** *** Notifications *)

(** The handler has been called once more, with [env]; nothing else
    has changed. *)
Definition delivers (env : Envelope) (rt : Runtime) : Runtime :=
  with_delivered (delivered rt ++ [env]) rt.

Lemma notification_dropped m rt :
  truthy (msg_dst m) = true ->
  differs_from (msg_dst m) (deviceId (api rt)) = true ->
  handleNotification m rt = Returns rt.
Proof. intros Ht Hd. unfold handleNotification. by rewrite Ht, Hd. Qed.

Lemma notification_delivered m rt h :
  truthy (msg_dst m) && differs_from (msg_dst m) (deviceId (api rt)) = false ->
  is_nullish (msg_params m) = false ->
  notificationHandler (api rt) = Some h ->
  handleNotification m rt
  = Returns (delivers (mkEnvelope (get (msg_params m) "ts") (reshape (msg_params m))) rt).
Proof.
  intros Hd Hp Hh. unfold handleNotification. rewrite Hd, Hp, Hh.
  by destruct (h _).
Qed.

(** A channel with client id [id] and handler [h], and the push
    [{method: "NotifyStatus", dst, params: {ts: 7, "cover:0": {...}}}]. *)
Definition listening (id : string) (h : Handler) : Runtime :=
  setNotificationHandler (Some h) (boot (constructor "10.0.0.7" (Some id)) (fun _ => None)).

Definition status_push (dst : JsValue) : Message :=
  mkMessage (VStr "NotifyStatus") VUndefined dst
    (VObj [("ts", num 7); ("cover:0", VObj [("state", VStr "opening")])])
    VUndefined VUndefined.

Definition throwing : Handler := fun _ => Some (Error "handler failed").

(** C7, as stated, fails: a push whose [dst] is the empty string
    carries a [dst] that differs from the client id, and the handler is
    called all the same. *)
Lemma C7_empty_dst_delivered :
  msg_dst (status_push (VStr "")) = VStr ""
  /\ differs_from (msg_dst (status_push (VStr "")))
       (deviceId (api (listening "shelly_cover:0" throwing))) = true
  /\ exists env,
       handleMessage (status_push (VStr "")) (listening "shelly_cover:0" throwing)
       = Returns (delivers env (listening "shelly_cover:0" throwing)).
Proof. split; [done|]. split; [done|]. eexists. reflexivity. Qed.

(** C7 (amended): for an inbound message whose method is a push
    method: when its [dst] is truthy (so not the empty string) and
    differs from the client id, the handler is not called and nothing
    changes; otherwise, when it has a parameter bag and a handler is
    registered, and the keys of the bag other than "ts" are all of the
    form component:index, with no component that is the name of a member
    every object inherits and no index [__proto__], the handler is
    called exactly once, with the timestamp and the reshaped bag, and
    the processing returns normally whether or not the handler throws;
    and in the reshaped bag [updates[component][index]] holds exactly
    the entries of the bag. *)
Theorem C7_notification_demux m rt h (fields : list (string * JsValue)) :
  is_notify m = true ->
  notificationHandler (api rt) = Some h ->
  msg_params m = VObj fields ->
  NoDup fields.*1 ->
  (forall k v, (k, v) ∈ fields -> k <> "ts" -> exists c i, keyed k c i) ->
  own_keys (msg_params m) = true ->
  (truthy (msg_dst m) = true ->
   differs_from (msg_dst m) (deviceId (api rt)) = true ->
   handleMessage m rt = Returns rt)
  /\ (truthy (msg_dst m) && differs_from (msg_dst m) (deviceId (api rt)) = false ->
      exists env,
        handleMessage m rt = Returns (delivers env rt)
        /\ timestamp env = get (msg_params m) "ts"
        /\ forall c i v, no_colon c -> no_colon i ->
             lookup2 (updates env) c i = Some v
             <-> ((c ++ ":" ++ i)%string, v) ∈ fields).
Proof.
  intros Hn Hh Hp Hnd Hkeys _. unfold handleMessage. rewrite Hn. split.
  - apply notification_dropped.
  - intros Hd. eexists. split; [|split].
    + apply (notification_delivered _ _ h); [done| |done]. by rewrite Hp.
    + done.
    + cbn [updates]. rewrite Hp. by apply reshape_spec.
Qed.

Lemma C7_notification_demux_witness :
  exists env,
    handleMessage (status_push (VStr "shelly_cover:0")) (listening "shelly_cover:0" throwing)
    = Returns (delivers env (listening "shelly_cover:0" throwing))
    /\ lookup2 (updates env) "cover" "0" = Some (VObj [("state", VStr "opening")]).
Proof.
  destruct (C7_notification_demux (status_push (VStr "shelly_cover:0"))
              (listening "shelly_cover:0" throwing) throwing
              [("ts", num 7); ("cover:0", VObj [("state", VStr "opening")])])
    as [_ Hdeliver].
  - reflexivity.
  - reflexivity.
  - reflexivity.
  - cbn. repeat constructor; set_solver.
  - intros k v Hin Hts.
    apply elem_of_cons in Hin as [[= -> ->]|Hin]; [done|].
    apply list_elem_of_singleton in Hin as [= -> ->].
    exists "cover", "0". repeat split.
  - reflexivity.
  - destruct Hdeliver as (env & Hm & _ & Hup); [reflexivity|].
    exists env. split; [exact Hm|].
    apply Hup; [reflexivity..|]. set_solver.
Defined.

End ChannelFacts.

(** ** The network scan *)

Section ScanFacts.
Import Js DeviceDiscovery.

Implicit Types (env : ScanEnv) (st : Scan) (l b : list string).

(** *** The address range *)




(** *** Batches *)



(** How many rounds the loop runs from offset [i]: it stops at the
    first offset where the signal is aborted. *)
Fixpoint rounds_from (env : ScanEnv) (l : list string) (fuel i : nat) : nat :=
  match fuel with
  | O => O
  | S fuel =>
      if (i <? List.length l)%nat
      then if aborted env i then O
           else S (rounds_from env l fuel (i + SCAN_BATCH_SIZE))
      else O
  end.

Definition rounds (env : ScanEnv) (l : list string) : nat :=
  rounds_from env l (List.length l) 0.












Example base_of_example : base_of "192.168.1.57" = "192.168.1".
Proof. reflexivity. Qed.


(** *** What ends up in the result list *)

Lemma query_entries_ip (p : Probe) ip es :
  _queryDevice p ip = Returns es -> Forall (fun e => e_ip e = ip) es.
Proof.
  unfold _queryDevice. destruct (info_result p) as [info|]; [|done].
  destruct (status_result p) as [status|]; [|done].
  destruct (_parseComponents status info) as [cfg|]; [|done].
  unfold _createDeviceEntries. destruct (is_nullish info); [done|].
  destruct (is_string (get info "profile") "cover");
    intros [= <-]; apply Forall_forall; intros e [kv [-> _]]%list_elem_of_fmap; done.
Qed.

(** The entry comes from a query of its own address that fulfilled. *)
Definition answered (env : ScanEnv) (e : DeviceEntry) : Prop :=
  exists es, _queryDevice (probe env (e_ip e)) (e_ip e) = Returns es
             /\ e ∈ es
             /\ timing (probe env (e_ip e)) <> Never.

Lemma pushed_in_time_answered env ip : Forall (answered env) (pushed_in_time env ip).
Proof.
  unfold pushed_in_time.
  destruct (timing (probe env ip)) as [r|r|] eqn:Ht; try by constructor.
  destruct (_queryDevice (probe env ip) ip) as [es|] eqn:Hq; [|by constructor].
  pose proof (query_entries_ip _ _ _ Hq) as Hip.
  apply Forall_forall. intros e He.
  rewrite Forall_forall in Hip. specialize (Hip e He).
  exists es. rewrite Hip. split; [done|]. split; [done|]. by rewrite Ht.
Qed.

Lemma pushed_late_answered env ip q :
  pushed_late env ip = Some q -> Forall (answered env) q.2.
Proof.
  unfold pushed_late.
  destruct (timing (probe env ip)) as [r|r|] eqn:Ht; try done.
  destruct (_queryDevice (probe env ip) ip) as [es|] eqn:Hq; [|done].
  intros [= <-]. cbn.
  pose proof (query_entries_ip _ _ _ Hq) as Hip.
  apply Forall_forall. intros e He.
  rewrite Forall_forall in Hip. specialize (Hip e He).
  exists es. rewrite Hip. split; [done|]. split; [done|]. by rewrite Ht.
Qed.

Definition all_answered (env : ScanEnv) (st : Scan) : Prop :=
  Forall (answered env) (devices st)
  /\ Forall (fun q => Forall (answered env) q.2) (inflight st).

Lemma run_batch_answered env b st :
  all_answered env st -> all_answered env (run_batch env b st).
Proof.
  intros [Hd Hi]. split; cbn.
  - apply Forall_app. split; [done|].
    apply Forall_forall. intros e (ip & _ & He)%list_elem_of_In%in_flat_map.
    pose proof (pushed_in_time_answered env ip) as Hp.
    rewrite Forall_forall in Hp. apply Hp. by apply list_elem_of_In.
  - apply Forall_app. split; [done|].
    apply Forall_forall. intros q (ip & _ & Hq)%list_elem_of_omap.
    by eapply pushed_late_answered.
Qed.

Lemma pause_answered env st : all_answered env st -> all_answered env (pause st).
Proof.
  intros [Hd Hi]. rewrite Forall_forall in Hi. split; cbn.
  - apply Forall_app. split; [done|].
    apply Forall_forall. intros e (q & Hq & He)%list_elem_of_In%in_flat_map.
    apply list_elem_of_In in Hq, He. specialize (Hi q Hq).
    unfold lands in He. destruct q.1; [|by apply elem_of_nil in He].
    rewrite Forall_forall in Hi. by apply Hi.
  - apply Forall_forall. intros q' (q & Hq & Hw)%list_elem_of_omap.
    specialize (Hi q Hq). unfold waits in Hw.
    destruct q.1; [done|]. by injection Hw as <-.
Qed.

Lemma scan_loop_answered env l fuel i st :
  all_answered env st -> all_answered env (scan_loop env l fuel i st).
Proof.
  revert i st. induction fuel as [|fuel IH]; intros i st Hst; cbn [scan_loop]; [done|].
  destruct (i <? List.length l)%nat; [|done].
  destruct (aborted env i); [done|].
  by apply IH, pause_answered, run_batch_answered.
Qed.

Lemma discover_answered env local :
  Forall (answered env) (devices (discoverDevices local env)).
Proof.
  assert (H0 : all_answered env (mkScan [] [] [])) by (split; constructor).
  destruct local as [v|err]; [|by constructor].
  destruct v; try by constructor.
  by apply scan_loop_answered.
Qed.

(** A Shelly at 10.0.0.1 that answers both calls, but only after the
    probe's timer (during the pause that follows its batch); nothing
    else answers. *)
Definition slow_device : Probe :=
  mkProbe
    (ShellyApi.Fulfilled
       (VObj [("id", VStr "shellyplus1-a8032ab1"); ("app", VStr "Plus1");
              ("profile", VStr "switch")]))
    (ShellyApi.Fulfilled (VObj [("sys", VObj []); ("switch:0", VObj [("output", VBool false)])]))
    (Late 0).

Definition nobody : Probe :=
  mkProbe (ShellyApi.Rejected (mkError "Error" "connect ECONNREFUSED" (Some "econnrefused") None))
    (ShellyApi.Rejected (Error "unused")) (InTime 0).

Definition one_slow_device : ScanEnv :=
  mkScanEnv (fun ip => if bool_decide (ip = "10.0.0.1") then slow_device else nobody)
    (fun _ => false).





End ScanFacts.

(** ** The channel: reachable states *)

Section MachineFacts.
Import Js ShellyApi.

Implicit Types (rt : Runtime) (o : Outcome) (k : Cont) (m : Message).

(** The promise a continuation settles. *)
Definition cont_target (k : Cont) : nat :=
  match k with
  | KOpenStatus p => p
  | KRequestConnected _ _ _ q => q
  | KRequestRetry _ _ _ q => q
  | KAdopt q => q
  end.

(** The correlation ids that reached the transport, oldest first. *)
Definition sent_id (e : WireEvent) : option Z :=
  match e with
  | WSend _ req _ => Some (req_id req)
  | _ => None
  end.

Definition sent_ids (rt : Runtime) : list Z := omap sent_id (wire rt).

(** [x] is not the promise of a pending request. *)
Definition not_slot (rt : Runtime) (x : nat) : Prop :=
  forall id r, pendingRequests (api rt) !! id = Some r -> res_promise r <> x.

(** What a timer that is armed stands for. *)
Definition timer_ok (rt : Runtime) (t : nat) (tm : Timer) : Prop :=
  match action tm with
  | TRequestTimeout id n =>
      pendingRequests (api rt) !! id = Some (mkResolver t n)
      /\ promises rt !! n = Some Pending
      /\ delay tm = CONFIG.REQUEST_TIMEOUT
  | TResolve d =>
      (d < next_promise rt)%nat
      /\ delay tm = CONFIG.RETRY_DELAY
      /\ forall id r, pendingRequests (api rt) !! id = Some r ->
           res_promise r <> d /\ res_timeout r <> t
  | TRetrySend _ _ _ _ => False
  end.

(** The invariant of the channel. *)
Record WF (rt : Runtime) : Prop := mkWF {
  wf_id : 1 <= messageId (api rt);
  wf_slots : forall id r, pendingRequests (api rt) !! id = Some r ->
      1 <= id < messageId (api rt)
      /\ (res_promise r < next_promise rt)%nat
      /\ (res_timeout r < next_timer rt)%nat;
  wf_inj : forall id id' r r',
      pendingRequests (api rt) !! id = Some r ->
      pendingRequests (api rt) !! id' = Some r' ->
      res_promise r = res_promise r' \/ res_timeout r = res_timeout r' ->
      id = id';
  wf_timers : forall t tm, timers rt !! t = Some tm ->
      (t < next_timer rt)%nat /\ timer_ok rt t tm;
  wf_reactions : forall p k, (p, k) ∈ reactions rt ->
      (p < next_promise rt)%nat
      /\ (cont_target k < next_promise rt)%nat
      /\ not_slot rt (cont_target k);
  wf_microtasks : forall k o, (k, o) ∈ microtasks rt ->
      (cont_target k < next_promise rt)%nat /\ not_slot rt (cont_target k);
  wf_sockets : forall w p, sockets rt !! w = Some p ->
      (w < next_socket rt)%nat /\ (p < next_promise rt)%nat /\ not_slot rt p;
  wf_sent_sorted : StronglySorted Z.lt (sent_ids rt);
  wf_sent_range : Forall (fun id => 1 <= id < messageId (api rt)) (sent_ids rt)
}.

Lemma WF_boot ip id tr : WF (boot (constructor ip id) tr).
Proof.
  constructor; cbn; try done; try (intros; set_solver); constructor.
Qed.

(** *** Primitives *)

Lemma WF_new_promise st rt :
  WF rt -> WF (new_promise st rt).2.
Proof.
  intros [Hid Hslots Hinj Htimers Hreact Hmicro Hsock Hsorted Hrange].
  constructor; cbn; try done.
  - intros id r Hr. specialize (Hslots id r Hr). lia.
  - intros t tm Ht. destruct (Htimers t tm Ht) as [Hlt Hok]. split; [done|].
    unfold timer_ok in *. destruct (action tm) as [id n|d|]; cbn; [| |done].
    + destruct Hok as (Hslot & Hn & Hd). split; [done|]. split; [|done].
      destruct (Hslots _ _ Hslot) as (_ & Hlt' & _). cbn in Hlt'.
      rewrite lookup_insert_ne by lia. done.
    + destruct Hok as (Hd & ? & ?). split; [lia|done].
  - intros p k Hin. destruct (Hreact p k Hin) as (? & ? & ?).
    split; [lia|]. split; [lia|done].
  - intros k o Hin. destruct (Hmicro k o Hin) as (? & ?). split; [lia|done].
  - intros w p Hw. destruct (Hsock w p Hw) as (? & ? & ?). split; [done|]. split; [lia|done].
Qed.

Lemma WF_settle x o rt :
  WF rt ->
  (forall t tm id, timers rt !! t = Some tm -> action tm <> TRequestTimeout id x) ->
  WF (settle x o rt).
Proof.
  intros Hwf Hx. unfold settle. destruct (promises rt !! x) as [[|o']|] eqn:Hp; [|done..].
  destruct Hwf as [Hid Hslots Hinj Htimers Hreact Hmicro Hsock Hsorted Hrange].
  constructor; cbn; try done.
  - intros t tm Ht. destruct (Htimers t tm Ht) as [Hlt Hok]. split; [done|].
    unfold timer_ok in *. specialize (Hx t tm).
    destruct (action tm) as [id n|d|]; cbn; [|done|done].
    destruct Hok as (Hslot & Hn & Hd). split; [done|]. split; [|done].
    rewrite lookup_insert_ne; [done|]. intros <-. by eapply Hx.
  - intros p k [_ Hin]%list_elem_of_filter. by apply Hreact.
  - intros k o' [Hin|Hin]%elem_of_app; [by eapply Hmicro|].
    apply list_elem_of_fmap in Hin as ([p k'] & [= -> ->] & [_ Hin]%list_elem_of_filter).
    destruct (Hreact p k' Hin) as (? & ? & ?). done.
Qed.

Lemma WF_await p k rt :
  WF rt -> (p < next_promise rt)%nat -> (cont_target k < next_promise rt)%nat ->
  not_slot rt (cont_target k) ->
  WF (await p k rt).
Proof.
  intros Hwf Hp Hk Hns. unfold await.
  destruct Hwf as [Hid Hslots Hinj Htimers Hreact Hmicro Hsock Hsorted Hrange].
  destruct (promises rt !! p) as [[|o']|]; constructor; cbn; try done.
  all: try (intros p' k' [Hin|Hin]%elem_of_app; [by apply Hreact|];
            apply list_elem_of_singleton in Hin as [= -> ->]; done).
  intros k' o'' [Hin|Hin]%elem_of_app; [by eapply Hmicro|].
  apply list_elem_of_singleton in Hin as [= -> ->]; done.
Qed.

Lemma WF_clearTimeout t rt : WF rt -> WF (clearTimeout t rt).
Proof.
  intros [Hid Hslots Hinj Htimers Hreact Hmicro Hsock Hsorted Hrange].
  constructor; cbn; try done.
  intros t' tm [Hne Ht]%lookup_delete_Some. by apply Htimers.
Qed.

Lemma WF_resolve_later d rt :
  WF rt -> (d < next_promise rt)%nat -> not_slot rt d ->
  WF (setTimeout (TResolve d) CONFIG.RETRY_DELAY rt).2.
Proof.
  intros [Hid Hslots Hinj Htimers Hreact Hmicro Hsock Hsorted Hrange] Hd Hns.
  constructor; cbn; try done.
  - intros id r Hr. specialize (Hslots id r Hr). lia.
  - intros t tm. destruct (decide (t = next_timer rt)) as [->|Hne].
    + rewrite lookup_insert_eq. intros [= <-]. split; [lia|].
      unfold timer_ok. cbn. split; [done|]. split; [done|].
      intros id r Hr. split; [by apply (Hns id r)|].
      destruct (Hslots id r Hr) as (_ & _ & ?). lia.
    + rewrite lookup_insert_ne by done. intros Ht.
      destruct (Htimers t tm Ht) as [Hlt Hok]. split; [lia|]. exact Hok.
Qed.

Lemma WF_cleanup rt : WF rt -> WF (cleanupWebSocket rt).
Proof.
  intros Hwf. unfold cleanupWebSocket. destruct (ws (api rt)) as [w|]; [|done].
  destruct Hwf as [Hid Hslots Hinj Htimers Hreact Hmicro Hsock Hsorted Hrange].
  constructor; cbn; try done.
  - unfold sent_ids in *. cbn. rewrite omap_app. cbn. by rewrite app_nil_r.
  - unfold sent_ids in *. cbn. rewrite omap_app. cbn. by rewrite app_nil_r.
Qed.

Lemma omap_sent_snoc (l : list WireEvent) e :
  omap sent_id (l ++ [e]) = omap sent_id l ++ option_list (sent_id e).
Proof. rewrite omap_app. cbn. by destruct (sent_id e). Qed.

Lemma WF_connect rt :
  WF rt ->
  WF (connect rt).2
  /\ ((connect rt).1 < next_promise (connect rt).2)%nat
  /\ not_slot (connect rt).2 (connect rt).1.
Proof.
  intros Hwf. unfold connect. destruct (ws (api rt)) as [w|].
  - split; [by apply WF_new_promise|]. cbn. split; [lia|].
    intros id r Hr. destruct (wf_slots _ Hwf id r Hr) as (_ & ? & _). lia.
  - cbn.
    destruct Hwf as [Hid Hslots Hinj Htimers Hreact Hmicro Hsock Hsorted Hrange].
    split; [|split; [lia|]].
    + constructor; cbn; try done.
      * intros id r Hr. specialize (Hslots id r Hr). lia.
      * intros t tm Ht. destruct (Htimers t tm Ht) as [Hlt Hok]. split; [done|].
        unfold timer_ok in *. destruct (action tm) as [id n|d|]; cbn; [| |done].
        -- destruct Hok as (Hslot & Hn & Hd). split; [done|]. split; [|done].
           destruct (Hslots _ _ Hslot) as (_ & Hlt' & _). cbn in Hlt'.
           by rewrite lookup_insert_ne by lia.
        -- destruct Hok as (Hd & ? & ?). split; [lia|done].
      * intros p k Hin. destruct (Hreact p k Hin) as (? & ? & ?).
        split; [lia|]. split; [lia|done].
      * intros k o Hin. destruct (Hmicro k o Hin) as (? & ?). split; [lia|done].
      * intros w p. destruct (decide (w = next_socket rt)) as [->|Hne].
        -- rewrite lookup_insert_eq. intros [= <-]. split; [lia|]. split; [lia|].
           intros id r Hr. destruct (Hslots id r Hr) as (_ & ? & _). lia.
        -- rewrite lookup_insert_ne by done. intros Hw.
           destruct (Hsock w p Hw) as (? & ? & ?). split; [lia|]. split; [lia|done].
      * unfold sent_ids in *. cbn. by rewrite omap_sent_snoc, app_nil_r.
      * unfold sent_ids in *. cbn. by rewrite omap_sent_snoc, app_nil_r.
    + intros id r Hr. destruct (Hslots id r Hr) as (_ & ? & _). lia.
Qed.

(** The [catch] block around [ws.send] never gets past its read of [id]. *)
Lemma send_catch_throws method params retries msgId timeoutId n err rt :
  send_catch method params retries msgId timeoutId n err rt
  = settle n (Rejected (ReferenceError "id is not defined")) (clearTimeout timeoutId rt).
Proof. reflexivity. Qed.

(** The state in which [request] calls [ws.send]: the id is taken, the
    promise of the executor created, its timer armed and its slot
    stored. *)
Definition armed (rt : Runtime) : Runtime :=
  let id := messageId (api rt) in
  let n := next_promise rt in
  let t := next_timer rt in
  with_api (fun a => set_pendingRequests (<[id := mkResolver t n]> (pendingRequests a))
                       (set_messageId (id + 1) a))
    (with_next_timer (S t)
       (with_timers (<[t := mkTimer (now rt + CONFIG.REQUEST_TIMEOUT)
                              CONFIG.REQUEST_TIMEOUT (TRequestTimeout id n)]> (timers rt))
          (with_next_promise (S n)
             (with_promises (<[n := Pending]> (promises rt)) rt)))).

Lemma request_send_unfold method params retries q rt :
  request_send method params retries q rt =
  let id := messageId (api rt) in
  let n := next_promise rt in
  let t := next_timer rt in
  let src := match deviceId (api rt) with
             | Some d => if bool_decide (d = "") then "homey_default" else d
             | None => "homey_default"
             end in
  let rt1 := armed rt in
  await n (KAdopt q)
    match ws_send (mkRequest "2.0" id src method params) rt1 with
    | (rt2, None) => rt2
    | (rt2, Some err) => send_catch method params retries id t n err rt2
    end.
Proof.
  unfold request_send, armed. cbn.
  replace (messageId (api rt) + 1 - 1) with (messageId (api rt)) by lia.
  reflexivity.
Qed.

Lemma WF_armed rt :
  WF rt -> WF (armed rt).
Proof.
  intros [Hid Hslots Hinj Htimers Hreact Hmicro Hsock Hsorted Hrange].
  assert (Hfresh : pendingRequests (api rt) !! messageId (api rt) = None).
  { destruct (pendingRequests (api rt) !! messageId (api rt)) as [r|] eqn:Hr; [|done].
    destruct (Hslots _ _ Hr). lia. }
  constructor; cbn.
  - lia.
  - intros id r. destruct (decide (id = messageId (api rt))) as [->|Hne].
    + rewrite lookup_insert_eq. intros [= <-]. cbn. lia.
    + rewrite lookup_insert_ne by done. intros Hr. specialize (Hslots id r Hr). lia.
  - intros id id' r r'.
    destruct (decide (id = messageId (api rt))) as [->|Hne];
      destruct (decide (id' = messageId (api rt))) as [->|Hne']; [done| | |].
    + rewrite lookup_insert_eq, lookup_insert_ne by done. intros [= <-] Hr'. cbn.
      destruct (Hslots _ _ Hr') as (_ & ? & ?). lia.
    + rewrite lookup_insert_eq, lookup_insert_ne by done. intros Hr [= <-]. cbn.
      destruct (Hslots _ _ Hr) as (_ & ? & ?). lia.
    + rewrite !lookup_insert_ne by done. apply Hinj.
  - intros t tm. destruct (decide (t = next_timer rt)) as [->|Hne].
    + rewrite lookup_insert_eq. intros [= <-]. split; [lia|].
      unfold timer_ok. cbn. by rewrite !lookup_insert_eq.
    + rewrite lookup_insert_ne by done. intros Ht.
      destruct (Htimers t tm Ht) as [Hlt Hok]. split; [lia|].
      unfold timer_ok in *. destruct (action tm) as [id n|d|]; cbn; [| |done].
      * destruct Hok as (Hslot & Hn & Hd).
        destruct (Hslots _ _ Hslot) as (? & Hlt' & _). cbn in Hlt'.
        rewrite !lookup_insert_ne by lia. done.
      * destruct Hok as (Hd & ? & Hsep). split; [lia|]. split; [done|].
        intros id r. destruct (decide (id = messageId (api rt))) as [->|Hne'].
        -- rewrite lookup_insert_eq. intros [= <-]. cbn. lia.
        -- rewrite lookup_insert_ne by done. apply Hsep.
  - intros p k Hin. destruct (Hreact p k Hin) as (? & ? & Hns).
    split; [lia|]. split; [lia|].
    intros id r. cbn. destruct (decide (id = messageId (api rt))) as [->|Hne'].
    + rewrite lookup_insert_eq. intros [= <-]. cbn. lia.
    + rewrite lookup_insert_ne by done. apply Hns.
  - intros k o Hin. destruct (Hmicro k o Hin) as (? & Hns). split; [lia|].
    intros id r. cbn. destruct (decide (id = messageId (api rt))) as [->|Hne'].
    + rewrite lookup_insert_eq. intros [= <-]. cbn. lia.
    + rewrite lookup_insert_ne by done. apply Hns.
  - intros w p Hw. destruct (Hsock w p Hw) as (? & ? & Hns). split; [done|]. split; [lia|].
    intros id r. cbn. destruct (decide (id = messageId (api rt))) as [->|Hne'].
    + rewrite lookup_insert_eq. intros [= <-]. cbn. lia.
    + rewrite lookup_insert_ne by done. apply Hns.
  - done.
  - eapply Forall_impl; [exact Hrange|]. cbn. intros; lia.
Qed.

(** *** How a state grows *)

(** Promises are only added, and a request stored under a new promise
    has one that did not exist before. *)
Definition grows (rt rt' : Runtime) : Prop :=
  (next_promise rt <= next_promise rt')%nat
  /\ forall id r, pendingRequests (api rt') !! id = Some r ->
       pendingRequests (api rt) !! id = Some r \/ (next_promise rt <= res_promise r)%nat.

Lemma grows_refl rt : grows rt rt.
Proof. split; [lia|auto]. Qed.

Lemma grows_trans rt1 rt2 rt3 : grows rt1 rt2 -> grows rt2 rt3 -> grows rt1 rt3.
Proof.
  intros [Hn1 Hs1] [Hn2 Hs2]. split; [lia|].
  intros id r Hr. destruct (Hs2 id r Hr) as [Hr'|?]; [|right; lia].
  by apply Hs1.
Qed.

Lemma grows_not_slot rt rt' x :
  grows rt rt' -> (x < next_promise rt)%nat -> not_slot rt x -> not_slot rt' x.
Proof.
  intros [_ Hs] Hx Hns id r Hr. destruct (Hs id r Hr) as [Hr'|?]; [by eapply Hns|lia].
Qed.

Lemma grows_same_slots rt rt' :
  (next_promise rt <= next_promise rt')%nat ->
  pendingRequests (api rt') = pendingRequests (api rt) -> grows rt rt'.
Proof. intros Hn Hs. split; [done|]. rewrite Hs. auto. Qed.

Lemma grows_new_promise st rt : grows rt (new_promise st rt).2.
Proof. apply grows_same_slots; cbn; [lia|done]. Qed.

Lemma settle_api x o rt : api (settle x o rt) = api rt.
Proof. unfold settle. by destruct (promises rt !! x) as [[|]|]. Qed.

Lemma settle_next_promise x o rt : next_promise (settle x o rt) = next_promise rt.
Proof. unfold settle. by destruct (promises rt !! x) as [[|]|]. Qed.

Lemma await_api p k rt : api (await p k rt) = api rt.
Proof. unfold await. by destruct (promises rt !! p) as [[|]|]. Qed.

Lemma await_next_promise p k rt : next_promise (await p k rt) = next_promise rt.
Proof. unfold await. by destruct (promises rt !! p) as [[|]|]. Qed.

Lemma grows_settle x o rt : grows rt (settle x o rt).
Proof. apply grows_same_slots; [by rewrite settle_next_promise|by rewrite settle_api]. Qed.

Lemma grows_await p k rt : grows rt (await p k rt).
Proof. apply grows_same_slots; [by rewrite await_next_promise|by rewrite await_api]. Qed.

Lemma grows_connect rt : grows rt (connect rt).2.
Proof.
  unfold connect. destruct (ws (api rt)); apply grows_same_slots; cbn; (lia || done).
Qed.

Lemma grows_armed rt : grows rt (armed rt).
Proof.
  split; cbn; [lia|]. intros id r.
  destruct (decide (id = messageId (api rt))) as [->|Hne].
  - rewrite lookup_insert_eq. intros [= <-]. cbn. right; lia.
  - rewrite lookup_insert_ne by done. auto.
Qed.

(** [ws.send] only adds to what reached the transport. *)
Lemma ws_send_cases req rt :
  (exists err, ws_send req rt = (rt, Some err) /\ ws (api rt) = None)
  \/ (exists w, ws (api rt) = Some w
       /\ ws_send req rt
          = (with_wire (wire rt ++ [WSend w req (transport rt (sends rt))]) rt,
             transport rt (sends rt))).
Proof. unfold ws_send. destruct (ws (api rt)) as [w|]; eauto. Qed.

Lemma sorted_snoc (l : list Z) y :
  StronglySorted Z.lt l -> Forall (fun x => x < y) l -> StronglySorted Z.lt (l ++ [y]).
Proof.
  induction 1 as [|a l Hs IH Ha]; cbn; intros Hlt.
  - repeat constructor.
  - apply Forall_cons in Hlt as [Ha' Hl]. constructor; [by apply IH|].
    apply Forall_app. split; [done|]. by repeat constructor.
Qed.

Lemma WF_wire_send w req r rt :
  WF rt -> Forall (fun id => id < req_id req) (sent_ids rt) ->
  1 <= req_id req < messageId (api rt) ->
  WF (with_wire (wire rt ++ [WSend w req r]) rt).
Proof.
  intros [Hid Hslots Hinj Htimers Hreact Hmicro Hsock Hsorted Hrange] Hlt Hreq.
  constructor; cbn; try done.
  - unfold sent_ids in *. cbn. rewrite omap_sent_snoc. cbn. by apply sorted_snoc.
  - unfold sent_ids in *. cbn. rewrite omap_sent_snoc. cbn.
    apply Forall_app. split; [done|]. constructor; [done|constructor].
Qed.

Lemma WF_request_send method params retries q rt :
  WF rt -> (q < next_promise rt)%nat -> not_slot rt q ->
  WF (request_send method params retries q rt)
  /\ grows rt (request_send method params retries q rt).
Proof.
  intros Hwf Hq Hns. rewrite request_send_unfold. cbn zeta.
  set (req := mkRequest _ _ _ _ _).
  pose proof (WF_armed rt Hwf) as Hwf1.
  pose proof (grows_armed rt) as Hg1.
  assert (Hns1 : not_slot (armed rt) q) by by eapply grows_not_slot.
  assert (Hlt : Forall (fun id => id < req_id req) (sent_ids (armed rt))).
  { eapply Forall_impl; [exact (wf_sent_range _ Hwf)|]. cbn. intros; lia. }
  assert (Hreq : 1 <= req_id req < messageId (api (armed rt))).
  { cbn. pose proof (wf_id _ Hwf). lia. }
  assert (Hsettle : forall rt2,
    WF rt2 -> timers rt2 = timers (armed rt) ->
    pendingRequests (api rt2) = pendingRequests (api (armed rt)) ->
    forall t tm id, timers (clearTimeout (next_timer rt) rt2) !! t = Some tm ->
      action tm <> TRequestTimeout id (next_promise rt)).
  { intros rt2 Hwf2 Ht2 Hp2 t tm id Hdel Hact.
    unfold clearTimeout in Hdel. cbn in Hdel.
    apply lookup_delete_Some in Hdel as [Hne Ht].
    destruct (wf_timers _ Hwf2 t tm Ht) as [_ Hok]. unfold timer_ok in Hok.
    rewrite Hact in Hok. destruct Hok as (Hslot & _).
    assert (Hmine : pendingRequests (api rt2) !! messageId (api rt)
                    = Some (mkResolver (next_timer rt) (next_promise rt))).
    { rewrite Hp2. cbn. apply lookup_insert_eq. }
    pose proof (wf_inj _ Hwf2 _ _ _ _ Hslot Hmine (or_introl eq_refl)) as ->.
    rewrite Hmine in Hslot. by injection Hslot. }
  destruct (ws_send_cases req (armed rt)) as [(err & -> & _)|(w & _ & ->)].
  - rewrite send_catch_throws. split.
    + apply WF_await.
      * apply WF_settle; [by apply WF_clearTimeout|]. by apply Hsettle.
      * rewrite settle_next_promise. cbn. lia.
      * rewrite settle_next_promise. cbn. lia.
      * intros id r. rewrite settle_api. apply Hns1.
    + eapply grows_trans; [exact Hg1|].
      eapply grows_trans; [|apply grows_await].
      eapply grows_trans; [|apply grows_settle].
      apply grows_same_slots; cbn; [lia|done].
  - pose proof (WF_wire_send w req (transport (armed rt) (sends (armed rt))) _ Hwf1 Hlt Hreq)
      as Hwf2.
    destruct (transport (armed rt) (sends (armed rt))) as [err|].
    + rewrite send_catch_throws. split.
      * apply WF_await.
        -- apply WF_settle; [by apply WF_clearTimeout|]. by apply Hsettle.
        -- rewrite settle_next_promise. cbn. lia.
        -- rewrite settle_next_promise. cbn. lia.
        -- intros id r. rewrite settle_api. apply Hns1.
      * eapply grows_trans; [exact Hg1|].
        eapply grows_trans; [|apply grows_await].
        eapply grows_trans; [|apply grows_settle].
        apply grows_same_slots; cbn; [lia|done].
    + split.
      * apply WF_await; [done|cbn; lia|cbn; lia|]. intros id r. apply Hns1.
      * eapply grows_trans; [exact Hg1|].
        eapply grows_trans; [|apply grows_await].
        apply grows_same_slots; cbn; [lia|done].
Qed.

Lemma new_promise_fresh st rt :
  WF rt ->
  ((new_promise st rt).1 < next_promise (new_promise st rt).2)%nat
  /\ not_slot (new_promise st rt).2 (new_promise st rt).1.
Proof.
  intros Hwf. cbn. split; [lia|].
  intros id r Hr. destruct (wf_slots _ Hwf id r Hr) as (_ & ? & _). lia.
Qed.

Lemma WF_request method params retries rt :
  WF rt ->
  WF (request method params retries rt).2
  /\ grows rt (request method params retries rt).2
  /\ ((request method params retries rt).1
      < next_promise (request method params retries rt).2)%nat
  /\ not_slot (request method params retries rt).2 (request method params retries rt).1.
Proof.
  intros Hwf. unfold request.
  pose proof (WF_new_promise Pending rt Hwf) as Hwf0.
  pose proof (grows_new_promise Pending rt) as Hg0.
  destruct (new_promise_fresh Pending rt Hwf) as [Hq Hns].
  destruct (new_promise Pending rt) as [q rt0] eqn:Hnew. cbn [fst snd] in *.
  assert (isConnected (api rt0) = isConnected (api rt)) as ->.
  { by injection Hnew as _ <-. }
  destruct (isConnected (api rt)).
  - cbn [fst snd].
    destruct (WF_request_send method params retries q rt0 Hwf0 Hq Hns) as [Hwf1 Hg1].
    split; [done|]. split; [by eapply grows_trans|].
    split; [destruct Hg1; lia|]. by eapply grows_not_slot.
  - destruct (WF_connect rt0 Hwf0) as (Hwf1 & Hc & Hcns).
    pose proof (grows_connect rt0) as Hg1.
    destruct (connect rt0) as [c rt1]. cbn [fst snd] in *.
    assert (Hq1 : (q < next_promise rt1)%nat) by (destruct Hg1; lia).
    assert (Hns1 : not_slot rt1 q) by by eapply grows_not_slot.
    split; [by apply WF_await|].
    split; [eapply grows_trans; [exact Hg0|]; eapply grows_trans; [exact Hg1|apply grows_await]|].
    rewrite await_next_promise. split; [done|].
    intros id r. rewrite await_api. apply Hns1.
Qed.

Lemma WF_request_catch method params retries q err rt :
  WF rt -> (q < next_promise rt)%nat -> not_slot rt q ->
  WF (request_catch method params retries q err rt).
Proof.
  intros Hwf Hq Hns. unfold request_catch.
  destruct ((0 <? retries) && retryable (err_code err)).
  - pose proof (WF_new_promise Pending rt Hwf) as Hwf0.
    destruct (new_promise_fresh Pending rt Hwf) as [Hd Hdns].
    pose proof (grows_new_promise Pending rt) as Hg0.
    destruct (new_promise Pending rt) as [d rt0]. cbn [fst snd] in *.
    pose proof (WF_resolve_later d rt0 Hwf0 Hd Hdns) as Hwf1.
    destruct (setTimeout (TResolve d) CONFIG.RETRY_DELAY rt0) as [t rt1] eqn:Ht.
    assert (Hsame : next_promise rt1 = next_promise rt0 /\ api rt1 = api rt0).
    { unfold setTimeout in Ht. by injection Ht as _ <-. }
    destruct Hsame as [Hnp Hapi]. cbn [snd] in Hwf1.
    apply WF_await; [done|lia| |].
    + cbn. destruct Hg0. lia.
    + cbn. intros id r. rewrite Hapi. by apply (grows_not_slot rt rt0).
  - apply WF_settle; [done|].
    intros t tm id Ht Hact. destruct (wf_timers _ Hwf t tm Ht) as [_ Hok].
    unfold timer_ok in Hok. rewrite Hact in Hok. destruct Hok as (Hslot & _).
    by apply (Hns _ _ Hslot).
Qed.

(** Retiring a request: its slot is deleted and its timer cleared. *)
Definition retired (id : Z) (t : nat) (rt : Runtime) : Runtime :=
  clearTimeout t
    (with_api (fun a => set_pendingRequests (delete id (pendingRequests a)) a) rt).

Lemma not_slot_retired id t rt x : not_slot rt x -> not_slot (retired id t rt) x.
Proof.
  intros Hns id' r'. cbn. intros [_ Hr']%lookup_delete_Some. by eapply Hns.
Qed.

Lemma WF_retired id r rt :
  WF rt -> pendingRequests (api rt) !! id = Some r ->
  WF (retired id (res_timeout r) rt)
  /\ forall t tm id', timers (retired id (res_timeout r) rt) !! t = Some tm ->
       action tm <> TRequestTimeout id' (res_promise r).
Proof.
  intros Hwf Hr.
  destruct Hwf as [Hid Hslots Hinj Htimers Hreact Hmicro Hsock Hsorted Hrange].
  assert (Hother : forall t tm id' n, t <> res_timeout r -> timers rt !! t = Some tm ->
            action tm = TRequestTimeout id' n -> id' <> id /\ n <> res_promise r).
  { intros t tm id' n Hne Ht Hact. destruct (Htimers t tm Ht) as [_ Hok].
    unfold timer_ok in Hok. rewrite Hact in Hok. destruct Hok as (Hslot & _).
    split.
    - intros ->. assert (r = mkResolver t n) as Heq by congruence.
      rewrite Heq in Hne. by cbn in Hne.
    - intros ->. pose proof (Hinj _ _ _ _ Hslot Hr (or_introl eq_refl)) as ->.
      assert (r = mkResolver t (res_promise r)) as Heq by congruence.
      rewrite Heq in Hne. by cbn in Hne. }
  split.
  - constructor; cbn; try done.
    + intros id' r' [_ Hr']%lookup_delete_Some. by apply Hslots.
    + intros id1 id2 r1 r2 [_ H1]%lookup_delete_Some [_ H2]%lookup_delete_Some.
      by apply Hinj.
    + intros t tm [Hne Ht]%lookup_delete_Some.
      destruct (Htimers t tm Ht) as [Hlt Hok]. split; [done|].
      unfold timer_ok in *. destruct (action tm) as [id' n|d|] eqn:Hact; cbn; [| |done].
      * destruct (Hother t tm id' n ltac:(done) Ht Hact) as [Hid' _].
        by rewrite lookup_delete_ne.
      * destruct Hok as (? & ? & Hsep). split; [done|]. split; [done|].
        intros id' r' [_ Hr']%lookup_delete_Some. by apply (Hsep id' r').
    + intros p k Hin. destruct (Hreact p k Hin) as (? & ? & Hns).
      split; [done|]. split; [done|]. by apply not_slot_retired.
    + intros k o Hin. destruct (Hmicro k o Hin) as (? & Hns). split; [done|].
      by apply not_slot_retired.
    + intros w p Hw. destruct (Hsock w p Hw) as (? & ? & Hns). split; [done|]. split; [done|].
      by apply not_slot_retired.
  - intros t tm id' Ht Hact. cbn in Ht. apply lookup_delete_Some in Ht as [Hne Ht].
    by destruct (Hother t tm id' (res_promise r) ltac:(done) Ht Hact).
Qed.

Lemma pending_get_Some v a id r :
  pending_get v a = Some (id, r) ->
  as_int v = Some id /\ pendingRequests a !! id = Some r.
Proof.
  unfold pending_get. destruct (as_int v) as [z|]; [|done].
  destruct (pendingRequests a !! z) as [r'|] eqn:Hz; [|done].
  cbn. by intros [= <- <-].
Qed.

Lemma handleRpcResponse_unfold m rt id r :
  pending_get (msg_id m) (api rt) = Some (id, r) ->
  handleRpcResponse m rt =
  settle (res_promise r)
    (if truthy (msg_error m)
     then Rejected (Error ("RPC Error " ++ template (get (msg_error m) "code")
                           ++ ": " ++ template (get (msg_error m) "message")))
     else Fulfilled (msg_result m))
    (retired id (res_timeout r) rt).
Proof.
  intros Hget. unfold handleRpcResponse. rewrite Hget.
  apply pending_get_Some in Hget as [Hint _].
  unfold pending_delete. rewrite Hint. unfold retired.
  by destruct (truthy (msg_error m)).
Qed.

Lemma WF_handleRpcResponse m rt : WF rt -> WF (handleRpcResponse m rt).
Proof.
  intros Hwf.
  destruct (pending_get (msg_id m) (api rt)) as [[id r]|] eqn:Hget.
  - rewrite (handleRpcResponse_unfold _ _ _ _ Hget).
    apply pending_get_Some in Hget as [_ Hr].
    destruct (WF_retired id r rt Hwf Hr) as [Hwf1 Hfree].
    by apply WF_settle.
  - unfold handleRpcResponse. by rewrite Hget.
Qed.

Lemma WF_delivered l rt : WF rt -> WF (with_delivered l rt).
Proof. by intros []. Qed.

Lemma WF_handleMessage m rt rt' :
  WF rt -> handleMessage m rt = Returns rt' -> WF rt'.
Proof.
  intros Hwf. unfold handleMessage, handleNotification.
  repeat case_match; intros [= <-]; auto using WF_handleRpcResponse, WF_delivered.
Qed.

(** Changes to fields the invariant does not read. *)
Lemma WF_same rt rt' :
  WF rt ->
  messageId (api rt') = messageId (api rt) ->
  pendingRequests (api rt') = pendingRequests (api rt) ->
  promises rt' = promises rt -> next_promise rt' = next_promise rt ->
  reactions rt' = reactions rt -> microtasks rt' ⊆ microtasks rt ->
  timers rt' = timers rt -> next_timer rt' = next_timer rt ->
  sockets rt' = sockets rt -> next_socket rt' = next_socket rt ->
  sent_ids rt' = sent_ids rt ->
  WF rt'.
Proof.
  intros [Hid Hslots Hinj Htimers Hreact Hmicro Hsock Hsorted Hrange]
    Hm Hp Hpr Hnp Hre Hmi Hti Hnt Hso Hns Hse.
  constructor; unfold timer_ok, not_slot in *;
    rewrite ?Hm, ?Hp, ?Hpr, ?Hnp, ?Hre, ?Hti, ?Hnt, ?Hso, ?Hns, ?Hse; try done.
  intros k o Hin. apply (Hmicro k o). by apply Hmi.
Qed.

Lemma not_slot_no_timer rt x :
  WF rt -> not_slot rt x ->
  forall t tm id, timers rt !! t = Some tm -> action tm <> TRequestTimeout id x.
Proof.
  intros Hwf Hns t tm id Ht Hact. destruct (wf_timers _ Hwf t tm Ht) as [_ Hok].
  unfold timer_ok in Hok. rewrite Hact in Hok. destruct Hok as (Hslot & _).
  by apply (Hns _ _ Hslot).
Qed.

Lemma WF_run_cont k o rest rt :
  WF rt -> microtasks rt = (k, o) :: rest ->
  WF (run_cont k o (with_microtasks rest rt)).
Proof.
  intros Hwf Hq.
  destruct (wf_microtasks _ Hwf k o) as [Hk Hns]; [rewrite Hq; left|].
  set (rt0 := with_microtasks rest rt).
  assert (Hwf0 : WF rt0).
  { apply (WF_same rt); try done. cbn. rewrite Hq. set_solver. }
  assert (Hk0 : (cont_target k < next_promise rt0)%nat) by done.
  assert (Hns0 : not_slot rt0 (cont_target k)) by done.
  clearbody rt0. clear Hwf Hq Hk Hns rt.
  destruct k as [p|method params retries q|method params retries q|q];
    cbn [run_cont cont_target] in *.
  - apply WF_settle; [done|]. by apply not_slot_no_timer.
  - destruct o as [v|err].
    + by apply WF_request_send.
    + by apply WF_request_catch.
  - destruct o as [v|err].
    + destruct (WF_request method params (retries - 1) rt0 Hwf0) as (Hwf1 & Hg & Hq' & _).
      destruct (request method params (retries - 1) rt0) as [q' rt1]. cbn [fst snd] in *.
      apply WF_await; [done|done|cbn; destruct Hg; lia|]. by eapply grows_not_slot.
    + apply WF_settle; [done|]. by apply not_slot_no_timer.
  - apply WF_settle; [done|]. by apply not_slot_no_timer.
Qed.

Lemma WF_run_timer t tm rt :
  WF rt -> timers rt !! t = Some tm ->
  WF (run_timer (action tm) (with_timers (delete t (timers rt)) rt)).
Proof.
  intros Hwf Ht. destruct (wf_timers _ Hwf t tm Ht) as [_ Hok].
  unfold timer_ok in Hok. destruct (action tm) as [id n|d|] eqn:Hact; [| |done].
  - destruct Hok as (Hslot & _).
    destruct (WF_retired id _ rt Hwf Hslot) as [Hwf1 Hfree]. cbn in Hwf1, Hfree.
    unfold run_timer.
    change (with_api _ (with_timers (delete t (timers rt)) rt)) with (retired id t rt).
    by apply WF_settle.
  - destruct Hok as (Hd & _ & Hsep). unfold run_timer.
    apply WF_settle; [by apply (WF_clearTimeout t rt)|].
    cbn. intros t' tm' id [_ Ht']%lookup_delete_Some Hact'.
    destruct (wf_timers _ Hwf t' tm' Ht') as [_ Hok'].
    unfold timer_ok in Hok'. rewrite Hact' in Hok'. destruct Hok' as (Hslot & _).
    by destruct (Hsep _ _ Hslot).
Qed.

Lemma WF_on_open w p rt :
  WF rt -> sockets rt !! w = Some p -> WF (on_open p rt).
Proof.
  intros Hwf Hw. destruct (wf_sockets _ Hwf w p Hw) as (_ & Hp & Hns).
  unfold on_open, getStatus.
  set (rt0 := with_api (set_isConnected true) rt).
  assert (Hwf0 : WF rt0) by (by apply (WF_same rt)).
  destruct (WF_request "Shelly.GetStatus" (VObj []) 1 rt0 Hwf0) as (Hwf1 & Hg & Hq & _).
  destruct (request "Shelly.GetStatus" (VObj []) 1 rt0) as [q rt1]. cbn [fst snd] in *.
  apply WF_await; [done|done|cbn; destruct Hg; cbn in *; lia|].
  by apply (grows_not_slot rt0).
Qed.

Lemma WF_step e rt : WF rt -> WF (step e rt).
Proof.
  intros Hwf. destruct e as [|method params retries| |h|w|w m|w|w err|t|ms|]; cbn [step].
  - by apply WF_connect.
  - by apply WF_request.
  - by apply WF_cleanup.
  - by apply (WF_same rt).
  - destruct (sockets rt !! w) as [p|] eqn:Hw; [|done]. by eapply WF_on_open.
  - destruct (sockets rt !! w) as [p|]; [|done].
    destruct (handleMessage m rt) as [rt'|] eqn:Hm; [|done]. by eapply WF_handleMessage.
  - destruct (sockets rt !! w) as [p|]; [|done]. by apply (WF_same rt).
  - destruct (sockets rt !! w) as [p|] eqn:Hw; [|done].
    destruct (wf_sockets _ Hwf w p Hw) as (_ & Hp & Hns).
    unfold handleError. pose proof (WF_cleanup rt Hwf) as Hwf1.
    apply WF_settle; [done|]. apply not_slot_no_timer; [done|].
    unfold cleanupWebSocket. by destruct (ws (api rt)).
  - destruct (timers rt !! t) as [tm|] eqn:Ht; [|done].
    destruct (due tm <=? now rt); [|done]. by apply WF_run_timer.
  - destruct (0 <=? ms); [|done]. by apply (WF_same rt).
  - destruct (microtasks rt) as [|[k o] rest] eqn:Hq; [done|]. by apply WF_run_cont.
Qed.

(** Every state a channel can reach satisfies the invariant. *)
Lemma WF_run es rt : WF rt -> WF (run es rt).
Proof.
  unfold run. revert rt. induction es as [|e es IH]; intros rt Hwf; cbn; [done|].
  by apply IH, WF_step.
Qed.

Lemma WF_reachable ip id tr es : WF (run es (boot (constructor ip id) tr)).
Proof. apply WF_run, WF_boot. Qed.

(** *** What a step leaves alone *)

(** From [rt] to [rt']: the id counter has not gone back, and the timers
    that existed are untouched. *)
Definition extends (rt rt' : Runtime) : Prop :=
  messageId (api rt) <= messageId (api rt')
  /\ (next_timer rt <= next_timer rt')%nat
  /\ forall t, (t < next_timer rt)%nat -> timers rt' !! t = timers rt !! t.

Lemma extends_refl rt : extends rt rt.
Proof. repeat split; (lia || done). Qed.

Lemma extends_same rt x x' :
  extends rt x ->
  messageId (api x') = messageId (api x) -> timers x' = timers x ->
  next_timer x' = next_timer x ->
  extends rt x'.
Proof. intros (? & ? & Ht) Hm Hti Hnt. unfold extends. rewrite Hm, Hti, Hnt. auto. Qed.

Lemma extends_new_promise rt x st : extends rt x -> extends rt (new_promise st x).2.
Proof. intros H. by apply (extends_same rt x). Qed.

Lemma settle_timers x o rt : timers (settle x o rt) = timers rt.
Proof. unfold settle. by destruct (promises rt !! x) as [[|]|]. Qed.

Lemma settle_next_timer x o rt : next_timer (settle x o rt) = next_timer rt.
Proof. unfold settle. by destruct (promises rt !! x) as [[|]|]. Qed.

Lemma await_timers p k rt : timers (await p k rt) = timers rt.
Proof. unfold await. by destruct (promises rt !! p) as [[|]|]. Qed.

Lemma await_next_timer p k rt : next_timer (await p k rt) = next_timer rt.
Proof. unfold await. by destruct (promises rt !! p) as [[|]|]. Qed.

Lemma extends_settle rt x y o : extends rt x -> extends rt (settle y o x).
Proof.
  intros H. apply (extends_same rt x); [done|..].
  - by rewrite settle_api.
  - apply settle_timers.
  - apply settle_next_timer.
Qed.

Lemma extends_await rt x p k : extends rt x -> extends rt (await p k x).
Proof.
  intros H. apply (extends_same rt x); [done|..].
  - by rewrite await_api.
  - apply await_timers.
  - apply await_next_timer.
Qed.

Lemma extends_setTimeout rt x a ms : extends rt x -> extends rt (setTimeout a ms x).2.
Proof.
  intros (Hm & Hn & Ht). split; [done|]. split; [cbn; lia|].
  intros t Hlt. cbn. rewrite lookup_insert_ne by lia. by apply Ht.
Qed.

(** Clearing a timer that did not exist in [rt]. *)
Lemma extends_clear_new rt x t :
  extends rt x -> (next_timer rt <= t)%nat -> extends rt (clearTimeout t x).
Proof.
  intros (Hm & Hn & Ht) Hge. split; [done|]. split; [done|].
  intros t' Hlt. cbn. rewrite lookup_delete_ne by lia. by apply Ht.
Qed.

Lemma extends_connect rt x : extends rt x -> extends rt (connect x).2.
Proof.
  intros H. unfold connect. destruct (ws (api x)); by apply (extends_same rt x).
Qed.

Lemma extends_cleanup rt x : extends rt x -> extends rt (cleanupWebSocket x).
Proof.
  intros H. unfold cleanupWebSocket. destruct (ws (api x)); [|done].
  by apply (extends_same rt x).
Qed.

Lemma extends_armed rt x : extends rt x -> extends rt (armed x).
Proof.
  intros (Hm & Hn & Ht). split; [cbn; lia|]. split; [cbn; lia|].
  intros t Hlt. cbn. rewrite lookup_insert_ne by lia. by apply Ht.
Qed.

Lemma extends_request_send rt x method params retries q :
  extends rt x -> extends rt (request_send method params retries q x).
Proof.
  intros H. rewrite request_send_unfold. cbn zeta.
  pose proof (extends_armed rt x H) as H1.
  assert (Hcatch : forall y err, extends rt y -> next_timer (armed x) = next_timer y ->
            extends rt (send_catch method params retries (messageId (api x))
                          (next_timer x) (next_promise x) err y)).
  { intros y err Hy Hnt. rewrite send_catch_throws.
    apply extends_settle, extends_clear_new; [done|]. destruct H as (_ & ? & _). lia. }
  apply extends_await.
  destruct (ws_send_cases (mkRequest "2.0" (messageId (api x))
              match deviceId (api x) with
              | Some d => if bool_decide (d = "") then "homey_default" else d
              | None => "homey_default"
              end method params) (armed x)) as [(err & -> & _)|(w & _ & ->)].
  - by apply Hcatch.
  - destruct (transport (armed x) (sends (armed x))) as [err|].
    + apply Hcatch; [|done]. by apply (extends_same rt (armed x)).
    + by apply (extends_same rt (armed x)).
Qed.

Lemma extends_request rt x method params retries :
  extends rt x -> extends rt (request method params retries x).2.
Proof.
  intros H. unfold request.
  pose proof (extends_new_promise rt x Pending H) as H0.
  destruct (new_promise Pending x) as [q x0] eqn:Hnew. cbn [fst snd] in *.
  destruct (isConnected (api x0)); cbn [snd].
  - by apply extends_request_send.
  - pose proof (extends_connect rt x0 H0) as H1.
    destruct (connect x0) as [c x1]. cbn [snd] in *. by apply extends_await.
Qed.

Lemma extends_request_catch rt x method params retries q err :
  extends rt x -> extends rt (request_catch method params retries q err x).
Proof.
  intros H. unfold request_catch.
  destruct ((0 <? retries) && retryable (err_code err)).
  - pose proof (extends_new_promise rt x Pending H) as H0.
    destruct (new_promise Pending x) as [d x0]. cbn [snd] in *.
    pose proof (extends_setTimeout rt x0 (TResolve d) CONFIG.RETRY_DELAY H0) as H1.
    destruct (setTimeout (TResolve d) CONFIG.RETRY_DELAY x0) as [t x1]. cbn [snd] in *.
    by apply extends_await.
  - by apply extends_settle.
Qed.

Lemma extends_run_cont rt x k o : extends rt x -> extends rt (run_cont k o x).
Proof.
  intros H. destruct k as [p|method params retries q|method params retries q|q];
    cbn [run_cont].
  - by apply extends_settle.
  - destruct o; [by apply extends_request_send|by apply extends_request_catch].
  - destruct o; [|by apply extends_settle].
    pose proof (extends_request rt x method params (retries - 1) H) as H1.
    destruct (request method params (retries - 1) x) as [q' x1]. cbn [snd] in *.
    by apply extends_await.
  - by apply extends_settle.
Qed.

Lemma extends_on_open rt p : extends rt (on_open p rt).
Proof.
  unfold on_open, getStatus.
  assert (H0 : extends rt (with_api (set_isConnected true) rt))
    by (by apply (extends_same rt rt); [apply extends_refl|..]).
  pose proof (extends_request rt _ "Shelly.GetStatus" (VObj []) 1 H0) as H1.
  destruct (request "Shelly.GetStatus" (VObj []) 1 _) as [q x1]. cbn [snd] in *.
  by apply extends_await.
Qed.

Lemma extends_run_timer rt x a : extends rt x -> extends rt (run_timer a x).
Proof.
  intros H. destruct a as [id n|d|method params retries p]; cbn [run_timer].
  - apply extends_settle. by apply (extends_same rt x).
  - by apply extends_settle.
  - pose proof (extends_request rt x method params retries H) as H1.
    destruct (request method params retries x) as [q' x1]. cbn [snd] in *.
    by apply extends_await.
Qed.

Lemma handleNotification_frame m rt rt' :
  handleNotification m rt = Returns rt' ->
  rt' = rt \/ exists env, rt' = with_delivered (delivered rt ++ [env]) rt.
Proof.
  unfold handleNotification. repeat case_match; intros [= <-]; eauto.
Qed.

(** The id counter never goes back. *)
Lemma step_messageId e rt : messageId (api rt) <= messageId (api (step e rt)).
Proof.
  destruct e as [|method params retries| |h|w|w m|w|w err|t|ms|]; cbn [step].
  - apply (extends_connect rt rt), extends_refl.
  - apply (extends_request rt rt), extends_refl.
  - apply (extends_cleanup rt rt), extends_refl.
  - cbn. lia.
  - destruct (sockets rt !! w); [|lia]. apply extends_on_open.
  - destruct (sockets rt !! w); [|lia].
    unfold handleMessage. destruct (is_notify m).
    + destruct (handleNotification m rt) as [rt'|] eqn:Hn; [|lia].
      apply handleNotification_frame in Hn as [->|[env ->]]; cbn; lia.
    + destruct (truthy (msg_id m)); [|lia].
      unfold handleRpcResponse.
      destruct (pending_get (msg_id m) (api rt)) as [[id r]|] eqn:Hget; [|lia].
      apply pending_get_Some in Hget as [Hint _].
      destruct (truthy (msg_error m)); rewrite settle_api; cbn;
        unfold pending_delete; rewrite Hint; cbn; lia.
  - destruct (sockets rt !! w); cbn; lia.
  - destruct (sockets rt !! w); [|lia]. unfold handleError.
    rewrite settle_api. apply (extends_cleanup rt rt), extends_refl.
  - destruct (timers rt !! t) as [tm|]; [|lia]. destruct (due tm <=? now rt); [|lia].
    apply (extends_run_timer (with_timers (delete t (timers rt)) rt)), extends_refl.
  - destruct (0 <=? ms); cbn; lia.
  - destruct (microtasks rt) as [|[k o] rest]; [lia|].
    apply (extends_run_cont (with_microtasks rest rt)), extends_refl.
Qed.

(** The event is a response that bears the correlation id [id]. *)
Definition responds (id : Z) (e : Event) : Prop :=
  exists w m, e = WsMessage w m /\ is_notify m = false /\ as_int (msg_id m) = Some id.

(** A request timer stays armed until it fires or the response to its
    request arrives. *)
Lemma step_timer_persists e rt t tm id n :
  WF rt -> timers rt !! t = Some tm -> action tm = TRequestTimeout id n ->
  e <> TimerFires t -> ~ responds id e ->
  timers (step e rt) !! t = Some tm.
Proof.
  intros Hwf Ht Hact Hfire Hresp.
  destruct (wf_timers _ Hwf t tm Ht) as [Hlt Hok].
  unfold timer_ok in Hok. rewrite Hact in Hok. destruct Hok as (Hslot & _).
  assert (Hext : forall rt', extends rt rt' -> timers rt' !! t = Some tm).
  { intros rt' (_ & _ & Hsame). by rewrite Hsame. }
  destruct e as [|method params retries| |h|w|w m|w|w err|t'|ms|]; cbn [step].
  - apply Hext, extends_connect, extends_refl.
  - apply Hext, extends_request, extends_refl.
  - apply Hext, extends_cleanup, extends_refl.
  - done.
  - destruct (sockets rt !! w); [|done]. apply Hext, extends_on_open.
  - destruct (sockets rt !! w); [|done].
    unfold handleMessage. destruct (is_notify m) eqn:Hnot.
    + destruct (handleNotification m rt) as [rt'|] eqn:Hn; [|done].
      by apply handleNotification_frame in Hn as [->|[env ->]].
    + destruct (truthy (msg_id m)); [|done].
      destruct (pending_get (msg_id m) (api rt)) as [[id' r]|] eqn:Hget.
      * rewrite (handleRpcResponse_unfold _ _ _ _ Hget), settle_timers. cbn.
        apply pending_get_Some in Hget as [Hint Hr].
        rewrite lookup_delete_ne; [done|]. intros Heq.
        assert (id' = id) as ->.
        { apply (wf_inj _ Hwf _ _ _ _ Hr Hslot). right. by rewrite Heq. }
        apply Hresp. by exists w, m.
      * unfold handleRpcResponse. by rewrite Hget.
  - by destruct (sockets rt !! w).
  - destruct (sockets rt !! w); [|done]. unfold handleError.
    rewrite settle_timers. apply Hext, extends_cleanup, extends_refl.
  - destruct (timers rt !! t') as [tm'|] eqn:Ht'; [|done].
    destruct (due tm' <=? now rt); [|done].
    assert (Hne : t' <> t) by congruence.
    destruct (wf_timers _ Hwf t' tm' Ht') as [Hlt' Hok'].
    pose proof (extends_run_timer (with_timers (delete t' (timers rt)) rt) _ (action tm')
                  (extends_refl _)) as (_ & _ & Hsame).
    rewrite Hsame by done. cbn. by rewrite lookup_delete_ne.
  - by destruct (0 <=? ms).
  - destruct (microtasks rt) as [|[k o] rest]; [done|].
    pose proof (extends_run_cont (with_microtasks rest rt) _ k o (extends_refl _))
      as (_ & _ & Hsame).
    by rewrite Hsame.
Qed.

End MachineFacts.

(** ** The channel: correlation ids and send failures *)

Section RequestFacts.
Import Js ShellyApi.

Implicit Types (rt : Runtime) (o : Outcome) (k : Cont) (m : Message).

(** [src] of an outbound request: [this.deviceId || 'homey_default']. *)
Definition src_of (a : Api) : string :=
  match deviceId a with
  | Some d => if bool_decide (d = "") then "homey_default" else d
  | None => "homey_default"
  end.

Lemma request_send_api method params retries q rt :
  api (request_send method params retries q rt) = api (armed rt).
Proof.
  rewrite request_send_unfold. cbn zeta. rewrite await_api.
  destruct (ws_send_cases (mkRequest "2.0" (messageId (api rt))
              match deviceId (api rt) with
              | Some d => if bool_decide (d = "") then "homey_default" else d
              | None => "homey_default"
              end method params) (armed rt)) as [(err & -> & _)|(w & _ & ->)].
  - rewrite send_catch_throws. by rewrite settle_api.
  - destruct (transport (armed rt) (sends (armed rt))); [|done].
    rewrite send_catch_throws. by rewrite settle_api.
Qed.

(** A response that matches no pending request changes nothing. *)
Lemma unmatched_response_dropped m rt :
  is_notify m = false -> pending_get (msg_id m) (api rt) = None ->
  handleMessage m rt = Returns rt.
Proof.
  intros Hn Hget. unfold handleMessage, handleRpcResponse. rewrite Hn, Hget.
  by destruct (truthy (msg_id m)).
Qed.

(** C6: a channel starts with the id counter at 1; in every state it
    can reach, no step makes the counter go back, the ids of the pending
    requests and the ids that reached the transport lie between 1 and
    the counter, and the latter are strictly increasing; a request takes
    the counter's value as its id, which no pending request has, and
    moves the counter on by one.  So an id is never used twice, and
    never while a request with it is pending.  A message that is not a
    push and whose id matches no pending request leaves the whole state
    of the channel as it is. *)
Theorem C6_correlation_ids ip (id : option string) tr (es : list Event)
    (e : Event) (m : Message) method params retries (q : nat) :
  let rt := run es (boot (constructor ip id) tr) in
  let rt' := request_send method params retries q rt in
  messageId (constructor ip id) = 1
  /\ messageId (api rt) <= messageId (api (step e rt))
  /\ (forall cid r, pendingRequests (api rt) !! cid = Some r ->
        1 <= cid < messageId (api rt))
  /\ StronglySorted Z.lt (sent_ids rt)
  /\ Forall (fun cid => 1 <= cid < messageId (api rt)) (sent_ids rt)
  /\ pendingRequests (api rt) !! messageId (api rt) = None
  /\ pendingRequests (api rt') !! messageId (api rt)
     = Some (mkResolver (next_timer rt) (next_promise rt))
  /\ messageId (api rt') = messageId (api rt) + 1
  /\ (is_notify m = false -> pending_get (msg_id m) (api rt) = None ->
      handleMessage m rt = Returns rt).
Proof.
  intros rt rt'. pose proof (WF_reachable ip id tr es) as Hwf. fold rt in Hwf.
  split; [done|]. split; [apply step_messageId|].
  split; [intros cid r Hr; by destruct (wf_slots _ Hwf cid r Hr)|].
  split; [apply Hwf|]. split; [apply Hwf|].
  split; [|split; [|split]].
  - destruct (pendingRequests (api rt) !! messageId (api rt)) as [r|] eqn:Hr; [|done].
    destruct (wf_slots _ Hwf _ r Hr). lia.
  - subst rt'. rewrite request_send_api. cbn. apply lookup_insert_eq.
  - subst rt'. by rewrite request_send_api.
  - apply unmatched_response_dropped.
Qed.

(** The first request on a new channel has id 1, the second id 2. *)
Example first_ids :
  let rt := run [CallConnect; WsOpen 0; CallRequest "Switch.Set" (VObj []) 1]
              (boot (constructor "10.0.0.7" (Some "shelly_switch:0")) (fun _ => None)) in
  sent_ids rt = [1; 2].
Proof. reflexivity. Qed.

(** *** A send that throws *)

Lemma request_connected method params retries rt :
  isConnected (api rt) = true ->
  request method params retries rt
  = (next_promise rt,
     request_send method params retries (next_promise rt) (new_promise Pending rt).2).
Proof. intros Hc. unfold request. cbn. by rewrite Hc. Qed.

Lemma filter_none {A} (P : A -> Prop) `{forall x, Decision (P x)} (l : list A) :
  Forall (fun x => ~ P x) l -> filter P l = [].
Proof.
  induction 1 as [|x l Hx _ IH]; [done|]. by rewrite filter_cons_False.
Qed.

Lemma filter_all {A} (P : A -> Prop) `{forall x, Decision (P x)} (l : list A) :
  Forall P l -> filter P l = l.
Proof.
  induction 1 as [|x l Hx _ IH]; [done|]. rewrite filter_cons_True by done. by f_equal.
Qed.

(** No reaction waits for a promise that does not exist yet. *)
Lemma no_reaction_on_new rt p :
  WF rt -> (next_promise rt <= p)%nat ->
  filter (fun r => reacts_to p r = true) (reactions rt) = []
  /\ filter (fun r => reacts_to p r = false) (reactions rt) = reactions rt.
Proof.
  intros Hwf Hp.
  assert (Hall : Forall (fun r => reacts_to p r = false) (reactions rt)).
  { apply Forall_forall. intros [p' k] Hin.
    destruct (wf_reactions _ Hwf p' k Hin) as (Hlt & _).
    unfold reacts_to. cbn. apply bool_decide_eq_false_2. lia. }
  split.
  - apply filter_none. eapply Forall_impl; [exact Hall|].
    cbn. intros r Hr. by rewrite Hr.
  - by apply filter_all.
Qed.

Lemma ws_send_connected req rt w :
  ws (api rt) = Some w ->
  ws_send req rt
  = (with_wire (wire rt ++ [WSend w req (transport rt (sends rt))]) rt,
     transport rt (sends rt)).
Proof. intros Hws. unfold ws_send. by rewrite Hws. Qed.

(** The state after a call of [request] whose [ws.send] throws. *)
Lemma request_send_throws method params retries q w err rt :
  WF rt -> ws (api rt) = Some w -> transport rt (sends rt) = Some err ->
  promises rt !! q = Some Pending -> (q < next_promise rt)%nat ->
  let n := next_promise rt in
  let failure := Rejected (ReferenceError "id is not defined") in
  let rt' := request_send method params retries q rt in
  wire rt' = wire rt ++ [WSend w (mkRequest "2.0" (messageId (api rt)) (src_of (api rt))
                                    method params) (Some err)]
  /\ promises rt' = <[n := Settled failure]> (<[n := Pending]> (promises rt))
  /\ microtasks rt' = microtasks rt ++ [(KAdopt q, failure)]
  /\ reactions rt' = reactions rt
  /\ timers rt' = delete (next_timer rt) (<[next_timer rt :=
        mkTimer (now rt + CONFIG.REQUEST_TIMEOUT) CONFIG.REQUEST_TIMEOUT
          (TRequestTimeout (messageId (api rt)) n)]> (timers rt))
  /\ api rt' = api (armed rt)
  /\ next_promise rt' = S n.
Proof.
  intros Hwf Hws Htr Hq Hlt n failure rt'.
  destruct (no_reaction_on_new rt n Hwf ltac:(done)) as [Hnone Hall].
  subst rt'. rewrite request_send_unfold. cbn zeta.
  rewrite (ws_send_connected _ _ w) by done.
  change (transport (armed rt) (sends (armed rt))) with (transport rt (sends rt)).
  rewrite Htr, send_catch_throws.
  subst n failure.
  unfold settle, clearTimeout. cbn -[CONFIG.REQUEST_TIMEOUT reacts_to].
  rewrite lookup_insert_eq. cbn -[CONFIG.REQUEST_TIMEOUT reacts_to].
  rewrite Hnone, Hall. unfold await. cbn -[CONFIG.REQUEST_TIMEOUT reacts_to].
  rewrite lookup_insert_eq. cbn -[CONFIG.REQUEST_TIMEOUT reacts_to].
  rewrite app_nil_r. repeat split.
Qed.

Lemma timer_unused rt : WF rt -> timers rt !! next_timer rt = None.
Proof.
  intros Hwf. destruct (timers rt !! next_timer rt) as [tm|] eqn:Ht; [|done].
  destruct (wf_timers _ Hwf _ tm Ht). lia.
Qed.

(** C3 fails on the code.  On a connected channel, whatever the retry
    budget and whatever the error [ws.send] throws (a retryable code
    included), the [catch] block around the send clears the request's
    timer and then reads the undeclared identifier [id]: the call is
    rejected with that ReferenceError at once.  One send was attempted;
    no timer is left or added, nothing waits for anything, so nothing
    is ever re-attempted. *)
Theorem C3_send_failure_not_retried ip (id : option string) tr (es : list Event)
    w method params retries err :
  let rt := run es (boot (constructor ip id) tr) in
  isConnected (api rt) = true -> ws (api rt) = Some w ->
  transport rt (sends rt) = Some err -> microtasks rt = [] ->
  let q := (request method params retries rt).1 in
  let rt1 := (request method params retries rt).2 in
  let rt2 := step Microtask rt1 in
  let failure := Rejected (ReferenceError "id is not defined") in
  wire rt1 = wire rt ++ [WSend w (mkRequest "2.0" (messageId (api rt)) (src_of (api rt))
                                    method params) (Some err)]
  /\ timers rt1 = timers rt
  /\ reactions rt1 = reactions rt
  /\ microtasks rt1 = [(KAdopt q, failure)]
  /\ promises rt2 !! q = Some (Settled failure)
  /\ wire rt2 = wire rt1 /\ timers rt2 = timers rt
  /\ reactions rt2 = reactions rt /\ microtasks rt2 = [].
Proof.
  intros rt Hc Hws Htr Hmt q rt1 rt2 failure.
  pose proof (WF_reachable ip id tr es) as Hwf. fold rt in Hwf.
  subst q rt1 rt2. rewrite (request_connected _ _ _ _ Hc). cbn [fst snd].
  set (rt0 := (new_promise Pending rt).2).
  assert (Hwf0 : WF rt0) by by apply WF_new_promise.
  destruct (request_send_throws method params retries (next_promise rt) w err rt0)
    as (Hwire & Hprom & Hmicro & Hreact & Htimers & Hapi & Hnp); try done.
  { cbn. apply lookup_insert_eq. }
  { cbn. lia. }
  set (rt1 := request_send method params retries (next_promise rt) rt0) in *.
  clearbody rt1. subst rt0.
  cbn in Hwire, Hprom, Hmicro, Hreact, Htimers, Hnp. rewrite Hmt in Hmicro. cbn in Hmicro.
  assert (Ht1 : timers rt1 = timers rt).
  { rewrite Htimers, delete_insert_eq. apply delete_id, timer_unused, Hwf. }
  split; [done|]. split; [done|]. split; [done|]. split; [done|].
  cbn [step]. rewrite Hmicro. cbn [run_cont].
  destruct (no_reaction_on_new rt (next_promise rt) Hwf ltac:(done)) as [Hnone Hall].
  unfold settle. cbn [promises with_microtasks]. rewrite Hprom.
  rewrite !lookup_insert_ne by lia. rewrite lookup_insert_eq.
  cbn [promises wire timers reactions microtasks with_microtasks with_reactions with_promises].
  rewrite Hreact, Hnone, Hall, lookup_insert_eq. done.
Qed.

(** A transport whose second [ws.send] is refused. *)
Definition refuses_second : nat -> option JsError :=
  fun n =>
    if (n =? 1)%nat
    then Some (mkError "Error" "connect ECONNREFUSED 10.0.0.7:80" (Some "ECONNREFUSED") None)
    else None.

(** The response [{id, result: {...}}]. *)
Definition reply (id : Z) : Message :=
  mkMessage VUndefined (num id) VUndefined VUndefined
    (VObj [("sys", VObj []); ("switch:0", VObj [("output", VBool false)])]) VUndefined.

(** A channel brought up: connected, its status exchange answered. *)
Definition bring_up : list Event :=
  [CallConnect; WsOpen 0; WsMessage 0 (reply 1); Microtask; Microtask].

Lemma C3_send_failure_not_retried_witness :
  let rt := run bring_up
              (boot (constructor "10.0.0.7" (Some "shelly_switch:0")) refuses_second) in
  let q := (request "Switch.Set" (VObj [("id", num 0); ("on", VBool true)]) 1 rt).1 in
  let rt1 := (request "Switch.Set" (VObj [("id", num 0); ("on", VBool true)]) 1 rt).2 in
  retryable (Some "ECONNREFUSED") = true
  /\ timers rt1 = timers rt
  /\ promises (step Microtask rt1) !! q
     = Some (Settled (Rejected (ReferenceError "id is not defined"))).
Proof.
  intros rt q rt1. split; [reflexivity|].
  destruct (C3_send_failure_not_retried "10.0.0.7" (Some "shelly_switch:0") refuses_second
              bring_up 0%nat "Switch.Set" (VObj [("id", num 0); ("on", VBool true)]) 1
              (mkError "Error" "connect ECONNREFUSED 10.0.0.7:80" (Some "ECONNREFUSED") None))
    as (_ & Ht & _ & _ & Hq & _); try reflexivity.
  split; [exact Ht|exact Hq].
Defined.

(** The sibling path, for comparison: a failure of the implicit
    [connect()] with a retryable code is retried by the outer [catch]
    of [request], after the 1000 ms back-off and at most [retries]
    times.  With [retries = 1] two connections are opened in all, and
    the call is rejected with the second failure. *)
Example connect_failure_is_retried :
  let refused := mkError "Error" "connect ECONNREFUSED 10.0.0.7:80" (Some "ECONNREFUSED") None in
  let rt0 := boot (constructor "10.0.0.7" (Some "shelly_switch:0")) (fun _ => None) in
  let rt1 := run [CallRequest "Switch.Set" (VObj []) 1; WsError 0 refused; Microtask] rt0 in
  let rt2 := run [Elapse 999; TimerFires 0] rt1 in
  let rt3 := run [Elapse 1; TimerFires 0; Microtask; WsError 1 refused;
                  Microtask; Microtask] rt2 in
  (due <$> timers rt1 !! 0%nat) = Some 1000
  /\ wire rt2 = [WNew 0 "ws://10.0.0.7/rpc"; WTerminate 0]
  /\ wire rt3 = [WNew 0 "ws://10.0.0.7/rpc"; WTerminate 0;
                 WNew 1 "ws://10.0.0.7/rpc"; WTerminate 1]
  /\ promises rt3 !! 0%nat = Some (Settled (Rejected (enhance refused)))
  /\ timers rt3 = ∅ /\ reactions rt3 = [] /\ microtasks rt3 = [].
Proof. repeat split. Qed.

End RequestFacts.

(** ** The channel: what a step does to a promise nobody may settle *)

Section Calm.
Import Js ShellyApi.

Implicit Types (rt cur : Runtime) (o : Outcome) (k : Cont) (m : Message).

(** A promise [x] that exists in [base], and a state [cur] reached from
    [base] by code that neither settles [x] nor makes anything new that
    could. *)
Variable x : nat.
Variable base : Runtime.
Hypothesis x_exists : (x < next_promise base)%nat.
Hypothesis awaited_exist : forall p k, (p, k) ∈ reactions base -> (p < next_promise base)%nat.

Record calm (cur : Runtime) : Prop := mkCalm {
  c_np : (next_promise base <= next_promise cur)%nat;
  c_x : promises cur !! x = promises base !! x;
  c_react_in : forall p k, (p, k) ∈ reactions cur -> cont_target k = x ->
      (p, k) ∈ reactions base;
  c_await_in : forall p k, (p, k) ∈ reactions cur -> (p < next_promise base)%nat ->
      (p, k) ∈ reactions base;
  c_react_keep : forall p k, (p, k) ∈ reactions base ->
      (p, k) ∈ reactions cur \/ promises cur !! p <> Some Pending;
  c_micro : forall k o, (k, o) ∈ microtasks cur -> cont_target k = x ->
      (k, o) ∈ microtasks base
      \/ exists p, (p, k) ∈ reactions base /\ promises cur !! p <> Some Pending;
  c_timers : forall t tm, timers cur !! t = Some tm -> action tm = TResolve x ->
      timers base !! t = Some tm;
  c_sockets : forall w, sockets cur !! w = Some x -> sockets base !! w = Some x;
  c_slots : forall id r, pendingRequests (api cur) !! id = Some r ->
      res_promise r = x -> pendingRequests (api base) !! id = Some r
}.

Lemma calm_base : calm base.
Proof. constructor; auto. Qed.

(** Changes to fields that say nothing about promises. *)
Lemma calm_frame cur cur' :
  calm cur ->
  next_promise cur' = next_promise cur -> promises cur' = promises cur ->
  reactions cur' = reactions cur -> microtasks cur' = microtasks cur ->
  (forall t tm, timers cur' !! t = Some tm -> action tm = TResolve x ->
     timers cur !! t = Some tm) ->
  (forall w, sockets cur' !! w = Some x -> sockets cur !! w = Some x) ->
  (forall id r, pendingRequests (api cur') !! id = Some r -> res_promise r = x ->
     pendingRequests (api cur) !! id = Some r) ->
  calm cur'.
Proof.
  intros [Hnp Hx Hri Hai Hrk Hmi Hti Hso Hsl] Enp Epr Ere Emi Eti Eso Esl.
  constructor; rewrite ?Enp, ?Epr, ?Ere, ?Emi; auto.
Qed.

Lemma calm_new_promise st cur : calm cur -> calm (new_promise st cur).2.
Proof.
  intros [Hnp Hx Hri Hai Hrk Hmi Hti Hso Hsl]. constructor; cbn; auto.
  - rewrite lookup_insert_ne by lia. done.
  - intros p k Hin. destruct (Hrk p k Hin) as [?|Hp]; [by left|right].
    pose proof (awaited_exist p k Hin). by rewrite lookup_insert_ne by lia.
  - intros k o Hin Hk. destruct (Hmi k o Hin Hk) as [?|(p & Hp & Hs)]; [by left|right].
    exists p. split; [done|].
    pose proof (awaited_exist p k Hp). by rewrite lookup_insert_ne by lia.
Qed.

Lemma calm_settle y o cur : calm cur -> y <> x -> calm (settle y o cur).
Proof.
  intros Hc Hy. unfold settle.
  destruct (promises cur !! y) as [[|o']|] eqn:Hpy; [|done..].
  destruct Hc as [Hnp Hx Hri Hai Hrk Hmi Hti Hso Hsl]. constructor; cbn; auto.
  - by rewrite lookup_insert_ne.
  - intros p k [_ Hin]%list_elem_of_filter. by apply Hri.
  - intros p k [_ Hin]%list_elem_of_filter. by apply Hai.
  - intros p k Hin. destruct (Hrk p k Hin) as [Hcur|Hp].
    + destruct (decide (p = y)) as [->|Hne].
      * right. by rewrite lookup_insert_eq.
      * left. apply list_elem_of_filter. split; [|done].
        unfold reacts_to. cbn. by apply bool_decide_eq_false_2.
    + right. destruct (decide (p = y)) as [->|Hne].
      * by rewrite lookup_insert_eq.
      * by rewrite lookup_insert_ne.
  - intros k o' [Hin|Hin]%elem_of_app Hk.
    + destruct (Hmi k o' Hin Hk) as [?|(p & Hp & Hs)]; [by left|right].
      exists p. split; [done|]. destruct (decide (p = y)) as [->|Hne].
      * by rewrite lookup_insert_eq.
      * by rewrite lookup_insert_ne.
    + apply list_elem_of_fmap in Hin as ([p k'] & [= -> ->] & [Hr Hin]%list_elem_of_filter).
      right. exists p. split; [by apply Hri|].
      unfold reacts_to in Hr. cbn in Hr. apply bool_decide_eq_true_1 in Hr as ->.
      by rewrite lookup_insert_eq.
Qed.

Lemma calm_await p k cur :
  calm cur -> cont_target k <> x -> (next_promise base <= p)%nat -> calm (await p k cur).
Proof.
  intros Hc Hk Hp. unfold await.
  destruct Hc as [Hnp Hx Hri Hai Hrk Hmi Hti Hso Hsl].
  destruct (promises cur !! p) as [[|o']|]; constructor; cbn; auto.
  all: try (intros p' k' [Hin|Hin]%elem_of_app Hk'; [by apply Hri|];
            apply list_elem_of_singleton in Hin as [= -> ->]; done).
  all: try (intros p' k' [Hin|Hin]%elem_of_app Hk'; [by apply Hai|];
            apply list_elem_of_singleton in Hin as [= -> ->]; lia).
  all: try (intros p' k' Hin; destruct (Hrk p' k' Hin) as [?|?]; [left|by right];
            apply elem_of_app; by left).
  intros k' o'' [Hin|Hin]%elem_of_app Hk'; [by apply Hmi|].
  apply list_elem_of_singleton in Hin as [= -> ->]; done.
Qed.

Lemma calm_setTimeout a ms cur :
  calm cur -> a <> TResolve x -> calm (setTimeout a ms cur).2.
Proof.
  intros Hc Ha. apply (calm_frame cur); try done.
  cbn. intros t tm. destruct (decide (t = next_timer cur)) as [->|Hne].
  - rewrite lookup_insert_eq. intros [= <-]. done.
  - rewrite lookup_insert_ne by done. by intros.
Qed.

Lemma calm_clearTimeout t cur : calm cur -> calm (clearTimeout t cur).
Proof.
  intros Hc. apply (calm_frame cur); try done.
  cbn. intros t' tm [_ Ht]%lookup_delete_Some. done.
Qed.

Lemma calm_cleanup cur : calm cur -> calm (cleanupWebSocket cur).
Proof.
  intros Hc. unfold cleanupWebSocket. destruct (ws (api cur)); [|done].
  by apply (calm_frame cur).
Qed.

Lemma calm_connect cur : calm cur -> calm (connect cur).2.
Proof.
  intros Hc. unfold connect. destruct (ws (api cur)).
  - by apply calm_new_promise.
  - pose proof (calm_new_promise Pending cur Hc) as H0. cbn in *.
    pose proof (c_np _ Hc) as Hnp0.
    destruct H0 as [Hnp Hx Hri Hai Hrk Hmi Hti Hso Hsl]. constructor; cbn in *; auto.
    intros w. destruct (decide (w = next_socket cur)) as [->|Hne].
    + rewrite lookup_insert_eq. intros [= <-]. lia.
    + rewrite lookup_insert_ne by done. apply Hso.
Qed.

Lemma calm_armed cur : calm cur -> calm (armed cur).
Proof.
  intros Hc. pose proof (calm_new_promise Pending cur Hc) as H0. cbn in *.
  pose proof (c_np _ Hc) as Hnp0.
  destruct H0 as [Hnp Hx Hri Hai Hrk Hmi Hti Hso Hsl]. constructor; cbn in *; auto.
  - intros t tm. destruct (decide (t = next_timer cur)) as [->|Hne].
    + rewrite lookup_insert_eq. by intros [= <-].
    + rewrite lookup_insert_ne by done. apply Hti.
  - intros id r. destruct (decide (id = messageId (api cur))) as [->|Hne].
    + rewrite lookup_insert_eq. intros [= <-]. cbn. lia.
    + rewrite lookup_insert_ne by done. apply Hsl.
Qed.

Lemma calm_wire l cur : calm cur -> calm (with_wire l cur).
Proof. intros Hc. by apply (calm_frame cur). Qed.

Lemma calm_request_send method params retries q cur :
  calm cur -> q <> x -> calm (request_send method params retries q cur).
Proof.
  intros Hc Hq. rewrite request_send_unfold. cbn zeta.
  pose proof (calm_armed cur Hc) as H1.
  assert (Hn : next_promise cur <> x) by (pose proof (c_np _ Hc); lia).
  apply calm_await; [|done|by apply (c_np _ Hc)].
  destruct (ws_send_cases (mkRequest "2.0" (messageId (api cur))
              match deviceId (api cur) with
              | Some d => if bool_decide (d = "") then "homey_default" else d
              | None => "homey_default"
              end method params) (armed cur)) as [(err & -> & _)|(w & _ & ->)].
  - rewrite send_catch_throws. apply calm_settle; [by apply calm_clearTimeout|done].
  - destruct (transport (armed cur) (sends (armed cur))) as [err|].
    + rewrite send_catch_throws.
      apply calm_settle; [by apply calm_clearTimeout, calm_wire|done].
    + by apply calm_wire.
Qed.

Lemma connect_promise cur : (connect cur).1 = next_promise cur.
Proof. unfold connect. by destruct (ws (api cur)). Qed.

Lemma calm_request method params retries cur :
  calm cur -> calm (request method params retries cur).2.
Proof.
  intros Hc. unfold request.
  pose proof (calm_new_promise Pending cur Hc) as H0.
  assert (Hq : next_promise cur <> x) by (pose proof (c_np _ Hc); lia).
  destruct (new_promise Pending cur) as [q cur0] eqn:Hnew.
  assert (q = next_promise cur) as -> by (by injection Hnew as <- _).
  cbn [fst snd] in *.
  destruct (isConnected (api cur0)); cbn [snd].
  - by apply calm_request_send.
  - pose proof (calm_connect cur0 H0) as H1.
    pose proof (connect_promise cur0) as Hc1.
    destruct (connect cur0) as [c cur1]. cbn [fst snd] in *.
    apply calm_await; [done|done|]. rewrite Hc1. apply (c_np _ H0).
Qed.

Lemma request_promise method params retries cur :
  (request method params retries cur).1 = next_promise cur.
Proof.
  unfold request. cbn. destruct (isConnected (api cur)); [done|].
  by destruct (connect _).
Qed.

Lemma calm_request_catch method params retries q err cur :
  calm cur -> q <> x -> calm (request_catch method params retries q err cur).
Proof.
  intros Hc Hq. unfold request_catch.
  destruct ((0 <? retries) && retryable (err_code err)).
  - pose proof (calm_new_promise Pending cur Hc) as H0.
    assert (Hd : next_promise cur <> x) by (pose proof (c_np _ Hc); lia).
    destruct (new_promise Pending cur) as [d cur0] eqn:Hnew.
    assert (d = next_promise cur) as -> by (by injection Hnew as <- _).
    cbn [snd] in *.
    pose proof (calm_setTimeout (TResolve (next_promise cur)) CONFIG.RETRY_DELAY cur0 H0
                  ltac:(congruence)) as H1.
    destruct (setTimeout _ CONFIG.RETRY_DELAY cur0) as [t cur1]. cbn [snd] in *.
    apply calm_await; [done|done|]. apply (c_np _ Hc).
  - by apply calm_settle.
Qed.

Lemma calm_run_cont k o cur :
  calm cur -> cont_target k <> x -> calm (run_cont k o cur).
Proof.
  intros Hc Hk. destruct k as [p|method params retries q|method params retries q|q];
    cbn [run_cont cont_target] in *.
  - by apply calm_settle.
  - destruct o; [by apply calm_request_send|by apply calm_request_catch].
  - destruct o; [|by apply calm_settle].
    pose proof (calm_request method params (retries - 1) cur Hc) as H1.
    pose proof (request_promise method params (retries - 1) cur) as Hq'.
    destruct (request method params (retries - 1) cur) as [q' cur1]. cbn [fst snd] in *.
    apply calm_await; [done|done|]. rewrite Hq'. apply (c_np _ Hc).
  - by apply calm_settle.
Qed.

(** The promise a timer settles. *)
Definition timer_target (a : TimerAction) : nat :=
  match a with
  | TRequestTimeout _ p => p
  | TResolve p => p
  | TRetrySend _ _ _ p => p
  end.

Lemma calm_run_timer a cur :
  calm cur -> timer_target a <> x -> calm (run_timer a cur).
Proof.
  intros Hc Ha. destruct a as [id n|d|method params retries p]; cbn [run_timer timer_target] in *.
  - apply calm_settle; [|done]. apply (calm_frame cur); try done.
    cbn. intros id' r [_ Hr]%lookup_delete_Some. done.
  - by apply calm_settle.
  - pose proof (calm_request method params retries cur Hc) as H1.
    pose proof (request_promise method params retries cur) as Hq'.
    destruct (request method params retries cur) as [q' cur1]. cbn [fst snd] in *.
    apply calm_await; [done|done|]. rewrite Hq'. apply (c_np _ Hc).
Qed.

Lemma calm_on_open p cur : calm cur -> p <> x -> calm (on_open p cur).
Proof.
  intros Hc Hp. unfold on_open, getStatus.
  assert (H0 : calm (with_api (set_isConnected true) cur)) by by apply (calm_frame cur).
  pose proof (calm_request "Shelly.GetStatus" (VObj []) 1 _ H0) as H1.
  pose proof (request_promise "Shelly.GetStatus" (VObj []) 1
                (with_api (set_isConnected true) cur)) as Hq.
  destruct (request "Shelly.GetStatus" (VObj []) 1 _) as [q cur1]. cbn [fst snd] in *.
  apply calm_await; [done|done|]. rewrite Hq. apply (c_np _ Hc).
Qed.

Lemma calm_retired id t cur : calm cur -> calm (retired id t cur).
Proof.
  intros Hc. apply (calm_frame cur); try done; cbn.
  - intros t' tm [_ Ht]%lookup_delete_Some. done.
  - intros id' r [_ Hr]%lookup_delete_Some. done.
Qed.

Lemma calm_handleMessage m cur cur' :
  calm cur -> not_slot cur x -> handleMessage m cur = Returns cur' -> calm cur'.
Proof.
  intros Hc Hns. unfold handleMessage. destruct (is_notify m).
  - intros Hn. apply handleNotification_frame in Hn as [->|[env ->]]; [done|].
    by apply (calm_frame cur).
  - destruct (truthy (msg_id m)); [|by intros [= <-]]. intros [= <-].
    destruct (pending_get (msg_id m) (api cur)) as [[id r]|] eqn:Hget.
    + rewrite (handleRpcResponse_unfold _ _ _ _ Hget).
      apply pending_get_Some in Hget as [_ Hr].
      apply calm_settle; [by apply calm_retired|]. by apply (Hns id r).
    + unfold handleRpcResponse. by rewrite Hget.
Qed.

End Calm.

Section Private.
Import Js ShellyApi.

Implicit Types (rt : Runtime) (o : Outcome) (k : Cont) (e : Event).

(** Nothing in the state, except continuations waiting on a promise
    and the listeners of a socket, can settle [x]: no queued microtask,
    no timer, no pending request. *)
Record private (x : nat) (rt : Runtime) : Prop := mkPrivate {
  pv_exists : (x < next_promise rt)%nat;
  pv_micro : forall k o, (k, o) ∈ microtasks rt -> cont_target k <> x;
  pv_timers : forall t tm, timers rt !! t = Some tm -> timer_target (action tm) <> x;
  pv_slot : not_slot rt x
}.

(** The event is the 'open' or the 'error' of socket [w]. *)
Definition socket_event (w : nat) (e : Event) : Prop :=
  e = WsOpen w \/ exists err, e = WsError w err.

(** No listener that could settle [x] runs in this step. *)
Definition no_listener (x : nat) (rt : Runtime) (e : Event) : Prop :=
  forall w, socket_event w e -> sockets rt !! w <> Some x.

Lemma step_calm x e rt :
  WF rt -> private x rt -> no_listener x rt e -> calm x rt (step e rt).
Proof.
  intros Hwf [Hx Hmi Hti Hsl] Hso.
  assert (Haw : forall p k, (p, k) ∈ reactions rt -> (p < next_promise rt)%nat).
  { intros p k Hin. by destruct (wf_reactions _ Hwf p k Hin). }
  pose proof (calm_base x rt) as H0.
  destruct e as [|method params retries| |h|w|w m|w|w err|t|ms|]; cbn [step].
  - apply calm_connect; auto.
  - apply calm_request; auto.
  - apply calm_cleanup; auto.
  - by apply (calm_frame x rt rt).
  - destruct (sockets rt !! w) as [p|] eqn:Hw; [|done].
    apply calm_on_open; auto. intros ->. apply (Hso w); [by left|done].
  - destruct (sockets rt !! w); [|done].
    destruct (handleMessage m rt) as [rt'|] eqn:Hm; [|done].
    eapply calm_handleMessage; eauto.
  - destruct (sockets rt !! w); [|done]. by apply (calm_frame x rt rt).
  - destruct (sockets rt !! w) as [p|] eqn:Hw; [|done]. unfold handleError.
    apply calm_settle; auto; [apply calm_cleanup; auto|].
    intros ->. apply (Hso w); [right; by exists err|done].
  - destruct (timers rt !! t) as [tm|] eqn:Ht; [|done].
    destruct (due tm <=? now rt); [|done].
    apply calm_run_timer; auto; [|by eapply Hti].
    apply (calm_clearTimeout x rt t rt); auto.
  - destruct (0 <=? ms); [|done]. by apply (calm_frame x rt rt).
  - destruct (microtasks rt) as [|[k o] rest] eqn:Hq; [done|].
    apply calm_run_cont; auto; [|apply (Hmi k o); left].
    constructor; cbn; auto. intros k' o' Hin _. left. rewrite Hq. by right.
Qed.

(** [x] stays private as long as the promises its continuations wait
    on stay pending. *)
Lemma private_step x e rt :
  WF rt -> private x rt -> no_listener x rt e ->
  (forall p k, (p, k) ∈ reactions rt -> cont_target k = x ->
     promises (step e rt) !! p = Some Pending) ->
  private x (step e rt).
Proof.
  intros Hwf Hpv Hno Hwait. pose proof (step_calm x e rt Hwf Hpv Hno) as Hc.
  pose proof (WF_step e rt Hwf) as Hwf'.
  destruct Hpv as [Hx Hmi Hti Hsl]. constructor.
  - pose proof (c_np _ _ _ Hc). lia.
  - intros k o Hin Hk. destruct (c_micro _ _ _ Hc k o Hin Hk) as [Hold|(p & Hp & Hs)].
    + by apply (Hmi k o).
    + apply Hs. by apply (Hwait p k).
  - intros t tm Ht Htarget. destruct (wf_timers _ Hwf' t tm Ht) as [_ Hok].
    unfold timer_ok in Hok. destruct (action tm) as [id n|d|] eqn:Hact; cbn in Htarget; subst.
    + destruct Hok as (Hslot & _).
      apply (Hsl id _ (c_slots _ _ _ Hc _ _ Hslot eq_refl)). done.
    + apply (Hti t tm); [by apply (c_timers _ _ _ Hc)|]. by rewrite Hact.
    + done.
  - intros id r Hr Heq. apply (Hsl id r); [|done]. by apply (c_slots _ _ _ Hc).
Qed.

End Private.

(** ** The channel: a request in flight and its deadline *)

Section InFlight.
Import Js ShellyApi.

Implicit Types (rt : Runtime) (o : Outcome) (k : Cont) (e : Event).

(** The request with correlation id [cid] is in flight: its timer [t]
    is armed, the promise [n] of its executor is what the timer and the
    response settle, and the promise [q] the caller holds waits for [n]
    and for nothing else. *)
Record in_flight (cid : Z) (t n q : nat) (tm : Timer) (rt : Runtime) : Prop := mkInFlight {
  if_wf : WF rt;
  if_timer : timers rt !! t = Some tm;
  if_action : action tm = TRequestTimeout cid n;
  if_q : promises rt !! q = Some Pending;
  if_private : private q rt;
  if_no_socket : forall w, sockets rt !! w <> Some q;
  if_adopt : (n, KAdopt q) ∈ reactions rt;
  if_only : forall p k, (p, k) ∈ reactions rt -> cont_target k = q \/ p = n ->
      p = n /\ k = KAdopt q
}.

Lemma in_flight_slot cid t n q tm rt :
  in_flight cid t n q tm rt ->
  pendingRequests (api rt) !! cid = Some (mkResolver t n)
  /\ promises rt !! n = Some Pending
  /\ delay tm = CONFIG.REQUEST_TIMEOUT
  /\ n <> q /\ (n < next_promise rt)%nat.
Proof.
  intros H. destruct (wf_timers _ (if_wf _ _ _ _ _ _ H) t tm (if_timer _ _ _ _ _ _ H))
    as [_ Hok].
  unfold timer_ok in Hok. rewrite (if_action _ _ _ _ _ _ H) in Hok.
  destruct Hok as (Hslot & Hn & Hd). repeat split; try done.
  - intros ->. by apply (pv_slot _ _ (if_private _ _ _ _ _ _ H) cid _ Hslot).
  - by destruct (wf_slots _ (if_wf _ _ _ _ _ _ H) _ _ Hslot) as (_ & ? & _).
Qed.

(** It stays in flight until its timer fires or its response arrives. *)
Lemma in_flight_step cid t n q tm e rt :
  in_flight cid t n q tm rt -> e <> TimerFires t -> ~ responds cid e ->
  in_flight cid t n q tm (step e rt).
Proof.
  intros H Hfire Hresp. destruct H as [Hwf Ht Hact Hq Hpv Hso Had Honly].
  pose proof (WF_step e rt Hwf) as Hwf'.
  pose proof (step_timer_persists e rt t tm cid n Hwf Ht Hact Hfire Hresp) as Ht'.
  assert (Hn' : promises (step e rt) !! n = Some Pending).
  { destruct (wf_timers _ Hwf' t tm Ht') as [_ Hok].
    unfold timer_ok in Hok. rewrite Hact in Hok. by destruct Hok as (_ & ? & _). }
  assert (Hno : no_listener q rt e) by (intros w _; apply Hso).
  pose proof (step_calm q e rt Hwf Hpv Hno) as Hc.
  constructor; try done.
  - by rewrite (c_x _ _ _ Hc).
  - apply private_step; try done. intros p k Hin Hk.
    by destruct (Honly p k Hin (or_introl Hk)) as [-> _].
  - intros w Hw. by apply (Hso w), (c_sockets _ _ _ Hc).
  - destruct (c_react_keep _ _ _ Hc n (KAdopt q) Had) as [?|Hs]; [done|]. by destruct Hs.
  - intros p k Hin [Hk| ->].
    + apply (Honly p k); [|by left]. by apply (c_react_in _ _ _ Hc).
    + apply (Honly n k); [|by right]. apply (c_await_in _ _ _ Hc); [done|].
      by destruct (wf_reactions _ Hwf n (KAdopt q) Had).
Qed.

Lemma in_flight_run cid t n q tm es rt :
  in_flight cid t n q tm rt ->
  Forall (fun e => e <> TimerFires t /\ ~ responds cid e) es ->
  in_flight cid t n q tm (run es rt).
Proof.
  intros H Hes. revert rt H. unfold run.
  induction Hes as [|e es [Hfire Hresp] _ IH]; intros rt H; cbn; [done|].
  by apply IH, in_flight_step.
Qed.

End InFlight.

Section Deadline.
Import Js ShellyApi.

Implicit Types (rt : Runtime) (o : Outcome) (k : Cont) (e : Event).

(** The state after the synchronous part of a [request] on a connected
    channel whose [ws.send] returns. *)
Lemma request_send_ok method params retries q w rt :
  ws (api rt) = Some w -> transport rt (sends rt) = None ->
  request_send method params retries q rt
  = with_reactions (reactions rt ++ [(next_promise rt, KAdopt q)])
      (with_wire (wire rt ++ [WSend w (mkRequest "2.0" (messageId (api rt)) (src_of (api rt))
                                         method params) None])
         (armed rt)).
Proof.
  intros Hws Htr. rewrite request_send_unfold. cbn zeta.
  rewrite (ws_send_connected _ _ w) by done.
  change (transport (armed rt) (sends (armed rt))) with (transport rt (sends rt)).
  rewrite Htr. unfold await. cbn -[CONFIG.REQUEST_TIMEOUT].
  by rewrite lookup_insert_eq.
Qed.

(** The timer [request] arms. *)
Definition deadline (cid : Z) (n : nat) (rt : Runtime) : Timer :=
  mkTimer (now rt + CONFIG.REQUEST_TIMEOUT) CONFIG.REQUEST_TIMEOUT (TRequestTimeout cid n).

(** A [request] on a connected channel whose send returns is in flight
    when the call returns. *)
Lemma request_in_flight method params retries w rt :
  WF rt -> isConnected (api rt) = true -> ws (api rt) = Some w ->
  transport rt (sends rt) = None ->
  let q := next_promise rt in
  let cid := messageId (api rt) in
  let rt1 := (request method params retries rt).2 in
  in_flight cid (next_timer rt) (S q) q (deadline cid (S q) rt) rt1
  /\ (request method params retries rt).1 = q
  /\ wire rt1 = wire rt ++ [WSend w (mkRequest "2.0" cid (src_of (api rt)) method params) None]
  /\ now rt1 = now rt /\ microtasks rt1 = microtasks rt.
Proof.
  intros Hwf Hc Hws Htr q cid rt1.
  destruct (WF_request method params retries rt Hwf) as (Hwf1 & _).
  fold rt1 in Hwf1. revert Hwf1. subst rt1 q cid.
  rewrite (request_connected _ _ _ _ Hc). cbn [fst snd].
  rewrite (request_send_ok _ _ _ _ w) by done. intros Hwf1.
  split; [|done]. constructor; try done.
  - cbn -[CONFIG.REQUEST_TIMEOUT]. apply lookup_insert_eq.
  - cbn. rewrite lookup_insert_ne by lia. apply lookup_insert_eq.
  - constructor.
    + cbn. lia.
    + cbn. intros k o Hin. destruct (wf_microtasks _ Hwf k o Hin). lia.
    + cbn -[CONFIG.REQUEST_TIMEOUT]. intros t tm.
      destruct (decide (t = next_timer rt)) as [->|Hne].
      * rewrite lookup_insert_eq. intros [= <-]. cbn. lia.
      * rewrite lookup_insert_ne by done. intros Ht.
        destruct (wf_timers _ Hwf t tm Ht) as [_ Hok]. unfold timer_ok in Hok.
        destruct (action tm) as [id n|d|]; cbn; [| |done].
        -- destruct Hok as (Hslot & _). destruct (wf_slots _ Hwf _ _ Hslot) as (_ & ? & _).
           cbn in *. lia.
        -- destruct Hok as (? & _). lia.
    + intros id r. cbn. destruct (decide (id = messageId (api rt))) as [->|Hne].
      * rewrite lookup_insert_eq. intros [= <-]. cbn. lia.
      * rewrite lookup_insert_ne by done. intros Hr.
        destruct (wf_slots _ Hwf _ _ Hr) as (_ & ? & _). lia.
  - cbn. intros w' Hw'. destruct (wf_sockets _ Hwf w' _ Hw') as (_ & ? & _). lia.
  - cbn. apply elem_of_app. right. by apply list_elem_of_singleton.
  - cbn. intros p k [Hin|Hin]%elem_of_app Hor.
    + destruct (wf_reactions _ Hwf p k Hin) as (? & ? & _). lia.
    + by apply list_elem_of_singleton in Hin as [= -> ->].
Qed.

(** Before its deadline the timer of a request in flight does nothing;
    from the deadline on, firing it drops the slot and rejects the
    promise of the executor with REQUEST_TIMEOUT: nothing is sent, no
    timer is armed, and the continuations queued all pass that rejection
    to the promise the caller holds. *)
Lemma in_flight_fires cid t n q tm rt :
  in_flight cid t n q tm rt ->
  let timeout := Rejected (Error "REQUEST_TIMEOUT") in
  let rt' := step (TimerFires t) rt in
  (now rt < due tm -> rt' = rt)
  /\ (due tm <= now rt ->
      pendingRequests (api rt') = delete cid (pendingRequests (api rt))
      /\ promises rt' = <[n := Settled timeout]> (promises rt)
      /\ timers rt' = delete t (timers rt)
      /\ wire rt' = wire rt
      /\ next_timer rt' = next_timer rt
      /\ (exists more, microtasks rt' = microtasks rt ++ (KAdopt q, timeout) :: more
                       /\ Forall (fun kt => kt = (KAdopt q, timeout)) more)
      /\ (forall r, r ∈ reactions rt' -> r ∈ reactions rt)
      /\ forall p k, (p, k) ∈ reactions rt' -> cont_target k <> q).
Proof.
  intros H timeout rt'. pose proof (in_flight_slot _ _ _ _ _ _ H) as (Hslot & Hn & Hd & Hnq & Hlt).
  destruct H as [Hwf Ht Hact Hq Hpv Hso Had Honly].
  subst rt'. cbn [step]. rewrite Ht. split.
  - intros Hnow. by rewrite (proj2 (Z.leb_gt _ _) Hnow).
  - intros Hdue. rewrite (proj2 (Z.leb_le _ _) Hdue), Hact. cbn [run_timer].
    unfold settle. cbn [promises with_api with_timers]. rewrite Hn.
    cbn [api promises timers wire next_timer microtasks reactions with_api with_timers
         with_microtasks with_reactions with_promises pendingRequests set_pendingRequests].
    repeat (split; [done|]). split.
    + apply list_elem_of_split in Had as (l1 & l2 & Hre).
      assert (Hall : Forall (fun r => r = (n, KAdopt q))
                (filter (fun r => reacts_to n r = true) (reactions rt))).
      { apply Forall_forall. intros [p k] [Hr Hin]%list_elem_of_filter.
        unfold reacts_to in Hr. cbn in Hr. apply bool_decide_eq_true_1 in Hr as ->.
        by destruct (Honly n k Hin (or_intror eq_refl)) as [_ ->]. }
      destruct (filter (fun r => reacts_to n r = true) (reactions rt)) as [|r woken] eqn:Hf.
      * exfalso. assert (Hin : (n, KAdopt q) ∈ filter (fun r => reacts_to n r = true) (reactions rt)).
        { apply list_elem_of_filter. split; [by apply bool_decide_eq_true_2|].
          rewrite Hre. apply elem_of_app. right. by left. }
        rewrite Hf in Hin. by apply elem_of_nil in Hin.
      * apply Forall_cons in Hall as [-> Hall]. exists (map (fun r => (r.2, timeout)) woken).
        split; [done|]. apply Forall_forall. intros kt ([p k] & -> & Hin)%list_elem_of_fmap.
        rewrite Forall_forall in Hall. by rewrite (Hall _ Hin).
    + split; [by intros r [_ Hin]%list_elem_of_filter|]. intros p k [Hr Hin]%list_elem_of_filter Hk.
      destruct (Honly p k Hin (or_introl Hk)) as [-> _].
      unfold reacts_to in Hr. cbn in Hr. by apply bool_decide_eq_false_1 in Hr.
Qed.

End Deadline.

Section Timeout.
Import Js ShellyApi.

Implicit Types (rt : Runtime) (o : Outcome) (k : Cont) (e : Event).

(** While a request is in flight nothing new waits for the promise its
    caller holds. *)
Lemma in_flight_watchers cid t n q tm es rt :
  in_flight cid t n q tm rt ->
  Forall (fun e => e <> TimerFires t /\ ~ responds cid e) es ->
  forall k, (q, k) ∈ reactions (run es rt) -> (q, k) ∈ reactions rt.
Proof.
  intros H Hes. revert rt H. unfold run.
  induction Hes as [|e es [Hfire Hresp] _ IH]; intros rt H k; cbn; [done|].
  intros Hin. apply IH in Hin; [|by apply in_flight_step].
  assert (Hno : no_listener q rt e) by (intros w _; apply (if_no_socket _ _ _ _ _ _ H)).
  pose proof (step_calm q e rt (if_wf _ _ _ _ _ _ H) (if_private _ _ _ _ _ _ H) Hno) as Hc.
  apply (c_await_in _ _ _ Hc); [done|]. apply (pv_exists _ _ (if_private _ _ _ _ _ _ H)).
Qed.

(** Queued continuations that pass an outcome to a promise already
    settled are drained without any effect. *)
Lemma drain_settled q o o' more rt :
  promises rt !! q = Some (Settled o) -> microtasks rt = more ->
  Forall (fun kt => kt = (KAdopt q, o')) more ->
  let rt' := run (replicate (List.length more) Microtask) rt in
  microtasks rt' = [] /\ promises rt' = promises rt /\ api rt' = api rt
  /\ wire rt' = wire rt /\ timers rt' = timers rt /\ next_timer rt' = next_timer rt
  /\ reactions rt' = reactions rt.
Proof.
  intros Hq Hmi Hall. revert rt Hq Hmi.
  induction Hall as [|kt more -> _ IH]; intros rt Hq Hmi; [done|].
  cbn [List.length replicate]. unfold run. cbn [foldl step]. rewrite Hmi.
  cbn [run_cont]. unfold settle. cbn [promises with_microtasks]. rewrite Hq.
  apply (IH (with_microtasks more rt)); done.
Qed.

End Timeout.

Section TimeoutClaim.
Import Js ShellyApi.

Implicit Types (rt : Runtime) (o : Outcome) (k : Cont) (e : Event).

(** C5: the deadline of a request is 5000 ms, and the error of a timeout
    carries no retryable code.  In every state the channel can reach,
    every armed request timer has that delay and its request has its
    slot in the pending map; fired before it is due it does nothing;
    fired when due it removes the slot and rejects the request's promise
    with REQUEST_TIMEOUT, sending nothing and arming no timer.  For a
    call made on a connected channel whose send returns: its timer is
    due 5000 ms after the call, and over any sequence of events without
    that timer firing and without a response bearing the call's id, the
    timer stays armed, the slot stays in the map and the call stays
    pending; once the deadline has passed, firing the timer and draining
    the microtasks it queued leaves the slot removed, the call rejected
    with REQUEST_TIMEOUT, nothing sent, no timer armed and nothing new
    waiting: the call is not attempted again. *)
Theorem C5_request_timeout ip (id : option string) tr (es0 : list Event) :
  let rt := run es0 (boot (constructor ip id) tr) in
  let timeout := Rejected (Error "REQUEST_TIMEOUT") in
  CONFIG.REQUEST_TIMEOUT = 5000
  /\ retryable (err_code (Error "REQUEST_TIMEOUT")) = false
  /\ (forall t tm cid n,
        timers rt !! t = Some tm -> action tm = TRequestTimeout cid n ->
        let rt' := step (TimerFires t) rt in
        delay tm = 5000
        /\ pendingRequests (api rt) !! cid = Some (mkResolver t n)
        /\ (now rt < due tm -> rt' = rt)
        /\ (due tm <= now rt ->
            pendingRequests (api rt') = delete cid (pendingRequests (api rt))
            /\ promises rt' !! n = Some (Settled timeout)
            /\ wire rt' = wire rt
            /\ timers rt' = delete t (timers rt)
            /\ next_timer rt' = next_timer rt))
  /\ (forall w method params retries es,
        isConnected (api rt) = true -> ws (api rt) = Some w ->
        transport rt (sends rt) = None ->
        let q := (request method params retries rt).1 in
        let rt1 := (request method params retries rt).2 in
        let cid := messageId (api rt) in
        let t := next_timer rt in
        Forall (fun e => e <> TimerFires t /\ ~ responds cid e) es ->
        let rt2 := run es rt1 in
        let rt3 := step (TimerFires t) rt2 in
        let rt4 := run (replicate (List.length (microtasks rt3)) Microtask) rt3 in
        (due <$> timers rt2 !! t) = Some (now rt + 5000)
        /\ is_Some (pendingRequests (api rt2) !! cid)
        /\ promises rt2 !! q = Some Pending
        /\ (now rt2 < now rt + 5000 -> rt3 = rt2)
        /\ (now rt + 5000 <= now rt2 -> microtasks rt2 = [] ->
            pendingRequests (api rt4) !! cid = None
            /\ promises rt4 !! q = Some (Settled timeout)
            /\ wire rt4 = wire rt2
            /\ timers rt4 = delete t (timers rt2)
            /\ next_timer rt4 = next_timer rt2
            /\ microtasks rt4 = []
            /\ forall r, r ∈ reactions rt4 -> r ∈ reactions rt2)).
Proof.
  intros rt timeout. pose proof (WF_reachable ip id tr es0) as Hwf. fold rt in Hwf.
  split; [done|]. split; [done|]. split.
  - intros t tm cid n Ht Hact rt'.
    destruct (wf_timers _ Hwf t tm Ht) as [_ Hok]. unfold timer_ok in Hok.
    rewrite Hact in Hok. destruct Hok as (Hslot & Hn & Hd).
    split; [done|]. split; [done|]. subst rt'. cbn [step]. rewrite Ht. split.
    + intros Hnow. by rewrite (proj2 (Z.leb_gt _ _) Hnow).
    + intros Hdue. rewrite (proj2 (Z.leb_le _ _) Hdue), Hact. cbn [run_timer].
      unfold settle. cbn [promises with_api with_timers]. rewrite Hn. cbn.
      by rewrite lookup_insert_eq.
  - intros w method params retries es Hc Hws Htr q rt1 cid t Hes rt2 rt3 rt4.
    destruct (request_in_flight method params retries w rt Hwf Hc Hws Htr)
      as (Hfl & Hq & _ & _ & _).
    fold rt1 cid t in Hfl. fold q in Hq. rewrite <- Hq in Hfl.
    set (tm := deadline cid (S (next_promise rt)) rt) in Hfl.
    assert (Hnone : forall k, (q, k) ∉ reactions rt2).
    { intros k Hin. apply (in_flight_watchers _ _ _ _ _ _ _ Hfl Hes) in Hin.
      destruct (WF_request method params retries rt Hwf) as (_ & _ & _ & _).
      revert Hin. subst rt1. rewrite (request_connected _ _ _ _ Hc). cbn [snd].
      rewrite (request_send_ok _ _ _ _ w) by done. cbn [reactions with_reactions].
      intros [Hin|Hin]%elem_of_app.
      - destruct (wf_reactions _ Hwf _ _ Hin) as (Hlt & _). subst q. lia.
      - apply list_elem_of_singleton in Hin. injection Hin as Hin _. subst q. lia. }
    pose proof (in_flight_run _ _ _ _ _ es _ Hfl Hes) as Hfl2. fold rt2 in Hfl2.
    pose proof (in_flight_slot _ _ _ _ _ _ Hfl2) as (Hslot & Hn & _ & Hnq & _).
    pose proof (in_flight_fires _ _ _ _ _ _ Hfl2) as [Hearly Hlate].
    fold rt3 in Hearly, Hlate.
    split; [by rewrite (if_timer _ _ _ _ _ _ Hfl2)|].
    split; [by rewrite Hslot|]. split; [apply Hfl2|]. split; [exact Hearly|].
    intros Hdue Hidle.
    destruct (Hlate Hdue) as (Hp3 & Hpr3 & Ht3 & Hw3 & Hnt3 & (more & Hm3 & Hmore) & Hsub & Hre3).
    rewrite Hidle in Hm3. cbn [app] in Hm3.
    assert (Hq3 : promises rt3 !! q = Some Pending).
    { rewrite Hpr3, lookup_insert_ne by done. apply Hfl2. }
    assert (Hwoken : filter (fun r => reacts_to q r = true) (reactions rt3) = []).
    { apply filter_none, Forall_forall. intros [p k] Hin Hr.
      unfold reacts_to in Hr. cbn in Hr. apply bool_decide_eq_true_1 in Hr as ->.
      apply (Hnone k). by apply Hsub. }
    assert (Hothers : filter (fun r => reacts_to q r = false) (reactions rt3) = reactions rt3).
    { apply filter_all, Forall_forall. intros [p k] Hin.
      unfold reacts_to. cbn. apply bool_decide_eq_false_2. intros ->.
      apply (Hnone k). by apply Hsub. }
    set (rt3' := step Microtask rt3).
    assert (Hrt4 : rt4 = run (replicate (List.length more) Microtask) rt3').
    { subst rt4 rt3'. by rewrite Hm3. }
    assert (Hstep : microtasks rt3' = more /\ promises rt3' = <[q := Settled timeout]> (promises rt3)
                    /\ api rt3' = api rt3 /\ wire rt3' = wire rt3 /\ timers rt3' = timers rt3
                    /\ next_timer rt3' = next_timer rt3 /\ reactions rt3' = reactions rt3).
    { subst rt3'. cbn [step]. rewrite Hm3. cbn [run_cont]. unfold settle.
      cbn [promises with_microtasks]. rewrite Hq3.
      cbn [reactions microtasks api wire timers next_timer promises
           with_microtasks with_reactions with_promises].
      rewrite Hwoken, Hothers. cbn [map]. by rewrite app_nil_r. }
    destruct Hstep as (Hm' & Hpr' & Ha' & Hw' & Ht' & Hnt' & Hre').
    destruct (drain_settled q timeout timeout more rt3') as (D1 & D2 & D3 & D4 & D5 & D6 & D7);
      [by rewrite Hpr', lookup_insert_eq|done|done|].
    rewrite <- Hrt4 in D1, D2, D3, D4, D5, D6, D7.
    split; [by rewrite D3, Ha', Hp3, lookup_delete_eq|].
    split; [by rewrite D2, Hpr', lookup_insert_eq|].
    split; [by rewrite D4, Hw'|]. split; [by rewrite D5, Ht'|].
    split; [by rewrite D6, Hnt'|]. split; [done|].
    intros r. rewrite D7, Hre'. apply Hsub.
Qed.

(** A request on a channel brought up that is never answered: 5000 ms
    later its timer fires and the call is rejected. *)
Lemma C5_request_timeout_witness :
  let rt := run bring_up
              (boot (constructor "10.0.0.7" (Some "shelly_switch:0")) (fun _ => None)) in
  let q := (request "Switch.Set" (VObj [("id", num 0); ("on", VBool true)]) 1 rt).1 in
  let rt1 := (request "Switch.Set" (VObj [("id", num 0); ("on", VBool true)]) 1 rt).2 in
  let rt2 := run [Elapse 4999; TimerFires 0; Elapse 1] rt1 in
  let rt3 := step (TimerFires (next_timer rt)) rt2 in
  let rt4 := run (replicate (List.length (microtasks rt3)) Microtask) rt3 in
  pendingRequests (api rt4) !! messageId (api rt) = None
  /\ promises rt4 !! q = Some (Settled (Rejected (Error "REQUEST_TIMEOUT")))
  /\ wire rt4 = wire rt2.
Proof.
  intros rt q rt1 rt2 rt3 rt4.
  destruct (C5_request_timeout "10.0.0.7" (Some "shelly_switch:0") (fun _ => None) bring_up)
    as (_ & _ & _ & H).
  destruct (H 0%nat "Switch.Set" (VObj [("id", num 0); ("on", VBool true)]) 1
              [Elapse 4999; TimerFires 0; Elapse 1])
    as (_ & _ & _ & _ & Hlate); try reflexivity.
  { repeat constructor; try discriminate.
    all: intros (w & m & He & _); discriminate. }
  destruct Hlate as (H1 & H2 & H3 & _); [vm_compute; discriminate|reflexivity|].
  split; [exact H1|]. split; [exact H2|exact H3].
Defined.

End TimeoutClaim.

(** ** The channel: who waits for a pending promise *)

Section Keeps.
Import Js ShellyApi.

Implicit Types (rt cur : Runtime) (o : Outcome) (k : Cont) (m : Message).

Definition waiting (p : nat) (rt : Runtime) : list (nat * Cont) :=
  filter (fun r => reacts_to p r = true) (reactions rt).

Lemma waiting_others p y (l : list (nat * Cont)) :
  p <> y ->
  filter (fun r => reacts_to p r = true) (filter (fun r => reacts_to y r = false) l)
  = filter (fun r => reacts_to p r = true) l.
Proof.
  intros Hne. induction l as [|[p' k] l IH]; [done|].
  destruct (decide (p' = y)) as [->|Hy].
  - rewrite (filter_cons_False _ (y, k)).
    2:{ unfold reacts_to. cbn. by rewrite bool_decide_eq_true_2. }
    rewrite (filter_cons_False _ (y, k)); [done|].
    unfold reacts_to. cbn. rewrite bool_decide_eq_false_2; [done|]. by intros ->.
  - rewrite (filter_cons_True (fun r => reacts_to y r = false) (p', k)).
    2:{ unfold reacts_to. cbn. by rewrite bool_decide_eq_false_2. }
    destruct (decide (p' = p)) as [->|Hp].
    + rewrite !(filter_cons_True (fun r => reacts_to p r = true) (p, k)); [by f_equal|..];
        unfold reacts_to; cbn; by rewrite bool_decide_eq_true_2.
    + rewrite !(filter_cons_False (fun r => reacts_to p r = true) (p', k)); [done|..];
        unfold reacts_to; cbn; by rewrite bool_decide_eq_false_2.
Qed.

Lemma waiting_snoc p p' k (l : list (nat * Cont)) :
  p <> p' ->
  filter (fun r => reacts_to p r = true) (l ++ [(p', k)])
  = filter (fun r => reacts_to p r = true) l.
Proof.
  intros Hne. rewrite filter_app, filter_cons_False, app_nil_r; [done|].
  unfold reacts_to. cbn. rewrite bool_decide_eq_false_2; [done|]. by intros ->.
Qed.

(** A state [cur] reached from [base]: the sockets of [base] keep their
    listeners, and a promise of [base] still pending has the reactions
    it had. *)
Variable base : Runtime.

Record keeps (cur : Runtime) : Prop := mkKeeps {
  k_np : (next_promise base <= next_promise cur)%nat;
  k_ns : (next_socket base <= next_socket cur)%nat;
  k_sockets : forall w, (w < next_socket base)%nat -> sockets cur !! w = sockets base !! w;
  k_waits : forall p, (p < next_promise base)%nat -> promises cur !! p = Some Pending ->
      promises base !! p = Some Pending /\ waiting p cur = waiting p base
}.

Lemma keeps_base : keeps base.
Proof. constructor; auto. Qed.

Lemma keeps_frame cur cur' :
  keeps cur ->
  next_promise cur' = next_promise cur -> promises cur' = promises cur ->
  reactions cur' = reactions cur -> sockets cur' = sockets cur ->
  next_socket cur' = next_socket cur ->
  keeps cur'.
Proof.
  intros [Hnp Hns Hso Hw] Enp Epr Ere Eso Ens.
  constructor; unfold waiting in *; rewrite ?Enp, ?Epr, ?Ere, ?Eso, ?Ens; auto.
Qed.

Lemma keeps_new_promise st cur : keeps cur -> keeps (new_promise st cur).2.
Proof.
  intros [Hnp Hns Hso Hw]. constructor; cbn; auto.
  intros p Hp. rewrite lookup_insert_ne by lia. by apply Hw.
Qed.

Lemma keeps_settle y o cur : keeps cur -> keeps (settle y o cur).
Proof.
  intros Hk. unfold settle.
  destruct (promises cur !! y) as [[|o']|] eqn:Hpy; [|done..].
  destruct Hk as [Hnp Hns Hso Hw]. constructor; cbn; auto.
  intros p Hp. destruct (decide (y = p)) as [->|Hne].
  - by rewrite lookup_insert_eq.
  - rewrite lookup_insert_ne by done. intros Hpp.
    destruct (Hw p Hp Hpp) as [Hb <-]. split; [done|].
    unfold waiting. cbn. by apply waiting_others.
Qed.

Lemma keeps_await p k cur :
  keeps cur -> (next_promise base <= p)%nat -> keeps (await p k cur).
Proof.
  intros Hk Hp. unfold await.
  destruct (promises cur !! p) as [[|o']|]; [|by apply (keeps_frame cur)|].
  all: destruct Hk as [Hnp Hns Hso Hw]; constructor; cbn; auto.
  all: intros p' Hp' Hpp; destruct (Hw p' Hp' Hpp) as [Hb <-]; split; [done|].
  all: unfold waiting; cbn; apply waiting_snoc; lia.
Qed.

Lemma keeps_connect cur : keeps cur -> keeps (connect cur).2.
Proof.
  intros Hk. unfold connect. destruct (ws (api cur)).
  - by apply keeps_new_promise.
  - pose proof (keeps_new_promise Pending cur Hk) as [Hnp Hns Hso Hw].
    constructor; cbn in *; auto.
    intros w Hlt. rewrite lookup_insert_ne by lia. by apply Hso.
Qed.

Lemma keeps_cleanup cur : keeps cur -> keeps (cleanupWebSocket cur).
Proof.
  intros Hk. unfold cleanupWebSocket. destruct (ws (api cur)); [|done].
  by apply (keeps_frame cur).
Qed.

Lemma keeps_armed cur : keeps cur -> keeps (armed cur).
Proof.
  intros Hk. apply (keeps_frame (new_promise Pending cur).2); [|done..].
  by apply keeps_new_promise.
Qed.

Lemma keeps_request_send method params retries q cur :
  keeps cur -> keeps (request_send method params retries q cur).
Proof.
  intros Hk. rewrite request_send_unfold. cbn zeta.
  pose proof (keeps_armed cur Hk) as H1.
  apply keeps_await; [|by apply (k_np _ Hk)].
  destruct (ws_send_cases (mkRequest "2.0" (messageId (api cur))
              match deviceId (api cur) with
              | Some d => if bool_decide (d = "") then "homey_default" else d
              | None => "homey_default"
              end method params) (armed cur)) as [(err & -> & _)|(w & _ & ->)].
  - rewrite send_catch_throws. apply keeps_settle. by apply (keeps_frame (armed cur)).
  - destruct (transport (armed cur) (sends (armed cur))) as [err|].
    + rewrite send_catch_throws. apply keeps_settle. by apply (keeps_frame (armed cur)).
    + by apply (keeps_frame (armed cur)).
Qed.

Lemma keeps_request method params retries cur :
  keeps cur -> keeps (request method params retries cur).2.
Proof.
  intros Hk. unfold request.
  pose proof (keeps_new_promise Pending cur Hk) as H0.
  destruct (new_promise Pending cur) as [q cur0] eqn:Hnew. cbn [fst snd] in *.
  destruct (isConnected (api cur0)); cbn [snd].
  - by apply keeps_request_send.
  - pose proof (keeps_connect cur0 H0) as H1.
    pose proof (connect_promise cur0) as Hc1.
    destruct (connect cur0) as [c cur1]. cbn [fst snd] in *.
    apply keeps_await; [done|]. rewrite Hc1. apply (k_np _ H0).
Qed.

Lemma keeps_request_catch method params retries q err cur :
  keeps cur -> keeps (request_catch method params retries q err cur).
Proof.
  intros Hk. unfold request_catch.
  destruct ((0 <? retries) && retryable (err_code err)); [|by apply keeps_settle].
  pose proof (keeps_new_promise Pending cur Hk) as H0.
  destruct (new_promise Pending cur) as [d cur0] eqn:Hnew.
  assert (d = next_promise cur) as -> by (by injection Hnew as <- _).
  cbn [snd] in *.
  assert (H1 : keeps (setTimeout (TResolve (next_promise cur)) CONFIG.RETRY_DELAY cur0).2)
    by by apply (keeps_frame cur0).
  destruct (setTimeout _ CONFIG.RETRY_DELAY cur0) as [t cur1]. cbn [snd] in *.
  apply keeps_await; [done|]. apply (k_np _ Hk).
Qed.

Lemma keeps_run_cont k o cur : keeps cur -> keeps (run_cont k o cur).
Proof.
  intros Hk. destruct k as [p|method params retries q|method params retries q|q];
    cbn [run_cont].
  - by apply keeps_settle.
  - destruct o; [by apply keeps_request_send|by apply keeps_request_catch].
  - destruct o; [|by apply keeps_settle].
    pose proof (keeps_request method params (retries - 1) cur Hk) as H1.
    pose proof (request_promise method params (retries - 1) cur) as Hq'.
    destruct (request method params (retries - 1) cur) as [q' cur1]. cbn [fst snd] in *.
    apply keeps_await; [done|]. rewrite Hq'. apply (k_np _ Hk).
  - by apply keeps_settle.
Qed.

Lemma keeps_run_timer a cur : keeps cur -> keeps (run_timer a cur).
Proof.
  intros Hk. destruct a as [id n|d|method params retries p]; cbn [run_timer].
  - apply keeps_settle. by apply (keeps_frame cur).
  - by apply keeps_settle.
  - pose proof (keeps_request method params retries cur Hk) as H1.
    pose proof (request_promise method params retries cur) as Hq'.
    destruct (request method params retries cur) as [q' cur1]. cbn [fst snd] in *.
    apply keeps_await; [done|]. rewrite Hq'. apply (k_np _ Hk).
Qed.

Lemma keeps_on_open p cur : keeps cur -> keeps (on_open p cur).
Proof.
  intros Hk. unfold on_open, getStatus.
  assert (H0 : keeps (with_api (set_isConnected true) cur)) by by apply (keeps_frame cur).
  pose proof (keeps_request "Shelly.GetStatus" (VObj []) 1 _ H0) as H1.
  pose proof (request_promise "Shelly.GetStatus" (VObj []) 1
                (with_api (set_isConnected true) cur)) as Hq.
  destruct (request "Shelly.GetStatus" (VObj []) 1 _) as [q cur1]. cbn [fst snd] in *.
  apply keeps_await; [done|]. rewrite Hq. apply (k_np _ Hk).
Qed.

Lemma keeps_handleMessage m cur cur' :
  keeps cur -> handleMessage m cur = Returns cur' -> keeps cur'.
Proof.
  intros Hk. unfold handleMessage. destruct (is_notify m).
  - intros Hn. apply handleNotification_frame in Hn as [->|[env ->]]; [done|].
    by apply (keeps_frame cur).
  - destruct (truthy (msg_id m)); [|by intros [= <-]]. intros [= <-].
    destruct (pending_get (msg_id m) (api cur)) as [[id r]|] eqn:Hget.
    + rewrite (handleRpcResponse_unfold _ _ _ _ Hget).
      apply keeps_settle. by apply (keeps_frame cur).
    + unfold handleRpcResponse. by rewrite Hget.
Qed.

End Keeps.

Section KeepsStep.
Import Js ShellyApi.

Lemma step_keeps e rt : keeps rt (step e rt).
Proof.
  pose proof (keeps_base rt) as H0.
  destruct e as [|method params retries| |h|w|w m|w|w err|t|ms|]; cbn [step].
  - by apply keeps_connect.
  - by apply keeps_request.
  - by apply keeps_cleanup.
  - by apply (keeps_frame rt rt).
  - destruct (sockets rt !! w) as [p|]; [|done]. by apply keeps_on_open.
  - destruct (sockets rt !! w); [|done].
    destruct (handleMessage m rt) as [rt'|] eqn:Hm; [|done].
    by eapply keeps_handleMessage.
  - destruct (sockets rt !! w); [|done]. by apply (keeps_frame rt rt).
  - destruct (sockets rt !! w) as [p|]; [|done]. unfold handleError.
    by apply keeps_settle, keeps_cleanup.
  - destruct (timers rt !! t) as [tm|]; [|done].
    destruct (due tm <=? now rt); [|done].
    apply keeps_run_timer. by apply (keeps_frame rt rt).
  - destruct (0 <=? ms); [|done]. by apply (keeps_frame rt rt).
  - destruct (microtasks rt) as [|[k o] rest]; [done|].
    apply keeps_run_cont. by apply (keeps_frame rt rt).
Qed.

End KeepsStep.

(** ** The channel: what never changes *)

Section Static.
Import Js ShellyApi.

Implicit Types (rt cur : Runtime) (o : Outcome) (k : Cont) (m : Message).

(** The address, the client id and the transport of a channel. *)
Definition identity (rt : Runtime) : string * option string * (nat -> option JsError) :=
  (ip (api rt), deviceId (api rt), transport rt).

Lemma identity_settle x o rt : identity (settle x o rt) = identity rt.
Proof. unfold settle. by destruct (promises rt !! x) as [[|]|]. Qed.

Lemma identity_await p k rt : identity (await p k rt) = identity rt.
Proof. unfold await. by destruct (promises rt !! p) as [[|]|]. Qed.

Lemma identity_cleanup rt : identity (cleanupWebSocket rt) = identity rt.
Proof. unfold cleanupWebSocket. by destruct (ws (api rt)). Qed.

Lemma identity_connect rt : identity (connect rt).2 = identity rt.
Proof. unfold connect. by destruct (ws (api rt)). Qed.

Lemma identity_request_send method params retries q rt :
  identity (request_send method params retries q rt) = identity rt.
Proof.
  rewrite request_send_unfold. cbn zeta. rewrite identity_await.
  destruct (ws_send_cases (mkRequest "2.0" (messageId (api rt))
              match deviceId (api rt) with
              | Some d => if bool_decide (d = "") then "homey_default" else d
              | None => "homey_default"
              end method params) (armed rt)) as [(err & -> & _)|(w & _ & ->)].
  - rewrite send_catch_throws. by rewrite identity_settle.
  - destruct (transport (armed rt) (sends (armed rt))); [|done].
    rewrite send_catch_throws. by rewrite identity_settle.
Qed.

Lemma identity_request method params retries rt :
  identity (request method params retries rt).2 = identity rt.
Proof.
  unfold request. cbn [new_promise].
  destruct (isConnected (api _)); cbn [snd].
  - by rewrite identity_request_send.
  - pose proof (identity_connect
                  (with_next_promise (S (next_promise rt))
                     (with_promises (<[next_promise rt := Pending]> (promises rt)) rt))) as Hc.
    destruct (connect _) as [c rt1]. cbn [snd] in *. by rewrite identity_await, Hc.
Qed.

Lemma identity_request_catch method params retries q err rt :
  identity (request_catch method params retries q err rt) = identity rt.
Proof.
  unfold request_catch. destruct ((0 <? retries) && retryable (err_code err)).
  - cbn. by rewrite identity_await.
  - by rewrite identity_settle.
Qed.

Lemma identity_run_cont k o rt : identity (run_cont k o rt) = identity rt.
Proof.
  destruct k as [p|method params retries q|method params retries q|q]; cbn [run_cont].
  - apply identity_settle.
  - destruct o; [apply identity_request_send|apply identity_request_catch].
  - destruct o; [|apply identity_settle].
    pose proof (identity_request method params (retries - 1) rt) as Hr.
    destruct (request method params (retries - 1) rt) as [q' rt1]. cbn [snd] in *.
    by rewrite identity_await.
  - apply identity_settle.
Qed.

Lemma identity_run_timer a rt : identity (run_timer a rt) = identity rt.
Proof.
  destruct a as [id n|d|method params retries p]; cbn [run_timer].
  - by rewrite identity_settle.
  - apply identity_settle.
  - pose proof (identity_request method params retries rt) as Hr.
    destruct (request method params retries rt) as [q' rt1]. cbn [snd] in *.
    by rewrite identity_await.
Qed.

Lemma identity_on_open p rt : identity (on_open p rt) = identity rt.
Proof.
  unfold on_open, getStatus.
  pose proof (identity_request "Shelly.GetStatus" (VObj []) 1
                (with_api (set_isConnected true) rt)) as Hr.
  destruct (request "Shelly.GetStatus" (VObj []) 1 _) as [q rt1]. cbn [snd] in *.
  by rewrite identity_await.
Qed.

Lemma identity_handleMessage m rt rt' :
  handleMessage m rt = Returns rt' -> identity rt' = identity rt.
Proof.
  unfold handleMessage. destruct (is_notify m).
  - intros Hn. by apply handleNotification_frame in Hn as [->|[env ->]].
  - destruct (truthy (msg_id m)); [|by intros [= <-]]. intros [= <-].
    destruct (pending_get (msg_id m) (api rt)) as [[id r]|] eqn:Hget.
    + rewrite (handleRpcResponse_unfold _ _ _ _ Hget). by rewrite identity_settle.
    + unfold handleRpcResponse. by rewrite Hget.
Qed.

Lemma identity_step e rt : identity (step e rt) = identity rt.
Proof.
  destruct e as [|method params retries| |h|w|w m|w|w err|t|ms|]; cbn [step].
  - apply identity_connect.
  - apply identity_request.
  - apply identity_cleanup.
  - done.
  - destruct (sockets rt !! w); [apply identity_on_open|done].
  - destruct (sockets rt !! w); [|done].
    destruct (handleMessage m rt) as [rt'|] eqn:Hm; [|done].
    by eapply identity_handleMessage.
  - by destruct (sockets rt !! w).
  - destruct (sockets rt !! w); [|done]. unfold handleError.
    by rewrite identity_settle, identity_cleanup.
  - destruct (timers rt !! t) as [tm|]; [|done].
    destruct (due tm <=? now rt); [|done]. by rewrite identity_run_timer.
  - by destruct (0 <=? ms).
  - destruct (microtasks rt) as [|[k o] rest]; [done|]. by rewrite identity_run_cont.
Qed.

Lemma identity_run es rt : identity (run es rt) = identity rt.
Proof.
  unfold run. revert rt. induction es as [|e es IH]; intros rt; cbn; [done|].
  by rewrite IH, identity_step.
Qed.

Lemma reachable_identity ip id tr es :
  let rt := run es (boot (constructor ip id) tr) in
  ShellyApi.ip (api rt) = ip /\ deviceId (api rt) = id /\ transport rt = tr.
Proof.
  intros rt. pose proof (identity_run es (boot (constructor ip id) tr)) as H.
  fold rt in H. unfold identity in H. cbn in H. by injection H as -> -> ->.
Qed.

End Static.

(** ** The channel: a connection attempt *)

Section Connecting.
Import Js ShellyApi.

Implicit Types (rt : Runtime) (o : Outcome) (k : Cont) (e : Event).

(** Nothing in a state refers to a promise that does not exist yet. *)
Lemma fresh_untouched x rt :
  WF rt -> (next_promise rt <= x)%nat ->
  (forall k o, (k, o) ∈ microtasks rt -> cont_target k <> x)
  /\ (forall t tm, timers rt !! t = Some tm -> timer_target (action tm) <> x)
  /\ not_slot rt x
  /\ (forall w, sockets rt !! w <> Some x)
  /\ (forall p k, (p, k) ∈ reactions rt -> p <> x /\ cont_target k <> x).
Proof.
  intros Hwf Hx. repeat split.
  - intros k o Hin. destruct (wf_microtasks _ Hwf k o Hin). lia.
  - intros t tm Ht. destruct (wf_timers _ Hwf t tm Ht) as [_ Hok]. unfold timer_ok in Hok.
    destruct (action tm) as [id n|d|]; cbn; [| |done].
    + destruct Hok as (Hslot & _). destruct (wf_slots _ Hwf _ _ Hslot) as (_ & ? & _).
      cbn in *. lia.
    + destruct Hok as (? & _). lia.
  - intros id r Hr. destruct (wf_slots _ Hwf _ _ Hr) as (_ & ? & _). lia.
  - intros w Hw. destruct (wf_sockets _ Hwf w _ Hw) as (_ & ? & _). lia.
  - destruct (wf_reactions _ Hwf p k H) as (? & _). lia.
  - destruct (wf_reactions _ Hwf p k H) as (_ & ? & _). lia.
Qed.

(** The attempt whose promise is [P] and whose socket is [w] has not
    been answered: [P] is pending and only the listeners of [w] can
    settle it. *)
Record connecting (P w : nat) (rt : Runtime) : Prop := mkConnecting {
  cg_wf : WF rt;
  cg_pending : promises rt !! P = Some Pending;
  cg_private : private P rt;
  cg_socket : sockets rt !! w = Some P;
  cg_unique : forall w', sockets rt !! w' = Some P -> w' = w;
  cg_target : forall p k, (p, k) ∈ reactions rt -> cont_target k <> P
}.

Lemma connect_connecting rt :
  WF rt -> ws (api rt) = None ->
  let P := next_promise rt in
  let w := next_socket rt in
  connecting P w (connect rt).2
  /\ (connect rt).1 = P
  /\ wire (connect rt).2 = wire rt ++ [WNew w (wsUrl (api rt))]
  /\ ws (api (connect rt).2) = Some w
  /\ isConnected (api (connect rt).2) = isConnected (api rt).
Proof.
  intros Hwf Hws P w. pose proof (WF_connect rt Hwf) as Hwf1.
  destruct (fresh_untouched P rt Hwf ltac:(done)) as (Hmi & Hti & Hsl & Hso & Hre).
  revert Hwf1. unfold connect. rewrite Hws. cbn. intros Hwf1.
  split; [|done]. constructor; cbn; try done.
  - apply Hwf1.
  - apply lookup_insert_eq.
  - constructor; cbn; try done. lia.
  - apply lookup_insert_eq.
  - intros w'. destruct (decide (w' = next_socket rt)) as [->|Hne]; [done|].
    rewrite lookup_insert_ne by done. intros Hw'. by destruct (Hso w').
  - intros p k Hin. by destruct (Hre p k Hin).
Qed.

Lemma connecting_unlistened P w e rt :
  connecting P w rt -> ~ socket_event w e -> no_listener P rt e.
Proof.
  intros H Hne w' He Hw'. apply Hne. by rewrite <- (cg_unique _ _ _ H w' Hw').
Qed.

Lemma connecting_step P w e rt :
  connecting P w rt -> ~ socket_event w e -> connecting P w (step e rt).
Proof.
  intros H Hne. pose proof (connecting_unlistened _ _ _ _ H Hne) as Hno.
  destruct H as [Hwf Hp Hpv Hso Hun Hta].
  pose proof (step_calm P e rt Hwf Hpv Hno) as Hc.
  pose proof (step_keeps e rt) as Hk.
  constructor.
  - by apply WF_step.
  - by rewrite (c_x _ _ _ Hc).
  - apply private_step; try done. intros p k Hin Hk'. by destruct (Hta p k Hin).
  - rewrite (k_sockets _ _ Hk); [done|]. by destruct (wf_sockets _ Hwf w P Hso).
  - intros w' Hw'. by apply Hun, (c_sockets _ _ _ Hc).
  - intros p k Hin Hk'. apply (Hta p k); [|done]. by apply (c_react_in _ _ _ Hc).
Qed.

Lemma connecting_run P w es rt :
  connecting P w rt -> Forall (fun e => ~ socket_event w e) es ->
  connecting P w (run es rt).
Proof.
  intros H Hes. revert rt H. unfold run.
  induction Hes as [|e es He _ IH]; intros rt H; cbn; [done|].
  by apply IH, connecting_step.
Qed.

(** The 'error' listener of the socket ends the attempt: the socket is
    dropped and [P] is rejected with the error [handleError] makes. *)
Lemma connecting_error P w err rt :
  connecting P w rt ->
  let rt' := step (WsError w err) rt in
  promises rt' !! P = Some (Settled (Rejected (enhance err)))
  /\ ws (api rt') = None
  /\ sends rt' = sends rt.
Proof.
  intros [Hwf Hp Hpv Hso Hun Hta] rt'. subst rt'. cbn [step]. rewrite Hso.
  unfold handleError, settle.
  assert (Hpc : promises (cleanupWebSocket rt) = promises rt).
  { unfold cleanupWebSocket. by destruct (ws (api rt)). }
  rewrite Hpc, Hp. cbn. rewrite lookup_insert_eq. split; [done|].
  unfold cleanupWebSocket. destruct (ws (api rt)) as [w0|] eqn:Hws; cbn.
  - split; [done|]. unfold sends. cbn. by rewrite filter_app, length_app.
  - done.
Qed.

End Connecting.

Section Opening.
Import Js ShellyApi.

Implicit Types (rt : Runtime) (o : Outcome) (k : Cont) (e : Event).

(** The 'open' listener of socket [w] has sent its status query, request
    [cid], and waits for it: [q] is the promise of that call, and the
    continuation that resolves [P] is the one reaction waiting for [q]. *)
Record opening (P w : nat) (cid : Z) (t n q : nat) (tm : Timer) (rt : Runtime) : Prop :=
  mkOpening {
  op_flight : in_flight cid t n q tm rt;
  op_pending : promises rt !! P = Some Pending;
  op_private : private P rt;
  op_socket : sockets rt !! w = Some P;
  op_unique : forall w', sockets rt !! w' = Some P -> w' = w;
  op_n : waiting n rt = [(n, KAdopt q)];
  op_q : waiting q rt = [(q, KOpenStatus P)];
  op_target : forall p k, (p, k) ∈ reactions rt -> cont_target k = P -> p = q;
  op_distinct : P <> q /\ P <> n
}.

Lemma request_reactions method params retries w rt :
  isConnected (api rt) = true -> ws (api rt) = Some w -> transport rt (sends rt) = None ->
  reactions (request method params retries rt).2
  = reactions rt ++ [(S (next_promise rt), KAdopt (next_promise rt))].
Proof.
  intros Hc Hws Htr. rewrite (request_connected _ _ _ _ Hc). cbn [snd].
  by rewrite (request_send_ok _ _ _ _ w).
Qed.

Lemma connecting_connected P w rt :
  connecting P w rt -> connecting P w (with_api (set_isConnected true) rt).
Proof.
  intros [Hwf Hp [Hx Hmi Hti Hsl] Hso Hun Hta]. constructor; try done.
  by apply (WF_same rt).
Qed.

Lemma step_call method params retries rt :
  step (CallRequest method params retries) rt = (request method params retries rt).2.
Proof. reflexivity. Qed.

Lemma on_open_connected P rt :
  on_open P rt
  = await (next_promise rt) (KOpenStatus P)
      (request "Shelly.GetStatus" (VObj []) 1 (with_api (set_isConnected true) rt)).2.
Proof.
  unfold on_open, getStatus.
  rewrite (request_connected _ _ _ (with_api (set_isConnected true) rt) eq_refl).
  cbn [fst snd]. reflexivity.
Qed.

Lemma open_opening P w w' rt :
  connecting P w rt -> ws (api rt) = Some w' -> transport rt (sends rt) = None ->
  let q := next_promise rt in
  let cid := messageId (api rt) in
  let rt' := step (WsOpen w) rt in
  opening P w cid (next_timer rt) (S q) q (deadline cid (S q) rt) rt'
  /\ isConnected (api rt') = true
  /\ wire rt' = wire rt ++ [WSend w' (mkRequest "2.0" cid (src_of (api rt))
                                        "Shelly.GetStatus" (VObj [])) None]
  /\ microtasks rt' = microtasks rt.
Proof.
  intros Hcg Hws Htr q cid rt'.
  pose proof (WF_step (WsOpen w) rt (cg_wf _ _ _ Hcg)) as Hwf'. fold rt' in Hwf'.
  assert (Ert : rt' = on_open P rt).
  { subst rt'. cbn [step]. by rewrite (cg_socket _ _ _ Hcg). }
  rewrite on_open_connected in Ert.
  pose proof (connecting_connected _ _ _ Hcg) as Hcg0.
  assert (Hcall : ~ socket_event w (CallRequest "Shelly.GetStatus" (VObj []) 1))
    by (intros [?|[? ?]]; discriminate).
  pose proof (connecting_step P w _ _ Hcg0 Hcall) as Hcg1. rewrite step_call in Hcg1.
  destruct (request_in_flight "Shelly.GetStatus" (VObj []) 1 w'
              (with_api (set_isConnected true) rt) (cg_wf _ _ _ Hcg0) eq_refl Hws Htr)
    as (Hfl & _ & Hwire & _ & Hmicro).
  pose proof (request_reactions "Shelly.GetStatus" (VObj []) 1 w'
                (with_api (set_isConnected true) rt) eq_refl Hws Htr) as Hre.
  assert (Hisc : isConnected (api (request "Shelly.GetStatus" (VObj []) 1
                                     (with_api (set_isConnected true) rt)).2) = true).
  { rewrite (request_connected _ _ _ (with_api (set_isConnected true) rt) eq_refl).
    cbn [snd]. rewrite request_send_api. reflexivity. }
  revert Ert Hcg1 Hfl Hwire Hmicro Hre Hisc.
  generalize (request "Shelly.GetStatus" (VObj []) 1 (with_api (set_isConnected true) rt)).2.
  intros rtq Ert Hcg1 Hfl Hwire Hmicro Hre Hisc.
  cbn [next_promise next_timer api with_api messageId set_isConnected reactions] in Hfl, Hre.
  change (deadline (messageId (api rt)) (S (next_promise rt))
            (with_api (set_isConnected true) rt))
    with (deadline cid (S q) rt) in Hfl.
  fold q cid in Hfl. fold q in Hre.
  pose proof (in_flight_slot _ _ _ _ _ _ Hfl) as (_ & _ & _ & Hnq & _).
  destruct (no_reaction_on_new rt q (cg_wf _ _ _ Hcg) ltac:(done)) as [Hq0 _].
  destruct (no_reaction_on_new rt (S q) (cg_wf _ _ _ Hcg) ltac:(subst q; lia)) as [Hn0 _].
  assert (HP : (P < q)%nat) by apply (pv_exists _ _ (cg_private _ _ _ Hcg)).
  unfold await in Ert. fold q in Ert. rewrite (if_q _ _ _ _ _ _ Hfl) in Ert.
  clearbody rt'. subst rt'.
  split; [|done]. constructor.
  - destruct Hfl as [_ Ht Hact Hqp [Hx Hmi Hti Hsl] Hso Had Honly].
    constructor; try done.
    + cbn. apply elem_of_app. by left.
    + cbn. intros p k [Hin|Hin]%elem_of_app Hor; [by apply Honly|].
      apply list_elem_of_singleton in Hin as [= -> ->]. cbn in Hor. lia.
  - apply Hcg1.
  - destruct (cg_private _ _ _ Hcg1) as [Hx Hmi Hti Hsl]. by constructor.
  - apply Hcg1.
  - apply Hcg1.
  - unfold waiting. cbn [reactions with_reactions]. rewrite Hre.
    rewrite !filter_app, Hn0. cbn [app].
    rewrite filter_cons_True by (by apply bool_decide_eq_true_2).
    rewrite filter_cons_False; [done|].
    unfold reacts_to. cbn. rewrite bool_decide_eq_false_2; [done|lia].
  - unfold waiting. cbn [reactions with_reactions]. rewrite Hre.
    rewrite !filter_app, Hq0. cbn [app].
    rewrite filter_cons_False.
    2:{ unfold reacts_to. cbn. rewrite bool_decide_eq_false_2; [done|lia]. }
    by rewrite filter_cons_True by (by apply bool_decide_eq_true_2).
  - cbn. intros p k [Hin|Hin]%elem_of_app Hk.
    + by destruct (cg_target _ _ _ Hcg1 p k Hin).
    + by apply list_elem_of_singleton in Hin as [= -> _].
  - lia.
Qed.

Lemma opening_unlistened P w cid t n q tm e rt :
  opening P w cid t n q tm rt -> ~ socket_event w e -> no_listener P rt e.
Proof.
  intros H Hne w' He Hw'. apply Hne. by rewrite <- (op_unique _ _ _ _ _ _ _ _ H w' Hw').
Qed.

Lemma opening_step P w cid t n q tm e rt :
  opening P w cid t n q tm rt ->
  ~ socket_event w e -> e <> TimerFires t -> ~ responds cid e ->
  opening P w cid t n q tm (step e rt).
Proof.
  intros H Hne Hfire Hresp. pose proof (opening_unlistened _ _ _ _ _ _ _ _ _ H Hne) as Hno.
  destruct H as [Hfl Hp Hpv Hso Hun Hwn Hwq Hta Hdi].
  pose proof (if_wf _ _ _ _ _ _ Hfl) as Hwf.
  pose proof (step_calm P e rt Hwf Hpv Hno) as Hc.
  pose proof (step_keeps e rt) as Hk.
  pose proof (in_flight_step _ _ _ _ _ e _ Hfl Hfire Hresp) as Hfl'.
  pose proof (in_flight_slot _ _ _ _ _ _ Hfl) as (_ & _ & _ & _ & Hn).
  pose proof (in_flight_slot _ _ _ _ _ _ Hfl') as (_ & Hn' & _).
  constructor; try done.
  - by rewrite (c_x _ _ _ Hc).
  - apply private_step; try done. intros p k Hin Hk'.
    rewrite (Hta p k Hin Hk'). apply Hfl'.
  - rewrite (k_sockets _ _ Hk); [done|]. by destruct (wf_sockets _ Hwf w P Hso).
  - intros w' Hw'. by apply Hun, (c_sockets _ _ _ Hc).
  - destruct (k_waits _ _ Hk n Hn Hn') as [_ ->]. done.
  - destruct (k_waits _ _ Hk q (pv_exists _ _ (if_private _ _ _ _ _ _ Hfl))
                (if_q _ _ _ _ _ _ Hfl')) as [_ ->]. done.
  - intros p k Hin Hk'. apply (Hta p k); [|done]. by apply (c_react_in _ _ _ Hc).
Qed.

Lemma opening_run P w cid t n q tm es rt :
  opening P w cid t n q tm rt ->
  Forall (fun e => ~ socket_event w e /\ e <> TimerFires t /\ ~ responds cid e) es ->
  opening P w cid t n q tm (run es rt).
Proof.
  intros H Hes. revert rt H. unfold run.
  induction Hes as [|e es (He1 & He2 & He3) _ IH]; intros rt H; cbn; [done|].
  by apply IH, opening_step.
Qed.

End Opening.

Section Exchange.
Import Js ShellyApi.

Implicit Types (rt : Runtime) (o : Outcome) (k : Cont) (e : Event).

Lemma truthy_as_int v z : as_int v = Some z -> z <> 0 -> truthy v = true.
Proof.
  destruct v as [| | |c| | |]; try done. unfold as_int, truthy.
  destruct (Qden c =? 1)%positive; [|done]. intros [= <-] Hz.
  apply negb_true_iff, bool_decide_eq_false_2. intros ->. by apply Hz.
Qed.

(** The end of the status exchange: once the promise [n] of the request
    is settled, one microtask passes its outcome to [q], and the next
    one, the rest of the 'open' listener, resolves [P], whatever the
    outcome. *)
Lemma settle_chain P n q o rt :
  promises rt !! n = Some Pending -> promises rt !! q = Some Pending ->
  promises rt !! P = Some Pending ->
  waiting n rt = [(n, KAdopt q)] -> waiting q rt = [(q, KOpenStatus P)] ->
  microtasks rt = [] -> n <> q -> P <> q -> P <> n ->
  let rt1 := settle n o rt in
  let rt2 := step Microtask rt1 in
  let rt3 := step Microtask rt2 in
  promises rt1 !! P = Some Pending
  /\ promises rt2 !! P = Some Pending
  /\ promises rt2 !! q = Some (Settled o)
  /\ promises rt3 !! P = Some (Settled (Fulfilled VUndefined))
  /\ wire rt3 = wire rt /\ timers rt3 = timers rt /\ next_timer rt3 = next_timer rt.
Proof.
  intros Hn Hq HP Hwn Hwq Hmi Hnq HPq HPn rt1 rt2 rt3.
  unfold waiting in Hwn, Hwq.
  assert (E1 : rt1 = with_microtasks [(KAdopt q, o)]
                 (with_reactions (filter (fun r => reacts_to n r = false) (reactions rt))
                    (with_promises (<[n := Settled o]> (promises rt)) rt))).
  { subst rt1. unfold settle. by rewrite Hn, Hwn, Hmi. }
  assert (E2 : rt2 = with_microtasks [(KOpenStatus P, o)]
                 (with_reactions
                    (filter (fun r => reacts_to q r = false)
                       (filter (fun r => reacts_to n r = false) (reactions rt)))
                    (with_promises (<[q := Settled o]> (<[n := Settled o]> (promises rt))) rt))).
  { subst rt2. rewrite E1. cbn [step microtasks with_microtasks run_cont].
    unfold settle. cbn [promises with_microtasks with_reactions with_promises].
    rewrite lookup_insert_ne by done. rewrite Hq.
    cbn [reactions microtasks with_microtasks with_reactions with_promises].
    rewrite waiting_others by done. by rewrite Hwq. }
  assert (E3 : promises rt3 !! P = Some (Settled (Fulfilled VUndefined))
               /\ wire rt3 = wire rt /\ timers rt3 = timers rt
               /\ next_timer rt3 = next_timer rt).
  { subst rt3. rewrite E2. cbn [step microtasks with_microtasks run_cont].
    unfold settle. cbn [promises with_microtasks with_reactions with_promises].
    rewrite !lookup_insert_ne by done. rewrite HP. cbn. by rewrite lookup_insert_eq. }
  rewrite E1 at 1. rewrite E2 at 1 2. cbn [promises with_microtasks with_reactions with_promises].
  rewrite !lookup_insert_ne by done. rewrite lookup_insert_eq. done.
Qed.

(** The exchange completes: by the response to request [cid] ... *)
Lemma opening_response P w cid t n q tm w' m rt :
  opening P w cid t n q tm rt -> microtasks rt = [] ->
  is_Some (sockets rt !! w') -> is_notify m = false -> as_int (msg_id m) = Some cid ->
  let rt1 := step (WsMessage w' m) rt in
  let rt2 := step Microtask rt1 in
  let rt3 := step Microtask rt2 in
  promises rt1 !! P = Some Pending
  /\ promises rt2 !! P = Some Pending
  /\ promises rt3 !! P = Some (Settled (Fulfilled VUndefined))
  /\ wire rt3 = wire rt.
Proof.
  intros H Hmi [p Hw'] Hnot Hid rt1.
  destruct H as [Hfl Hp Hpv Hso Hun Hwn Hwq Hta [HPq HPn]].
  pose proof (in_flight_slot _ _ _ _ _ _ Hfl) as (Hslot & Hn & _ & Hnq & _).
  destruct (wf_slots _ (if_wf _ _ _ _ _ _ Hfl) _ _ Hslot) as (Hcid & _).
  assert (Hget : pending_get (msg_id m) (api rt) = Some (cid, mkResolver t n)).
  { unfold pending_get. by rewrite Hid, Hslot. }
  assert (E : rt1 = settle n
                (if truthy (msg_error m)
                 then Rejected (Error ("RPC Error " ++ template (get (msg_error m) "code")
                                       ++ ": " ++ template (get (msg_error m) "message")))
                 else Fulfilled (msg_result m))
                (retired cid t rt)).
  { subst rt1. cbn [step]. rewrite Hw'. unfold handleMessage. rewrite Hnot.
    rewrite (truthy_as_int _ cid Hid) by lia.
    by rewrite (handleRpcResponse_unfold _ _ _ _ Hget). }
  subst rt1. rewrite E.
  destruct (settle_chain P n q
              (if truthy (msg_error m)
               then Rejected (Error ("RPC Error " ++ template (get (msg_error m) "code")
                                     ++ ": " ++ template (get (msg_error m) "message")))
               else Fulfilled (msg_result m))
              (retired cid t rt)) as (H1 & H2 & _ & H3 & H4 & _); try done.
  by apply if_q in Hfl.
Qed.

(** ... or by its timeout. *)
Lemma opening_timeout P w cid t n q tm rt :
  opening P w cid t n q tm rt -> microtasks rt = [] -> due tm <= now rt ->
  let rt1 := step (TimerFires t) rt in
  let rt2 := step Microtask rt1 in
  let rt3 := step Microtask rt2 in
  promises rt1 !! P = Some Pending
  /\ promises rt2 !! P = Some Pending
  /\ promises rt3 !! P = Some (Settled (Fulfilled VUndefined))
  /\ wire rt3 = wire rt.
Proof.
  intros H Hmi Hdue rt1.
  destruct H as [Hfl Hp Hpv Hso Hun Hwn Hwq Hta [HPq HPn]].
  pose proof (in_flight_slot _ _ _ _ _ _ Hfl) as (Hslot & Hn & _ & Hnq & _).
  subst rt1. cbn [step]. rewrite (if_timer _ _ _ _ _ _ Hfl).
  rewrite (proj2 (Z.leb_le _ _) Hdue), (if_action _ _ _ _ _ _ Hfl). cbn [run_timer].
  destruct (settle_chain P n q (Rejected (Error "REQUEST_TIMEOUT"))
              (with_api (fun a => set_pendingRequests (delete cid (pendingRequests a)) a)
                 (with_timers (delete t (timers rt)) rt)))
    as (H1 & H2 & _ & H3 & H4 & _); try done.
  by apply if_q in Hfl.
Qed.

End Exchange.

(** ** The channel: connecting *)

Section ConnectFacts.
Import Js ShellyApi.

Implicit Types (rt : Runtime) (o : Outcome) (k : Cont) (e : Event).

(** X1: [connect] is idempotent.  In every state the channel can reach,
    once [connect] has returned there is a socket, and a second call
    returns a promise that is already fulfilled: it opens nothing, sends
    nothing, arms nothing and leaves the fields of the object as they
    are.  The first call does the same when a socket exists already
    (open or still connecting); otherwise it opens exactly one socket,
    new, to [ws://<ip>/rpc], attaches its listeners and returns a pending
    promise, with [isConnected] left as it was. *)
Theorem X1_connect_idempotent ip (id : option string) tr (es : list Event) :
  let rt := run es (boot (constructor ip id) tr) in
  let p1 := (connect rt).1 in
  let rt1 := (connect rt).2 in
  let p2 := (connect rt1).1 in
  let rt2 := (connect rt1).2 in
  is_Some (ws (api rt1))
  /\ wire rt2 = wire rt1 /\ sockets rt2 = sockets rt1 /\ api rt2 = api rt1
  /\ timers rt2 = timers rt1
  /\ promises rt2 !! p2 = Some (Settled (Fulfilled VUndefined))
  /\ match ws (api rt) with
     | Some _ =>
         wire rt1 = wire rt /\ sockets rt1 = sockets rt /\ api rt1 = api rt
         /\ promises rt1 !! p1 = Some (Settled (Fulfilled VUndefined))
     | None =>
         wire rt1 = wire rt ++ [WNew (next_socket rt) ("ws://" ++ ip ++ "/rpc")%string]
         /\ ws (api rt1) = Some (next_socket rt)
         /\ sockets rt !! next_socket rt = None
         /\ sockets rt1 = <[next_socket rt := p1]> (sockets rt)
         /\ promises rt1 !! p1 = Some Pending
         /\ isConnected (api rt1) = isConnected (api rt)
     end.
Proof.
  intros rt p1 rt1 p2 rt2.
  pose proof (WF_reachable ip id tr es) as Hwf. fold rt in Hwf.
  destruct (reachable_identity ip id tr es) as (Hip & _). fold rt in Hip.
  assert (Hsome : is_Some (ws (api rt1))).
  { subst rt1. unfold connect. destruct (ws (api rt)) as [w|] eqn:Hws; cbn; by rewrite ?Hws. }
  split; [done|].
  assert (H2 : wire rt2 = wire rt1 /\ sockets rt2 = sockets rt1 /\ api rt2 = api rt1
               /\ timers rt2 = timers rt1
               /\ promises rt2 !! p2 = Some (Settled (Fulfilled VUndefined))).
  { destruct Hsome as [w Hw]. subst p2 rt2. unfold connect. rewrite Hw. cbn.
    by rewrite lookup_insert_eq. }
  destruct H2 as (? & ? & ? & ? & ?). repeat (split; [done|]).
  subst p1 rt1. unfold connect. destruct (ws (api rt)) as [w|] eqn:Hws; cbn.
  - by rewrite lookup_insert_eq.
  - unfold wsUrl. rewrite Hip, lookup_insert_eq. repeat (split; [done|]).
    split; [|done]. destruct (sockets rt !! next_socket rt) as [p|] eqn:Hs; [|done].
    destruct (wf_sockets _ Hwf _ _ Hs). lia.
Qed.

(** The code an error gets in [handleError]. *)
Definition error_kind (err : JsError) : string :=
  if includes (err_message err) "404"
     || includes (err_message err) "Unexpected server response"
  then "NOT_SHELLY_DEVICE"
  else match err_code err with
       | Some c => if bool_decide (c = "") then "CONNECTION_FAILED" else c
       | None => "CONNECTION_FAILED"
       end.

Lemma enhance_kind err :
  err_code (enhance err) = Some (error_kind err) /\ err_name (enhance err) = "Error".
Proof.
  unfold enhance, error_kind.
  destruct (includes (err_message err) "404" || includes (err_message err) _); [done|].
  destruct (err_code err) as [c|]; [|done]. by destruct (bool_decide (c = "")).
Qed.

Lemma error_kind_cases err :
  let foreign := includes (err_message err) "404"
                 || includes (err_message err) "Unexpected server response" in
  error_kind err <> ""
  /\ (foreign = true -> error_kind err = "NOT_SHELLY_DEVICE")
  /\ (foreign = false -> forall c, err_code err = Some c -> c <> "" -> error_kind err = c)
  /\ (foreign = false -> err_code err = None \/ err_code err = Some "" ->
      error_kind err = "CONNECTION_FAILED")
  /\ retryable (Some (error_kind err)) = negb foreign && retryable (err_code err).
Proof.
  intros foreign. unfold error_kind. fold foreign. destruct foreign.
  { split_and!; done. }
  destruct (err_code err) as [c|] eqn:Hc; [|split_and!; done].
  destruct (bool_decide (c = "")) eqn:Hd.
  - apply bool_decide_eq_true_1 in Hd. subst c. split_and!; try done.
    intros _ c' Hc' Hne. congruence.
  - apply bool_decide_eq_false_1 in Hd. split_and!; try done.
    + intros _ c' Hc' _. congruence.
    + intros _ [Hn|Hn]; congruence.
Qed.

(** X2: a connection attempt that fails.  After a [connect] that opened
    a socket, and whatever happens on the channel in between except the
    'open' or 'error' of that socket, the promise [connect] returned is
    still pending; the 'error' event of the socket then rejects it with
    the error [handleError] makes, drops the socket ([ws] is null again)
    and sends nothing.  That error is a plain [Error] whose code is
    NOT_SHELLY_DEVICE when the message of the original mentions 404 or
    an unexpected server response, else the original's code when it has
    one, else CONNECTION_FAILED; so it is never without a code, and it is
    retryable exactly when the original's code is and the device was
    not found foreign. *)
Theorem X2_connect_failure ip (id : option string) tr (es0 es1 : list Event) err :
  let rt := run es0 (boot (constructor ip id) tr) in
  ws (api rt) = None ->
  let P := (connect rt).1 in
  let w := next_socket rt in
  Forall (fun e => ~ socket_event w e) es1 ->
  let rt2 := run es1 (connect rt).2 in
  let rt3 := step (WsError w err) rt2 in
  let foreign := includes (err_message err) "404"
                 || includes (err_message err) "Unexpected server response" in
  promises rt2 !! P = Some Pending
  /\ promises rt3 !! P = Some (Settled (Rejected (enhance err)))
  /\ ws (api rt3) = None
  /\ sends rt3 = sends rt2
  /\ err_name (enhance err) = "Error"
  /\ err_code (enhance err) = Some (error_kind err)
  /\ error_kind err <> ""
  /\ (foreign = true -> error_kind err = "NOT_SHELLY_DEVICE")
  /\ (foreign = false -> forall c, err_code err = Some c -> c <> "" -> error_kind err = c)
  /\ (foreign = false -> err_code err = None \/ err_code err = Some "" ->
      error_kind err = "CONNECTION_FAILED")
  /\ retryable (err_code (enhance err)) = negb foreign && retryable (err_code err).
Proof.
  intros rt Hws P w Hes rt2 rt3 foreign.
  pose proof (WF_reachable ip id tr es0) as Hwf. fold rt in Hwf.
  destruct (connect_connecting rt Hwf Hws) as (Hcg & HP & _).
  fold w in Hcg. rewrite <- HP in Hcg. fold P in Hcg.
  pose proof (connecting_run _ _ _ _ Hcg Hes) as Hcg2. fold rt2 in Hcg2.
  destruct (connecting_error P w err rt2 Hcg2) as (H1 & H2 & H3). fold rt3 in H1, H2, H3.
  destruct (enhance_kind err) as [Hk Hn].
  destruct (error_kind_cases err) as (K1 & K2 & K3 & K4 & K5).
  split; [apply Hcg2|]. repeat (split; [done|]). by rewrite Hk.
Qed.

Lemma X2_connect_failure_witness :
  let refused := mkError "Error" "connect ECONNREFUSED 10.0.0.7:80" (Some "ECONNREFUSED") None in
  let rt := boot (constructor "10.0.0.7" (Some "shelly_switch:0")) (fun _ => None) in
  let rt3 := run [CallConnect; Elapse 10; WsError 0 refused] rt in
  promises rt3 !! 0%nat = Some (Settled (Rejected (enhance refused)))
  /\ err_code (enhance refused) = Some "ECONNREFUSED".
Proof.
  intros refused rt rt3.
  destruct (X2_connect_failure "10.0.0.7" (Some "shelly_switch:0") (fun _ => None)
              [] [Elapse 10] refused) as (_ & H & _ & _ & _ & Hk & _).
  - reflexivity.
  - repeat constructor. intros [?|[? ?]]; discriminate.
  - split; [exact H|exact Hk].
Defined.

End ConnectFacts.

Section OpenFacts.
Import Js ShellyApi.

Implicit Types (rt : Runtime) (o : Outcome) (k : Cont) (e : Event).

(** X3: the 'open' listener.  When the socket a [connect] opened reports
    'open' (the channel still holding a socket, and the send
    returning), the channel is marked connected and exactly one request
    is sent, [Shelly.GetStatus] with the next correlation id and the
    channel's [src]; the promise [connect] returned stays pending then,
    and for as long as that request is neither answered nor timed out
    (and the socket reports no 'error' or second 'open'), whatever else
    happens on the channel.  Once the response arrives, or the
    request's timer fires after its 5000 ms, the promise is still
    pending after the event itself, and some microtasks later it is
    fulfilled with [undefined]: also when the status request failed,
    and with nothing more sent by then. *)
Theorem X3_open_status_exchange ip (id : option string) tr (es0 es1 es2 : list Event)
    (w' : nat) :
  let rt := run es0 (boot (constructor ip id) tr) in
  ws (api rt) = None ->
  let P := (connect rt).1 in
  let w := next_socket rt in
  Forall (fun e => ~ socket_event w e) es1 ->
  let rt2 := run es1 (connect rt).2 in
  ws (api rt2) = Some w' -> tr (sends rt2) = None ->
  let rt3 := step (WsOpen w) rt2 in
  let cid := messageId (api rt2) in
  let t := next_timer rt2 in
  Forall (fun e => ~ socket_event w e /\ e <> TimerFires t /\ ~ responds cid e) es2 ->
  let rt4 := run es2 rt3 in
  let after (e : Event) (n : nat) := run (e :: replicate n Microtask) rt4 in
  let done_after (e : Event) :=
    promises (step e rt4) !! P = Some Pending
    /\ exists n,
         (forall j, (j < n)%nat -> promises (after e j) !! P = Some Pending)
         /\ promises (after e n) !! P = Some (Settled (Fulfilled VUndefined))
         /\ wire (after e n) = wire rt4 in
  isConnected (api rt3) = true
  /\ wire rt3 = wire rt2 ++ [WSend w' (mkRequest "2.0" cid (src_of (constructor ip id))
                                         "Shelly.GetStatus" (VObj [])) None]
  /\ promises rt3 !! P = Some Pending
  /\ promises rt4 !! P = Some Pending
  /\ (microtasks rt4 = [] ->
      (forall w'' m, is_Some (sockets rt4 !! w'') -> is_notify m = false ->
         as_int (msg_id m) = Some cid -> done_after (WsMessage w'' m))
      /\ (now rt2 + 5000 <= now rt4 -> done_after (TimerFires t))).
Proof.
  intros rt Hws P w Hes1 rt2 Hws2 Htr rt3 cid t Hes2 rt4 after done_after.
  pose proof (WF_reachable ip id tr es0) as Hwf. fold rt in Hwf.
  destruct (connect_connecting rt Hwf Hws) as (Hcg & HP & _).
  fold w in Hcg. rewrite <- HP in Hcg. fold P in Hcg.
  pose proof (connecting_run _ _ _ _ Hcg Hes1) as Hcg2. fold rt2 in Hcg2.
  assert (Hid : identity rt2 = identity (boot (constructor ip id) tr)).
  { subst rt2. rewrite identity_run, identity_connect. apply identity_run. }
  unfold identity in Hid. cbn in Hid. injection Hid as Hip Hdev Htrans.
  rewrite <- Htrans in Htr.
  destruct (open_opening P w w' rt2 Hcg2 Hws2 Htr) as (Hop & Hisc & Hwire & _).
  fold rt3 cid t in Hop, Hisc, Hwire.
  pose proof (opening_run _ _ _ _ _ _ _ es2 _ Hop Hes2) as Hop4. fold rt4 in Hop4.
  split; [done|]. split.
  { rewrite Hwire. unfold src_of. cbn [deviceId constructor]. by rewrite Hdev. }
  split; [apply Hop|]. split; [apply Hop4|].
  assert (Hcount : forall e,
            promises (step e rt4) !! P = Some Pending ->
            promises (step Microtask (step e rt4)) !! P = Some Pending ->
            promises (step Microtask (step Microtask (step e rt4))) !! P
            = Some (Settled (Fulfilled VUndefined)) ->
            wire (step Microtask (step Microtask (step e rt4))) = wire rt4 ->
            done_after e).
  { intros e H1 H2 H3 H4. split; [done|]. exists 2%nat. split; [|done].
    intros j Hj. destruct j as [|[|j]]; [done|done|lia]. }
  intros Hidle. split.
  - intros w'' m Hw'' Hnot Hm. apply Hcount;
      by destruct (opening_response _ _ _ _ _ _ _ w'' m rt4 Hop4 Hidle Hw'' Hnot Hm)
        as (H1 & H2 & H3 & H4).
  - intros Hdue. apply Hcount;
      by destruct (opening_timeout _ _ _ _ _ _ _ rt4 Hop4 Hidle Hdue) as (H1 & H2 & H3 & H4).
Qed.

Lemma X3_open_status_exchange_witness :
  let rt0 := boot (constructor "10.0.0.7" (Some "shelly_switch:0")) (fun _ => None) in
  let rt4 := run [Elapse 30] (step (WsOpen 0) (run [Elapse 20] (connect (run [] rt0)).2)) in
  promises rt4 !! 0%nat = Some Pending
  /\ exists n, promises (run (WsMessage 0 (reply 1) :: replicate n Microtask) rt4) !! 0%nat
               = Some (Settled (Fulfilled VUndefined)).
Proof.
  intros rt0 rt4.
  destruct (X3_open_status_exchange "10.0.0.7" (Some "shelly_switch:0") (fun _ => None)
              [] [Elapse 20] [Elapse 30] 0%nat)
    as (_ & _ & _ & H4 & Hdone); try reflexivity.
  - repeat constructor. intros [?|[? ?]]; discriminate.
  - repeat constructor; try discriminate.
    + intros [?|[? ?]]; discriminate.
    + intros (? & ? & ? & _); discriminate.
  - destruct Hdone as [Hresp _]; [reflexivity|].
    destruct (Hresp 0%nat (reply 1)) as (_ & n & _ & H3 & _);
      [vm_compute; eauto|reflexivity..|].
    split; [exact H4|]. exists n. exact H3.
Defined.

End OpenFacts.

(** ** [connect], start to end *)

Section ConnectClaim.
Import Js ShellyApi.

Implicit Types (rt : Runtime) (o : Outcome) (e : Event).

(** C4: [connect] is idempotent, resolves after the first exchange and
    rejects with a normalised error.  In every state the channel can
    reach: once [connect] has returned there is a socket, and a call
    made while there is one (open, or still connecting) returns a
    promise that is already fulfilled, opens nothing, sends nothing and
    arms nothing.  A call made without socket opens exactly one, to
    [ws://<ip>/rpc], and returns a pending promise, which stays pending
    whatever else happens on the channel until that socket reports
    'open' or 'error'.  On 'error' the promise is rejected with a plain
    [Error] whose code is NOT_SHELLY_DEVICE, the code of the transport
    error, or CONNECTION_FAILED, and nothing has been sent.  On 'open'
    (the send returning) exactly one request is sent,
    [Shelly.GetStatus]; the promise stays pending for as long as that
    request is neither answered nor timed out, is still pending right
    after the response or the timeout, and is fulfilled some microtasks
    later, with nothing more sent by then. *)
Theorem C4_connect_once ip (id : option string) tr (es es0 es1 es2 : list Event)
    (w' : nat) (err : JsError) :
  (let rt := run es (boot (constructor ip id) tr) in
   is_Some (ws (api (connect rt).2))
   /\ (is_Some (ws (api rt)) ->
       wire (connect rt).2 = wire rt /\ sockets (connect rt).2 = sockets rt
       /\ api (connect rt).2 = api rt /\ timers (connect rt).2 = timers rt
       /\ promises (connect rt).2 !! (connect rt).1 = Some (Settled (Fulfilled VUndefined))))
  /\ (let rt := run es0 (boot (constructor ip id) tr) in
      ws (api rt) = None ->
      let P := (connect rt).1 in
      let rt1 := (connect rt).2 in
      let w := next_socket rt in
      (wire rt1 = wire rt ++ [WNew w ("ws://" ++ ip ++ "/rpc")%string]
       /\ ws (api rt1) = Some w /\ sockets rt1 = <[w := P]> (sockets rt)
       /\ promises rt1 !! P = Some Pending)
      /\ (Forall (fun e => ~ socket_event w e) es1 ->
          let rt2 := run es1 rt1 in
          promises rt2 !! P = Some Pending
          /\ (let rt3 := step (WsError w err) rt2 in
              promises rt3 !! P = Some (Settled (Rejected (enhance err)))
              /\ sends rt3 = sends rt2
              /\ err_name (enhance err) = "Error"
              /\ (err_code (enhance err) = Some "NOT_SHELLY_DEVICE"
                  \/ (exists c, err_code err = Some c /\ c <> ""
                                /\ err_code (enhance err) = Some c)
                  \/ err_code (enhance err) = Some "CONNECTION_FAILED"))
          /\ (ws (api rt2) = Some w' -> tr (sends rt2) = None ->
              let rt3 := step (WsOpen w) rt2 in
              let cid := messageId (api rt2) in
              let t := next_timer rt2 in
              Forall (fun e => ~ socket_event w e /\ e <> TimerFires t /\ ~ responds cid e)
                es2 ->
              let rt4 := run es2 rt3 in
              let after (e : Event) (n : nat) := run (e :: replicate n Microtask) rt4 in
              let done_after (e : Event) :=
                exists n,
                  (forall j, (j < n)%nat -> promises (after e j) !! P = Some Pending)
                  /\ promises (after e n) !! P = Some (Settled (Fulfilled VUndefined))
                  /\ wire (after e n) = wire rt4 in
              wire rt3 = wire rt2 ++ [WSend w' (mkRequest "2.0" cid (src_of (constructor ip id))
                                                   "Shelly.GetStatus" (VObj [])) None]
              /\ promises rt4 !! P = Some Pending
              /\ (microtasks rt4 = [] ->
                  (forall w'' m, is_Some (sockets rt4 !! w'') -> is_notify m = false ->
                     as_int (msg_id m) = Some cid -> done_after (WsMessage w'' m))
                  /\ (now rt2 + 5000 <= now rt4 -> done_after (TimerFires t)))))).
Proof.
  split.
  { intros rt. split.
    - unfold connect. destruct (ws (api rt)) as [w|] eqn:Hws; cbn; by rewrite ?Hws.
    - intros [w Hw]. unfold connect. rewrite Hw. cbn. by rewrite lookup_insert_eq. }
  intros rt Hws P rt1 w.
  pose proof (WF_reachable ip id tr es0) as Hwf. fold rt in Hwf.
  destruct (reachable_identity ip id tr es0) as (Hip & _). fold rt in Hip.
  destruct (connect_connecting rt Hwf Hws) as (Hcg & HP & _).
  fold w in Hcg. rewrite <- HP in Hcg. fold P rt1 in Hcg.
  split.
  { subst P rt1 w. unfold connect. rewrite Hws. cbn. unfold wsUrl.
    by rewrite Hip, lookup_insert_eq. }
  intros Hes1 rt2.
  pose proof (connecting_run _ _ _ _ Hcg Hes1) as Hcg2. fold rt2 in Hcg2.
  split; [apply Hcg2|]. split.
  { intros rt3. destruct (connecting_error P w err rt2 Hcg2) as (H1 & H2 & H3).
    fold rt3 in H1, H2, H3.
    destruct (enhance_kind err) as [Hk Hn].
    destruct (error_kind_cases err) as (K1 & K2 & K3 & K4 & _).
    split; [done|]. split; [done|]. split; [done|]. rewrite Hk.
    destruct (includes (err_message err) "404"
              || includes (err_message err) "Unexpected server response") eqn:Hf.
    { left. by rewrite K2. }
    destruct (err_code err) as [c|] eqn:Hc.
    - destruct (decide (c = "")) as [->|Hne].
      + right. right. rewrite K4; [done|done|by right].
      + right. left. exists c. by rewrite (K3 eq_refl c).
    - right. right. rewrite K4; [done|done|by left]. }
  intros Hws2 Htr rt3 cid t Hes2 rt4 after done_after.
  assert (Hid : identity rt2 = identity (boot (constructor ip id) tr)).
  { subst rt2 rt1. rewrite identity_run, identity_connect. apply identity_run. }
  unfold identity in Hid. cbn in Hid. injection Hid as _ Hdev Htrans.
  rewrite <- Htrans in Htr.
  destruct (open_opening P w w' rt2 Hcg2 Hws2 Htr) as (Hop & _ & Hwire & _).
  fold rt3 cid t in Hop, Hwire.
  pose proof (opening_run _ _ _ _ _ _ _ es2 _ Hop Hes2) as Hop4. fold rt4 in Hop4.
  split.
  { rewrite Hwire. unfold src_of. cbn [deviceId constructor]. by rewrite Hdev. }
  split; [apply Hop4|].
  assert (Hcount : forall e,
            promises (step e rt4) !! P = Some Pending ->
            promises (step Microtask (step e rt4)) !! P = Some Pending ->
            promises (step Microtask (step Microtask (step e rt4))) !! P
            = Some (Settled (Fulfilled VUndefined)) ->
            wire (step Microtask (step Microtask (step e rt4))) = wire rt4 ->
            done_after e).
  { intros e H1 H2 H3 H4. exists 2%nat. split; [|done].
    intros j Hj. destruct j as [|[|j]]; [done|done|lia]. }
  intros Hidle. split.
  - intros w'' m Hw'' Hnot Hm. apply Hcount;
      by destruct (opening_response _ _ _ _ _ _ _ w'' m rt4 Hop4 Hidle Hw'' Hnot Hm)
        as (H1 & H2 & H3 & H4).
  - intros Hdue. apply Hcount;
      by destruct (opening_timeout _ _ _ _ _ _ _ rt4 Hop4 Hidle Hdue) as (H1 & H2 & H3 & H4).
Qed.

Lemma C4_connect_once_witness :
  let rt0 := boot (constructor "10.0.0.7" None) (fun _ => None) in
  let rt4 := run [Elapse 5000] (step (WsOpen 0) (run [] (connect (run [] rt0)).2)) in
  wire rt4 = [WNew 0 "ws://10.0.0.7/rpc";
              WSend 0 (mkRequest "2.0" 1 "homey_default" "Shelly.GetStatus" (VObj [])) None]
  /\ promises rt4 !! 0%nat = Some Pending
  /\ exists n, promises (run (TimerFires 0 :: replicate n Microtask) rt4) !! 0%nat
               = Some (Settled (Fulfilled VUndefined)).
Proof.
  intros rt0 rt4. split; [vm_compute; reflexivity|].
  destruct (C4_connect_once "10.0.0.7" None (fun _ => None) [] [] [] [Elapse 5000] 0%nat
              (Error "unused")) as [_ H].
  destruct (H eq_refl) as (_ & H1). clear H.
  destruct (H1 ltac:(constructor)) as (_ & _ & Hopen). clear H1.
  destruct (Hopen eq_refl eq_refl) as (_ & H4 & Hdone).
  { repeat constructor; try discriminate.
    - intros [?|[? ?]]; discriminate.
    - intros (? & ? & ? & _); discriminate. }
  split; [exact H4|].
  destruct (Hdone eq_refl) as [_ Htimeout].
  destruct (Htimeout ltac:(vm_compute; discriminate)) as (n & _ & Hn & _).
  exists n. exact Hn.
Defined.

End ConnectClaim.

(** ** The channel: a response *)

Section ResponseFacts.
Import Js ShellyApi.

Implicit Types (rt : Runtime) (o : Outcome) (k : Cont) (e : Event).

(** A request in flight whose caller has not yet attached anything to
    the promise of the call. *)
Record awaiting (cid : Z) (t n q : nat) (tm : Timer) (rt : Runtime) : Prop := mkAwaiting {
  aw_flight : in_flight cid t n q tm rt;
  aw_n : waiting n rt = [(n, KAdopt q)];
  aw_q : waiting q rt = []
}.

Lemma request_awaiting method params retries w rt :
  WF rt -> isConnected (api rt) = true -> ws (api rt) = Some w ->
  transport rt (sends rt) = None ->
  let q := next_promise rt in
  let cid := messageId (api rt) in
  awaiting cid (next_timer rt) (S q) q (deadline cid (S q) rt)
    (request method params retries rt).2.
Proof.
  intros Hwf Hc Hws Htr q cid.
  destruct (request_in_flight method params retries w rt Hwf Hc Hws Htr) as (Hfl & _).
  pose proof (request_reactions method params retries w rt Hc Hws Htr) as Hre.
  destruct (no_reaction_on_new rt q Hwf ltac:(done)) as [Hq0 _].
  destruct (no_reaction_on_new rt (S q) Hwf ltac:(subst q; lia)) as [Hn0 _].
  constructor; [done|..]; unfold waiting; rewrite Hre, filter_app.
  - rewrite Hn0. cbn [app]. by rewrite filter_cons_True by (by apply bool_decide_eq_true_2).
  - rewrite Hq0. cbn [app]. rewrite filter_cons_False; [done|].
    unfold reacts_to. cbn. rewrite bool_decide_eq_false_2; [done|]. subst q. lia.
Qed.

Lemma awaiting_step cid t n q tm e rt :
  awaiting cid t n q tm rt -> e <> TimerFires t -> ~ responds cid e ->
  awaiting cid t n q tm (step e rt).
Proof.
  intros [Hfl Hwn Hwq] Hfire Hresp.
  pose proof (step_keeps e rt) as Hk.
  pose proof (in_flight_step _ _ _ _ _ e _ Hfl Hfire Hresp) as Hfl'.
  pose proof (in_flight_slot _ _ _ _ _ _ Hfl) as (_ & _ & _ & _ & Hn).
  pose proof (in_flight_slot _ _ _ _ _ _ Hfl') as (_ & Hn' & _).
  constructor; [done|..].
  - destruct (k_waits _ _ Hk n Hn Hn') as [_ ->]. done.
  - destruct (k_waits _ _ Hk q (pv_exists _ _ (if_private _ _ _ _ _ _ Hfl))
                (if_q _ _ _ _ _ _ Hfl')) as [_ ->]. done.
Qed.

Lemma awaiting_run cid t n q tm es rt :
  awaiting cid t n q tm rt ->
  Forall (fun e => e <> TimerFires t /\ ~ responds cid e) es ->
  awaiting cid t n q tm (run es rt).
Proof.
  intros H Hes. revert rt H. unfold run.
  induction Hes as [|e es [He1 He2] _ IH]; intros rt H; cbn; [done|].
  by apply IH, awaiting_step.
Qed.

(** How [handleRpcResponse] settles the call a response belongs to. *)
Definition answer (m : Message) : Outcome :=
  if truthy (msg_error m)
  then Rejected (Error ("RPC Error " ++ template (get (msg_error m) "code")
                        ++ ": " ++ template (get (msg_error m) "message")))
  else Fulfilled (msg_result m).

Lemma awaiting_response cid t n q tm w' m rt :
  awaiting cid t n q tm rt -> microtasks rt = [] ->
  is_Some (sockets rt !! w') -> is_notify m = false -> as_int (msg_id m) = Some cid ->
  let rt1 := step (WsMessage w' m) rt in
  let rt2 := step Microtask rt1 in
  pendingRequests (api rt1) = delete cid (pendingRequests (api rt))
  /\ timers rt1 = delete t (timers rt)
  /\ promises rt1 !! q = Some Pending
  /\ promises rt2 !! q = Some (Settled (answer m))
  /\ microtasks rt2 = []
  /\ wire rt2 = wire rt
  /\ timers rt2 = delete t (timers rt)
  /\ next_timer rt2 = next_timer rt
  /\ step (WsMessage w' m) rt1 = rt1
  /\ step (TimerFires t) rt1 = rt1.
Proof.
  intros [Hfl Hwn Hwq] Hmi [p Hw'] Hnot Hid rt1.
  pose proof (in_flight_slot _ _ _ _ _ _ Hfl) as (Hslot & Hn & _ & Hnq & _).
  pose proof (if_q _ _ _ _ _ _ Hfl) as Hq.
  destruct (wf_slots _ (if_wf _ _ _ _ _ _ Hfl) _ _ Hslot) as (Hcid & _).
  assert (Hget : pending_get (msg_id m) (api rt) = Some (cid, mkResolver t n)).
  { unfold pending_get. by rewrite Hid, Hslot. }
  unfold waiting in Hwn, Hwq.
  assert (E : rt1 = with_microtasks [(KAdopt q, answer m)]
                (with_reactions (filter (fun r => reacts_to n r = false) (reactions rt))
                   (with_promises (<[n := Settled (answer m)]> (promises rt))
                      (retired cid t rt)))).
  { subst rt1. cbn [step]. rewrite Hw'. unfold handleMessage. rewrite Hnot.
    rewrite (truthy_as_int _ cid Hid) by lia.
    rewrite (handleRpcResponse_unfold _ _ _ _ Hget). cbn [res_promise res_timeout].
    fold (answer m). unfold settle.
    change (promises (retired cid t rt)) with (promises rt).
    change (reactions (retired cid t rt)) with (reactions rt).
    change (microtasks (retired cid t rt)) with (microtasks rt).
    by rewrite Hn, Hwn, Hmi. }
  clearbody rt1. subst rt1. intros rt2.
  assert (E2 : rt2 = with_microtasks []
                 (with_reactions
                    (filter (fun r => reacts_to q r = false)
                       (filter (fun r => reacts_to n r = false) (reactions rt)))
                    (with_promises (<[q := Settled (answer m)]>
                                      (<[n := Settled (answer m)]> (promises rt)))
                       (retired cid t rt)))).
  { subst rt2. cbn [step microtasks with_microtasks run_cont].
    unfold settle. cbn [promises with_microtasks with_reactions with_promises].
    change (promises (retired cid t rt)) with (promises rt).
    rewrite lookup_insert_ne by done. rewrite Hq.
    cbn [reactions microtasks with_microtasks with_reactions with_promises].
    rewrite waiting_others by done. by rewrite Hwq. }
  clearbody rt2. subst rt2.
  cbn [api promises timers wire microtasks next_timer with_microtasks with_reactions
       with_promises].
  split; [done|]. split; [done|].
  split; [by rewrite lookup_insert_ne|].
  split; [by rewrite lookup_insert_eq|].
  split; [done|]. split; [done|]. split; [done|]. split; [done|]. split.
  - cbn [step sockets with_microtasks with_reactions with_promises].
    change (sockets (retired cid t rt)) with (sockets rt). rewrite Hw'.
    unfold handleMessage. rewrite Hnot, (truthy_as_int _ cid Hid) by lia.
    unfold handleRpcResponse, pending_get. rewrite Hid.
    cbn [api with_microtasks with_reactions with_promises].
    change (pendingRequests (api (retired cid t rt)))
      with (delete cid (pendingRequests (api rt))).
    by rewrite lookup_delete_eq.
  - cbn [step timers with_microtasks with_reactions with_promises].
    change (timers (retired cid t rt)) with (delete t (timers rt)).
    by rewrite lookup_delete_eq.
Qed.

(** X4: a response settles its call, once.  For a call made on a
    connected channel whose send returned, and as long as neither its
    timer has fired nor a response with its id has arrived: when a
    message that is not a push and bears the call's id arrives (on any
    socket of the channel, the microtask queue being empty), the slot is
    removed from the pending map and the call's timer is cleared in that
    same turn; the call itself is still pending then, and the next
    microtask settles it: fulfilled with the message's [result], or,
    when the message has a truthy [error], rejected with
    ["RPC Error <code>: <message>"], for a code and a message that are
    [printable] (strings, integers up to 2^53 - 1 in magnitude,
    booleans, or absent).  Nothing is sent and no timer is armed.  A second copy of the response, and the firing of the call's
    former timer, leave the channel as it is. *)
Theorem X4_response_settles_call ip (id : option string) tr (es0 es : list Event)
    (w w' : nat) method params retries (m : Message) :
  let rt := run es0 (boot (constructor ip id) tr) in
  isConnected (api rt) = true -> ws (api rt) = Some w ->
  transport rt (sends rt) = None ->
  let q := (request method params retries rt).1 in
  let rt1 := (request method params retries rt).2 in
  let cid := messageId (api rt) in
  let t := next_timer rt in
  Forall (fun e => e <> TimerFires t /\ ~ responds cid e) es ->
  let rt2 := run es rt1 in
  microtasks rt2 = [] -> is_Some (sockets rt2 !! w') ->
  is_notify m = false -> as_int (msg_id m) = Some cid ->
  printable (get (msg_error m) "code") = true ->
  printable (get (msg_error m) "message") = true ->
  let rt3 := step (WsMessage w' m) rt2 in
  let rt4 := step Microtask rt3 in
  pendingRequests (api rt3) !! cid = None
  /\ timers rt3 !! t = None
  /\ promises rt3 !! q = Some Pending
  /\ promises rt4 !! q
     = Some (Settled (if truthy (msg_error m)
                      then Rejected (Error ("RPC Error "
                                            ++ template (get (msg_error m) "code") ++ ": "
                                            ++ template (get (msg_error m) "message")))
                      else Fulfilled (msg_result m)))
  /\ microtasks rt4 = []
  /\ wire rt4 = wire rt2
  /\ timers rt4 = delete t (timers rt2)
  /\ next_timer rt4 = next_timer rt2
  /\ step (WsMessage w' m) rt3 = rt3
  /\ step (TimerFires t) rt3 = rt3.
Proof.
  intros rt Hc Hws Htr q rt1 cid t Hes rt2 Hidle Hw' Hnot Hm _ _ rt3 rt4.
  pose proof (WF_reachable ip id tr es0) as Hwf. fold rt in Hwf.
  pose proof (request_awaiting method params retries w rt Hwf Hc Hws Htr) as Haw.
  fold rt1 cid t in Haw. rewrite <- (request_promise method params retries rt) in Haw.
  fold q in Haw.
  pose proof (awaiting_run _ _ _ _ _ es _ Haw Hes) as Haw2. fold rt2 in Haw2.
  destruct (awaiting_response _ _ _ _ _ w' m rt2 Haw2 Hidle Hw' Hnot Hm)
    as (H1 & H2 & H3 & H4 & H5 & H6 & H7 & H8 & H9 & H10).
  fold rt3 in H1, H2, H3, H4, H5, H6, H7, H8, H9, H10.
  fold rt4 in H4, H5, H6, H7, H8.
  split; [by rewrite H1, lookup_delete_eq|]. split; [by rewrite H2, lookup_delete_eq|].
  done.
Qed.

Lemma X4_response_settles_call_witness :
  let rt := run bring_up
              (boot (constructor "10.0.0.7" (Some "shelly_switch:0")) (fun _ => None)) in
  let q := (request "Switch.Set" (VObj [("id", num 0); ("on", VBool true)]) 1 rt).1 in
  let rt1 := (request "Switch.Set" (VObj [("id", num 0); ("on", VBool true)]) 1 rt).2 in
  let rt4 := run [Elapse 40; WsMessage 0 (reply 2); Microtask] rt1 in
  promises rt4 !! q = Some (Settled (Fulfilled (msg_result (reply 2))))
  /\ timers rt4 = ∅.
Proof.
  intros rt q rt1 rt4.
  destruct (X4_response_settles_call "10.0.0.7" (Some "shelly_switch:0") (fun _ => None)
              bring_up [Elapse 40] 0%nat 0%nat "Switch.Set"
              (VObj [("id", num 0); ("on", VBool true)]) 1 (reply 2))
    as (_ & _ & _ & H4 & _ & _ & H7 & _); try reflexivity.
  - repeat constructor; try discriminate. intros (? & ? & ? & _); discriminate.
  - vm_compute. eauto.
  - vm_compute in H4. split; [vm_compute; exact H4|reflexivity].
Defined.

End ResponseFacts.

(** ** The channel: pushes, disconnecting, reconnecting *)

Section ChannelEdges.
Import Js ShellyApi.

Implicit Types (rt : Runtime) (o : Outcome) (k : Cont) (e : Event).

(** The state of the channel apart from the log of envelopes handed to
    the notification handler. *)
Definition core (rt : Runtime) :=
  (api rt, promises rt, next_promise rt, reactions rt, microtasks rt,
   timers rt, next_timer rt, now rt, sockets rt, next_socket rt, wire rt).

(** X5: a push never touches the calls.  A message whose method is
    NotifyStatus or NotifyEvent, whatever else it carries (the id of a
    pending request and a result included), leaves every field of the
    channel, its promises, timers, microtasks and sockets as they are
    and sends nothing; at most one envelope reaches the handler.  A
    message that is no push and has no truthy id ([undefined], [null],
    [0], the empty string) changes nothing at all. *)
Theorem X5_push_leaves_calls (rt : Runtime) (w : nat) (m : Message) :
  is_notify m = true \/ truthy (msg_id m) = false ->
  let rt' := step (WsMessage w m) rt in
  core rt' = core rt
  /\ (delivered rt' = delivered rt \/ exists env, delivered rt' = delivered rt ++ [env])
  /\ (is_notify m = false -> rt' = rt).
Proof.
  intros Hm rt'. subst rt'. cbn [step].
  destruct (sockets rt !! w) as [p|]; [|by split; [|split; [left|]]].
  unfold handleMessage. destruct (is_notify m) eqn:Hnot.
  - split; [|split; [|done]].
    + destruct (handleNotification m rt) as [rt'|] eqn:Hn; [|done].
      by apply handleNotification_frame in Hn as [->|[env ->]].
    + destruct (handleNotification m rt) as [rt'|] eqn:Hn; [|by left].
      apply handleNotification_frame in Hn as [->|[env ->]]; [by left|right].
      by exists env.
  - destruct Hm as [|Hid]; [done|]. rewrite Hid. by split; [|split; [left|]].
Qed.

Lemma X5_push_leaves_calls_witness :
  let rt := run [CallConnect; WsOpen 0; CallSetNotificationHandler (Some (fun _ => None))]
              (boot (constructor "10.0.0.7" (Some "shelly_switch:0")) (fun _ => None)) in
  let push := mkMessage (VStr "NotifyStatus") (num 1) VUndefined
                (VObj [("ts", num 7); ("switch:0", VObj [("output", VBool true)])])
                (VObj [("output", VBool true)]) VUndefined in
  pendingRequests (api rt) !! 1 = Some (mkResolver 0 2)
  /\ core (step (WsMessage 0 push) rt) = core rt
  /\ List.length (delivered (step (WsMessage 0 push) rt)) = 1%nat.
Proof.
  intros rt push. split; [reflexivity|].
  destruct (X5_push_leaves_calls rt 0%nat push) as (H & _); [by left|].
  split; [exact H|reflexivity].
Defined.

(** X6: [disconnect].  With a socket, [disconnect] (which is
    [cleanupWebSocket]) terminates it once, forgets it and marks the
    channel not connected; without one it does nothing, so a second
    [disconnect] is a no-op.  In both cases the pending map, the timers,
    the promises, the continuations and the registered notification
    handler are left as they are: pending calls are not failed by a
    disconnect. *)
Theorem X6_disconnect (rt : Runtime) :
  let rt1 := disconnect rt in
  ws (api rt1) = None
  /\ disconnect rt1 = rt1
  /\ pendingRequests (api rt1) = pendingRequests (api rt)
  /\ notificationHandler (api rt1) = notificationHandler (api rt)
  /\ messageId (api rt1) = messageId (api rt)
  /\ timers rt1 = timers rt /\ promises rt1 = promises rt
  /\ reactions rt1 = reactions rt /\ microtasks rt1 = microtasks rt
  /\ sends rt1 = sends rt
  /\ match ws (api rt) with
     | Some w => wire rt1 = wire rt ++ [WTerminate w] /\ isConnected (api rt1) = false
     | None => rt1 = rt
     end.
Proof.
  intros rt1. subst rt1. unfold disconnect, cleanupWebSocket.
  destruct (ws (api rt)) as [w|] eqn:Hws; cbn; [|by rewrite ?Hws].
  repeat (split; [done|]). split; [|done].
  unfold sends. cbn. by rewrite filter_app, length_app.
Qed.

Lemma request_unconnected method params retries rt :
  isConnected (api rt) = false ->
  request method params retries rt
  = (next_promise rt,
     await (connect (new_promise Pending rt).2).1
       (KRequestConnected method params retries (next_promise rt))
       (connect (new_promise Pending rt).2).2).
Proof.
  intros Hc. unfold request. cbn [new_promise fst snd].
  change (isConnected (api (with_next_promise (S (next_promise rt))
            (with_promises (<[next_promise rt := Pending]> (promises rt)) rt))))
    with (isConnected (api rt)).
  rewrite Hc. by destruct (connect _).
Qed.

Lemma connect_new rt :
  ws (api rt) = None ->
  connect rt
  = (next_promise rt,
     with_api (set_ws (Some (next_socket rt)))
       (with_next_socket (S (next_socket rt))
          (with_sockets (<[next_socket rt := next_promise rt]> (sockets rt))
             (with_wire (wire rt ++ [WNew (next_socket rt) (wsUrl (api rt))])
                (new_promise Pending rt).2)))).
Proof. intros Hws. unfold connect. by rewrite Hws. Qed.

Lemma connect_again w rt :
  ws (api rt) = Some w ->
  connect rt = new_promise (Settled (Fulfilled VUndefined)) rt.
Proof. intros Hws. unfold connect. by rewrite Hws. Qed.

Lemma await_pending p k rt :
  promises rt !! p = Some Pending ->
  await p k rt = with_reactions (reactions rt ++ [(p, k)]) rt.
Proof. intros Hp. unfold await. by rewrite Hp. Qed.

Lemma await_settled p k o rt :
  promises rt !! p = Some (Settled o) ->
  await p k rt = with_microtasks (microtasks rt ++ [(k, o)]) rt.
Proof. intros Hp. unfold await. by rewrite Hp. Qed.

(** X7: the 'close' listener, and the call after it.  The 'close' event
    of a socket of the channel (the current one or one it has replaced
    since) forgets the current socket and marks the channel not
    connected, and nothing else.  On a channel without a socket and not
    connected, a [request] first opens a socket, a new one, and returns
    a pending promise: nothing is sent, no timer is armed and no
    correlation id is taken before the connection attempt settles. *)
Theorem X7_close_then_request ip (id : option string) tr (es : list Event)
    (w : nat) method params retries :
  let rt := run es (boot (constructor ip id) tr) in
  is_Some (sockets rt !! w) ->
  let rt1 := step (WsClose w) rt in
  let q := (request method params retries rt1).1 in
  let rt2 := (request method params retries rt1).2 in
  ws (api rt1) = None /\ isConnected (api rt1) = false
  /\ pendingRequests (api rt1) = pendingRequests (api rt)
  /\ wire rt1 = wire rt /\ timers rt1 = timers rt /\ promises rt1 = promises rt
  /\ wire rt2 = wire rt ++ [WNew (next_socket rt) ("ws://" ++ ip ++ "/rpc")%string]
  /\ sockets rt !! next_socket rt = None
  /\ sockets rt2 !! next_socket rt = Some (S q)
  /\ ws (api rt2) = Some (next_socket rt)
  /\ promises rt2 !! q = Some Pending
  /\ promises rt2 !! S q = Some Pending
  /\ reactions rt2 = reactions rt ++ [(S q, KRequestConnected method params retries q)]
  /\ timers rt2 = timers rt
  /\ messageId (api rt2) = messageId (api rt)
  /\ microtasks rt2 = microtasks rt.
Proof.
  intros rt [p Hw] rt1 q rt2.
  pose proof (WF_reachable ip id tr es) as Hwf. fold rt in Hwf.
  destruct (reachable_identity ip id tr es) as (Hip & _). fold rt in Hip.
  assert (E1 : rt1 = with_api (fun a => set_ws None (set_isConnected false a)) rt).
  { subst rt1. cbn [step]. by rewrite Hw. }
  clearbody rt1. subst rt1. subst q rt2.
  rewrite request_unconnected by done. cbn [fst snd].
  rewrite connect_new by done. cbn [fst snd].
  rewrite await_pending by (cbn; apply lookup_insert_eq).
  cbn [api ws isConnected pendingRequests messageId wire timers promises reactions
       microtasks sockets next_promise next_socket new_promise fst snd
       with_api with_wire with_sockets with_next_socket with_reactions
       with_next_promise with_promises set_ws set_isConnected].
  unfold wsUrl. cbn [ShellyApi.ip set_ws set_isConnected]. rewrite Hip.
  repeat (split; [done|]).
  split.
  { destruct (sockets rt !! next_socket rt) as [p'|] eqn:Hs; [|done].
    destruct (wf_sockets _ Hwf _ _ Hs). lia. }
  split; [apply lookup_insert_eq|]. split; [done|].
  split; [rewrite lookup_insert_ne by lia; apply lookup_insert_eq|].
  split; [apply lookup_insert_eq|]. done.
Qed.

Lemma X7_close_then_request_witness :
  let rt := run (bring_up ++ [CallDisconnect; CallConnect])
              (boot (constructor "10.0.0.7" (Some "shelly_switch:0")) (fun _ => None)) in
  let rt1 := step (WsClose 0) rt in
  ws (api rt) = Some 1%nat
  /\ ws (api rt1) = None
  /\ wire (request "Switch.Set" (VObj []) 1 rt1).2
     = wire rt ++ [WNew 2 "ws://10.0.0.7/rpc"].
Proof.
  intros rt rt1. split; [reflexivity|].
  destruct (X7_close_then_request "10.0.0.7" (Some "shelly_switch:0") (fun _ => None)
              (bring_up ++ [CallDisconnect; CallConnect]) 0%nat "Switch.Set" (VObj []) 1)
    as (H1 & _ & _ & _ & _ & _ & H7 & _).
  - vm_compute. eauto.
  - split; [exact H1|]. vm_compute in H7. vm_compute. exact H7.
Defined.

End ChannelEdges.

(** ** Strings and numbers *)

Section StringFacts.
Import Js.

(** *** [split] and [join] *)

Lemma split_prefix sep c rest :
  split sep c = [c] -> split sep (c ++ String sep rest)%string = c :: split sep rest.
Proof.
  induction c as [|a c IH]; simpl.
  - by rewrite Ascii.eqb_refl.
  - destruct (Ascii.eqb a sep) eqn:Ha; [discriminate|].
    destruct (split sep c) as [|h t] eqn:Hc; [by destruct (split_nonempty sep c)|].
    intros [= -> ->]. by rewrite IH.
Qed.

(** Joining what [split] returns gives the string back. *)
Lemma join_split sep s : join (String sep "") (split sep s) = s.
Proof.
  unfold join. induction s as [|a s IH]; [done|]. cbn [split].
  destruct (Ascii.eqb a sep) eqn:Ha.
  - apply Ascii.eqb_eq in Ha as ->. cbn [String.concat].
    destruct (split sep s) as [|h t] eqn:Hs; [by destruct (split_nonempty sep s)|].
    cbn. by rewrite <- IH.
  - destruct (split sep s) as [|h t] eqn:Hs; [by destruct (split_nonempty sep s)|].
    destruct t as [|h' t']; cbn in *; by rewrite <- IH.
Qed.

(** No field of a split contains the separator. *)
Lemma split_fields sep s : Forall (fun f => split sep f = [f]) (split sep s).
Proof.
  induction s as [|a s IH]; [by repeat constructor|]. cbn [split].
  destruct (Ascii.eqb a sep) eqn:Ha; [by constructor|].
  destruct (split sep s) as [|h t] eqn:Hs; [by destruct (split_nonempty sep s)|].
  apply Forall_cons in IH as [Hh Ht]. constructor; [|done].
  cbn. by rewrite Ha, Hh.
Qed.

Lemma no_sep_app sep a b :
  split sep a = [a] -> split sep b = [b] -> split sep (a ++ b)%string = [(a ++ b)%string].
Proof.
  intros Ha Hb. induction a as [|c a IH]; [done|].
  change (String c a ++ b)%string with (String c (a ++ b)). cbn [split] in *.
  destruct (Ascii.eqb c sep); [discriminate|].
  destruct (split sep a) as [|h t] eqn:Hs; [by destruct (split_nonempty sep a)|].
  injection Ha as -> ->. by rewrite IH.
Qed.

Lemma string_app_assoc (a b c : string) : ((a ++ b) ++ c = a ++ (b ++ c))%string.
Proof.
  induction a as [|x a IH]; [done|].
  change (String x ((a ++ b) ++ c) = String x (a ++ (b ++ c)))%string. by f_equal.
Qed.

(** *** Decimal numerals *)

Fixpoint all_digit (s : string) : bool :=
  match s with
  | EmptyString => true
  | String c rest => is_digit c && all_digit rest
  end.

Lemma digit_char (d : N) :
  (d < 10)%N ->
  digit_value (pretty_N_char d) = Some (Z.of_N d)
  /\ is_digit (pretty_N_char d) = true.
Proof.
  intros Hd.
  assert (d = 0 \/ d = 1 \/ d = 2 \/ d = 3 \/ d = 4 \/ d = 5 \/ d = 6 \/ d = 7
          \/ d = 8 \/ d = 9)%N as Hc by lia.
  repeat destruct Hc as [->|Hc]; try subst d; done.
Qed.

Lemma go_digits (x : N) s : all_digit s = true -> all_digit (pretty_N_go x s) = true.
Proof.
  revert s. induction (N.lt_wf_0 x) as [x _ IH]; intros s Hs.
  assert (x = 0 \/ 0 < x)%N as [->|Hx] by lia; [done|].
  rewrite pretty_N_go_step by done. apply IH; [by apply N.div_lt|].
  cbn. rewrite Hs, andb_true_r. apply digit_char. by apply N.mod_lt.
Qed.

Lemma go_nonempty (x : N) s : (0 < x)%N -> exists c rest, pretty_N_go x s = String c rest.
Proof.
  revert s. induction (N.lt_wf_0 x) as [x _ IH]; intros s Hx.
  rewrite pretty_N_go_step by done.
  destruct (N.eq_0_gt_0_cases (x `div` 10)) as [->|Hq]; [by eauto|].
  apply IH; [by apply N.div_lt|done].
Qed.

Lemma go_read (x : N) :
  exists k : Z, forall s acc,
    read_digits 10 (pretty_N_go x s) acc
    = read_digits 10 s (if decide (x = 0%N) then acc
                        else Some (default 0 acc * k + Z.of_N x)).
Proof.
  induction (N.lt_wf_0 x) as [x _ IH].
  assert (x = 0 \/ 0 < x)%N as [->|Hx] by lia; [by exists 1|].
  destruct (IH (x `div` 10)%N) as [k Hk]; [by apply N.div_lt|].
  exists (10 * (if decide (x `div` 10 = 0)%N then 1 else k)).
  intros s acc. rewrite pretty_N_go_step, Hk by done.
  destruct (digit_char (x `mod` 10)%N) as [Hd _]; [by apply N.mod_lt|].
  cbn [read_digits]. rewrite Hd.
  assert ((Z.of_N (x `mod` 10) <? 10) = true) as ->.
  { apply Z.ltb_lt. pose proof (N.mod_lt x 10). lia. }
  destruct (decide (x = 0%N)) as [->|_]; [lia|]. f_equal. f_equal.
  pose proof (N.div_mod x 10 ltac:(done)) as Hdm.
  assert (Hz : Z.of_N x = 10 * Z.of_N (x `div` 10) + Z.of_N (x `mod` 10)) by lia.
  rewrite Hz. clear Hdm Hz Hd Hk IH.
  generalize (Z.of_N (x `mod` 10)). intros r.
  destruct (decide (x `div` 10 = 0)%N) as [Hq|Hq].
  - rewrite Hq. destruct acc; cbn [default]; lia.
  - cbn [default]. unfold id. generalize (Z.of_N (x `div` 10)). intros q'. lia.
Qed.

Lemma digit_not_space c : is_digit c = true -> is_space c = false.
Proof.
  unfold is_digit, is_space. set (n := nat_of_ascii c).
  intros [H1 H2]%andb_true_iff. apply Nat.leb_le in H1, H2.
  apply orb_false_iff. split; [apply Nat.eqb_neq; lia|].
  apply andb_false_iff. right. apply Nat.leb_gt. lia.
Qed.

Lemma numeral_parse s (x : Z) :
  s <> "" -> all_digit s = true -> read_digits 10 s None = Some x ->
  parseInt s = Int x /\ parseInt ("-" ++ s) = Int (- x).
Proof.
  destruct s as [|c rest]; [done|]. intros _ Hs Hr. cbn in Hs.
  apply andb_true_iff in Hs as [Hc Hrest].
  assert (Hhex : strip_hex_prefix (String c rest) = None).
  { unfold strip_hex_prefix.
    destruct c as [[] [] [] [] [] [] [] []]; try done.
    destruct rest as [|c' rest']; [done|]. cbn in Hrest.
    apply andb_true_iff in Hrest as [Hc' _].
    destruct c' as [[] [] [] [] [] [] [] []]; done. }
  assert (Hsign : strip_sign (String c rest) = (false, String c rest)).
  { unfold strip_sign. destruct c as [[] [] [] [] [] [] [] []]; done. }
  split.
  - unfold parseInt. cbn [skip_spaces]. rewrite (digit_not_space c Hc), Hsign.
    unfold parse_magnitude. by rewrite Hhex, Hr.
  - change ("-" ++ String c rest)%string with (String "-" (String c rest)).
    unfold parseInt.
    change (skip_spaces (String "-" (String c rest))) with (String "-" (String c rest)).
    change (strip_sign (String "-" (String c rest))) with (true, String c rest).
    unfold parse_magnitude. by rewrite Hhex, Hr.
Qed.

(** Printing an integer and reading it back. *)
Lemma parseInt_pretty (z : Z) : parseInt (pretty z) = Int z.
Proof.
  assert (Hpos : forall p : positive,
             parseInt (pretty (N.pos p)) = Int (Z.pos p)
             /\ parseInt ("-" ++ pretty (N.pos p)) = Int (Z.neg p)).
  { intros p. change (pretty (N.pos p)) with (pretty_N (N.pos p)).
    unfold pretty_N. rewrite decide_False by done.
    destruct (go_nonempty (N.pos p) "" ltac:(done)) as (c & rest & Hgo).
    destruct (go_read (N.pos p)) as [k Hk].
    apply (numeral_parse _ (Z.pos p)).
    - by rewrite Hgo.
    - by apply go_digits.
    - rewrite Hk. by rewrite decide_False by done. }
  destruct z as [|p|p]; [done|apply Hpos|apply Hpos].
Qed.

Lemma parseInt_int_to_string (n : JsInt) : parseInt (int_to_string n) = n.
Proof. destruct n as [|z]; [done|apply parseInt_pretty]. Qed.

Lemma digits_no_colon s : all_digit s = true -> split ":" s = [s].
Proof.
  induction s as [|c s IH]; [done|]. cbn. intros [Hc Hs]%andb_true_iff.
  assert (Ascii.eqb c ":" = false) as ->.
  { destruct c as [[] [] [] [] [] [] [] []]; done. }
  by rewrite IH.
Qed.

Lemma int_to_string_no_colon (n : JsInt) : split ":" (int_to_string n) = [int_to_string n].
Proof.
  destruct n as [|z]; [done|]. cbn [int_to_string].
  assert (Hpos : forall p : positive, split ":" (pretty (N.pos p)) = [pretty (N.pos p)]).
  { intros p. apply digits_no_colon. change (pretty (N.pos p)) with (pretty_N (N.pos p)).
    unfold pretty_N. rewrite decide_False by done. by apply go_digits. }
  destruct z as [|p|p]; [done|apply Hpos|].
  change (pretty (Z.neg p)) with ("-" ++ pretty (N.pos p))%string.
  apply (no_sep_app ":" "-"); [done|apply Hpos].
Qed.

End StringFacts.

(** ** Discovery: what a device's answers become *)

Section EntryFacts.
Import Js DeviceDiscovery.

Implicit Types (o : list (string * JsValue)) (k : string) (v : JsValue) (n : JsInt).

(** X8: the network prefix.  For a local address of four (or more)
    dot-separated fields, the prefix the scan uses consists of the first
    three, whatever follows; an address with fewer than three dots is
    taken whole. *)
Theorem X8_base_of_address (a b c rest : string) :
  split "." a = [a] -> split "." b = [b] -> split "." c = [c] ->
  base_of (a ++ "." ++ b ++ "." ++ c ++ "." ++ rest) = (a ++ "." ++ b ++ "." ++ c)%string
  /\ base_of (a ++ "." ++ b ++ "." ++ c) = (a ++ "." ++ b ++ "." ++ c)%string
  /\ base_of (a ++ "." ++ b) = (a ++ "." ++ b)%string
  /\ base_of a = a.
Proof.
  intros Ha Hb Hc. unfold base_of, slice0.
  change (fun x => a ++ "." ++ x)%string with (fun x => a ++ String "." x)%string.
  change ("." ++ ?x)%string with (String "." x).
  assert (E : forall x y, (x ++ "." ++ y)%string = (x ++ String "." y)%string) by done.
  rewrite !E, !split_prefix, ?Ha, ?Hb, ?Hc by done.
  destruct (split "." rest) as [|h t] eqn:Hr; [by destruct (split_nonempty "." rest)|].
  done.
Qed.

Lemma X8_base_of_address_witness :
  base_of "192.168.1.57" = "192.168.1" /\ base_of "localhost" = "localhost".
Proof.
  split.
  - apply (X8_base_of_address "192" "168" "1" "57"); reflexivity.
  - apply (X8_base_of_address "localhost" "" "" ""); reflexivity.
Defined.

(** *** Objects keyed by number *)










End EntryFacts.

Section ComponentFacts.
Import Js DeviceDiscovery.

Implicit Types (o : list (string * JsValue)) (k : string) (v : JsValue) (n : JsInt)
  (cfg : DeviceConfig).

(** The component a device's entries are made for, and the part of the
    configuration they are made from. *)
Definition wanted (info : JsValue) : string :=
  if is_string (get info "profile") "cover" then "cover" else "switch".

Definition selected (info : JsValue) (cfg : DeviceConfig) : list (string * JsValue) :=
  if is_string (get info "profile") "cover" then covers cfg else switches cfg.






Lemma parse_entries_throws info e l : foldl (parse_entry info) (Throws e) l = Throws e.
Proof. induction l as [|x l IH]; [done|]. apply IH. Qed.


(** What [_queryDevice] returns, taken apart. *)
Lemma query_returns p ip es :
  _queryDevice p ip = Returns es ->
  exists info status cfg,
    info_result p = ShellyApi.Fulfilled info
    /\ status_result p = ShellyApi.Fulfilled status
    /\ _parseComponents status info = Returns cfg
    /\ es = map (fun kv => _createDeviceEntry (wanted info) (parseInt kv.1) info ip)
              (selected info cfg).
Proof.
  unfold _queryDevice. destruct (info_result p) as [info|]; [|done].
  destruct (status_result p) as [status|]; [|done].
  destruct (_parseComponents status info) as [cfg|] eqn:Hc; [|done].
  unfold _createDeviceEntries. destruct (is_nullish info); [done|].
  intros Hes. exists info, status, cfg. repeat (split; [done|]).
  unfold wanted, selected.
  destruct (is_string (get info "profile") "cover"); by injection Hes as <-.
Qed.


End ComponentFacts.

Section EntryTheorems.
Import Js DeviceDiscovery.

Implicit Types (o : list (string * JsValue)) (k : string) (v : JsValue) (n : JsInt)
  (cfg : DeviceConfig) (e : DeviceEntry).






(** A Shelly whose status lists its channels out of order, one of them
    twice. *)
Definition unordered_device : Probe :=
  mkProbe
    (ShellyApi.Fulfilled (VObj [("id", VStr "shellypro3-c8f09e"); ("app", VStr "Pro3")]))
    (ShellyApi.Fulfilled
       (VObj [("switch:2", VObj []); ("sys", VObj []); ("switch:0", VObj []);
              ("switch:1", VObj []); ("switch:02", VObj []); ("input:0", VObj [])]))
    (InTime 0).


End EntryTheorems.

Section ScanResult.
Import Js DeviceDiscovery.

Implicit Types (e : DeviceEntry) (st : Scan) (l b : list string).

(** Every entry, listed or still to come, is for an address of [l]. *)
Definition within (l : list string) (st : Scan) : Prop :=
  Forall (fun e => e_ip e ∈ l) (devices st)
  /\ Forall (fun q => Forall (fun e => e_ip e ∈ l) q.2) (inflight st).

Lemma pushed_in_time_ip env ip : Forall (fun e => e_ip e = ip) (pushed_in_time env ip).
Proof.
  unfold pushed_in_time. destruct (timing (probe env ip)); try by constructor.
  destruct (_queryDevice (probe env ip) ip) as [es|] eqn:Hq; [|by constructor].
  by eapply query_entries_ip.
Qed.

Lemma settle_order_elem env b ip : ip ∈ settle_order env b <-> ip ∈ b.
Proof. unfold settle_order. by rewrite merge_sort_Permutation. Qed.

Lemma run_batch_within env l b st :
  b ⊆ l -> within l st -> within l (run_batch env b st).
Proof.
  intros Hb [Hd Hi]. split; cbn.
  - apply Forall_app. split; [done|].
    apply Forall_forall. intros e (ip & Hip & He)%list_elem_of_In%in_flat_map.
    apply list_elem_of_In, settle_order_elem in Hip. apply list_elem_of_In in He.
    pose proof (pushed_in_time_ip env ip) as Hp. rewrite Forall_forall in Hp.
    rewrite (Hp e He). by apply Hb.
  - apply Forall_app. split; [done|].
    apply Forall_forall. intros q (ip & Hip & Hq)%list_elem_of_omap.
    unfold pushed_late in Hq. destruct (timing (probe env ip)); try done.
    destruct (_queryDevice (probe env ip) ip) as [es|] eqn:Hqd; [|done].
    injection Hq as <-. cbn. eapply Forall_impl; [by eapply query_entries_ip|].
    cbn. intros e ->. by apply Hb.
Qed.

Lemma pause_within l st : within l st -> within l (pause st).
Proof.
  intros [Hd Hi]. rewrite Forall_forall in Hi. split; cbn.
  - apply Forall_app. split; [done|].
    apply Forall_forall. intros e (q & Hq & He)%list_elem_of_In%in_flat_map.
    apply list_elem_of_In in Hq, He. specialize (Hi q Hq).
    unfold lands in He. destruct q.1; [|by apply elem_of_nil in He].
    rewrite Forall_forall in Hi. by apply Hi.
  - apply Forall_forall. intros q' (q & Hq & Hw)%list_elem_of_omap.
    specialize (Hi q Hq). unfold waits in Hw.
    destruct q.1; [done|]. by injection Hw as <-.
Qed.

Lemma slice_subseteq i n l : slice i n l ⊆ l.
Proof.
  unfold slice. intros x Hx. apply elem_of_take in Hx as (k & Hk & _).
  rewrite lookup_drop in Hk. by eapply list_elem_of_lookup_2.
Qed.

Lemma scan_loop_within env l fuel i st :
  within l st -> within l (scan_loop env l fuel i st).
Proof.
  revert i st. induction fuel as [|fuel IH]; intros i st Hst; cbn [scan_loop]; [done|].
  destruct (i <? List.length l)%nat; [|done].
  destruct (aborted env i); [done|].
  apply IH, pause_within, run_batch_within; [apply slice_subseteq|done].
Qed.

(** The list only grows. *)
Lemma scan_loop_keeps env l fuel i st e :
  e ∈ devices st -> e ∈ devices (scan_loop env l fuel i st).
Proof.
  revert i st. induction fuel as [|fuel IH]; intros i st He; cbn [scan_loop]; [done|].
  destruct (i <? List.length l)%nat; [|done].
  destruct (aborted env i); [done|].
  apply IH. cbn. rewrite !elem_of_app. by left; left.
Qed.

Lemma scan_loop_lists env l fuel i st ip e :
  (forall j, aborted env j = false) ->
  (List.length l <= i + fuel * SCAN_BATCH_SIZE)%nat ->
  ip ∈ drop i l -> e ∈ pushed_in_time env ip ->
  e ∈ devices (scan_loop env l fuel i st).
Proof.
  intros Hnever. revert i st.
  induction fuel as [|fuel IH]; intros i st Hfuel Hip He; cbn [scan_loop].
  - rewrite drop_ge in Hip by lia. by apply elem_of_nil in Hip.
  - destruct (Nat.ltb_spec i (List.length l)) as [Hlt|Hge].
    2:{ rewrite drop_ge in Hip by lia. by apply elem_of_nil in Hip. }
    rewrite Hnever.
    rewrite <- (take_drop SCAN_BATCH_SIZE (drop i l)), drop_drop in Hip.
    apply elem_of_app in Hip as [Hin|Hin].
    + apply scan_loop_keeps. cbn. rewrite !elem_of_app. left. right.
      apply list_elem_of_In, in_flat_map. exists ip. split; [|by apply list_elem_of_In].
      by apply list_elem_of_In, settle_order_elem.
    + apply IH; [lia|done|done].
Qed.

Lemma scan_within env l : within l (_scanNetworkInBatches env l (mkScan [] [] [])).
Proof. apply scan_loop_within. split; constructor. Qed.

Lemma scan_answered env l :
  Forall (answered env) (devices (_scanNetworkInBatches env l (mkScan [] [] []))).
Proof. apply scan_loop_answered. split; constructor. Qed.

Lemma scan_lists env l ip e :
  (forall j, aborted env j = false) -> ip ∈ l -> e ∈ pushed_in_time env ip ->
  e ∈ devices (_scanNetworkInBatches env l (mkScan [] [] [])).
Proof.
  intros Hnever Hip He. unfold _scanNetworkInBatches.
  apply (scan_loop_lists env l _ 0 _ ip); [done|unfold SCAN_BATCH_SIZE; lia|done|done].
Qed.

(** X11: what the scan lists.  Every entry of the list returned is for
    one of the 254 addresses of the prefix, and was contributed by a
    query of that very address that fulfilled.  Conversely, when the
    scan is not cut short by its deadline, every entry of a query that
    fulfils before its probe's timer, for any address of the range, is
    in the list. *)
Theorem X11_scan_result (addr : string) (env : ScanEnv) :
  let range := _generateIpRange (base_of addr) in
  let found := devices (discoverDevices (ShellyApi.Fulfilled (VStr addr)) env) in
  (forall e, e ∈ found ->
     e_ip e ∈ range
     /\ exists es, _queryDevice (probe env (e_ip e)) (e_ip e) = Returns es /\ e ∈ es)
  /\ ((forall i, aborted env i = false) ->
      forall ip r es e,
        ip ∈ range -> timing (probe env ip) = InTime r ->
        _queryDevice (probe env ip) ip = Returns es -> e ∈ es -> e ∈ found).
Proof.
  intros range found.
  change found with (devices (_scanNetworkInBatches env range (mkScan [] [] []))).
  clearbody range. clear found. split.
  - intros e He. split.
    + destruct (scan_within env range) as [Hd _].
      rewrite Forall_forall in Hd. by apply Hd.
    + pose proof (scan_answered env range) as Ha.
      rewrite Forall_forall in Ha. destruct (Ha e He) as (es & Hq & Hin & _). eauto.
  - intros Hnever ip r es e Hip Ht Hq He.
    apply (scan_lists env range ip); [done|done|].
    unfold pushed_in_time. by rewrite Ht, Hq.
Qed.

End ScanResult.

(** ** From the scan to the session *)

Section PairingFacts.
Import Js DeviceDiscovery.

Implicit Types (e : DeviceEntry).

Lemma init_channel rt' status (s s1 : Devices.Session) :
  Devices.SwitchDevice.initializeCapabilities rt' status s = (s1, Returns tt) ->
  Devices.channelNumber s1
  = Some (Devices.SwitchDevice.parse_channel (Devices.data_id (Devices.device s))).
Proof.
  unfold Devices.SwitchDevice.initializeCapabilities.
  destruct (Devices.setCapabilityValue "onoff" (VBool false) (Devices.device s))
    as [d0 [err|]] eqn:Hw; [discriminate|].
  assert (Hd0 : Devices.data_id d0 = Devices.data_id (Devices.device s)).
  { unfold Devices.setCapabilityValue in Hw. by injection Hw as <- _. }
  intros [= <-]. cbn. rewrite Hd0.
  destruct status as [st|err]; [|done].
  destruct (is_nullish st); [done|].
  by destruct (is_boolean (get st "output")).
Qed.

Lemma entry_id_channel component n info ip :
  split ":" (template (get info "id") ++ "_" ++ component)%string
  = [(template (get info "id") ++ "_" ++ component)%string] ->
  Devices.SwitchDevice.parse_channel (e_id (_createDeviceEntry component n info ip)) = n.
Proof.
  intros Hno. unfold Devices.SwitchDevice.parse_channel, _createDeviceEntry. cbn [e_id].
  replace (template (get info "id") ++ "_" ++ component ++ ":" ++ int_to_string n)%string
    with ((template (get info "id") ++ "_" ++ component) ++ String ":" (int_to_string n))%string.
  2:{ by rewrite !string_app_assoc. }
  rewrite split_prefix by done. rewrite int_to_string_no_colon. cbn.
  apply parseInt_int_to_string.
Qed.

(** X12: the identifier names the channel.  For a device whose own id
    contains no [':'], the identifier discovery gives an entry, read
    back as a switch session does ([parseInt] of the field after the
    first [':']), is the entry's channel, whatever that is; so a switch
    session paired from the entry gets that channel number when it is
    initialised. *)
Theorem X12_identifier_names_channel (p : Probe) (ip : string) (es : list DeviceEntry)
    (info : JsValue) (e : DeviceEntry) :
  _queryDevice p ip = Returns es ->
  info_result p = ShellyApi.Fulfilled info ->
  split ":" (template (get info "id")) = [template (get info "id")] ->
  e ∈ es ->
  Devices.SwitchDevice.parse_channel (e_id e) = e_channel e
  /\ forall rt' status (s s1 : Devices.Session),
       Devices.data_id (Devices.device s) = e_id e ->
       Devices.SwitchDevice.initializeCapabilities rt' status s = (s1, Returns tt) ->
       Devices.channelNumber s1 = Some (e_channel e).
Proof.
  intros Hq Hi Hno He.
  apply query_returns in Hq as (info' & status & cfg & Hi' & _ & _ & ->).
  assert (info' = info) as -> by congruence.
  apply list_elem_of_fmap in He as (kv & -> & _).
  assert (Hch : Devices.SwitchDevice.parse_channel
                  (e_id (_createDeviceEntry (wanted info) (parseInt kv.1) info ip))
                = parseInt kv.1).
  { apply entry_id_channel. apply (no_sep_app ":" _ ("_" ++ wanted info)); [done|].
    unfold wanted. by destruct (is_string _ _). }
  split; [exact Hch|].
  intros rt' status' s s1 Hid Hinit. rewrite (init_channel _ _ _ _ Hinit), Hid.
  by rewrite Hch.
Qed.

Lemma X12_identifier_names_channel_witness :
  let es := match _queryDevice unordered_device "10.0.0.9" with
            | Returns es => es
            | Throws _ => []
            end in
  Forall (fun e => Devices.SwitchDevice.parse_channel (e_id e) = e_channel e) es
  /\ map e_id es = ["shellypro3-c8f09e_switch:0"; "shellypro3-c8f09e_switch:1";
                    "shellypro3-c8f09e_switch:2"].
Proof.
  intros es. split; [|reflexivity].
  apply Forall_forall. intros e He.
  by apply (X12_identifier_names_channel unordered_device "10.0.0.9" es
              (VObj [("id", VStr "shellypro3-c8f09e"); ("app", VStr "Pro3")]) e).
Defined.

(** The capabilities of a session class. *)
Definition class_capabilities (k : DeviceFactory.Kind) : list string :=
  match k with
  | DeviceFactory.Cover =>
      ["windowcoverings_set"; "windowcoverings_state"; "measure_power"; "measure_current"]
  | DeviceFactory.Switch => ["onoff"; "measure_power"; "measure_current"]
  end.

Lemma create_kind profile :
  (DeviceFactory.create profile).1 = DeviceFactory.Cover
  <-> is_string profile "cover" = true.
Proof.
  unfold DeviceFactory.create. destruct profile as [| |b|q|str| |]; cbn; try done.
  - by destruct b.
  - by destruct (bool_decide (q = Q2Qc 0)).
  - destruct (decide (str = "")) as [->|Hne]; [done|].
    rewrite (bool_decide_eq_false_2 (str = "")) by done. cbn.
    case_bool_decide; [done|]. by case_bool_decide.
Qed.

(** X13: from the pairing list to the session.  Every entry of the
    pairing list comes from an entry of the scan; the device paired
    from it opens its channel to the entry's address with the entry's
    identifier as client id, which is never empty, so that is the [src]
    of every request it sends; the factory makes a cover session
    exactly when the entry's component is "cover", and a switch session
    otherwise; and the capabilities listed for pairing are those of
    that class. *)
Theorem X13_paired_device (localAddress : ShellyApi.Outcome) (env : ScanEnv)
    (tr : nat -> option JsError) (pe : Driver.PairEntry) :
  pe ∈ Driver.onPairListDevices localAddress env ->
  exists e,
    e ∈ devices (discoverDevices localAddress env)
    /\ pe = Driver.pair_entry e
    /\ ShellyApi.ip (ShellyApi.api (Driver.onInit pe tr).1) = e_ip e
    /\ ShellyApi.deviceId (ShellyApi.api (Driver.onInit pe tr).1) = Some (e_id e)
    /\ e_id e <> ""
    /\ src_of (ShellyApi.api (Driver.onInit pe tr).1) = e_id e
    /\ ((Driver.onInit pe tr).2 = DeviceFactory.Cover <-> e_component e = "cover")
    /\ ((Driver.onInit pe tr).2 = DeviceFactory.Switch <-> e_component e = "switch")
    /\ Driver.p_capabilities pe = class_capabilities (Driver.onInit pe tr).2.
Proof.
  intros (e & -> & He)%list_elem_of_fmap. exists e. split; [done|]. split; [done|].
  pose proof (discover_answered env localAddress) as Ha. rewrite Forall_forall in Ha.
  destruct (Ha e He) as (es & Hq & Hin & _).
  apply query_returns in Hq as (info & status & cfg & _ & _ & _ & ->).
  apply list_elem_of_fmap in Hin as (kv & -> & _).
  assert (Hne : e_id (_createDeviceEntry (wanted info) (parseInt kv.1) info (e_ip e)) <> "").
  { cbn. destruct (template (get info "id")); done. }
  revert Hne. generalize (parseInt kv.1). intros n Hne.
  cbn [Driver.onInit Driver.pair_entry Driver.p_settings_ip Driver.p_data_id
       Driver.p_settings_profile Driver.p_capabilities fst snd ShellyApi.boot
       ShellyApi.api ShellyApi.constructor ShellyApi.ip ShellyApi.deviceId
       _createDeviceEntry e_ip e_id e_profile e_component] in *.
  split; [done|]. split; [done|]. split; [done|]. split.
  { unfold src_of, ShellyApi.constructor. cbn [ShellyApi.deviceId].
    by rewrite bool_decide_eq_false_2. }
  pose proof (create_kind (get info "profile")) as Hk.
  unfold wanted, DeviceFactory.getCapabilities.
  destruct (DeviceFactory.create (get info "profile")).1 eqn:Hc;
    destruct (is_string (get info "profile") "cover"); cbn; naive_solver.
Qed.

Lemma X13_paired_device_witness :
  let pe := Driver.pair_entry
              (_createDeviceEntry "switch" (Int 0)
                 (VObj [("id", VStr "shellyplus1-a8032ab1"); ("app", VStr "Plus1");
                        ("profile", VStr "switch")]) "10.0.0.1") in
  Driver.onPairListDevices (ShellyApi.Fulfilled (VStr "10.0.0.57")) one_slow_device = [pe]
  /\ exists e, pe = Driver.pair_entry e
       /\ src_of (ShellyApi.api (Driver.onInit pe (fun _ => None)).1) = e_id e.
Proof.
  intros pe. split; [vm_compute; reflexivity|].
  destruct (X13_paired_device (ShellyApi.Fulfilled (VStr "10.0.0.57")) one_slow_device
              (fun _ => None) pe) as (e & _ & Hpe & _ & _ & _ & Hsrc & _).
  - vm_compute. left.
  - by exists e.
Defined.

End PairingFacts.

(** ** The sessions: what a notification writes *)

Section WriteFacts.
Import Js Devices.

Implicit Types (s : Session) (v : JsValue) (data : Data) (c : string).

(** A value fit for a capability: a boolean for [onoff], a number for
    the measurements and the position, a direction for the state. *)
Definition fits (cv : string * JsValue) : Prop :=
  match cv.2 with
  | VBool _ => cv.1 = "onoff"
  | VNum _ => cv.1 = "measure_power" \/ cv.1 = "measure_current"
              \/ cv.1 = "windowcoverings_set"
  | VStr d => cv.1 = "windowcoverings_state" /\ (d = "up" \/ d = "down" \/ d = "idle")
  | _ => False
  end.

(** The session [s'] has asked for the writes [ws] since [s]: fit
    values, for capabilities taken in order from [cs]. *)
Definition wrote (cs : list string) (s s' : Session) : Prop :=
  exists ws, written (device s') = written (device s) ++ ws
             /\ Forall fits ws /\ sublist ws.*1 cs.

Lemma wrote_refl cs s : wrote cs s s.
Proof.
  exists []. split; [by rewrite app_nil_r|]. split; [constructor|apply sublist_nil_l].
Qed.

Lemma wrote_trans cs cs' s1 s2 s3 :
  wrote cs s1 s2 -> wrote cs' s2 s3 -> wrote (cs ++ cs') s1 s3.
Proof.
  intros (w & H1 & Hf & Hs) (w' & H2 & Hf' & Hs'). exists (w ++ w').
  split; [by rewrite H2, H1, app_assoc|].
  split; [by apply Forall_app|]. rewrite fmap_app. by apply sublist_app.
Qed.

Lemma wrote_safe c v s :
  fits (c, v) -> wrote [c] s (setCapabilityValueSafe c v s).
Proof.
  intros Hf. exists [(c, v)]. split; [apply safe_written|].
  split; [by constructor|done].
Qed.

Lemma wrote_if_number c v s :
  c = "measure_power" \/ c = "measure_current" \/ c = "windowcoverings_set" ->
  wrote [c] s (write_if_number c v s).
Proof.
  intros Hc. unfold write_if_number.
  destruct v; cbn [is_number]; try apply wrote_refl. by apply wrote_safe.
Qed.

Lemma mapCoverState_direction v :
  CoverDevice.mapCoverState v = "up" \/ CoverDevice.mapCoverState v = "down"
  \/ CoverDevice.mapCoverState v = "idle".
Proof.
  unfold CoverDevice.mapCoverState. destruct v; auto. repeat case_bool_decide; auto.
Qed.

Lemma wrote_then cs cs' (f : Session -> Session) s1 s2 :
  (forall s, wrote cs' s (f s)) -> wrote cs s1 s2 -> wrote (cs ++ cs') s1 (f s2).
Proof. intros Hf H. eapply wrote_trans; [done|apply Hf]. Qed.

Lemma wrote_switch data s :
  wrote ["onoff"; "measure_power"; "measure_current"] s
    (SwitchDevice.handleNotification data s).
Proof.
  unfold SwitchDevice.handleNotification.
  destruct (ShellyApi.updates (envelope data) !! "switch") as [channels|];
    [|apply wrote_refl].
  generalize (default VUndefined (channels !! SwitchDevice.channel_key s)). intros st.
  destruct (truthy st); [|apply wrote_refl].
  apply (wrote_then ["onoff"; "measure_power"] ["measure_current"]
           (write_if_number "measure_current" (get st "current")));
    [intros; apply wrote_if_number; auto|].
  apply (wrote_then ["onoff"] ["measure_power"]
           (write_if_number "measure_power" (get st "apower")));
    [intros; apply wrote_if_number; auto|].
  destruct (get st "output"); cbn [is_boolean]; try apply wrote_refl.
  by apply wrote_safe.
Qed.

Lemma wrote_cover_updates data s :
  wrote ["windowcoverings_state"; "windowcoverings_set"; "measure_power";
         "measure_current"] s
    (CoverDevice.handleNotification (of_envelope (envelope data)) s).
Proof.
  unfold CoverDevice.handleNotification. cbn [event of_envelope truthy andb].
  change (update_for "cover" "0" (of_envelope (envelope data)))
    with (update_for "cover" "0" data).
  generalize (update_for "cover" "0" data). intros cd.
  destruct (truthy cd); [|apply wrote_refl].
  apply (wrote_then ["windowcoverings_state"; "windowcoverings_set"; "measure_power"]
           ["measure_current"]
           (write_if_number "measure_current" (get cd "current")));
    [intros; apply wrote_if_number; auto|].
  apply (wrote_then ["windowcoverings_state"; "windowcoverings_set"]
           ["measure_power"]
           (write_if_number "measure_power" (get cd "apower")));
    [intros; apply wrote_if_number; auto|].
  apply (wrote_then ["windowcoverings_state"] ["windowcoverings_set"]
           (fun s => match get cd "current_pos" with
                     | VNum q => setCapabilityValueSafe "windowcoverings_set"
                                   (VNum (percent_to_fraction q)) s
                     | _ => s
                     end)).
  - intros s0. destruct (get cd "current_pos"); try apply wrote_refl.
    apply wrote_safe. cbn. auto.
  - destruct (truthy (get cd "state")); [|apply wrote_refl].
    apply wrote_safe. split; [done|]. apply mapCoverState_direction.
Qed.

Lemma safe_static c v s :
  data_id (device (setCapabilityValueSafe c v s)) = data_id (device s)
  /\ listeners (device (setCapabilityValueSafe c v s)) = listeners (device s)
  /\ channelNumber (setCapabilityValueSafe c v s) = channelNumber s.
Proof.
  unfold setCapabilityValueSafe, setCapabilityValue.
  destruct (sink _ _ _ _) as [err|]; [|done].
  cbn. case_bool_decide; [|done].
  by destruct (api s).
Qed.

(** Whatever a relation on sessions that holds along every safe write
    and is a preorder, it holds along a notification. *)
Lemma handler_closure (R : Session -> Session -> Prop) data s :
  (forall s, R s s) ->
  (forall s1 s2 s3, R s1 s2 -> R s2 s3 -> R s1 s3) ->
  (forall c v s, R s (setCapabilityValueSafe c v s)) ->
  R s (SwitchDevice.handleNotification data s)
  /\ R s (CoverDevice.handleNotification (of_envelope (envelope data)) s).
Proof.
  intros Hrefl Htrans Hsafe.
  assert (Hnum : forall c v s, R s (write_if_number c v s)).
  { intros c v s0. unfold write_if_number. by destruct (is_number v). }
  split.
  - unfold SwitchDevice.handleNotification.
    destruct (ShellyApi.updates (envelope data) !! "switch") as [channels|]; [|done].
    generalize (default VUndefined (channels !! SwitchDevice.channel_key s)). intros st.
    destruct (truthy st); [|done].
    eapply Htrans; [|apply Hnum]. eapply Htrans; [|apply Hnum].
    by destruct (is_boolean (get st "output")).
  - unfold CoverDevice.handleNotification. cbn [event of_envelope truthy andb].
    generalize (update_for "cover" "0" (of_envelope (envelope data))). intros cd.
    destruct (truthy cd); [|done].
    eapply Htrans; [|apply Hnum]. eapply Htrans; [|apply Hnum].
    apply (Htrans _ (if truthy (get cd "state")
                     then setCapabilityValueSafe "windowcoverings_state"
                            (VStr (CoverDevice.mapCoverState (get cd "state"))) s
                     else s)).
    + by destruct (truthy (get cd "state")).
    + generalize (if truthy (get cd "state")
                  then setCapabilityValueSafe "windowcoverings_state"
                         (VStr (CoverDevice.mapCoverState (get cd "state"))) s
                  else s). intros s0.
      by destruct (get cd "current_pos").
Qed.

(** X14: what a notification makes a session write.  A switch session
    asks for at most three writes, each capability at most once and in
    the order the factory declares them for the switch profile: a
    boolean to [onoff], a number to [measure_power], a number to
    [measure_current].  A cover session, for what the channel hands
    over, asks for at most four: "up", "down" or "idle" to
    [windowcoverings_state], then numbers to [windowcoverings_set],
    [measure_power] and [measure_current], all declared for the cover
    profile.  Neither changes the session's channel number, the
    device's identifier or its listeners. *)
Theorem X14_notification_writes (data : Data) (s : Session) :
  let sw := SwitchDevice.handleNotification data s in
  let cv := CoverDevice.handleNotification (of_envelope (envelope data)) s in
  (exists ws,
     written (device sw) = written (device s) ++ ws
     /\ Forall fits ws
     /\ sublist ws.*1 (DeviceFactory.getCapabilities (VStr "switch")))
  /\ (exists ws,
        written (device cv) = written (device s) ++ ws
        /\ Forall fits ws
        /\ sublist ws.*1 ["windowcoverings_state"; "windowcoverings_set";
                          "measure_power"; "measure_current"]
        /\ ws.*1 ⊆ DeviceFactory.getCapabilities (VStr "cover"))
  /\ Forall (fun s' => channelNumber s' = channelNumber s
                       /\ data_id (device s') = data_id (device s)
                       /\ listeners (device s') = listeners (device s))
       [sw; cv].
Proof.
  intros sw cv. split; [exact (wrote_switch data s)|]. split.
  - destruct (wrote_cover_updates data s) as (ws & Hw & Hf & Hs).
    exists ws. split; [done|]. split; [done|]. split; [done|].
    intros c Hc. pose proof (elem_of_sublist _ _ c Hc Hs) as Hin.
    cbn. set_solver.
  - pose proof (handler_closure
      (fun s s' => channelNumber s' = channelNumber s
                   /\ data_id (device s') = data_id (device s)
                   /\ listeners (device s') = listeners (device s)) data s) as H.
    cbn beta in H. destruct H as [H1 H2].
    + done.
    + intros s1 s2 s3 (? & ? & ?) (? & ? & ?). split_and!; congruence.
    + intros c v s0. pose proof (safe_static c v s0). tauto.
    + apply Forall_cons. split; [exact H1|]. apply Forall_cons. split; [exact H2|].
      constructor.
Qed.

(** *** A device the host has deleted *)

(** The host answers every write with an error whose status code is
    404. *)
Definition deleted (d : HomeyDevice) : Prop :=
  forall n c v, exists err, sink d n c v = Some err /\ err_statusCode err = Some 404.

(** [s'] is [s] after the writes [ws], all rejected that way. *)
Definition after_rejected (ws : list (string * JsValue)) (s : Session) : Session :=
  {| device := {| data_id := data_id (device s);
                  capabilityValues := capabilityValues (device s);
                  written := written (device s) ++ ws;
                  sink := sink (device s);
                  listeners := listeners (device s) |};
     api := match ws with
            | [] => api s
            | _ => ShellyApi.disconnect <$> api s
            end;
     channelNumber := channelNumber s |}.

Lemma disconnect_twice rt :
  ShellyApi.disconnect (ShellyApi.disconnect rt) = ShellyApi.disconnect rt.
Proof.
  unfold ShellyApi.disconnect, ShellyApi.cleanupWebSocket.
  by destruct (ShellyApi.ws (ShellyApi.api rt)) eqn:Hw; cbn; [|rewrite Hw].
Qed.

Lemma after_rejected_nil s : after_rejected [] s = s.
Proof. destruct s as [[] ? ?]. unfold after_rejected. cbn. by rewrite app_nil_r. Qed.

Lemma after_rejected_app ws ws' s :
  after_rejected ws' (after_rejected ws s) = after_rejected (ws ++ ws') s.
Proof.
  unfold after_rejected. cbn [device api channelNumber data_id capabilityValues
                              written sink listeners].
  rewrite app_assoc. f_equal.
  destruct ws as [|w ws], ws' as [|w' ws']; cbn [app]; try done.
  destruct (api s); cbn [fmap option_fmap option_map]; [|done].
  by rewrite disconnect_twice.
Qed.

Lemma safe_deleted c v s :
  deleted (device s) -> setCapabilityValueSafe c v s = after_rejected [(c, v)] s.
Proof.
  intros Hd. unfold setCapabilityValueSafe, setCapabilityValue.
  destruct (Hd (List.length (written (device s))) c v) as (err & -> & H404).
  cbn. rewrite bool_decide_eq_true_2 by done.
  unfold after_rejected, with_channel, with_device.
  cbn [device api channelNumber]. by destruct (api s).
Qed.

(** X15: a device deleted in the host.  When the host answers every
    write with status 404, a notification stores no value; if it asks
    for no write the session is unchanged, and otherwise the session's
    channel is the old one disconnected, once however many writes were
    rejected (no channel, no disconnect); the channel number, the
    identifier and the listeners stay. *)
Theorem X15_deleted_device (data : Data) (s : Session) :
  deleted (device s) ->
  Forall (fun s' =>
      capabilityValues (device s') = capabilityValues (device s)
      /\ deleted (device s')
      /\ channelNumber s' = channelNumber s
      /\ (written (device s') = written (device s) -> s' = s)
      /\ (written (device s') <> written (device s) ->
          api s' = ShellyApi.disconnect <$> api s))
    [SwitchDevice.handleNotification data s;
     CoverDevice.handleNotification (of_envelope (envelope data)) s].
Proof.
  intros Hd.
  pose proof (handler_closure
    (fun s s' => deleted (device s) -> exists ws, s' = after_rejected ws s) data s) as H.
  cbn beta in H.
  assert (Hshape : forall s', (exists ws, s' = after_rejected ws s) ->
    capabilityValues (device s') = capabilityValues (device s)
    /\ deleted (device s')
    /\ channelNumber s' = channelNumber s
    /\ (written (device s') = written (device s) -> s' = s)
    /\ (written (device s') <> written (device s) ->
        api s' = ShellyApi.disconnect <$> api s)).
  { intros s' [ws ->]. split; [done|]. split; [exact Hd|]. split; [done|]. split.
    - cbn. intros Hw. rewrite <- (app_nil_r (written (device s))) in Hw at 2.
      apply app_inv_head in Hw as ->. apply after_rejected_nil.
    - cbn. destruct ws; [|done]. rewrite app_nil_r. done. }
  destruct H as [H1 H2].
  - intros s0 _. exists []. by rewrite after_rejected_nil.
  - intros s1 s2 s3 H12 H23 Hd1. destruct (H12 Hd1) as [ws ->].
    destruct (H23 Hd1) as [ws' ->]. exists (ws ++ ws'). apply after_rejected_app.
  - intros c v s0 Hd0. exists [(c, v)]. by apply safe_deleted.
  - apply Forall_cons. split; [by apply Hshape, H1|].
    apply Forall_cons. split; [by apply Hshape, H2|]. constructor.
Qed.

(** A switch session for channel 0 with an open channel, on a host that
    has deleted the device. *)
Definition orphan : Session :=
  {| device := mkDevice "shelly_switch:0" ∅ []
                 (fun _ _ _ => Some (mkError "Error" "Not Found" None (Some 404%Z))) [];
     api := Some (ShellyApi.connect
                    (ShellyApi.boot (ShellyApi.constructor "10.0.0.7"
                                       (Some "shelly_switch:0")) (fun _ => None))).2;
     channelNumber := Some (Int 0) |}.

Lemma X15_deleted_device_witness :
  match api (SwitchDevice.handleNotification push_for_0 orphan) with
  | Some rt => ShellyApi.wire rt = [ShellyApi.WNew 0 "ws://10.0.0.7/rpc";
                                    ShellyApi.WTerminate 0]
  | None => False
  end.
Proof.
  assert (Hd : deleted (device orphan)) by (intros n c v; by eexists).
  pose proof (X15_deleted_device push_for_0 orphan Hd) as H.
  apply Forall_cons in H as [(_ & _ & _ & _ & H) _].
  rewrite H; [vm_compute; reflexivity|]. vm_compute. discriminate.
Defined.

End WriteFacts.

(** ** The sessions: routing, initialisation, commands *)

Section SessionFacts.
Import Js Devices.

Implicit Types (s : Session) (v : JsValue) (data : Data) (c : string).

Lemma get_bool_is_object v k b :
  get v k = VBool b -> exists fields, v = VObj fields.
Proof. destruct v; try discriminate. eauto. Qed.

(** X16: which update a switch session applies.  For a session whose
    channel number is [n] (NaN included, and up to 2^53 - 1 in
    magnitude otherwise) and a push whose keys other than "ts" are all
    of the form component:index, with no component that is the name of
    a member every object inherits and no index [__proto__]: the
    notification the channel makes of it leaves the session unchanged
    unless the push
    has the key [switch:<n>], whatever it holds for other channels and
    components; and when it has that key with a boolean [output] and
    the host stores the write, the session's [onoff] is that boolean. *)
Theorem X16_switch_update_routing (s : Session) (n : JsInt)
    (fields : list (string * JsValue)) :
  channelNumber s = Some n -> safe_int n = true ->
  NoDup fields.*1 ->
  (forall k v, (k, v) ∈ fields -> k <> "ts" -> exists c i, keyed k c i) ->
  ShellyApi.own_keys (VObj fields) = true ->
  let data := of_envelope
                (ShellyApi.mkEnvelope (get (VObj fields) "ts")
                   (ShellyApi.reshape (VObj fields))) in
  let key := ("switch:" ++ int_to_string n)%string in
  ((forall v, (key, v) ∉ fields) -> SwitchDevice.handleNotification data s = s)
  /\ (forall st b,
        (key, st) ∈ fields -> get st "output" = VBool b ->
        sink (device s) (List.length (written (device s))) "onoff" (VBool b) = None ->
        capabilityValues (device (SwitchDevice.handleNotification data s)) !! "onoff"
        = Some (VBool b)).
Proof.
  intros Hn _ Hnd Hkeys _ data key.
  assert (Hspec : forall v,
            lookup2 (ShellyApi.reshape (VObj fields)) "switch" (int_to_string n) = Some v
            <-> (key, v) ∈ fields).
  { intros v. apply reshape_spec; [done|done|reflexivity|apply int_to_string_no_colon]. }
  assert (Hkey : SwitchDevice.channel_key s = int_to_string n).
  { unfold SwitchDevice.channel_key. by rewrite Hn. }
  unfold SwitchDevice.handleNotification. subst data.
  cbn [envelope of_envelope ShellyApi.updates]. rewrite Hkey.
  unfold lookup2 in Hspec. split.
  - intros Hnone.
    destruct (ShellyApi.reshape (VObj fields) !! "switch") as [channels|]; [|done].
    cbn in Hspec.
    destruct (channels !! int_to_string n) as [v|] eqn:Hv; [|done].
    exfalso. apply (Hnone v). by apply Hspec.
  - intros st b Hin Hout Hsink. apply Hspec in Hin.
    destruct (ShellyApi.reshape (VObj fields) !! "switch") as [channels|]; [|done].
    cbn in Hin. rewrite Hin. cbn [default from_option]. unfold id.
    destruct (get_bool_is_object _ _ _ Hout) as [o ->]. cbn [truthy].
    rewrite Hout. cbn [is_boolean].
    rewrite !if_number_values_other by done.
    rewrite safe_values, Hsink. apply lookup_insert_eq.
Qed.

Lemma X16_switch_update_routing_witness :
  let s := mkSession (mkDevice "shelly_switch:1" ∅ [] accepting []) None (Some (Int 1)) in
  let envelope_of fields :=
    of_envelope (ShellyApi.mkEnvelope (get (VObj fields) "ts")
                   (ShellyApi.reshape (VObj fields))) in
  SwitchDevice.handleNotification
    (envelope_of [("ts", num 7); ("switch:0", VObj [("output", VBool true)]);
                  ("cover:1", VObj [("state", VStr "open")])]) s = s
  /\ capabilityValues
       (device (SwitchDevice.handleNotification
                  (envelope_of [("switch:0", VObj [("output", VBool false)]);
                                ("switch:1", VObj [("output", VBool true)])]) s))
       !! "onoff" = Some (VBool true).
Proof.
  intros s envelope_of. split.
  - apply (X16_switch_update_routing s (Int 1)
             [("ts", num 7); ("switch:0", VObj [("output", VBool true)]);
              ("cover:1", VObj [("state", VStr "open")])]).
    + reflexivity.
    + reflexivity.
    + cbn. repeat constructor; set_solver.
    + intros k v Hin Hts. repeat (apply elem_of_cons in Hin as [[= -> ->]|Hin]).
      * done.
      * exists "switch", "0". repeat split.
      * exists "cover", "1". repeat split.
      * by apply elem_of_nil in Hin.
    + reflexivity.
    + intros v Hin. repeat (apply elem_of_cons in Hin as [[=]|Hin]).
      by apply elem_of_nil in Hin.
  - apply (X16_switch_update_routing s (Int 1)
             [("switch:0", VObj [("output", VBool false)]);
              ("switch:1", VObj [("output", VBool true)])]
             eq_refl eq_refl) with (st := VObj [("output", VBool true)]).
    + cbn. repeat constructor; set_solver.
    + intros k v Hin Hts. repeat (apply elem_of_cons in Hin as [[= -> ->]|Hin]).
      * exists "switch", "0". repeat split.
      * exists "switch", "1". repeat split.
      * by apply elem_of_nil in Hin.
    + reflexivity.
    + right. left.
    + reflexivity.
    + reflexivity.
Defined.

(** *** Initialisation *)

(** [initializeCapabilities] of the class the factory chose. *)
Definition class_init (k : DeviceFactory.Kind)
    : option ShellyApi.Runtime -> ShellyApi.Outcome -> Session
      -> Session * Completion unit :=
  match k with
  | DeviceFactory.Cover => CoverDevice.initializeCapabilities
  | DeviceFactory.Switch => SwitchDevice.initializeCapabilities
  end.

(** X17: how [init] ends, for either class.  It returns normally
    exactly when the session has a channel, [connect] fulfilled,
    [setAvailable] succeeded and the host stored the first write
    ("idle" to [windowcoverings_state] for a cover, [false] to [onoff]
    for a switch); how the status call settles never changes that.  On
    success the first write is followed by at most one more, of a fit
    value, and the class's listeners are registered; on failure no
    listener is registered, and when [connect] had fulfilled the
    notification handler stays registered on the channel as [connect]
    left it. *)
Theorem X17_init_outcome (k : DeviceFactory.Kind) (connected : ShellyApi.Outcome)
    (rt1 : ShellyApi.Runtime) (available : option JsError)
    (rt2 : option ShellyApi.Runtime) (status : ShellyApi.Outcome)
    (h : ShellyApi.Handler) (s : Session) :
  let first := match k with
               | DeviceFactory.Cover => ("windowcoverings_state", VStr "idle")
               | DeviceFactory.Switch => ("onoff", VBool false)
               end in
  let answer := sink (device s) (List.length (written (device s))) first.1 first.2 in
  let r := init connected rt1 available (class_init k rt2 status) h s in
  (r.2 = Returns tt
   <-> is_Some (api s) /\ (exists v, connected = ShellyApi.Fulfilled v)
       /\ available = None /\ answer = None)
  /\ (forall status',
        (init connected rt1 available (class_init k rt2 status') h s).2 = r.2)
  /\ (r.2 = Returns tt ->
      api r.1 = rt2
      /\ listeners (device r.1)
         = listeners (device s)
           ++ match k with
              | DeviceFactory.Cover => ["windowcoverings_set"; "windowcoverings_state"]
              | DeviceFactory.Switch => ["onoff"]
              end
      /\ exists ws, written (device r.1) = written (device s) ++ first :: ws
                    /\ Forall fits ws /\ (List.length ws <= 1)%nat)
  /\ (r.2 <> Returns tt ->
      listeners (device r.1) = listeners (device s)
      /\ channelNumber r.1 = channelNumber s
      /\ (is_Some (api s) -> (exists v, connected = ShellyApi.Fulfilled v) ->
          api r.1 = Some (ShellyApi.setNotificationHandler (Some h) rt1))).
Proof.
  intros first answer r. subst r answer first. unfold init.
  destruct (api s) as [rt0|] eqn:Hapi.
  2:{ split; [split; [done|by intros [[? [=]] _]]|]. split; [done|]. split; [done|].
      intros _. split; [done|]. split; [done|]. by intros [? [=]]. }
  destruct connected as [v|err].
  2:{ split; [split; [done|by intros (_ & [? [=]] & _)]|]. split; [done|].
      split; [done|]. intros _. split; [done|]. split; [done|]. by intros _ [? [=]]. }
  destruct available as [err|].
  { split; [split; [done|by intros (_ & _ & [=] & _)]|]. split; [done|].
    split; [done|]. intros _. by repeat split. }
  destruct k; cbn [class_init fst snd].
  - unfold CoverDevice.initializeCapabilities, setCapabilityValue.
    cbn [device with_channel].
    destruct (sink (device s) _ "windowcoverings_state" (VStr "idle")) as [err|] eqn:Hs.
    { cbn [fst snd]. split; [split; [done|by intros (_ & _ & _ & [=])]|].
      split; [done|]. split; [done|]. intros _. by repeat split. }
    cbn [fst snd]. split; [split; [by eauto 10|done]|]. split; [done|].
    split; [|done]. intros _.
    destruct status as [st|err]; cbn.
    2:{ split; [done|]. split; [by rewrite <- app_assoc|]. exists []. split; [done|]. split; [apply Forall_nil_2|cbn; lia]. }
    destruct (is_nullish st); cbn.
    { split; [done|]. split; [by rewrite <- app_assoc|]. exists []. split; [done|]. split; [apply Forall_nil_2|cbn; lia]. }
    destruct (get st "current_pos"); cbn;
      (split; [done|]); (split; [by rewrite <- app_assoc|]);
      try (exists []; split; [done|]; split; [apply Forall_nil_2|cbn; lia]).
    eexists [_]. rewrite <- app_assoc. split; [done|]. split; [|cbn; lia].
    constructor; [|done]. cbn. auto.
  - unfold SwitchDevice.initializeCapabilities, setCapabilityValue.
    cbn [device with_channel].
    destruct (sink (device s) _ "onoff" (VBool false)) as [err|] eqn:Hs.
    { cbn [fst snd]. split; [split; [done|by intros (_ & _ & _ & [=])]|].
      split; [done|]. split; [done|]. intros _. by repeat split. }
    cbn [fst snd]. split; [split; [by eauto 10|done]|]. split; [done|].
    split; [|done]. intros _.
    destruct status as [st|err]; cbn.
    2:{ split; [done|]. split; [done|]. exists []. split; [done|]. split; [apply Forall_nil_2|cbn; lia]. }
    destruct (is_nullish st); cbn.
    { split; [done|]. split; [done|]. exists []. split; [done|]. split; [apply Forall_nil_2|cbn; lia]. }
    destruct (get st "output"); cbn;
      (split; [done|]); (split; [done|]);
      try (exists []; split; [done|]; split; [apply Forall_nil_2|cbn; lia]).
    eexists [_]. rewrite <- app_assoc. split; [done|]. split; [|cbn; lia].
    by constructor.
Qed.

(** *** Commands *)

(** Between [s] and [s'] the channel has sent exactly one request, for
    [method] with [params], under the next correlation id. *)
Definition sent_command (s s' : Session) (method : string) (params : JsValue) : Prop :=
  exists rt rt' w,
    api s = Some rt /\ api s' = Some rt'
    /\ ShellyApi.ws (ShellyApi.api rt) = Some w
    /\ ShellyApi.wire rt'
       = ShellyApi.wire rt
         ++ [ShellyApi.WSend w
               (ShellyApi.mkRequest "2.0" (ShellyApi.messageId (ShellyApi.api rt))
                  (src_of (ShellyApi.api rt)) method params) None]
    /\ ShellyApi.messageId (ShellyApi.api rt')
       = (ShellyApi.messageId (ShellyApi.api rt) + 1)%Z.

Lemma request_sends method params s rt w :
  api s = Some rt ->
  ShellyApi.isConnected (ShellyApi.api rt) = true ->
  ShellyApi.ws (ShellyApi.api rt) = Some w ->
  ShellyApi.transport rt (ShellyApi.sends rt) = None ->
  sent_command s (with_channel (Some (ShellyApi.request method params 1 rt).2) s)
    method params
  /\ (ShellyApi.request method params 1 rt).1 = ShellyApi.next_promise rt.
Proof.
  intros Hapi Hc Hws Htr. rewrite (request_connected _ _ _ _ Hc). cbn [fst snd].
  split; [|done]. exists rt, (ShellyApi.request_send method params 1
                       (ShellyApi.next_promise rt) (ShellyApi.new_promise ShellyApi.Pending rt).2), w.
  split; [done|]. split; [done|]. split; [done|].
  rewrite (request_send_ok _ _ _ _ w) by done. done.
Qed.

(** X18: what the capability listeners send.  On a connected channel
    whose send succeeds, the switch listener sends one [Switch.Set]
    with the value and the session's channel number as [id] (0 before
    the number is assigned); the cover listener sends one [Cover.Open],
    [Cover.Close] or [Cover.Stop] for "up", "down" and "idle", always
    with [id] 0 whatever channel the session's identifier names, and
    sends nothing for any other value.  Each returns the promise of
    its call. *)
Theorem X18_listener_commands (s : Session) (rt : ShellyApi.Runtime) (w : nat)
    (value : JsValue) :
  api s = Some rt ->
  ShellyApi.isConnected (ShellyApi.api rt) = true ->
  ShellyApi.ws (ShellyApi.api rt) = Some w ->
  ShellyApi.transport rt (ShellyApi.sends rt) = None ->
  let channel := match channelNumber s with
                 | Some (Int z) => num z
                 | Some NaN => VNull
                 | None => num 0
                 end in
  let q := ShellyApi.next_promise rt in
  (sent_command s (SwitchDevice.onoff_listener value s).1 "Switch.Set"
     (VObj [("id", channel); ("on", value)])
   /\ (SwitchDevice.onoff_listener value s).2 = Returns q)
  /\ Forall (fun vm =>
        sent_command s (CoverDevice.state_listener (VStr vm.1) s).1 vm.2
          (VObj [("id", num 0)])
        /\ (CoverDevice.state_listener (VStr vm.1) s).2 = Returns (Some q))
       [("up", "Cover.Open"); ("down", "Cover.Close"); ("idle", "Cover.Stop")]
  /\ (value ∉ [VStr "up"; VStr "down"; VStr "idle"] ->
      CoverDevice.state_listener value s = (s, Returns None)).
Proof.
  intros Hapi Hc Hws Htr channel q. split; [|split].
  - unfold SwitchDevice.onoff_listener, ShellyApi.switchSet. rewrite Hapi.
    assert (Hch : ShellyApi.or_zero (SwitchDevice.channel_argument s) = channel).
    { unfold SwitchDevice.channel_argument. subst channel.
      destruct (channelNumber s) as [[|z]|]; done. }
    rewrite Hch.
    destruct (request_sends "Switch.Set" (VObj [("id", channel); ("on", value)])
                s rt w Hapi Hc Hws Htr) as [Hs Hq].
    destruct (ShellyApi.request _ _ _ _) as [q' rt']. cbn [fst snd] in *.
    by rewrite Hq.
  - assert (Hcmd : forall m,
      let r := ShellyApi.request m (VObj [("id", num 0)]) 1 rt in
      sent_command s (with_channel (Some r.2) s) m (VObj [("id", num 0)])
      /\ Returns (Some r.1) = Returns (Some q)).
    { intros m. destruct (request_sends m (VObj [("id", num 0)]) s rt w Hapi Hc Hws Htr)
        as [Hs Hq]. cbn zeta. by rewrite Hq. }
    repeat (apply Forall_cons; split); [| | |constructor];
      unfold CoverDevice.state_listener; cbn [fst snd is_string];
      repeat first [rewrite bool_decide_eq_true_2 by done
                   |rewrite bool_decide_eq_false_2 by done];
      rewrite Hapi.
    + unfold ShellyApi.coverOpen. cbn [ShellyApi.or_zero].
      specialize (Hcmd "Cover.Open"). cbn zeta in Hcmd.
      destruct (ShellyApi.request _ _ _ _). exact Hcmd.
    + unfold ShellyApi.coverClose. cbn [ShellyApi.or_zero].
      specialize (Hcmd "Cover.Close"). cbn zeta in Hcmd.
      destruct (ShellyApi.request _ _ _ _). exact Hcmd.
    + unfold ShellyApi.coverStop. cbn [ShellyApi.or_zero].
      specialize (Hcmd "Cover.Stop"). cbn zeta in Hcmd.
      destruct (ShellyApi.request _ _ _ _). exact Hcmd.
  - intros Hv. unfold CoverDevice.state_listener.
    assert (Hno : forall str, str ∈ ["up"; "down"; "idle"] -> is_string value str = false).
    { intros str Hin. destruct value; try done. cbn. apply bool_decide_eq_false_2.
      intros ->. apply Hv. set_solver. }
    rewrite !Hno by set_solver. done.
Qed.

(** A switch session for channel 2 on a connected channel. *)
Definition switch_2 : Session :=
  {| device := mkDevice "shellypro3_switch:2" ∅ [] accepting [];
     api := Some (ShellyApi.with_api (ShellyApi.set_isConnected true)
                    (ShellyApi.connect
                       (ShellyApi.boot (ShellyApi.constructor "10.0.0.7"
                                          (Some "shellypro3_switch:2")) (fun _ => None))).2);
     channelNumber := Some (Int 2) |}.

Lemma X18_listener_commands_witness :
  sent_command switch_2 (SwitchDevice.onoff_listener (VBool true) switch_2).1
    "Switch.Set" (VObj [("id", num 2); ("on", VBool true)]).
Proof.
  refine (proj1 (proj1 (X18_listener_commands switch_2 _ 0%nat (VBool true)
                          eq_refl eq_refl eq_refl eq_refl))).
Defined.

End SessionFacts.

(** ** Names and identifiers of the entries *)

Section EntryNames.
Import Js DeviceDiscovery.

Implicit Types (n : JsInt) (e : DeviceEntry).







End EntryNames.

(** ** Requests on a channel that cannot connect *)

Section Retry.
Import Js ShellyApi.

Implicit Types (rt : Runtime) (o : Outcome) (k : Cont) (e : Event).

Lemma waiting_fresh x rt : WF rt -> (next_promise rt <= x)%nat -> waiting x rt = [].
Proof.
  intros Hwf Hx. unfold waiting. apply filter_none. apply Forall_forall.
  intros [p k] Hin. destruct (wf_reactions _ Hwf p k Hin) as (Hp & _).
  unfold reacts_to. cbn. rewrite bool_decide_eq_false_2; [done|lia].
Qed.

Lemma unwoken_fresh x rt :
  WF rt -> (next_promise rt <= x)%nat ->
  filter (fun r => reacts_to x r = false) (reactions rt) = reactions rt.
Proof.
  intros Hwf Hx.
  assert (H : Forall (fun r => reacts_to x r = false) (reactions rt)).
  { apply Forall_forall. intros [p k] Hin. destruct (wf_reactions _ Hwf p k Hin) as (Hp & _).
    unfold reacts_to. cbn. apply bool_decide_eq_false_2. lia. }
  induction H as [|r l Hr _ IH]; [done|]. by rewrite filter_cons_True, IH.
Qed.

(** The fields of the channel other than its socket and its state of
    connection. *)
Definition beside_socket (a : Api) :=
  (ip a, deviceId a, messageId a, pendingRequests a, notificationHandler a).

(** A connection attempt made for a request: the request [method],
    [params] with budget [retries], whose promise is [q], waits for the
    promise [P] of the attempt, which the listeners of the newest
    socket [w] settle. *)
Record attempt (method : string) (params : JsValue) (retries : Z) (q P w : nat)
    (rt : Runtime) : Prop := mkAttempt {
  at_wf : WF rt;
  at_ws : ws (api rt) = Some w;
  at_off : isConnected (api rt) = false;
  at_socket : sockets rt !! w = Some P;
  at_next : next_socket rt = S w;
  at_P : promises rt !! P = Some Pending;
  at_q : promises rt !! q = Some Pending;
  at_ne : P <> q;
  at_wait : waiting P rt = [(P, KRequestConnected method params retries q)];
  at_quiet : microtasks rt = []
}.

(** A [request] on a channel that has no socket starts an attempt. *)
Lemma request_attempt method params retries rt :
  WF rt -> ws (api rt) = None -> isConnected (api rt) = false -> microtasks rt = [] ->
  let q := next_promise rt in
  let w := next_socket rt in
  let rt1 := (request method params retries rt).2 in
  attempt method params retries q (S q) w rt1
  /\ (request method params retries rt).1 = q
  /\ next_promise rt1 = S (S q)
  /\ promises rt1 = <[S q := Pending]> (<[q := Pending]> (promises rt))
  /\ reactions rt1 = reactions rt ++ [(S q, KRequestConnected method params retries q)]
  /\ wire rt1 = wire rt ++ [WNew w (wsUrl (api rt))]
  /\ timers rt1 = timers rt /\ next_timer rt1 = next_timer rt /\ now rt1 = now rt
  /\ transport rt1 = transport rt
  /\ api rt1 = set_ws (Some w) (api rt).
Proof.
  intros Hwf Hws Hoff Hmi q w rt1.
  destruct (WF_request method params retries rt Hwf) as (Hwf1 & _). fold rt1 in Hwf1.
  revert Hwf1. subst rt1 q w.
  rewrite request_unconnected by done. cbn [fst snd].
  rewrite connect_new by done. cbn [fst snd].
  rewrite await_pending by (cbn; apply lookup_insert_eq).
  cbn [api ws isConnected pendingRequests messageId wire timers promises reactions
       microtasks sockets next_promise next_socket next_timer now transport
       new_promise fst snd ip
       with_api with_wire with_sockets with_next_socket with_reactions
       with_next_promise with_promises set_ws set_isConnected].
  intros Hwf1. split; [|done].
  constructor; cbn [api ws isConnected pendingRequests messageId wire timers promises
       reactions microtasks sockets next_promise next_socket next_timer now transport
       with_api with_wire with_sockets with_next_socket with_reactions
       with_next_promise with_promises set_ws set_isConnected]; try done.
  all: try apply lookup_insert_eq.
  - rewrite lookup_insert_ne by lia. apply lookup_insert_eq.
  - unfold waiting. cbn [reactions with_reactions with_api with_next_socket with_sockets
                         with_wire with_next_promise with_promises].
    rewrite filter_app. fold (waiting (S (next_promise rt)) rt).
    rewrite waiting_fresh by (done || lia). cbn [app].
    rewrite filter_cons_True; [done|]. unfold reacts_to. cbn. by apply bool_decide_eq_true_2.
Qed.

(** The 'error' event of the attempt's socket, then the microtask it
    queues: the [catch] of [request] runs on a channel without socket. *)
Lemma attempt_error method params retries q P w err rt :
  attempt method params retries q P w rt ->
  step Microtask (step (WsError w err) rt)
  = request_catch method params retries q (enhance err)
      (with_microtasks []
         (with_reactions (filter (fun r => reacts_to P r = false) (reactions rt))
            (with_promises (<[P := Settled (Rejected (enhance err))]> (promises rt))
               (with_api (fun a => set_isConnected false (set_ws None a))
                  (with_wire (wire rt ++ [WTerminate w]) rt))))).
Proof.
  intros [Hwf Hws Hoff Hso Hnx HP Hq Hne Hwait Hmi].
  assert (E1 : step (WsError w err) rt
               = with_microtasks [(KRequestConnected method params retries q,
                                   Rejected (enhance err))]
                   (with_reactions (filter (fun r => reacts_to P r = false) (reactions rt))
                      (with_promises (<[P := Settled (Rejected (enhance err))]> (promises rt))
                         (with_api (fun a => set_isConnected false (set_ws None a))
                            (with_wire (wire rt ++ [WTerminate w]) rt))))).
  { cbn [step]. rewrite Hso. unfold handleError, cleanupWebSocket. rewrite Hws.
    unfold settle. cbn [promises reactions microtasks with_api with_wire].
    unfold waiting in Hwait. by rewrite HP, Hwait, Hmi. }
  rewrite E1. reflexivity.
Qed.

Lemma unwoken_all x (l : list (nat * Cont)) :
  Forall (fun r => r.1 <> x) l -> filter (fun r => reacts_to x r = false) l = l.
Proof.
  induction 1 as [|r l Hr _ IH]; [done|]. rewrite filter_cons_True, IH; [done|].
  unfold reacts_to. by apply bool_decide_eq_false_2.
Qed.

Lemma woken_none x (l : list (nat * Cont)) :
  Forall (fun r => r.1 <> x) l -> filter (fun r => reacts_to x r = true) l = [].
Proof.
  induction 1 as [|r l Hr _ IH]; [done|]. rewrite filter_cons_False, IH; [done|].
  unfold reacts_to. rewrite bool_decide_eq_false_2; done.
Qed.

Lemma others_old P x rt :
  WF rt -> (next_promise rt <= x)%nat ->
  Forall (fun r => r.1 <> x) (filter (fun r => reacts_to P r = false) (reactions rt)).
Proof.
  intros Hwf Hx. apply Forall_forall. intros [p k] [_ Hin]%list_elem_of_filter.
  destruct (wf_reactions _ Hwf p k Hin) as (Hp & _). cbn. lia.
Qed.

(** The attempt fails for good: the budget is used up or the error is
    not retryable. *)
Lemma attempt_gives_up method params retries q P w err rt :
  attempt method params retries q P w rt ->
  (0 <? retries) && retryable (err_code (enhance err)) = false ->
  step Microtask (step (WsError w err) rt)
  = {| api := set_isConnected false (set_ws None (api rt));
       promises := <[q := Settled (Rejected (enhance err))]>
                     (<[P := Settled (Rejected (enhance err))]> (promises rt));
       next_promise := next_promise rt;
       reactions := filter (fun r => reacts_to q r = false)
                      (filter (fun r => reacts_to P r = false) (reactions rt));
       microtasks := map (fun r => (r.2, Rejected (enhance err))) (waiting q rt);
       timers := timers rt; next_timer := next_timer rt; now := now rt;
       sockets := sockets rt; next_socket := next_socket rt;
       wire := wire rt ++ [WTerminate w]; delivered := delivered rt;
       transport := transport rt |}.
Proof.
  intros H Hno. rewrite (attempt_error _ _ _ _ _ _ _ _ H).
  destruct H as [Hwf Hws Hoff Hso Hnx HP Hq Hne Hwait Hmi].
  unfold request_catch. rewrite Hno. unfold settle.
  cbn [promises reactions microtasks with_microtasks with_reactions with_promises
       with_api with_wire].
  rewrite lookup_insert_ne by done. rewrite Hq.
  rewrite waiting_others by done. reflexivity.
Qed.

(** The state after an attempt has failed with budget left and a
    retryable error: the promise [d] of the back-off is pending, its
    timer armed. *)
Definition backing_off (method : string) (params : JsValue) (retries : Z) (q P w : nat)
    (err : JsError) (rt : Runtime) : Runtime :=
  {| api := set_isConnected false (set_ws None (api rt));
     promises := <[next_promise rt := Pending]>
                   (<[P := Settled (Rejected (enhance err))]> (promises rt));
     next_promise := S (next_promise rt);
     reactions := filter (fun r => reacts_to P r = false) (reactions rt)
                  ++ [(next_promise rt, KRequestRetry method params retries q)];
     microtasks := [];
     timers := <[next_timer rt := mkTimer (now rt + CONFIG.RETRY_DELAY) CONFIG.RETRY_DELAY
                                    (TResolve (next_promise rt))]> (timers rt);
     next_timer := S (next_timer rt); now := now rt;
     sockets := sockets rt; next_socket := next_socket rt;
     wire := wire rt ++ [WTerminate w]; delivered := delivered rt;
     transport := transport rt |}.

(** The state in which the request is made again, [ms] later. *)
Definition retrying (P w : nat) (err : JsError) (ms : Z) (rt : Runtime) : Runtime :=
  {| api := set_isConnected false (set_ws None (api rt));
     promises := <[next_promise rt := Settled (Fulfilled VUndefined)]>
                   (<[next_promise rt := Pending]>
                      (<[P := Settled (Rejected (enhance err))]> (promises rt)));
     next_promise := S (next_promise rt);
     reactions := filter (fun r => reacts_to P r = false) (reactions rt);
     microtasks := [];
     timers := delete (next_timer rt)
                 (<[next_timer rt := mkTimer (now rt + CONFIG.RETRY_DELAY) CONFIG.RETRY_DELAY
                                       (TResolve (next_promise rt))]> (timers rt));
     next_timer := S (next_timer rt); now := now rt + ms;
     sockets := sockets rt; next_socket := next_socket rt;
     wire := wire rt ++ [WTerminate w]; delivered := delivered rt;
     transport := transport rt |}.

Lemma attempt_backs_off method params retries q P w err rt :
  attempt method params retries q P w rt ->
  (0 <? retries) && retryable (err_code (enhance err)) = true ->
  step Microtask (step (WsError w err) rt)
  = backing_off method params retries q P w err rt.
Proof.
  intros H Hyes. rewrite (attempt_error _ _ _ _ _ _ _ _ H).
  unfold request_catch. rewrite Hyes.
  cbn [new_promise setTimeout fst snd next_promise next_timer now promises timers
       with_microtasks with_reactions with_promises with_api with_wire
       with_next_promise with_timers with_next_timer].
  rewrite await_pending by (cbn; apply lookup_insert_eq). reflexivity.
Qed.

Lemma backoff_fires method params retries q P w err ms rt :
  WF rt -> CONFIG.RETRY_DELAY <= ms ->
  step (TimerFires (next_timer rt))
    (step (Elapse ms) (backing_off method params retries q P w err rt))
  = with_microtasks [(KRequestRetry method params retries q, Fulfilled VUndefined)]
      (retrying P w err ms rt).
Proof.
  intros Hwf Hms. unfold backing_off. cbn [step now].
  assert ((0 <=? ms) = true) as -> by (apply Z.leb_le; unfold CONFIG.RETRY_DELAY in Hms; lia).
  cbn [timers with_now now]. rewrite lookup_insert_eq.
  cbn [due]. rewrite (proj2 (Z.leb_le _ _)) by lia.
  cbn [action run_timer]. unfold settle.
  cbn [promises reactions microtasks with_timers with_now]. rewrite lookup_insert_eq.
  rewrite !filter_app.
  rewrite (woken_none (next_promise rt)) by (by apply others_old).
  rewrite (unwoken_all (next_promise rt)) by (by apply others_old).
  rewrite filter_cons_True by (unfold reacts_to; by apply bool_decide_eq_true_2).
  rewrite filter_cons_False
    by (unfold reacts_to; cbn; by rewrite bool_decide_eq_true_2).
  cbn [filter list_filter app map snd]. rewrite app_nil_r. reflexivity.
Qed.

Lemma backoff_over method params retries q P w err ms rt :
  WF rt -> CONFIG.RETRY_DELAY <= ms ->
  step Microtask
    (step (TimerFires (next_timer rt))
       (step (Elapse ms) (backing_off method params retries q P w err rt)))
  = await (request method params (retries - 1) (retrying P w err ms rt)).1 (KAdopt q)
      (request method params (retries - 1) (retrying P w err ms rt)).2.
Proof.
  intros Hwf Hms. rewrite backoff_fires by done.
  cbn [step microtasks with_microtasks run_cont].
  change (with_microtasks [] _) with (retrying P w err ms rt).
  by destruct (request method params (retries - 1) (retrying P w err ms rt)).
Qed.

Lemma WF_retrying method params retries q P w err ms rt :
  attempt method params retries q P w rt ->
  (0 <? retries) && retryable (err_code (enhance err)) = true ->
  CONFIG.RETRY_DELAY <= ms ->
  WF (retrying P w err ms rt).
Proof.
  intros H Hyes Hms. pose proof (at_wf _ _ _ _ _ _ _ H) as Hwf.
  assert (Hwf4 : WF (step (TimerFires (next_timer rt))
                       (step (Elapse ms) (step Microtask (step (WsError w err) rt)))))
    by (by do 4 apply WF_step).
  rewrite (attempt_backs_off _ _ _ _ _ _ _ _ H Hyes) in Hwf4.
  rewrite backoff_fires in Hwf4 by done.
  apply (WF_same _ _ Hwf4); try done. cbn. set_solver.
Qed.

(** The attempt fails with budget left and a retryable error: a timer
    is armed for the back-off, and when it has fired the request is
    made again, with one less in its budget, by a new attempt whose
    promise the old request adopts. *)
Lemma attempt_retry method params retries q P w err ms rt :
  attempt method params retries q P w rt ->
  (0 <? retries) && retryable (err_code (enhance err)) = true ->
  CONFIG.RETRY_DELAY <= ms ->
  let d := next_promise rt in
  let t := next_timer rt in
  let rt5 := run [WsError w err; Microtask; Elapse ms; TimerFires t; Microtask] rt in
  attempt method params (retries - 1) (S d) (S (S d)) (S w) rt5
  /\ waiting (S d) rt5 = [(S d, KAdopt q)]
  /\ next_promise rt5 = S (S (S d)) /\ next_timer rt5 = S t
  /\ (forall x, (x < d)%nat -> x <> P ->
        promises rt5 !! x = promises rt !! x /\ waiting x rt5 = waiting x rt)
  /\ wire rt5 = wire rt ++ [WTerminate w; WNew (S w) (wsUrl (api rt))]
  /\ timers rt5 = delete t (timers rt)
  /\ now rt5 = now rt + ms
  /\ transport rt5 = transport rt
  /\ beside_socket (api rt5) = beside_socket (api rt).
Proof.
  intros H Hyes Hms d t rt5.
  pose proof (at_wf _ _ _ _ _ _ _ H) as Hwf.
  pose proof (WF_retrying _ _ _ _ _ _ _ _ _ H Hyes Hms) as Hwf40.
  assert (Hwf5 : WF rt5) by (by apply WF_run).
  assert (E5 : rt5 = await (request method params (retries - 1) (retrying P w err ms rt)).1
                       (KAdopt q)
                       (request method params (retries - 1) (retrying P w err ms rt)).2).
  { subst rt5. unfold run. cbn [foldl].
    rewrite (attempt_backs_off _ _ _ _ _ _ _ _ H Hyes). by apply backoff_over. }
  clearbody rt5. subst rt5.
  destruct (request_attempt method params (retries - 1) (retrying P w err ms rt)
              Hwf40 eq_refl eq_refl eq_refl)
    as (Hat & Hq' & Hnp & Hpr & Hre & Hwi & Hti & Hnt & Hnow & Htr & Hip).
  cbn [retrying next_promise next_socket promises reactions wire timers next_timer now
       transport] in Hat, Hq', Hnp, Hpr, Hre, Hwi, Hti, Hnt, Hnow, Htr.
  change (wsUrl (api (retrying P w err ms rt))) with (wsUrl (api rt)) in Hwi.
  cbn [api retrying] in Hip.
  rewrite Hq' in Hwf5. rewrite Hq'.
  revert Hwf5 Hat Hnp Hpr Hre Hwi Hti Hnt Hnow Htr Hip.
  generalize (request method params (retries - 1) (retrying P w err ms rt)).2. intros rt5p.
  intros Hwf5 Hat Hnp Hpr Hre Hwi Hti Hnt Hnow Htr Hip.
  rewrite await_pending in Hwf5 by (apply (at_q _ _ _ _ _ _ _ Hat)).
  rewrite await_pending by (apply (at_q _ _ _ _ _ _ _ Hat)).
  destruct H as [_ Hws Hoff Hso Hnx HP Hq Hne Hwait Hmi].
  assert (HPd : (P < d)%nat /\ (q < d)%nat).
  { assert (Hin : (P, KRequestConnected method params retries q) ∈ reactions rt).
    { assert (Hin : (P, KRequestConnected method params retries q) ∈ waiting P rt)
        by (rewrite Hwait; left).
      by apply list_elem_of_filter in Hin as [_ Hin]. }
    destruct (wf_reactions _ Hwf _ _ Hin) as (? & ? & _). cbn in *. subst d. lia. }
  destruct HPd as [HPd Hqd].
  destruct Hat as [_ Hws' Hoff' Hso' Hnx' HP' Hq'' Hne' Hwait' Hmi'].
  rewrite Hnx in *.
  split.
  { constructor; cbn [api promises reactions microtasks sockets next_socket with_reactions];
      try done.
    unfold waiting. cbn [reactions with_reactions]. rewrite waiting_snoc by lia.
    exact Hwait'. }
  split.
  { unfold waiting. cbn [reactions with_reactions]. rewrite filter_app.
    rewrite Hre, waiting_snoc by lia.
    rewrite (woken_none (S d)) by (apply others_old; [done|subst d; lia]).
    rewrite filter_cons_True by (unfold reacts_to; by apply bool_decide_eq_true_2).
    done. }
  cbn [next_promise next_timer promises wire timers now transport api with_reactions].
  split; [done|]. split; [by rewrite Hnt|]. split.
  { intros x Hx HxP. split.
    - rewrite Hpr. subst d. rewrite !lookup_insert_ne by lia. done.
    - unfold waiting. cbn [reactions with_reactions]. rewrite Hre.
      rewrite !waiting_snoc by (subst d; lia). by apply waiting_others. }
  split.
  { rewrite Hwi. rewrite <- app_assoc. reflexivity. }
  split.
  { rewrite Hti. apply delete_insert_eq. }
  split; [by rewrite Hnow|]. split; [by rewrite Htr|]. by rewrite Hip.
Qed.

(** *** Every attempt fails *)

(** The events of a request whose connection attempts fail one after
    the other with [errs]: each failure but the last is followed by the
    back-off delay, the timer, and the microtask that makes the request
    again.  [w] is the socket of the first attempt, [t] the first free
    timer. *)
Fixpoint failures (w t : nat) (errs : list JsError) : list Event :=
  match errs with
  | [] => []
  | err :: rest =>
      match rest with
      | [] => [WsError w err; Microtask]
      | _ :: _ =>
          [WsError w err; Microtask; Elapse CONFIG.RETRY_DELAY; TimerFires t; Microtask]
          ++ failures (S w) (S t) rest
      end
  end.

(** What reaches the transport meanwhile. *)
Fixpoint reopened (w : nat) (url : string) (errs : list JsError) : list WireEvent :=
  match errs with
  | [] => []
  | err :: rest =>
      match rest with
      | [] => [WTerminate w]
      | _ :: _ => WTerminate w :: WNew (S w) url :: reopened (S w) url rest
      end
  end.

(** With budget [retries], every failure but the last is retried, and
    the last is not. *)
Fixpoint retried (retries : Z) (errs : list JsError) : Prop :=
  match errs with
  | [] => False
  | err :: rest =>
      match rest with
      | [] => (0 <? retries) && retryable (err_code (enhance err)) = false
      | _ :: _ => (0 <? retries) && retryable (err_code (enhance err)) = true
                  /\ retried (retries - 1) rest
      end
  end.

Lemma retried_budget retries errs :
  retried retries errs -> Z.of_nat (List.length errs) <= Z.max retries 0 + 1.
Proof.
  revert retries. induction errs as [|err rest IH]; intros retries; [done|].
  destruct rest as [|e2 rest]; [cbn; lia|].
  intros [[Hr _]%andb_true_iff Hrest]. apply Z.ltb_lt in Hr.
  specialize (IH _ Hrest). cbn [List.length] in *. lia.
Qed.

Lemma timers_fresh rt : WF rt -> delete (next_timer rt) (timers rt) = timers rt.
Proof.
  intros Hwf. apply delete_id.
  destruct (timers rt !! next_timer rt) as [tm|] eqn:Ht; [|done].
  destruct (wf_timers _ Hwf _ _ Ht). lia.
Qed.

Lemma attempt_old method params retries q P w rt :
  attempt method params retries q P w rt ->
  (P < next_promise rt)%nat /\ (q < next_promise rt)%nat.
Proof.
  intros [Hwf _ _ _ _ _ _ _ Hwait _].
  assert (Hin : (P, KRequestConnected method params retries q) ∈ reactions rt).
  { assert (Hin : (P, KRequestConnected method params retries q) ∈ waiting P rt)
      by (rewrite Hwait; left).
    by apply list_elem_of_filter in Hin as [_ Hin]. }
  destruct (wf_reactions _ Hwf _ _ Hin) as (? & ? & _). done.
Qed.

(** When its attempts fail that way, the request is rejected with the
    error of the last one, after as many attempts as there are errors;
    nothing else on the channel is touched. *)
Lemma attempts_fail method params errs : forall retries q P w rt final,
  attempt method params retries q P w rt ->
  retried retries errs -> last errs = Some final ->
  let rt' := run (failures w (next_timer rt) errs
                  ++ replicate (List.length errs - 1) Microtask) rt in
  WF rt'
  /\ promises rt' !! q = Some (Settled (Rejected (enhance final)))
  /\ microtasks rt' = map (fun r => (r.2, Rejected (enhance final))) (waiting q rt)
  /\ (forall x, (x < next_promise rt)%nat -> x <> P -> x <> q ->
        promises rt' !! x = promises rt !! x /\ waiting x rt' = waiting x rt)
  /\ wire rt' = wire rt ++ reopened w (wsUrl (api rt)) errs
  /\ timers rt' = timers rt
  /\ ws (api rt') = None /\ isConnected (api rt') = false
  /\ beside_socket (api rt') = beside_socket (api rt)
  /\ transport rt' = transport rt.
Proof.
  induction errs as [|err rest IH]; intros retries q P w rt final H Hre Hlast; [done|].
  destruct rest as [|e2 rest].
  - injection Hlast as <-. cbn [retried] in Hre.
    intros rt'. assert (Hwf' : WF rt') by (by apply WF_run, (at_wf _ _ _ _ _ _ _ H)).
    revert Hwf'. subst rt'. unfold run.
    cbn [failures List.length replicate app Nat.sub foldl].
    rewrite (attempt_gives_up _ _ _ _ _ _ _ _ H Hre). intros Hwf'.
    destruct H as [Hwf Hws Hoff Hso Hnx HP Hq Hne Hwait Hmi].
    cbn [promises microtasks wire timers api ws isConnected ip transport
         set_isConnected set_ws].
    split; [done|]. split; [apply lookup_insert_eq|]. split; [done|]. split; [|done].
    intros x Hx HxP Hxq. rewrite !lookup_insert_ne by done. split; [done|].
    unfold waiting. cbn [reactions]. by rewrite !waiting_others.
  - destruct Hre as [Hyes Hre].
    assert (Hlast' : last (e2 :: rest) = Some final) by done.
    destruct (attempt_old _ _ _ _ _ _ _ H) as [HPd Hqd].
    pose proof (at_wf _ _ _ _ _ _ _ H) as Hwf.
    destruct (attempt_retry method params retries q P w err CONFIG.RETRY_DELAY rt H Hyes
                ltac:(done))
      as (Hat & Hwq' & Hnp & Hnt & Hframe & Hwire & Htimers & _ & Htr & Hip).
    specialize (IH _ _ _ _ _ final Hat Hre Hlast').
    rewrite Hnt in IH. cbv zeta in IH.
    intros rt'. assert (Hwf' : WF rt') by (by apply WF_run).
    assert (E : rt' = step Microtask
                  (run (failures (S w) (S (next_timer rt)) (e2 :: rest)
                        ++ replicate (List.length (e2 :: rest) - 1) Microtask)
                     (run [WsError w err; Microtask; Elapse CONFIG.RETRY_DELAY;
                           TimerFires (next_timer rt); Microtask] rt))).
    { subst rt'. unfold run.
      change (failures w (next_timer rt) (err :: e2 :: rest))
        with ([WsError w err; Microtask; Elapse CONFIG.RETRY_DELAY;
               TimerFires (next_timer rt); Microtask]
              ++ failures (S w) (S (next_timer rt)) (e2 :: rest)).
      replace (List.length (err :: e2 :: rest) - 1)%nat
        with (S (List.length (e2 :: rest) - 1)) by (cbn; lia).
      cbn [replicate]. rewrite replicate_cons_app.
      rewrite (app_assoc _ _ [Microtask]). rewrite foldl_app.
      rewrite <- app_assoc. rewrite foldl_app. reflexivity. }
    clearbody rt'. subst rt'.
    revert Hwf' IH Hat Hwq' Hnp Hframe Hwire Htimers Htr Hip.
    generalize (run [WsError w err; Microtask; Elapse CONFIG.RETRY_DELAY;
                     TimerFires (next_timer rt); Microtask] rt). intros rtE.
    intros Hwf' IH Hat Hwq' Hnp Hframe Hwire Htimers Htr Hip.
    destruct IH as (Hwf2 & Hq'r & Hmi2 & Hframe2 & Hwire2 & Htimers2 & Hws2 & Hoff2
                    & Hip2 & Htr2).
    revert Hwf' Hwf2 Hq'r Hmi2 Hframe2 Hwire2 Htimers2 Hws2 Hoff2 Hip2 Htr2.
    generalize (run (failures (S w) (S (next_timer rt)) (e2 :: rest)
                     ++ replicate (List.length (e2 :: rest) - 1) Microtask) rtE).
    intros rt2 Hwf' Hwf2 Hq'r Hmi2 Hframe2 Hwire2 Htimers2 Hws2 Hoff2 Hip2 Htr2.
    rewrite Hwq' in Hmi2. cbn [map snd] in Hmi2.
    destruct (Hframe q Hqd ltac:(by destruct H)) as [Hq1 Hw1].
    destruct (Hframe2 q) as [Hq2 Hw2]; [lia|lia|lia|].
    assert (Hqp : promises rt2 !! q = Some Pending).
    { rewrite Hq2, Hq1. by destruct H. }
    assert (E : step Microtask rt2
                = with_microtasks (map (fun r => (r.2, Rejected (enhance final))) (waiting q rt2))
                    (with_reactions (filter (fun r => reacts_to q r = false) (reactions rt2))
                       (with_promises (<[q := Settled (Rejected (enhance final))]> (promises rt2))
                          (with_microtasks [] rt2)))).
    { cbn [step]. rewrite Hmi2. cbn [run_cont]. unfold settle.
      cbn [promises with_microtasks microtasks reactions]. by rewrite Hqp. }
    rewrite E in Hwf' |- *.
    cbn [promises microtasks wire timers api with_microtasks with_reactions with_promises
         transport].
    split; [done|]. split; [apply lookup_insert_eq|].
    split; [by rewrite Hw2, Hw1|]. split.
    { intros x Hx HxP Hxq. rewrite lookup_insert_ne by done.
      destruct (Hframe x Hx HxP) as [Hx1 Hxw1].
      destruct (Hframe2 x) as [Hx2 Hxw2]; [lia|lia|lia|].
      split; [by rewrite Hx2|].
      unfold waiting. cbn [reactions with_reactions with_microtasks with_promises].
      rewrite waiting_others by done. fold (waiting x rt2). by rewrite Hxw2. }
    split.
    { rewrite Hwire2, Hwire. unfold wsUrl.
      assert (ip (api rtE) = ip (api rt)) as -> by (by injection Hip).
      rewrite <- app_assoc. reflexivity. }
    split; [by rewrite Htimers2, Htimers, timers_fresh|].
    split; [done|]. split; [done|]. split; [by rewrite Hip2|]. by rewrite Htr2.
Qed.

Lemma reopened_no_send w url errs :
  filter (fun x : WireEvent => is_send x = true) (reopened w url errs) = [].
Proof.
  revert w. induction errs as [|err rest IH]; intros w; [done|].
  destruct rest as [|e2 rest]; [done|].
  change (reopened w url (err :: e2 :: rest))
    with (WTerminate w :: WNew (S w) url :: reopened (S w) url (e2 :: rest)).
  rewrite !filter_cons_False by done. apply IH.
Qed.

(** Before the delay is over the timer of the back-off does nothing. *)
Lemma backoff_waits method params retries q P w err ms rt :
  0 <= ms < CONFIG.RETRY_DELAY ->
  step (TimerFires (next_timer rt))
    (step (Elapse ms) (backing_off method params retries q P w err rt))
  = step (Elapse ms) (backing_off method params retries q P w err rt).
Proof.
  intros Hms. unfold backing_off. cbn [step now].
  assert ((0 <=? ms) = true) as -> by (apply Z.leb_le; lia).
  cbn [timers with_now now]. rewrite lookup_insert_eq.
  cbn [due]. by rewrite (proj2 (Z.leb_gt _ _)) by lia.
Qed.

(** X20: a request on a channel that cannot connect.  On a channel
    without socket, a [request] with budget [retries] whose connection
    attempts fail one after the other, each failure but the last with
    budget left and a retryable code, opens one socket per attempt, at
    most [retries + 1] of them, each 1000 ms after the failure of the
    one before (fired earlier, the timer of the back-off does
    nothing), and drops each when it fails; then its promise is
    rejected with the error of the last attempt, as [handleError] made
    it.  Nothing is sent, no correlation id is taken, no timer is left
    armed, and no older promise is touched. *)
Theorem X20_connect_failures_retried (ip : string) (id : option string)
    (tr : nat -> option JsError) (es : list Event) (method : string) (params : JsValue)
    (retries : Z) (errs : list JsError) (final : JsError) :
  let rt := run es (boot (constructor ip id) tr) in
  ws (api rt) = None -> isConnected (api rt) = false -> microtasks rt = [] ->
  retried retries errs -> last errs = Some final ->
  let q := next_promise rt in
  let w := next_socket rt in
  let url := ("ws://" ++ ip ++ "/rpc")%string in
  let rt' := run (CallRequest method params retries
                  :: failures w (next_timer rt) errs
                  ++ replicate (List.length errs - 1) Microtask) rt in
  promises rt' !! q = Some (Settled (Rejected (enhance final)))
  /\ wire rt' = wire rt ++ WNew w url :: reopened w url errs
  /\ Z.of_nat (List.length errs) <= Z.max retries 0 + 1
  /\ sends rt' = sends rt
  /\ timers rt' = timers rt /\ microtasks rt' = []
  /\ ws (api rt') = None /\ isConnected (api rt') = false
  /\ beside_socket (api rt') = beside_socket (api rt)
  /\ (forall x, (x < q)%nat -> promises rt' !! x = promises rt !! x)
  /\ (forall err rest ms, errs = err :: rest -> rest <> [] ->
        0 <= ms < CONFIG.RETRY_DELAY ->
        let rtb := run [CallRequest method params retries; WsError w err; Microtask;
                        Elapse ms] rt in
        step (TimerFires (next_timer rt)) rtb = rtb
        /\ wire rtb = wire rt ++ [WNew w url; WTerminate w]).
Proof.
  intros rt Hws Hoff Hmi Hre Hlast q w url rt'.
  pose proof (WF_reachable ip id tr es) as Hwf. fold rt in Hwf.
  destruct (reachable_identity ip id tr es) as (Hip & _). fold rt in Hip.
  destruct (request_attempt method params retries rt Hwf Hws Hoff Hmi)
    as (Hat & _ & Hnp & Hpr & Hrea & Hwi & Hti & Hnt & _ & _ & Hapi).
  fold q w in Hat, Hnp, Hpr, Hrea, Hwi, Hapi.
  assert (Hurl : wsUrl (api rt) = url) by (unfold wsUrl; by rewrite Hip).
  rewrite Hurl in Hwi.
  assert (Hwq : waiting q (request method params retries rt).2 = []).
  { unfold waiting. rewrite Hrea, waiting_snoc by lia. by apply waiting_fresh. }
  assert (E : rt' = run (failures w (next_timer rt) errs
                         ++ replicate (List.length errs - 1) Microtask)
                      (request method params retries rt).2) by done.
  split_and!.
  - rewrite E. rewrite <- Hnt.
    by destruct (attempts_fail method params errs _ _ _ _ _ final Hat Hre Hlast) as (_ & ? & _).
  - rewrite E. rewrite <- Hnt.
    destruct (attempts_fail method params errs _ _ _ _ _ final Hat Hre Hlast)
      as (_ & _ & _ & _ & Hw' & _).
    rewrite Hw', Hwi. unfold wsUrl. rewrite Hapi. cbn [ShellyApi.ip set_ws].
    rewrite Hip. by rewrite <- app_assoc.
  - by apply retried_budget.
  - rewrite E. rewrite <- Hnt.
    destruct (attempts_fail method params errs _ _ _ _ _ final Hat Hre Hlast)
      as (_ & _ & _ & _ & Hw' & _).
    unfold sends. rewrite Hw', Hwi. rewrite !filter_app, reopened_no_send.
    rewrite filter_cons_False by done. by rewrite !app_nil_r.
  - rewrite E. rewrite <- Hnt.
    destruct (attempts_fail method params errs _ _ _ _ _ final Hat Hre Hlast)
      as (_ & _ & _ & _ & _ & Ht' & _).
    by rewrite Ht'.
  - rewrite E. rewrite <- Hnt.
    destruct (attempts_fail method params errs _ _ _ _ _ final Hat Hre Hlast)
      as (_ & _ & Hm' & _).
    by rewrite Hm', Hwq.
  - rewrite E. rewrite <- Hnt.
    by destruct (attempts_fail method params errs _ _ _ _ _ final Hat Hre Hlast)
      as (_ & _ & _ & _ & _ & _ & ? & _).
  - rewrite E. rewrite <- Hnt.
    by destruct (attempts_fail method params errs _ _ _ _ _ final Hat Hre Hlast)
      as (_ & _ & _ & _ & _ & _ & _ & ? & _).
  - rewrite E. rewrite <- Hnt.
    destruct (attempts_fail method params errs _ _ _ _ _ final Hat Hre Hlast)
      as (_ & _ & _ & _ & _ & _ & _ & _ & Hb & _).
    rewrite Hb, Hapi. reflexivity.
  - intros x Hx. rewrite E. rewrite <- Hnt.
    destruct (attempts_fail method params errs _ _ _ _ _ final Hat Hre Hlast)
      as (_ & _ & _ & Hf & _).
    destruct (Hf x) as [Hx' _]; [rewrite Hnp; lia|lia|lia|].
    rewrite Hx', Hpr. by rewrite !lookup_insert_ne by lia.
  - intros err rest ms -> Hrest Hms rtb.
    destruct rest as [|e2 rest]; [done|]. destruct Hre as [Hyes _].
    assert (Eb : rtb = step (Elapse ms)
                         (backing_off method params retries q (S q) w err
                            (request method params retries rt).2)).
    { subst rtb. unfold run. cbn [foldl]. rewrite step_call.
      by rewrite (attempt_backs_off _ _ _ _ _ _ _ _ Hat Hyes). }
    rewrite Eb. split.
    + rewrite <- Hnt. by apply backoff_waits.
    + cbn [step]. rewrite (proj2 (Z.leb_le 0 ms)) by lia.
      cbn [wire with_now backing_off]. rewrite Hwi. by rewrite <- app_assoc.
Qed.

(** The error of a refused connection. *)
Definition refused : JsError :=
  mkError "Error" "connect ECONNREFUSED 10.0.0.7:80" (Some "ECONNREFUSED") None.

Lemma X20_connect_failures_retried_witness :
  let rt := boot (constructor "10.0.0.7" (Some "shelly_switch:0")) (fun _ => None) in
  let rt' := run (CallRequest "Switch.Set" (VObj []) 1
                  :: failures 0 0 [refused; refused] ++ [Microtask]) rt in
  promises rt' !! 0%nat = Some (Settled (Rejected (enhance refused)))
  /\ wire rt' = [WNew 0 "ws://10.0.0.7/rpc"; WTerminate 0;
                 WNew 1 "ws://10.0.0.7/rpc"; WTerminate 1].
Proof.
  intros rt rt'.
  destruct (X20_connect_failures_retried "10.0.0.7" (Some "shelly_switch:0") (fun _ => None)
              [] "Switch.Set" (VObj []) 1 [refused; refused] refused
              eq_refl eq_refl eq_refl) as (H1 & H2 & _).
  - vm_compute. split; reflexivity.
  - reflexivity.
  - split; [exact H1|exact H2].
Defined.

End Retry.

(** ** A request that has to connect first *)

Section ViaConnect.
Import Js ShellyApi.

Implicit Types (rt : Runtime) (o : Outcome) (k : Cont) (e : Event) (m : Message).

(** A state that differs from [rt] in what the calls change. *)
Definition phase (a : Api) (pr : gmap nat PromiseState) (np : nat)
    (re : list (nat * Cont)) (mi : list (Cont * Outcome)) (ti : gmap nat Timer) (nt : nat)
    (wi : list WireEvent) (rt : Runtime) : Runtime :=
  {| api := a; promises := pr; next_promise := np; reactions := re; microtasks := mi;
     timers := ti; next_timer := nt; now := now rt; sockets := sockets rt;
     next_socket := next_socket rt; wire := wi; delivered := delivered rt;
     transport := transport rt |}.

(** The request timer of call [cid] with executor promise [n]. *)
Definition request_timer (cid : Z) (n : nat) (rt : Runtime) : Timer :=
  mkTimer (now rt + CONFIG.REQUEST_TIMEOUT) CONFIG.REQUEST_TIMEOUT (TRequestTimeout cid n).

(** The message of a call. *)
Definition sent (w : nat) (cid : Z) (method : string) (params : JsValue) (rt : Runtime)
    : WireEvent :=
  WSend w (mkRequest "2.0" cid (src_of (api rt)) method params) None.

(** A response settles the call whose slot it finds. *)
Lemma response_settles cid t n q w m rt :
  is_Some (sockets rt !! w) -> is_notify m = false -> as_int (msg_id m) = Some cid ->
  cid <> 0 ->
  pendingRequests (api rt) !! cid = Some (mkResolver t n) ->
  promises rt !! n = Some Pending -> waiting n rt = [(n, KAdopt q)] ->
  step (WsMessage w m) rt
  = with_microtasks (microtasks rt ++ [(KAdopt q, answer m)])
      (with_reactions (filter (fun r => reacts_to n r = false) (reactions rt))
         (with_promises (<[n := Settled (answer m)]> (promises rt))
            (retired cid t rt))).
Proof.
  intros [p Hw] Hnot Hid Hcid Hslot Hn Hwn.
  assert (Hget : pending_get (msg_id m) (api rt) = Some (cid, mkResolver t n)).
  { unfold pending_get. by rewrite Hid, Hslot. }
  cbn [step]. rewrite Hw. unfold handleMessage. rewrite Hnot.
  rewrite (truthy_as_int _ cid Hid) by done.
  rewrite (handleRpcResponse_unfold _ _ _ _ Hget). cbn [res_promise res_timeout].
  fold (answer m). unfold settle. unfold waiting in Hwn.
  cbn [promises reactions microtasks retired clearTimeout with_timers with_api].
  by rewrite Hn, Hwn.
Qed.

(** A queued adoption settles the promise it passes the outcome to. *)
Lemma adoption_settles q o rest rt :
  microtasks rt = (KAdopt q, o) :: rest -> promises rt !! q = Some Pending ->
  step Microtask rt
  = with_microtasks (rest ++ map (fun r => (r.2, o)) (waiting q rt))
      (with_reactions (filter (fun r => reacts_to q r = false) (reactions rt))
         (with_promises (<[q := Settled o]> (promises rt)) rt)).
Proof.
  intros Hmi Hq. cbn [step]. rewrite Hmi. cbn [run_cont]. unfold settle.
  cbn [promises reactions microtasks with_microtasks]. by rewrite Hq.
Qed.

(** *** The states of the exchange *)

(** For an attempt made in [rt] for a request with promise [q], whose
    socket [w] settles [P]: the fields of the channel once the status
    query has been sent, *)
Definition api_status (rt : Runtime) : Api :=
  set_pendingRequests
    (<[messageId (api rt) := mkResolver (next_timer rt) (S (next_promise rt))]>
       (pendingRequests (api rt)))
    (set_messageId (messageId (api rt) + 1) (set_isConnected true (api rt))).

(** once it has been answered, *)
Definition api_ready (rt : Runtime) : Api :=
  set_pendingRequests (delete (messageId (api rt)) (pendingRequests (api_status rt)))
    (api_status rt).

(** and once the request itself has been sent. *)
Definition api_call (rt : Runtime) : Api :=
  set_pendingRequests
    (<[messageId (api rt) + 1 := mkResolver (S (next_timer rt)) (S (S (next_promise rt)))]>
       (pendingRequests (api_ready rt)))
    (set_messageId (messageId (api rt) + 1 + 1) (api_ready rt)).

Definition timers_status (rt : Runtime) : gmap nat Timer :=
  <[next_timer rt := request_timer (messageId (api rt)) (S (next_promise rt)) rt]>
    (timers rt).

Definition timers_call (rt : Runtime) : gmap nat Timer :=
  <[S (next_timer rt)
    := request_timer (messageId (api rt) + 1) (S (S (next_promise rt))) rt]>
    (delete (next_timer rt) (timers_status rt)).

Definition promises_status (rt : Runtime) : gmap nat PromiseState :=
  <[S (next_promise rt) := Pending]> (<[next_promise rt := Pending]> (promises rt)).

Definition promises_ready (P : nat) (o : Outcome) (rt : Runtime) : gmap nat PromiseState :=
  <[P := Settled (Fulfilled VUndefined)]>
    (<[next_promise rt := Settled o]>
       (<[S (next_promise rt) := Settled o]> (promises_status rt))).

Definition wire_status (w : nat) (rt : Runtime) : list WireEvent :=
  wire rt ++ [sent w (messageId (api rt)) "Shelly.GetStatus" (VObj []) rt].

(** The status query is on its way. *)
Definition status_sent (P w : nat) (rt : Runtime) : Runtime :=
  phase (api_status rt) (promises_status rt) (S (S (next_promise rt)))
    ((reactions rt ++ [(S (next_promise rt), KAdopt (next_promise rt))])
     ++ [(next_promise rt, KOpenStatus P)])
    [] (timers_status rt) (S (next_timer rt)) (wire_status w rt) rt.

(** Its response has arrived. *)
Definition status_back (P w : nat) (o : Outcome) (rt : Runtime) : Runtime :=
  phase (api_ready rt)
    (<[S (next_promise rt) := Settled o]> (promises_status rt)) (S (S (next_promise rt)))
    (reactions rt ++ [(next_promise rt, KOpenStatus P)])
    [(KAdopt (next_promise rt), o)]
    (delete (next_timer rt) (timers_status rt)) (S (next_timer rt)) (wire_status w rt) rt.

(** The call of [getStatus] in the 'open' listener has returned. *)
Definition status_known (P w : nat) (o : Outcome) (rt : Runtime) : Runtime :=
  phase (api_ready rt)
    (<[next_promise rt := Settled o]>
       (<[S (next_promise rt) := Settled o]> (promises_status rt)))
    (S (S (next_promise rt)))
    (reactions rt) [(KOpenStatus P, o)]
    (delete (next_timer rt) (timers_status rt)) (S (next_timer rt)) (wire_status w rt) rt.

(** [connect] has resolved; the request waiting for it is next. *)
Definition connected (method : string) (params : JsValue) (retries : Z) (q P w : nat)
    (o : Outcome) (rt : Runtime) : Runtime :=
  phase (api_ready rt) (promises_ready P o rt) (S (S (next_promise rt)))
    (filter (fun r => reacts_to P r = false) (reactions rt))
    [(KRequestConnected method params retries q, Fulfilled VUndefined)]
    (delete (next_timer rt) (timers_status rt)) (S (next_timer rt)) (wire_status w rt) rt.

(** The request has been sent. *)
Definition call_sent (method : string) (params : JsValue) (q P w : nat)
    (o : Outcome) (rt : Runtime) : Runtime :=
  phase (api_call rt)
    (<[S (S (next_promise rt)) := Pending]> (promises_ready P o rt))
    (S (S (S (next_promise rt))))
    (filter (fun r => reacts_to P r = false) (reactions rt)
     ++ [(S (S (next_promise rt)), KAdopt q)])
    [] (timers_call rt) (S (S (next_timer rt)))
    (wire_status w rt ++ [sent w (messageId (api rt) + 1) method params rt]) rt.

Lemma attempt_opens method params retries q P w rt :
  attempt method params retries q P w rt -> transport rt (sends rt) = None ->
  step (WsOpen w) rt = status_sent P w rt.
Proof.
  intros [Hwf Hws Hoff Hso Hnx HP Hq Hne Hwait Hmi] Htr.
  cbn [step]. rewrite Hso. rewrite on_open_connected.
  rewrite (request_connected _ _ _ (with_api (set_isConnected true) rt) eq_refl).
  cbn [fst snd].
  rewrite (request_send_ok _ _ _ _ w) by done.
  rewrite await_pending.
  2:{ cbn. rewrite lookup_insert_ne by lia. apply lookup_insert_eq. }
  unfold status_sent, phase. rewrite <- Hmi. reflexivity.
Qed.

Lemma reactions_old x rt :
  WF rt -> (next_promise rt <= x)%nat -> Forall (fun r => r.1 <> x) (reactions rt).
Proof.
  intros Hwf Hx. apply Forall_forall. intros [p k] Hin.
  destruct (wf_reactions _ Hwf p k Hin) as (Hp & _). cbn. lia.
Qed.

Ltac reacting :=
  unfold reacts_to; cbn [fst];
  first [apply bool_decide_eq_true_2; done
        |rewrite bool_decide_eq_true_2 by done; done
        |apply bool_decide_eq_false_2; lia
        |rewrite bool_decide_eq_false_2 by lia; done].

Lemma status_answered method params retries q P w m rt :
  attempt method params retries q P w rt ->
  is_notify m = false -> as_int (msg_id m) = Some (messageId (api rt)) ->
  step (WsMessage w m) (status_sent P w rt) = status_back P w (answer m) rt.
Proof.
  intros [Hwf Hws Hoff Hso Hnx HP Hq Hne Hwait Hmi] Hnot Hid.
  pose proof (wf_id _ Hwf) as Hcid.
  assert (H1 : is_Some (sockets (status_sent P w rt) !! w)).
  { cbn [status_sent phase sockets]. by rewrite Hso. }
  assert (H2 : messageId (api rt) <> 0) by lia.
  assert (H3 : pendingRequests (api (status_sent P w rt)) !! messageId (api rt)
               = Some (mkResolver (next_timer rt) (S (next_promise rt)))).
  { cbn [status_sent phase api api_status pendingRequests set_pendingRequests].
    apply lookup_insert_eq. }
  assert (H4 : promises (status_sent P w rt) !! S (next_promise rt) = Some Pending).
  { cbn [status_sent phase promises]. apply lookup_insert_eq. }
  assert (H5 : waiting (S (next_promise rt)) (status_sent P w rt)
               = [(S (next_promise rt), KAdopt (next_promise rt))]).
  { unfold waiting. cbn [status_sent phase reactions]. rewrite !filter_app.
    rewrite (woken_none (S (next_promise rt)) (reactions rt))
      by (apply reactions_old; [done|lia]).
    rewrite filter_cons_True by reacting. by rewrite filter_cons_False by reacting. }
  rewrite (response_settles _ _ _ _ w m _ H1 Hnot Hid H2 H3 H4 H5).
  cbn [status_sent phase reactions microtasks promises]. rewrite !filter_app.
  rewrite (unwoken_all (S (next_promise rt)) (reactions rt))
    by (apply reactions_old; [done|lia]).
  rewrite filter_cons_False by reacting. rewrite filter_cons_True by reacting.
  rewrite !filter_nil, app_nil_r. reflexivity.
Qed.

Lemma status_passes P w o rt :
  WF rt ->
  step Microtask (status_back P w o rt) = status_known P w o rt.
Proof.
  intros Hwf.
  rewrite (adoption_settles (next_promise rt) o [] (status_back P w o rt)); [|done|].
  2:{ cbn [status_back phase promises]. unfold promises_status.
      rewrite !lookup_insert_ne by lia. apply lookup_insert_eq. }
  unfold waiting. cbn [status_back phase reactions promises]. rewrite !filter_app.
  rewrite (woken_none (next_promise rt) (reactions rt)) by (apply reactions_old; [done|lia]).
  rewrite (unwoken_all (next_promise rt) (reactions rt)) by (apply reactions_old; [done|lia]).
  rewrite filter_cons_True by reacting. rewrite filter_cons_False by reacting.
  rewrite !filter_nil, !app_nil_r. reflexivity.
Qed.

Lemma connect_resolves method params retries q P w o rt :
  attempt method params retries q P w rt ->
  step Microtask (status_known P w o rt) = connected method params retries q P w o rt.
Proof.
  intros H. destruct (attempt_old _ _ _ _ _ _ _ H) as [HPd Hqd].
  destruct H as [Hwf Hws Hoff Hso Hnx HP Hq Hne Hwait Hmi].
  cbn [step status_known phase microtasks run_cont]. unfold settle.
  cbn [promises reactions microtasks with_microtasks status_known phase].
  unfold promises_status.
  rewrite !lookup_insert_ne by lia. rewrite HP.
  unfold waiting in Hwait. rewrite Hwait. reflexivity.
Qed.

Lemma request_leaves method params retries q P w o rt :
  attempt method params retries q P w rt ->
  transport rt (S (sends rt)) = None ->
  step Microtask (connected method params retries q P w o rt)
  = call_sent method params q P w o rt.
Proof.
  intros [Hwf Hws Hoff Hso Hnx HP Hq Hne Hwait Hmi] Htr.
  cbn [step connected phase microtasks run_cont].
  rewrite (request_send_ok _ _ _ _ w); [reflexivity|done|].
  unfold sends. cbn [wire with_microtasks transport connected phase].
  unfold wire_status, sent.
  rewrite filter_app, length_app. rewrite filter_cons_True by done.
  cbn [filter list_filter List.length]. fold (sends rt).
  by replace (sends rt + 1)%nat with (S (sends rt)) by lia.
Qed.

Lemma slots_fresh id rt :
  WF rt -> messageId (api rt) <= id -> delete id (pendingRequests (api rt)) = pendingRequests (api rt).
Proof.
  intros Hwf Hid. apply delete_id.
  destruct (pendingRequests (api rt) !! id) as [r|] eqn:Hr; [|done].
  destruct (wf_slots _ Hwf _ _ Hr). lia.
Qed.

Lemma timers_unused t rt :
  WF rt -> (next_timer rt <= t)%nat -> delete t (timers rt) = timers rt.
Proof.
  intros Hwf Ht. apply delete_id.
  destruct (timers rt !! t) as [tm|] eqn:Htm; [|done].
  destruct (wf_timers _ Hwf _ _ Htm). lia.
Qed.

(** The response to the request settles it, one microtask later, and
    leaves the pending map and the timers as they were before the
    request was made. *)
Lemma call_answered method params retries q P w o m rt :
  attempt method params retries q P w rt ->
  is_notify m = false -> as_int (msg_id m) = Some (messageId (api rt) + 1) ->
  let rt1 := step (WsMessage w m) (call_sent method params q P w o rt) in
  let rt2 := step Microtask rt1 in
  promises rt1 !! q = Some Pending
  /\ promises rt2 !! q = Some (Settled (answer m))
  /\ wire rt2 = wire (call_sent method params q P w o rt)
  /\ timers rt2 = timers rt
  /\ pendingRequests (api rt2) = pendingRequests (api rt)
  /\ messageId (api rt2) = messageId (api rt) + 2
  /\ isConnected (api rt2) = true /\ ws (api rt2) = Some w.
Proof.
  intros H Hnot Hid rt1 rt2. destruct (attempt_old _ _ _ _ _ _ _ H) as [HPd Hqd].
  destruct H as [Hwf Hws Hoff Hso Hnx HP Hq Hne Hwait Hmi].
  pose proof (wf_id _ Hwf) as Hcid.
  assert (H1 : is_Some (sockets (call_sent method params q P w o rt) !! w)).
  { cbn [call_sent phase sockets]. by rewrite Hso. }
  assert (H2 : messageId (api rt) + 1 <> 0) by lia.
  assert (H3 : pendingRequests (api (call_sent method params q P w o rt))
                 !! (messageId (api rt) + 1)
               = Some (mkResolver (S (next_timer rt)) (S (S (next_promise rt))))).
  { cbn [call_sent phase api api_call pendingRequests set_pendingRequests].
    apply lookup_insert_eq. }
  assert (H4 : promises (call_sent method params q P w o rt) !! S (S (next_promise rt))
               = Some Pending).
  { cbn [call_sent phase promises]. apply lookup_insert_eq. }
  assert (H5 : waiting (S (S (next_promise rt))) (call_sent method params q P w o rt)
               = [(S (S (next_promise rt)), KAdopt q)]).
  { unfold waiting. cbn [call_sent phase reactions]. rewrite !filter_app.
    rewrite (woken_none (S (S (next_promise rt)))) by (apply others_old; [done|lia]).
    by rewrite filter_cons_True by reacting. }
  assert (E1 : rt1 = with_microtasks [(KAdopt q, answer m)]
                 (with_reactions (filter (fun r => reacts_to P r = false) (reactions rt))
                    (with_promises
                       (<[S (S (next_promise rt)) := Settled (answer m)]>
                          (<[S (S (next_promise rt)) := Pending]> (promises_ready P o rt)))
                       (retired (messageId (api rt) + 1) (S (next_timer rt))
                          (call_sent method params q P w o rt))))).
  { subst rt1. rewrite (response_settles _ _ _ _ w m _ H1 Hnot Hid H2 H3 H4 H5).
    cbn [call_sent phase reactions microtasks promises]. rewrite !filter_app.
    rewrite (unwoken_all (S (S (next_promise rt)))) by (apply others_old; [done|lia]).
    rewrite filter_cons_False by reacting. rewrite !filter_nil, app_nil_r. reflexivity. }
  assert (Hq1 : promises rt1 !! q = Some Pending).
  { rewrite E1. cbn [promises with_microtasks with_reactions with_promises].
    unfold promises_ready, promises_status. rewrite !lookup_insert_ne by lia. done. }
  split; [done|].
  subst rt2. rewrite (adoption_settles q (answer m) [] rt1) by (done || by rewrite E1).
  rewrite E1.
  cbn [promises wire timers api with_microtasks with_reactions with_promises retired
       clearTimeout with_timers with_api call_sent phase pendingRequests set_pendingRequests
       messageId isConnected ws].
  split; [apply lookup_insert_eq|]. split; [done|]. split.
  { unfold timers_call, timers_status. rewrite !delete_insert_eq.
    rewrite (timers_unused (next_timer rt)) by done.
    by rewrite (timers_unused (S (next_timer rt))) by (done || lia). }
  split.
  { unfold api_call, api_ready, api_status.
    cbn [pendingRequests set_pendingRequests set_messageId set_isConnected].
    rewrite !delete_insert_eq.
    rewrite (slots_fresh (messageId (api rt))) by (done || lia).
    by rewrite (slots_fresh (messageId (api rt) + 1)) by (done || lia). }
  unfold api_call, api_ready, api_status.
  cbn [messageId isConnected ws set_pendingRequests set_messageId set_isConnected].
  split; [lia|]. done.
Qed.

(** The exchange step by step: the status response passes through the
    call of the 'open' listener, resolves [connect] and lets the request
    go, one reaction after the other. *)
Lemma exchange_then_call (ip : string) (id : option string)
    (tr : nat -> option JsError) (es : list Event) (method : string) (params : JsValue)
    (retries : Z) (m1 m2 : Message) :
  let rt := run es (boot (constructor ip id) tr) in
  ws (api rt) = None -> isConnected (api rt) = false -> microtasks rt = [] ->
  transport rt (sends rt) = None -> transport rt (S (sends rt)) = None ->
  let q := next_promise rt in
  let w := next_socket rt in
  let cid := messageId (api rt) in
  is_notify m1 = false -> as_int (msg_id m1) = Some cid ->
  is_notify m2 = false -> as_int (msg_id m2) = Some (cid + 1) ->
  let opened := WNew w ("ws://" ++ ip ++ "/rpc")%string in
  let status := sent w cid "Shelly.GetStatus" (VObj []) rt in
  let call := sent w (cid + 1) method params rt in
  let rt1 := run [CallRequest method params retries; WsOpen w] rt in
  let rt2 := run [WsMessage w m1; Microtask; Microtask] rt1 in
  let rt3 := step Microtask rt2 in
  let rt4 := run [WsMessage w m2; Microtask] rt3 in
  (wire rt1 = wire rt ++ [opened; status] /\ isConnected (api rt1) = true)
  /\ (wire rt2 = wire rt1 /\ promises rt2 !! q = Some Pending)
  /\ (wire rt3 = wire rt ++ [opened; status; call] /\ promises rt3 !! q = Some Pending)
  /\ promises rt4 !! q = Some (Settled (answer m2))
  /\ wire rt4 = wire rt3
  /\ timers rt4 = timers rt
  /\ pendingRequests (api rt4) = pendingRequests (api rt)
  /\ messageId (api rt4) = cid + 2.
Proof.
  intros rt Hws Hoff Hmi Htr1 Htr2 q w cid Hn1 Hi1 Hn2 Hi2 opened status call rt1 rt2 rt3 rt4.
  pose proof (WF_reachable ip id tr es) as Hwf. fold rt in Hwf.
  destruct (reachable_identity ip id tr es) as (Hip & Hdev & _). fold rt in Hip, Hdev.
  destruct (request_attempt method params retries rt Hwf Hws Hoff Hmi)
    as (Hat & _ & Hnp & Hpr & Hrea & Hwi & Hti & Hnt & Hnow & Htra & Hapi).
  fold q w in Hat, Hnp, Hpr, Hrea, Hwi, Hapi.
  assert (Hurl : wsUrl (api rt) = ("ws://" ++ ip ++ "/rpc")%string)
    by (unfold wsUrl; by rewrite Hip).
  rewrite Hurl in Hwi. fold opened in Hwi.
  assert (Hsends : sends (request method params retries rt).2 = sends rt).
  { unfold sends. rewrite Hwi, filter_app. rewrite filter_cons_False by done.
    by rewrite filter_nil, app_nil_r. }
  assert (Hmsg : messageId (api (request method params retries rt).2) = cid)
    by (by rewrite Hapi).
  assert (Hsrc : src_of (api (request method params retries rt).2) = src_of (api rt))
    by (by rewrite Hapi).
  assert (E1 : rt1 = status_sent (S q) w (request method params retries rt).2).
  { subst rt1. unfold run. cbn [foldl]. rewrite step_call.
    apply (attempt_opens _ _ _ _ _ _ _ Hat). by rewrite Htra, Hsends. }
  assert (E2 : rt2 = connected method params retries q (S q) w (answer m1)
                       (request method params retries rt).2).
  { subst rt2. rewrite E1. unfold run. cbn [foldl].
    rewrite (status_answered _ _ _ _ _ _ _ _ Hat Hn1) by (by rewrite Hmsg).
    rewrite status_passes by apply Hat.
    by apply connect_resolves. }
  assert (E3 : rt3 = call_sent method params q (S q) w (answer m1)
                       (request method params retries rt).2).
  { subst rt3. rewrite E2. apply (request_leaves _ _ _ _ _ _ _ _ Hat).
    by rewrite Htra, Hsends. }
  destruct (call_answered method params retries q (S q) w (answer m1) m2 _ Hat Hn2)
    as (_ & Hq4 & Hw4 & Ht4 & Hp4 & Hm4 & _); [by rewrite Hmsg|].
  rewrite <- E3 in Hq4, Hw4, Ht4, Hp4, Hm4.
  assert (E4 : rt4 = step Microtask (step (WsMessage w m2) rt3)) by done.
  rewrite <- E4 in Hq4, Hw4, Ht4, Hp4, Hm4.
  clearbody rt1 rt2 rt3 rt4.
  revert Hat E1 E2 E3 Hnp Hpr Hrea Hwi Hti Hnt Hnow Htra Hapi Hsends Hmsg Hsrc
         Hq4 Hw4 Ht4 Hp4 Hm4.
  generalize (request method params retries rt).2. intros rt0.
  intros Hat E1 E2 E3 Hnp Hpr Hrea Hwi Hti Hnt Hnow Htra Hapi Hsends Hmsg Hsrc
         Hq4 Hw4 Ht4 Hp4 Hm4.
  destruct (attempt_old _ _ _ _ _ _ _ Hat) as [HPd Hqd].
  assert (Hst : sent w (messageId (api rt0)) "Shelly.GetStatus" (VObj []) rt0 = status).
  { unfold sent, status. by rewrite Hmsg, Hsrc. }
  assert (Hca : sent w (messageId (api rt0) + 1) method params rt0 = call).
  { unfold sent, call. by rewrite Hmsg, Hsrc. }
  split.
  { rewrite E1. cbn [wire api status_sent phase]. unfold wire_status, api_status.
    rewrite Hst, Hwi. by rewrite <- app_assoc. }
  split.
  { rewrite E2, E1. cbn [wire promises connected status_sent phase].
    split; [done|]. unfold promises_ready, promises_status.
    rewrite !lookup_insert_ne by lia. apply Hat. }
  split.
  { rewrite E3. cbn [wire promises call_sent phase]. unfold wire_status.
    rewrite Hst, Hca, Hwi. split; [by rewrite <- !app_assoc|].
    unfold promises_ready, promises_status.
    rewrite !lookup_insert_ne by lia. apply Hat. }
  split; [done|]. split; [by rewrite Hw4, E3|].
  split; [by rewrite Ht4|]. split; [by rewrite Hp4, Hapi|].
  by rewrite Hm4, Hmsg.
Qed.

(** X21: a request that has to connect first.  On a reachable channel
    without socket, a [request] opens a socket; when the socket reports
    'open' the status query goes out first, under the next correlation
    id, and the request is not sent with it, nor by the arrival of the
    status response itself.  Once the microtasks that follow that
    response have run, the request has gone out, under the following id
    and on the same socket, whether the status query succeeded or not,
    and is still pending.  Its own response then settles it, some
    microtasks later: fulfilled with the result or rejected with the
    RPC error; nothing more has been sent, and the pending map and the
    timers are as before the request. *)
Theorem X21_request_connects_first (ip : string) (id : option string)
    (tr : nat -> option JsError) (es : list Event) (method : string) (params : JsValue)
    (retries : Z) (m1 m2 : Message) :
  let rt := run es (boot (constructor ip id) tr) in
  ws (api rt) = None -> isConnected (api rt) = false -> microtasks rt = [] ->
  transport rt (sends rt) = None -> transport rt (S (sends rt)) = None ->
  let q := next_promise rt in
  let w := next_socket rt in
  let cid := messageId (api rt) in
  is_notify m1 = false -> as_int (msg_id m1) = Some cid ->
  is_notify m2 = false -> as_int (msg_id m2) = Some (cid + 1) ->
  let opened := WNew w ("ws://" ++ ip ++ "/rpc")%string in
  let status := sent w cid "Shelly.GetStatus" (VObj []) rt in
  let call := sent w (cid + 1) method params rt in
  let rt1 := run [CallRequest method params retries; WsOpen w] rt in
  (wire rt1 = wire rt ++ [opened; status] /\ isConnected (api rt1) = true
   /\ promises rt1 !! q = Some Pending)
  /\ wire (step (WsMessage w m1) rt1) = wire rt1
  /\ exists n1,
       let rt3 := run (WsMessage w m1 :: replicate n1 Microtask) rt1 in
       microtasks rt3 = []
       /\ wire rt3 = wire rt ++ [opened; status; call]
       /\ promises rt3 !! q = Some Pending
       /\ exists n2,
            let rt4 := run (WsMessage w m2 :: replicate n2 Microtask) rt3 in
            promises rt4 !! q = Some (Settled (answer m2))
            /\ wire rt4 = wire rt3
            /\ timers rt4 = timers rt
            /\ pendingRequests (api rt4) = pendingRequests (api rt)
            /\ messageId (api rt4) = cid + 2.
Proof.
  intros rt Hws Hoff Hmi Htr1 Htr2 q w cid Hn1 Hi1 Hn2 Hi2 opened status call rt1.
  destruct (exchange_then_call ip id tr es method params retries m1 m2
              Hws Hoff Hmi Htr1 Htr2 Hn1 Hi1 Hn2 Hi2)
    as ((Hw1 & Hc1) & (Hw2 & Hq2) & (Hw3 & Hq3) & Hq4 & Hw4 & Ht4 & Hp4 & Hm4).
  fold rt q w cid opened status call rt1 in Hw1, Hc1, Hw2, Hq2, Hw3, Hq3, Hq4, Hw4, Ht4, Hp4, Hm4.
  pose proof (WF_reachable ip id tr es) as Hwf. fold rt in Hwf.
  destruct (request_attempt method params retries rt Hwf Hws Hoff Hmi)
    as (Hat & _ & _ & _ & _ & Hwi & _ & _ & _ & Htra & Hapi).
  fold q w in Hat, Hwi, Hapi.
  assert (Hsends : sends (request method params retries rt).2 = sends rt).
  { unfold sends. rewrite Hwi, filter_app. rewrite filter_cons_False by done.
    by rewrite filter_nil, app_nil_r. }
  assert (E1 : rt1 = status_sent (S q) w (request method params retries rt).2).
  { subst rt1. unfold run. cbn [foldl]. rewrite step_call.
    apply (attempt_opens _ _ _ _ _ _ _ Hat). by rewrite Htra, Hsends. }
  assert (E3 : run (WsMessage w m1 :: replicate 3 Microtask) rt1
               = call_sent method params q (S q) w (answer m1)
                   (request method params retries rt).2).
  { rewrite E1. unfold run. cbn [replicate foldl].
    rewrite (status_answered _ _ _ _ _ _ _ _ Hat Hn1) by (by rewrite Hapi).
    rewrite status_passes by apply Hat.
    rewrite (connect_resolves _ _ _ _ _ _ _ _ Hat).
    apply (request_leaves _ _ _ _ _ _ _ _ Hat). by rewrite Htra, Hsends. }
  split.
  { split; [done|]. split; [done|]. rewrite E1.
    cbn [promises status_sent phase]. unfold promises_status.
    destruct (attempt_old _ _ _ _ _ _ _ Hat) as [HPd Hqd].
    rewrite !lookup_insert_ne by lia. apply Hat. }
  split.
  { rewrite E1. by rewrite (status_answered _ _ _ _ _ _ _ _ Hat Hn1) by (by rewrite Hapi). }
  exists 3%nat. cbn zeta. split; [by rewrite E3|]. split; [exact Hw3|]. split; [exact Hq3|].
  exists 1%nat. cbn zeta. split; [exact Hq4|]. split; [exact Hw4|]. done.
Qed.

Lemma X21_request_connects_first_witness :
  let rt := run [] (boot (constructor "10.0.0.7" (Some "shelly_switch:0")) (fun _ => None)) in
  let w := next_socket rt in
  let rt1 := run [CallRequest "Shelly.GetDeviceInfo" (VObj []) 1; WsOpen w] rt in
  (w = 0%nat /\ next_promise rt = 0%nat)
  /\ exists n1 n2,
       promises (run (WsMessage w (reply 2) :: replicate n2 Microtask)
                   (run (WsMessage w (reply 1) :: replicate n1 Microtask) rt1))
         !! next_promise rt
       = Some (Settled (answer (reply 2))).
Proof.
  intros rt w rt1. split; [done|].
  destruct (X21_request_connects_first "10.0.0.7" (Some "shelly_switch:0") (fun _ => None)
              [] "Shelly.GetDeviceInfo" (VObj []) 1 (reply 1) (reply 2))
    as (_ & _ & n1 & _ & _ & _ & n2 & H4 & _); [vm_compute; reflexivity..|].
  exists n1, n2. exact H4.
Defined.

End ViaConnect.

(** ** A request made while the socket is still connecting *)

Section WhileConnecting.
Import Js ShellyApi.

Implicit Types (rt : Runtime) (o : Outcome) (k : Cont) (e : Event) (m : Message).

(** The state in which such a request goes on after [connect] has
    returned at once. *)
Definition resumed (rt : Runtime) : Runtime :=
  with_microtasks []
    (new_promise (Settled (Fulfilled VUndefined)) (new_promise Pending rt).2).2.

Lemma request_resumes method params retries w rt :
  ws (api rt) = Some w -> isConnected (api rt) = false -> microtasks rt = [] ->
  step (CallRequest method params retries) rt
  = with_microtasks [(KRequestConnected method params retries (next_promise rt),
                      Fulfilled VUndefined)] (resumed rt).
Proof.
  intros Hws Hoff Hmi. rewrite step_call. rewrite request_unconnected by done.
  cbn [snd]. rewrite (connect_again w) by done.
  rewrite (await_settled _ _ (Fulfilled VUndefined)).
  2:{ cbn. apply lookup_insert_eq. }
  cbn [microtasks new_promise snd with_next_promise with_promises]. rewrite Hmi.
  reflexivity.
Qed.

Lemma WF_resumed rt : WF rt -> WF (resumed rt).
Proof.
  intros Hwf. unfold resumed.
  apply (WF_same (new_promise (Settled (Fulfilled VUndefined)) (new_promise Pending rt).2).2);
    try done; first [by do 2 apply WF_new_promise|cbn; set_solver].
Qed.

Lemma settle_sockets x o rt :
  sockets (settle x o rt) = sockets rt /\ next_socket (settle x o rt) = next_socket rt.
Proof. unfold settle. by destruct (promises rt !! x) as [[|]|]. Qed.

Lemma await_sockets p k rt :
  sockets (await p k rt) = sockets rt /\ next_socket (await p k rt) = next_socket rt.
Proof. unfold await. by destruct (promises rt !! p) as [[|]|]. Qed.

Lemma request_send_sockets method params retries q rt :
  sockets (request_send method params retries q rt) = sockets rt
  /\ next_socket (request_send method params retries q rt) = next_socket rt.
Proof.
  rewrite request_send_unfold. cbn zeta.
  destruct (await_sockets (next_promise rt) (KAdopt q)
              match ws_send (mkRequest "2.0" (messageId (api rt))
                               match deviceId (api rt) with
                               | Some d => if bool_decide (d = "") then "homey_default" else d
                               | None => "homey_default"
                               end method params) (armed rt) with
              | (rt2, None) => rt2
              | (rt2, Some err) =>
                  send_catch method params retries (messageId (api rt)) (next_timer rt)
                    (next_promise rt) err rt2
              end) as [-> ->].
  destruct (ws_send_cases (mkRequest "2.0" (messageId (api rt))
              match deviceId (api rt) with
              | Some d => if bool_decide (d = "") then "homey_default" else d
              | None => "homey_default"
              end method params) (armed rt)) as [(err & -> & _)|(w & _ & ->)].
  - rewrite send_catch_throws. by destruct (settle_sockets (next_promise rt)
      (Rejected (ReferenceError "id is not defined"))
      (clearTimeout (next_timer rt) (armed rt))) as [-> ->].
  - destruct (transport (armed rt) (sends (armed rt))) as [err|]; [|done].
    rewrite send_catch_throws. by destruct (settle_sockets (next_promise rt)
      (Rejected (ReferenceError "id is not defined"))
      (clearTimeout (next_timer rt)
         (with_wire (wire (armed rt) ++ [WSend w (mkRequest "2.0" (messageId (api rt))
              match deviceId (api rt) with
              | Some d => if bool_decide (d = "") then "homey_default" else d
              | None => "homey_default"
              end method params) (Some err)]) (armed rt)))) as [-> ->].
Qed.

(** A request made on a socket that is still connecting, step by
    step. *)
Lemma request_on_connecting_socket (ip : string) (id : option string)
    (tr : nat -> option JsError) (es : list Event) (w : nat) (method : string)
    (params : JsValue) (retries : Z) :
  let rt := run es (boot (constructor ip id) tr) in
  ws (api rt) = Some w -> isConnected (api rt) = false -> microtasks rt = [] ->
  let q := next_promise rt in
  let cid := messageId (api rt) in
  let rt1 := step (CallRequest method params retries) rt in
  let rt2 := step Microtask rt1 in
  let rt3 := step Microtask rt2 in
  (wire rt1 = wire rt /\ sockets rt1 = sockets rt /\ next_socket rt1 = next_socket rt
   /\ promises rt1 !! q = Some Pending)
  /\ wire rt2 = wire rt ++ [WSend w (mkRequest "2.0" cid (src_of (api rt)) method params)
                              (transport rt (sends rt))]
  /\ sockets rt2 = sockets rt
  /\ isConnected (api rt2) = false
  /\ (transport rt (sends rt) = None ->
      promises rt2 !! q = Some Pending
      /\ pendingRequests (api rt2) !! cid = Some (mkResolver (next_timer rt) (S (S q)))
      /\ timers rt2 !! next_timer rt
         = Some (mkTimer (now rt + CONFIG.REQUEST_TIMEOUT) CONFIG.REQUEST_TIMEOUT
                   (TRequestTimeout cid (S (S q)))))
  /\ (forall err, transport rt (sends rt) = Some err ->
      promises rt3 !! q = Some (Settled (Rejected (ReferenceError "id is not defined")))
      /\ timers rt3 = timers rt /\ wire rt3 = wire rt2).
Proof.
  intros rt Hws Hoff Hmi q cid rt1 rt2 rt3.
  pose proof (WF_reachable ip id tr es) as Hwf. fold rt in Hwf.
  assert (E1 : rt1 = with_microtasks [(KRequestConnected method params retries q,
                                       Fulfilled VUndefined)] (resumed rt))
    by (by apply (request_resumes _ _ _ w)).
  assert (E2 : rt2 = request_send method params retries q (resumed rt)).
  { subst rt2. rewrite E1. reflexivity. }
  assert (E3 : rt3 = step Microtask rt2) by done.
  clearbody rt1 rt2 rt3. subst rt1. subst q cid.
  split; [split_and!; try done; cbn; rewrite lookup_insert_ne by lia; apply lookup_insert_eq|].
  pose proof (WF_resumed rt Hwf) as Hwf0.
  assert (Hq0 : promises (resumed rt) !! next_promise rt = Some Pending).
  { cbn. rewrite lookup_insert_ne by lia. apply lookup_insert_eq. }
  destruct (request_send_sockets method params retries (next_promise rt) (resumed rt)) as [Hso _].
  pose proof (request_send_api method params retries (next_promise rt) (resumed rt)) as Hapi.
  rewrite <- E2 in Hso, Hapi.
  assert (Hoff2 : isConnected (api rt2) = false) by (by rewrite Hapi).
  split_and!; try done.
  - destruct (transport rt (sends rt)) as [err|] eqn:Htr.
    + rewrite E2.
      by destruct (request_send_throws method params retries (next_promise rt) w err (resumed rt)
                     Hwf0 Hws Htr Hq0 ltac:(cbn; lia)) as (-> & _).
    + rewrite E2. by rewrite (request_send_ok _ _ _ _ w).
  - intros Htr. rewrite E2. rewrite (request_send_ok _ _ _ _ w) by done.
    cbn. rewrite !lookup_insert_ne by lia. rewrite !lookup_insert_eq. done.
  - intros err Htr.
    destruct (request_send_throws method params retries (next_promise rt) w err (resumed rt)
                Hwf0 Hws Htr Hq0 ltac:(cbn; lia))
      as (Hwire & Hprom & Hmicro & Hreact & Htimers & _ & Hnp).
    rewrite <- E2 in Hwire, Hprom, Hmicro, Hreact, Htimers, Hnp. clear E2.
    cbn [resumed wire promises microtasks reactions timers next_timer next_promise now api
         new_promise snd with_microtasks with_next_promise with_promises app]
      in Hwire, Hprom, Hmicro, Hreact, Htimers, Hnp.
    assert (Hq2 : promises rt2 !! next_promise rt = Some Pending).
    { rewrite Hprom. rewrite !lookup_insert_ne by lia. apply lookup_insert_eq. }
    rewrite E3. rewrite (adoption_settles (next_promise rt) _ [] rt2 Hmicro Hq2).
    cbn [promises timers wire with_microtasks with_reactions with_promises].
    split; [apply lookup_insert_eq|]. split; [|done].
    rewrite Htimers, delete_insert_eq. by apply timers_fresh.
Qed.

(** X22: a request does not wait for a socket that is still
    connecting.  On a reachable channel that has a socket but is not
    marked connected (a connection attempt is under way), a [request]
    opens no socket and, [connect] having returned at once, hands its
    message to the socket on the very next microtask, under the next
    correlation id, before any 'open' event.  If that send returns, the
    request is in flight with its slot and its timer; if it throws, as
    a socket that is not open does, the request is still pending then
    and is rejected some microtasks later with the ReferenceError of
    the [catch] block, with no timer left and nothing more sent. *)
Theorem X22_request_while_connecting (ip : string) (id : option string)
    (tr : nat -> option JsError) (es : list Event) (w : nat) (method : string)
    (params : JsValue) (retries : Z) :
  let rt := run es (boot (constructor ip id) tr) in
  ws (api rt) = Some w -> isConnected (api rt) = false -> microtasks rt = [] ->
  let q := next_promise rt in
  let cid := messageId (api rt) in
  let rt1 := step (CallRequest method params retries) rt in
  let rt2 := step Microtask rt1 in
  (wire rt1 = wire rt /\ sockets rt1 = sockets rt /\ next_socket rt1 = next_socket rt
   /\ promises rt1 !! q = Some Pending)
  /\ wire rt2 = wire rt ++ [WSend w (mkRequest "2.0" cid (src_of (api rt)) method params)
                              (transport rt (sends rt))]
  /\ sockets rt2 = sockets rt
  /\ isConnected (api rt2) = false
  /\ promises rt2 !! q = Some Pending
  /\ (transport rt (sends rt) = None ->
      pendingRequests (api rt2) !! cid = Some (mkResolver (next_timer rt) (S (S q)))
      /\ timers rt2 !! next_timer rt
         = Some (mkTimer (now rt + CONFIG.REQUEST_TIMEOUT) CONFIG.REQUEST_TIMEOUT
                   (TRequestTimeout cid (S (S q)))))
  /\ (forall err, transport rt (sends rt) = Some err ->
      exists n,
        let rt3 := run (replicate n Microtask) rt2 in
        promises rt3 !! q = Some (Settled (Rejected (ReferenceError "id is not defined")))
        /\ timers rt3 = timers rt /\ wire rt3 = wire rt2).
Proof.
  intros rt Hws Hoff Hmi q cid rt1 rt2.
  destruct (request_on_connecting_socket ip id tr es w method params retries Hws Hoff Hmi)
    as (H1 & Hw2 & Hs2 & Hc2 & Hok & Hthrow).
  fold rt q cid rt1 rt2 in H1, Hw2, Hs2, Hc2, Hok, Hthrow.
  split; [exact H1|]. split; [exact Hw2|]. split; [exact Hs2|]. split; [exact Hc2|].
  split.
  { destruct (transport rt (sends rt)) as [err|] eqn:Htr; [|by destruct Hok].
    pose proof (WF_reachable ip id tr es) as Hwf. fold rt in Hwf.
    pose proof (WF_resumed rt Hwf) as Hwf0.
    assert (Hq0 : promises (resumed rt) !! next_promise rt = Some Pending).
    { cbn. rewrite lookup_insert_ne by lia. apply lookup_insert_eq. }
    assert (E2 : rt2 = request_send method params retries q (resumed rt)).
    { subst rt2 rt1. by rewrite (request_resumes _ _ _ w). }
    destruct (request_send_throws method params retries (next_promise rt) w err (resumed rt)
                Hwf0 Hws Htr Hq0 ltac:(cbn; lia)) as (_ & Hprom & _).
    rewrite E2. subst q. rewrite Hprom. cbn.
    rewrite !lookup_insert_ne by lia. apply lookup_insert_eq. }
  split; [intros Htr; by destruct (Hok Htr) as (_ & ? & ?)|].
  intros err Htr. exists 1%nat. exact (Hthrow err Htr).
Qed.

Lemma X22_request_while_connecting_witness :
  let rt := run [CallConnect]
              (boot (constructor "10.0.0.7" (Some "shelly_switch:0")) refuses_second) in
  let rt2 := run [CallRequest "Switch.Set" (VObj []) 1; Microtask] rt in
  wire rt2 = [WNew 0 "ws://10.0.0.7/rpc";
              WSend 0 (mkRequest "2.0" 1 "shelly_switch:0" "Switch.Set" (VObj [])) None]
  /\ isConnected (api rt2) = false.
Proof.
  intros rt rt2.
  destruct (X22_request_while_connecting "10.0.0.7" (Some "shelly_switch:0") refuses_second
              [CallConnect] 0%nat "Switch.Set" (VObj []) 1)
    as (_ & H2 & _ & H4 & _); try (vm_compute; reflexivity).
  vm_compute in H2. vm_compute in H4. vm_compute. split; [exact H2|exact H4].
Defined.

End WhileConnecting.

(** ** The two calls of a probe *)

Section ProbeExchange.
Import Js ShellyApi.

Implicit Types (rt : Runtime) (o : Outcome) (k : Cont) (e : Event) (m : Message).

(** After the response to a request that had to connect first, the
    channel is connected and idle. *)
Lemma call_answered_idle method params retries q P w o m rt :
  attempt method params retries q P w rt -> waiting q rt = [] ->
  is_notify m = false -> as_int (msg_id m) = Some (messageId (api rt) + 1) ->
  let rt2 := run [WsMessage w m; Microtask] (call_sent method params q P w o rt) in
  microtasks rt2 = []
  /\ sockets rt2 = sockets rt
  /\ transport rt2 = transport rt
  /\ next_timer rt2 = S (S (next_timer rt))
  /\ next_promise rt2 = S (S (S (next_promise rt))).
Proof.
  intros H Hwq Hnot Hid rt2. destruct (attempt_old _ _ _ _ _ _ _ H) as [HPd Hqd].
  destruct H as [Hwf Hws Hoff Hso Hnx HP Hq Hne Hwait Hmi].
  pose proof (wf_id _ Hwf) as Hcid.
  assert (H1 : is_Some (sockets (call_sent method params q P w o rt) !! w)).
  { cbn [call_sent phase sockets]. by rewrite Hso. }
  assert (H2 : messageId (api rt) + 1 <> 0) by lia.
  assert (H3 : pendingRequests (api (call_sent method params q P w o rt))
                 !! (messageId (api rt) + 1)
               = Some (mkResolver (S (next_timer rt)) (S (S (next_promise rt))))).
  { cbn [call_sent phase api api_call pendingRequests set_pendingRequests].
    apply lookup_insert_eq. }
  assert (H4 : promises (call_sent method params q P w o rt) !! S (S (next_promise rt))
               = Some Pending).
  { cbn [call_sent phase promises]. apply lookup_insert_eq. }
  assert (H5 : waiting (S (S (next_promise rt))) (call_sent method params q P w o rt)
               = [(S (S (next_promise rt)), KAdopt q)]).
  { unfold waiting. cbn [call_sent phase reactions]. rewrite !filter_app.
    rewrite (woken_none (S (S (next_promise rt)))) by (apply others_old; [done|lia]).
    rewrite filter_cons_True; [done|]. unfold reacts_to. by apply bool_decide_eq_true_2. }
  assert (E1 : step (WsMessage w m) (call_sent method params q P w o rt)
               = with_microtasks [(KAdopt q, answer m)]
                 (with_reactions (filter (fun r => reacts_to P r = false) (reactions rt))
                    (with_promises
                       (<[S (S (next_promise rt)) := Settled (answer m)]>
                          (<[S (S (next_promise rt)) := Pending]> (promises_ready P o rt)))
                       (retired (messageId (api rt) + 1) (S (next_timer rt))
                          (call_sent method params q P w o rt))))).
  { rewrite (response_settles _ _ _ _ w m _ H1 Hnot Hid H2 H3 H4 H5).
    cbn [call_sent phase reactions microtasks promises]. rewrite !filter_app.
    rewrite (unwoken_all (S (S (next_promise rt)))) by (apply others_old; [done|lia]).
    rewrite filter_cons_False.
    2:{ unfold reacts_to. cbn. by rewrite bool_decide_eq_true_2. }
    rewrite !filter_nil, app_nil_r. reflexivity. }
  subst rt2. unfold run. cbn [foldl]. rewrite E1.
  rewrite (adoption_settles q (answer m) []); [|done|].
  2:{ cbn [promises with_microtasks with_reactions with_promises].
      unfold promises_ready, promises_status. rewrite !lookup_insert_ne by lia. done. }
  unfold waiting.
  cbn [microtasks sockets transport next_timer next_promise reactions
       with_microtasks with_reactions with_promises retired clearTimeout with_timers
       with_api call_sent phase app].
  rewrite waiting_others by done. unfold waiting in Hwq. rewrite Hwq. done.
Qed.

(** A request on a connected, idle channel, and its response. *)
Lemma connected_call_answered method params retries w m rt :
  WF rt -> isConnected (api rt) = true -> ws (api rt) = Some w ->
  transport rt (sends rt) = None -> microtasks rt = [] -> is_Some (sockets rt !! w) ->
  is_notify m = false -> as_int (msg_id m) = Some (messageId (api rt)) ->
  let q := next_promise rt in
  let rt2 := run [WsMessage w m; Microtask] (request method params retries rt).2 in
  (request method params retries rt).1 = q
  /\ promises rt2 !! q = Some (Settled (answer m))
  /\ wire rt2 = wire rt ++ [sent w (messageId (api rt)) method params rt]
  /\ timers rt2 = timers rt
  /\ pendingRequests (api rt2) = pendingRequests (api rt)
  /\ ws (api rt2) = Some w /\ isConnected (api rt2) = true
  /\ microtasks rt2 = [].
Proof.
  intros Hwf Hc Hws Htr Hmi Hsock Hnot Hid q rt2.
  pose proof (wf_id _ Hwf) as Hcid.
  assert (E0 : (request method params retries rt).2
               = with_reactions (reactions rt ++ [(S (next_promise rt), KAdopt (next_promise rt))])
                   (with_wire (wire rt ++ [sent w (messageId (api rt)) method params rt])
                      (armed (new_promise Pending rt).2))).
  { rewrite (request_connected _ _ _ _ Hc). cbn [snd].
    by rewrite (request_send_ok _ _ _ _ w). }
  split; [by rewrite (request_connected _ _ _ _ Hc)|].
  subst rt2 q. rewrite E0. clear E0.
  assert (H1 : is_Some (sockets (with_reactions
                 (reactions rt ++ [(S (next_promise rt), KAdopt (next_promise rt))])
                 (with_wire (wire rt ++ [sent w (messageId (api rt)) method params rt])
                    (armed (new_promise Pending rt).2))) !! w)) by done.
  unfold run. cbn [foldl].
  rewrite (response_settles (messageId (api rt)) (next_timer rt) (S (next_promise rt))
             (next_promise rt) w m _ H1 Hnot Hid).
  2:{ lia. }
  2:{ cbn. apply lookup_insert_eq. }
  2:{ cbn. apply lookup_insert_eq. }
  2:{ unfold waiting. cbn [reactions with_reactions]. rewrite filter_app.
      fold (waiting (S (next_promise rt)) rt). rewrite waiting_fresh by (done || lia).
      rewrite filter_cons_True; [done|]. unfold reacts_to. by apply bool_decide_eq_true_2. }
  rewrite (adoption_settles (next_promise rt) (answer m) []).
  2:{ cbn [microtasks with_microtasks with_reactions with_wire armed with_api
           with_next_timer with_timers with_next_promise with_promises new_promise snd
           retired clearTimeout app]. by rewrite Hmi. }
  2:{ cbn. rewrite !lookup_insert_ne by lia. apply lookup_insert_eq. }
  unfold waiting.
  cbn [promises wire timers api microtasks reactions with_microtasks with_reactions
       with_promises with_wire retired clearTimeout with_timers with_api armed
       with_next_timer with_next_promise new_promise snd pendingRequests
       set_pendingRequests set_messageId ws isConnected next_timer messageId now app].
  split; [apply lookup_insert_eq|]. split; [done|]. split.
  { rewrite delete_insert_eq. by apply timers_fresh. }
  split.
  { rewrite delete_insert_eq. by apply slots_fresh. }
  split; [done|]. split; [done|].
  rewrite filter_app.
  rewrite filter_cons_False.
  2:{ unfold reacts_to. cbn. by rewrite bool_decide_eq_true_2. }
  rewrite filter_nil, app_nil_r.
  rewrite (unwoken_all (S (next_promise rt))) by (apply reactions_old; [done|lia]).
  fold (waiting (next_promise rt) rt). by rewrite waiting_fresh.
Qed.

(** The first of two calls on a channel that has no socket yet. *)
Lemma first_call_runs method params retries m1 rt :
  WF rt -> ws (api rt) = None -> isConnected (api rt) = false -> microtasks rt = [] ->
  transport rt (sends rt) = None -> transport rt (S (sends rt)) = None ->
  is_notify m1 = false -> as_int (msg_id m1) = Some (messageId (api rt)) ->
  run [WsOpen (next_socket rt); WsMessage (next_socket rt) m1; Microtask; Microtask;
       Microtask] (request method params retries rt).2
  = call_sent method params (next_promise rt) (S (next_promise rt)) (next_socket rt)
      (answer m1) (request method params retries rt).2.
Proof.
  intros Hwf Hws Hoff Hmi Htr1 Htr2 Hn1 Hi1.
  destruct (request_attempt method params retries rt Hwf Hws Hoff Hmi)
    as (Hat & _ & _ & _ & _ & Hwi & _ & _ & _ & Htra & Hapi).
  assert (Hsends : sends (request method params retries rt).2 = sends rt).
  { unfold sends. rewrite Hwi, filter_app. rewrite filter_cons_False by done.
    by rewrite filter_nil, app_nil_r. }
  assert (Hmsg : messageId (api (request method params retries rt).2) = messageId (api rt))
    by (by rewrite Hapi).
  unfold run. cbn [foldl].
  rewrite (attempt_opens _ _ _ _ _ _ _ Hat) by (by rewrite Htra, Hsends).
  rewrite (status_answered _ _ _ _ _ _ _ _ Hat Hn1) by (by rewrite Hmsg).
  rewrite status_passes by apply Hat.
  rewrite (connect_resolves _ _ _ _ _ _ _ _ Hat).
  apply (request_leaves _ _ _ _ _ _ _ _ Hat). by rewrite Htra, Hsends.
Qed.

(** Two calls in a row on a channel that has no socket yet, each
    answered before the next thing happens. *)
Lemma two_calls method params retries method' params' retries' m1 m2 m3 rt :
  WF rt -> ws (api rt) = None -> isConnected (api rt) = false -> microtasks rt = [] ->
  transport rt (sends rt) = None -> transport rt (S (sends rt)) = None ->
  transport rt (S (S (sends rt))) = None ->
  is_notify m1 = false -> as_int (msg_id m1) = Some (messageId (api rt)) ->
  is_notify m2 = false -> as_int (msg_id m2) = Some (messageId (api rt) + 1) ->
  is_notify m3 = false -> as_int (msg_id m3) = Some (messageId (api rt) + 2) ->
  let w := next_socket rt in
  let rt1 := run [WsOpen w; WsMessage w m1; Microtask; Microtask; Microtask;
                  WsMessage w m2; Microtask] (request method params retries rt).2 in
  let rt2 := run [WsMessage w m3; Microtask] (request method' params' retries' rt1).2 in
  promises rt1 !! (request method params retries rt).1 = Some (Settled (answer m2))
  /\ promises rt2 !! (request method' params' retries' rt1).1 = Some (Settled (answer m3))
  /\ wire rt2 = wire rt ++ [WNew w (wsUrl (api rt));
                            sent w (messageId (api rt)) "Shelly.GetStatus" (VObj []) rt;
                            sent w (messageId (api rt) + 1) method params rt;
                            sent w (messageId (api rt) + 2) method' params' rt]
  /\ ws (api rt2) = Some w /\ isConnected (api rt2) = true
  /\ pendingRequests (api rt2) = pendingRequests (api rt)
  /\ timers rt2 = timers rt /\ microtasks rt2 = [].
Proof.
  intros Hwf Hws Hoff Hmi Htr1 Htr2 Htr3 Hn1 Hi1 Hn2 Hi2 Hn3 Hi3 w rt1 rt2.
  assert (Hwf1 : WF rt1) by (by apply WF_run, WF_request).
  destruct (request_attempt method params retries rt Hwf Hws Hoff Hmi)
    as (Hat & Hq & Hnp & Hpr & Hrea & Hwi & Hti & Hnt & Hnow & Htra & Hapi).
  fold w in Hat, Hwi, Hapi.
  assert (Hwq : waiting (next_promise rt) (request method params retries rt).2 = []).
  { unfold waiting. rewrite Hrea, waiting_snoc by lia. by apply waiting_fresh. }
  assert (Hmsg : messageId (api (request method params retries rt).2) = messageId (api rt))
    by (by rewrite Hapi).
  assert (Hsrc : src_of (api (request method params retries rt).2) = src_of (api rt))
    by (by rewrite Hapi).
  assert (Hpend : pendingRequests (api (request method params retries rt).2)
                  = pendingRequests (api rt)) by (by rewrite Hapi).
  assert (E1 : rt1 = run [WsMessage w m2; Microtask]
                       (call_sent method params (next_promise rt) (S (next_promise rt)) w
                          (answer m1) (request method params retries rt).2)).
  { subst rt1 w.
    change [WsOpen (next_socket rt); WsMessage (next_socket rt) m1; Microtask; Microtask;
            Microtask; WsMessage (next_socket rt) m2; Microtask]
      with ([WsOpen (next_socket rt); WsMessage (next_socket rt) m1; Microtask; Microtask;
             Microtask] ++ [WsMessage (next_socket rt) m2; Microtask]).
    unfold run at 1. rewrite foldl_app.
    fold (run [WsOpen (next_socket rt); WsMessage (next_socket rt) m1; Microtask; Microtask;
               Microtask] (request method params retries rt).2).
    by rewrite first_call_runs. }
  destruct (call_answered method params retries _ _ w (answer m1) m2 _ Hat Hn2)
    as (_ & Hq1 & Hw1 & Ht1 & Hp1 & Hm1 & Hc1 & Hws1); [by rewrite Hmsg|].
  destruct (call_answered_idle method params retries _ _ w (answer m1) m2 _ Hat Hwq Hn2)
    as (Hmi1 & Hso1 & Htr1' & _); [by rewrite Hmsg|].
  change (step Microtask (step (WsMessage w m2) ?x))
    with (run [WsMessage w m2; Microtask] x) in Hq1, Hw1, Ht1, Hp1, Hm1, Hc1, Hws1.
  rewrite <- E1 in Hq1, Hw1, Ht1, Hp1, Hm1, Hc1, Hws1, Hmi1, Hso1, Htr1'.
  cbn [wire call_sent phase] in Hw1. unfold wire_status in Hw1.
  rewrite Hwi in Hw1. unfold sent in Hw1. rewrite Hmsg, Hsrc in Hw1. fold w in Hw1.
  rewrite <- !app_assoc in Hw1. cbn [app] in Hw1.
  rewrite Hmsg in Hm1. rewrite Hti in Ht1. rewrite Hpend in Hp1. rewrite Htra in Htr1'.
  assert (Hsock1 : is_Some (sockets rt1 !! w)).
  { rewrite Hso1. rewrite (at_socket _ _ _ _ _ _ _ Hat). by eexists. }
  assert (Hsends1 : sends rt1 = S (S (sends rt))).
  { unfold sends. rewrite Hw1. rewrite filter_app.
    rewrite filter_cons_False by done. rewrite !filter_cons_True by done.
    rewrite filter_nil, length_app. cbn. fold (sends rt). lia. }
  assert (Hsrc1 : src_of (api rt1) = src_of (api rt)).
  { pose proof (identity_run [WsOpen w; WsMessage w m1; Microtask; Microtask; Microtask;
                              WsMessage w m2; Microtask]
                  (request method params retries rt).2) as Hid.
    fold rt1 in Hid. rewrite identity_request in Hid. unfold identity in Hid.
    unfold src_of. by injection Hid as _ -> _. }
  clearbody rt1. clear E1.
  assert (Htrx : transport rt1 (sends rt1) = None) by (by rewrite Htr1', Hsends1).
  assert (Hidx : as_int (msg_id m3) = Some (messageId (api rt1))) by (by rewrite Hm1).
  destruct (connected_call_answered method' params' retries' w m3 rt1 Hwf1 Hc1 Hws1
              Htrx Hmi1 Hsock1 Hn3 Hidx)
    as (Hq2 & Hp2 & Hw2 & Ht2 & Hpe2 & Hws2 & Hc2 & Hmi2).
  fold rt2 in Hp2, Hw2, Ht2, Hpe2, Hws2, Hc2, Hmi2.
  rewrite Hq. split; [done|]. rewrite Hq2. split; [done|]. split.
  { rewrite Hw2, Hw1. unfold sent. rewrite Hm1, Hsrc1. rewrite <- app_assoc.
    reflexivity. }
  split; [done|]. split; [done|]. split; [by rewrite Hpe2|]. split; [by rewrite Ht2|]. done.
Qed.

(** X23: the exchange of a discovery probe.  The channel a probe makes
    for an address has no client id; the two calls [_queryDevice]
    makes on it, each answered in turn, put four things on the wire
    and nothing else: the socket is opened, then [Shelly.GetStatus]
    goes out with id 1 (sent by [connect] itself), then
    [Shelly.GetDeviceInfo] with id 2 and [Shelly.GetStatus] again with
    id 3, all on that socket and with [src] "homey_default".  The two
    calls settle as their responses say; afterwards nothing is
    pending, no timer is armed, and the socket is still open. *)
Theorem X23_probe_exchange (ip : string) (tr : nat -> option JsError)
    (m1 m2 m3 : Message) :
  tr 0%nat = None -> tr 1%nat = None -> tr 2%nat = None ->
  is_notify m1 = false -> as_int (msg_id m1) = Some 1 ->
  is_notify m2 = false -> as_int (msg_id m2) = Some 2 ->
  is_notify m3 = false -> as_int (msg_id m3) = Some 3 ->
  let rt := boot (constructor ip None) tr in
  let info := getDeviceInfo rt in
  let rt1 := run [WsOpen 0; WsMessage 0 m1; Microtask; Microtask; Microtask;
                  WsMessage 0 m2; Microtask] info.2 in
  let status := getStatus rt1 in
  let rt2 := run [WsMessage 0 m3; Microtask] status.2 in
  let message n method :=
    WSend 0 (mkRequest "2.0" n "homey_default" method (VObj [])) None in
  promises rt1 !! info.1 = Some (Settled (answer m2))
  /\ promises rt2 !! status.1 = Some (Settled (answer m3))
  /\ wire rt2 = [WNew 0 ("ws://" ++ ip ++ "/rpc")%string; message 1 "Shelly.GetStatus";
                 message 2 "Shelly.GetDeviceInfo"; message 3 "Shelly.GetStatus"]
  /\ ws (api rt2) = Some 0%nat /\ isConnected (api rt2) = true
  /\ pendingRequests (api rt2) = ∅ /\ timers rt2 = ∅ /\ microtasks rt2 = [].
Proof.
  intros Ht0 Ht1 Ht2 Hn1 Hi1 Hn2 Hi2 Hn3 Hi3 rt info rt1 status rt2 message.
  exact (two_calls "Shelly.GetDeviceInfo" (VObj []) 1 "Shelly.GetStatus" (VObj []) 1
           m1 m2 m3 rt (WF_boot ip None tr) eq_refl eq_refl eq_refl Ht0 Ht1 Ht2
           Hn1 Hi1 Hn2 Hi2 Hn3 Hi3).
Qed.

Lemma X23_probe_exchange_witness :
  let rt := boot (constructor "10.0.0.9" None) (fun _ => None) in
  let rt1 := run [WsOpen 0; WsMessage 0 (reply 1); Microtask; Microtask; Microtask;
                  WsMessage 0 (reply 2); Microtask] (getDeviceInfo rt).2 in
  let rt2 := run [WsMessage 0 (reply 3); Microtask] (getStatus rt1).2 in
  sends rt2 = 3%nat /\ ws (api rt2) = Some 0%nat.
Proof.
  intros rt rt1 rt2.
  destruct (X23_probe_exchange "10.0.0.9" (fun _ => None) (reply 1) (reply 2) (reply 3))
    as (_ & _ & _ & H4 & _); try (vm_compute; reflexivity).
  vm_compute in H4. vm_compute. split; [reflexivity|exact H4].
Defined.

End ProbeExchange.

(** ** The list of the scan has no duplicates *)

Section ScanBlocks.
Import Js DeviceDiscovery.

Implicit Types (e : DeviceEntry) (st : Scan) (l b : list string) (ip : string).

Variable env : ScanEnv.

























End ScanBlocks.


